(** * The per-node network resource coordinator of the terway daemon

    A shallow embedding of [daemon/daemon.go]: the request coordinator
    ([AllocIP], [ReleaseIP], [GetIPInfo]), the mode policy, the CRD-driven
    assembly of [NetConf]s, the default-route policy, the garbage-collection
    tick and the three-way resource mapping.

    The collaborators the coordinator only calls (Kubernetes cache, resource
    managers, on-disk store, kernel route helpers, request context) are
    gathered in one record of oracles, [Env]; every call that changes
    something outside the coordinator is appended to a trace of [Event]s. *)

From Stdlib Require Import Ascii String List Bool ZArith Lia Permutation Sorted.
From Stdlib Require OrderedTypeEx.
From stdpp Require Import base strings gmap list fin_maps.

Local Open Scope Z_scope.

(** ** Errors *)

(** Go [error] values, as far as the coordinator tells them apart: three
    sentinels it compares against, plain messages, and the two ways it
    embeds a cause. [ErrFmt] is [fmt.Errorf] with a [%+v] or [%v] verb (the
    cause is only printed into the message), [ErrWrap] is [fmt.Errorf] with
    [%w] or [errors.Wrapf] (the cause can be unwrapped). *)
Inductive error : Type :=
| ErrK8sNotFound
| ErrStorageNotFound
| ErrInvalidState
| ErrCtx (msg : string)
| ErrMsg (msg : string)
| ErrFmt (msg : string) (cause : error)
| ErrWrap (msg : string) (cause : error).

(** [k8sErr.IsNotFound] of k8s.io/apimachinery: the error, or an error it
    wraps, is an API status whose reason is NotFound. *)
Fixpoint IsNotFound (e : error) : bool :=
  match e with
  | ErrK8sNotFound => true
  | ErrWrap _ cause => IsNotFound cause
  | _ => false
  end.

(** Go's [err == sentinel] on the sentinels of [storage] and [pool]. *)
Definition isStorageNotFound (e : error) : bool :=
  match e with ErrStorageNotFound => true | _ => false end.

Definition isInvalidState (e : error) : bool :=
  match e with ErrInvalidState => true | _ => false end.

(** The innermost cause an error message was built around. *)
Fixpoint rootCause (e : error) : error :=
  match e with
  | ErrFmt _ cause => rootCause cause
  | ErrWrap _ cause => rootCause cause
  | _ => e
  end.

(** What a Go function with an [error] result does: it returns a value, it
    returns an error, or it panics (a nil manager or a nil record field is
    dereferenced). *)
Inductive result (A : Type) : Type :=
| Ok (a : A)
| Err (e : error)
| Panic.
Arguments Ok {A} a.
Arguments Err {A} e.
Arguments Panic {A}.

Definition isOk {A} (r : result A) : bool :=
  match r with Ok _ => true | _ => false end.

Definition isErr {A} (r : result A) : bool :=
  match r with Err _ => true | _ => false end.

(** ** Constants *)

Definition daemonModeVPC : string := "VPC".
Definition daemonModeENIMultiIP : string := "ENIMultiIP".
Definition daemonModeENIOnly : string := "ENIOnly".
Definition IfEth0 : string := "eth0".

(** Modelled from the spec: the pod network types are constants of the
    daemon package declared outside the files at hand; the data model names
    them [ENIMultiIP], [VPCENI] and [VPCIP]. *)
Definition podNetworkTypeVPCIP : string := "VPCIP".
Definition podNetworkTypeVPCENI : string := "VPCENI".
Definition podNetworkTypeENIMultiIP : string := "ENIMultiIP".

(** Modelled from the spec: the resource types are constants of the types
    package; the data model names them [ENI], [ENIIP], [Veth] and [EIP]. *)
Definition ResourceTypeVeth : string := "veth".
Definition ResourceTypeENI : string := "eni".
Definition ResourceTypeENIIP : string := "eniIp".
Definition ResourceTypeEIP : string := "eip".

(** Modelled from the spec: the two IPAM types of a configuration,
    [crd] and [default]. *)
Inductive IPAMType : Type := IPAMTypeCRD | IPAMTypeDefault.

Definition isIPAMTypeCRD (t : IPAMType) : bool :=
  match t with IPAMTypeCRD => true | IPAMTypeDefault => false end.

(** ** Data model *)

(** An address pair; [types.IPSet], [types.IPNetSet] and their [ToRPC]
    images are all carried as the two printed addresses. *)
Record IPSet : Type := mkIPSet { IPv4 : string; IPv6 : string }.

Record PodInfo : Type := mkPodInfo {
  Namespace : string;
  Name : string;
  PodNetworkType : string;
  PodENI : bool;
  PodEip : bool;                (* EipInfo.PodEip *)
  TcIngress : Z;
  TcEgress : Z;
  NetworkPriority : string;
  IPStickTime : Z;              (* a time.Duration *)
  PodIPs : IPSet;
  SandboxExited : bool
}.

Record ResourceItem : Type := mkResourceItem {
  ResType : string;             (* the Go field [Type] *)
  ResID : string;               (* the Go field [ID] *)
  ExtraConfig : list (string * string)
}.

Record PodResources : Type := mkPodResources {
  Resources : list ResourceItem;
  ResPodInfo : option PodInfo;  (* the Go field [PodInfo], a pointer *)
  NetNs : option string;
  ContainerID : option string
}.

(** [types.PodResources{}] *)
Definition emptyPodResources : PodResources :=
  mkPodResources [] None None None.

(** Modelled from the spec: the pod key is "<namespace>/<name>"
    ([podInfoKey] is declared outside the files at hand). *)
Definition podInfoKey (namespace name : string) : string :=
  (namespace ++ "/" ++ name)%string.

(** Modelled from the spec: [GetResourceItemByType] of the types package
    selects the items of one type, in order. *)
Definition GetResourceItemByType (p : PodResources) (resType : string)
  : list ResourceItem :=
  filter (fun r => String.eqb (ResType r) resType = true) (Resources p).

(** The resources a manager hands out. [ToResItems] belongs to the types
    package; its result is carried with the resource. *)
Record ENI : Type := mkENI {
  eniID : string;
  eniMAC : string;
  eniPrimaryIP : IPSet;
  eniVSwitchCIDR : option IPSet;
  eniGatewayIP : option IPSet;
  eniTrunk : bool;
  eniToResItems : list ResourceItem
}.

Record ENIIP : Type := mkENIIP {
  eniipENI : ENI;
  eniipIPSet : IPSet;
  eniipToResItems : list ResourceItem
}.

Record Veth : Type := mkVeth { vethToResItems : list ResourceItem }.

Record EIP : Type := mkEIP { eipToResItems : list ResourceItem }.

(** ** The rpc messages *)

Record BasicInfo : Type := mkBasicInfo {
  PodIP : option IPSet;
  PodCIDR : option IPSet;
  GatewayIP : option IPSet;
  ServiceCIDR : option IPSet
}.

Record ENIInfo : Type := mkENIInfo {
  MAC : string;
  Trunk : bool;
  Vid : Z;                      (* a uint32 *)
  ENIGatewayIP : option IPSet
}.

Record Pod : Type := mkPod {
  Ingress : Z;
  Egress : Z;
  PodNetworkPriority : string
}.

Record NetConf : Type := mkNetConf {
  NCBasicInfo : option BasicInfo;
  NCENIInfo : option ENIInfo;
  NCPod : option Pod;
  IfName : string;
  ExtraRoutes : list string;    (* the [Dst] of each route *)
  DefaultRoute : bool
}.

Inductive IPType : Type :=
| TypeVPCIP | TypeVPCENI | TypeENIMultiIP.

Inductive RpcError : Type :=
| ErrNone | ErrCRDNotFound.

Record AllocIPReply : Type := mkAllocIPReply {
  aSuccess : bool;
  aIPType : IPType;
  aIPv4 : bool;
  aIPv6 : bool;
  aNetConfs : list NetConf;
  aEnableTrunking : bool
}.

Record ReleaseIPReply : Type := mkReleaseIPReply {
  rSuccess : bool;
  rIPv4 : bool;
  rIPv6 : bool
}.

Record GetInfoReply : Type := mkGetInfoReply {
  gIPType : IPType;
  gIPv4 : bool;
  gIPv6 : bool;
  gError : RpcError;
  gNetConfs : list NetConf;
  gEnableTrunking : bool
}.

(** ** The default-route policy *)

Definition defaultIf (name : string) : bool :=
  if String.eqb name "" || String.eqb name IfEth0 then true else false.

Definition setDefaultRoute (c : NetConf) : NetConf :=
  mkNetConf (NCBasicInfo c) (NCENIInfo c) (NCPod c) (IfName c)
            (ExtraRoutes c) true.

(** The first loop of [defaultForNetConf]: it leaves at the second entry
    with a default route, and otherwise ends with the two flags. *)
Fixpoint scanNetConf (netConf : list NetConf)
         (defaultRouteSet defaultIfSet : bool) : error + bool * bool :=
  match netConf with
  | [] => inr (defaultRouteSet, defaultIfSet)
  | c :: rest =>
      if DefaultRoute c && defaultRouteSet
      then inl (ErrMsg "default route is dumplicated")
      else scanNetConf rest (defaultRouteSet || DefaultRoute c)
                       (if defaultIf (IfName c) then true else defaultIfSet)
  end.

(** The second loop: the first entry named "" or "eth0" gets the default
    route, and the loop breaks. *)
Fixpoint markFirstDefaultIf (netConf : list NetConf) : list NetConf :=
  match netConf with
  | [] => []
  | c :: rest =>
      if String.eqb (IfName c) "" || String.eqb (IfName c) IfEth0
      then setDefaultRoute c :: rest
      else c :: markFirstDefaultIf rest
  end.

(** [defaultForNetConf] updates the entries in place; the embedding returns
    the error (if any) with the list as the caller sees it afterwards.
    Every caller builds the list from freshly allocated entries, so no two
    positions share an entry. *)
Definition defaultForNetConf (netConf : list NetConf)
  : option error * list NetConf :=
  match netConf with
  | [] => (None, netConf)
  | _ :: _ =>
      match scanNetConf netConf false false with
      | inl e => (Some e, netConf)
      | inr (defaultRouteSet, defaultIfSet) =>
          if negb defaultIfSet
          then (Some (ErrMsg "default interface is not set"), netConf)
          else if negb defaultRouteSet
               then (None, markFirstDefaultIf netConf)
               else (None, netConf)
      end
  end.

(** ** The mode policy *)

Definition verifyPodNetworkType (daemonMode podNetworkMode : string) : bool :=
  (String.eqb daemonMode daemonModeVPC &&
   (String.eqb podNetworkMode podNetworkTypeVPCENI ||
    String.eqb podNetworkMode podNetworkTypeVPCIP)) ||
  (String.eqb daemonMode daemonModeENIMultiIP &&
   String.eqb podNetworkMode podNetworkTypeENIMultiIP) ||
  (String.eqb daemonMode daemonModeENIOnly &&
   String.eqb podNetworkMode podNetworkTypeVPCENI).

(** ** The PodENI custom resource ([podENITypes.PodENI]) *)

Record Allocation : Type := mkAllocation {
  alIPv4 : string;
  alIPv6 : string;
  alIPv4CIDR : string;
  alIPv6CIDR : string;
  alENIID : string;             (* ENI.ID *)
  alENIMAC : string;            (* ENI.MAC *)
  alInterface : string;
  alExtraRoutes : list string;
  alDefaultRoute : bool
}.

Record PodENIObject : Type := mkPodENI {
  peAllocations : list Allocation;      (* Spec.Allocations *)
  peTrunkENIID : string;                (* Status.TrunkENIID *)
  peENIInfos : gmap string Z            (* Status.ENIInfos, the Vid of each *)
}.

(** ** The coordinator and its collaborators *)

(** The four resource managers. *)
Inductive Mgr : Type := MgrVeth | MgrENI | MgrENIIP | MgrEIP.

Global Instance Mgr_eq_dec : EqDecision Mgr.
Proof. solve_decision. Defined.

(** Calls that act outside the coordinator, in the order they are made. *)
Inductive Event : Type :=
| EvAllocate (m : Mgr) (pod : PodInfo) (priorID : string)
| EvRelease (m : Mgr) (pod : PodInfo) (item : ResourceItem)
| EvGarbageCollection (m : Mgr) (inUse expire : gmap string ResourceItem)
| EvPatchPodIPInfo (pod : PodInfo) (ips : string)
| EvDeleteIPRulesByIP (addr : string)
| EvDeleteRouteByIP (addr : string).

(** The answers of the collaborators during one call or one tick. *)
Record Env : Type := mkEnv {
  (* Kubernetes *)
  GetPod : string -> string -> error + PodInfo;
  GetLocalPods : error + list PodInfo;
  WaitPodENIInfo : PodInfo -> error + PodENIObject;
  GetPodENIInfo : PodInfo -> error + PodENIObject;
  GetServiceCIDR : option IPSet;
  GetNodeCidr : option IPSet;
  (* resource managers *)
  vethAllocate : PodInfo -> string -> error + Veth;
  eniAllocate : PodInfo -> string -> error + ENI;
  eniIPAllocate : PodInfo -> string -> error + ENIIP;
  eipAllocate : PodInfo -> string -> error + EIP;
  mgrRelease : Mgr -> PodInfo -> ResourceItem -> option error;
  eniStat : string -> error + ENI;
  eniIPStat : string -> error + ENIIP;
  mgrGarbageCollection :
    Mgr -> gmap string ResourceItem -> gmap string ResourceItem -> option error;
  trunkENI : Mgr -> option ENI;
  (* failures of the store *)
  dbGetErr : string -> option error;
  dbPutErr : string -> PodResources -> option error;
  dbDeleteErr : string -> option error;
  dbListErr : option error;
  (* the request context *)
  ctxErr : option error;
  (* helpers of other packages *)
  DeriveGatewayIP : string -> string;
  ParseCIDR : string -> option string
}.

(** The fields of [networkService] the coordinator reads. A manager field
    is [true] when the manager is set and [false] when it is nil. *)
Record networkService : Type := mkNetworkService {
  daemonMode : string;
  vethResMgr : bool;
  eniResMgr : bool;
  eniIPResMgr : bool;
  eipResMgr : bool;
  mgrForResource : gmap string (option Mgr);
  enableTrunk : bool;
  ipFamilyIPv4 : bool;
  ipFamilyIPv6 : bool;
  ipamType : IPAMType
}.

(** The managers [newNetworkService] creates for a daemon mode;
    [eipPool] stands for [config.EnableEIPPool == "true"]. *)
Definition newNetworkService (mode : string) (eipPool trunking : bool)
           (v4 v6 : bool) (ipam : IPAMType) : option networkService :=
  if String.eqb mode daemonModeVPC then
    Some (mkNetworkService mode true true false false
            (<[ResourceTypeENI := Some MgrENI]>
               (<[ResourceTypeVeth := Some MgrVeth]> ∅))
            trunking v4 v6 ipam)
  else if String.eqb mode daemonModeENIMultiIP then
    Some (mkNetworkService mode false false true eipPool
            (<[ResourceTypeENIIP := Some MgrENIIP]>
               (<[ResourceTypeEIP := if eipPool then Some MgrEIP else None]> ∅))
            trunking v4 v6 ipam)
  else if String.eqb mode daemonModeENIOnly then
    let eip := eipPool && negb trunking in
    Some (mkNetworkService mode false true false eip
            (<[ResourceTypeENI := Some MgrENI]>
               (<[ResourceTypeEIP := if eip then Some MgrEIP else None]> ∅))
            trunking v4 v6 ipam)
  else None.

(** [getResourceManagerForRes]: a missing key and a nil manager both read
    as nil. *)
Definition getResourceManagerForRes (n : networkService) (resType : string)
  : option Mgr :=
  match mgrForResource n !! resType with
  | Some mgr => mgr
  | None => None
  end.

(** What the coordinator changes: the store, the pending-pod set, and the
    calls made so far. *)
Record World : Type := mkWorld {
  store : gmap string PodResources;
  pendingPods : gset string;
  trace : list Event
}.

Definition logEvent (ev : Event) (w : World) : World :=
  mkWorld (store w) (pendingPods w) (trace w ++ [ev]).

Definition setStore (s : gmap string PodResources) (w : World) : World :=
  mkWorld s (pendingPods w) (trace w).

Definition addPending (key : string) (w : World) : World :=
  mkWorld (store w) ({[key]} ∪ pendingPods w) (trace w).

Definition delPending (key : string) (w : World) : World :=
  mkWorld (store w) (pendingPods w ∖ {[key]}) (trace w).

(** *** The store: [resourceDB]. A failing operation leaves it as it is. *)

Definition dbGet (env : Env) (w : World) (key : string) : error + PodResources :=
  match dbGetErr env key with
  | Some e => inl e
  | None =>
      match store w !! key with
      | Some obj => inr obj
      | None => inl ErrStorageNotFound
      end
  end.

Definition dbPut (env : Env) (w : World) (key : string) (v : PodResources)
  : option error * World :=
  match dbPutErr env key v with
  | Some e => (Some e, w)
  | None => (None, setStore (<[key := v]> (store w)) w)
  end.

Definition dbDelete (env : Env) (w : World) (key : string)
  : option error * World :=
  match dbDeleteErr env key with
  | Some e => (Some e, w)
  | None => (None, setStore (delete key (store w)) w)
  end.

Definition dbList (env : Env) (w : World) : error + list PodResources :=
  match dbListErr env with
  | Some e => inl e
  | None => inr (map snd (map_to_list (store w)))
  end.

Definition getPodResource (env : Env) (w : World) (info : PodInfo)
  : error + PodResources :=
  match dbGet env w (podInfoKey (Namespace info) (Name info)) with
  | inr obj => inr obj
  | inl e => if isStorageNotFound e then inr emptyPodResources else inl e
  end.

Definition deletePodResource (env : Env) (w : World) (info : PodInfo)
  : option error * World :=
  dbDelete env w (podInfoKey (Namespace info) (Name info)).

(** *** CRD-driven assembly *)

Definition requestCRD (env : Env) (n : networkService) (podInfo : PodInfo)
           (waitReady : bool) : error + option PodENIObject :=
  if isIPAMTypeCRD (ipamType n) || (PodENI podInfo && enableTrunk n) then
    match (if waitReady then WaitPodENIInfo env podInfo
           else GetPodENIInfo env podInfo) with
    | inl e => inl e
    | inr podENI =>
        if (length (peAllocations podENI) <=? 0)%nat
        then inl (ErrMsg "podENI has no allocation info")
        else inr (Some podENI)
    end
  else inr None.

(** The address part of one allocation: pod IP, CIDR and gateway, or the
    "empty cidr or gateway" error. *)
Definition allocAddrs (env : Env) (alloc : Allocation)
  : error + IPSet * IPSet * IPSet :=
  let v4 := if String.eqb (alIPv4 alloc) "" then None
            else Some (alIPv4 alloc, alIPv4CIDR alloc,
                       DeriveGatewayIP env (alIPv4CIDR alloc)) in
  let v6 := if String.eqb (alIPv6 alloc) "" then None
            else Some (alIPv6 alloc, alIPv6CIDR alloc,
                       DeriveGatewayIP env (alIPv6CIDR alloc)) in
  let bad (x : option (string * string * string)) :=
    match x with
    | Some (_, cidr, gw) => String.eqb cidr "" || String.eqb gw ""
    | None => false
    end in
  let part (x : option (string * string * string)) :=
    match x with Some t => t | None => ("", "", "") end in
  if bad v4 then inl (ErrMsg "empty cidr or gateway")
  else if bad v6 then inl (ErrMsg "empty cidr or gateway")
  else
    let '(ip4, cidr4, gw4) := part v4 in
    let '(ip6, cidr6, gw6) := part v6 in
    inr (mkIPSet ip4 ip6, mkIPSet cidr4 cidr6, mkIPSet gw4 gw6).

Definition uint32 (z : Z) : Z := z mod 2 ^ 32.

Definition podOf (podInfo : PodInfo) : Pod :=
  mkPod (TcIngress podInfo) (TcEgress podInfo) (NetworkPriority podInfo).

(** The loop of [multiIPFromCRD] over the allocations. *)
Fixpoint multiIPConfs (env : Env) (podInfo : PodInfo) (podEni : PodENIObject)
         (nodeTrunkENI : ENI) (allocs : list Allocation)
  : error + list NetConf :=
  match allocs with
  | [] => inr []
  | alloc :: rest =>
      match allocAddrs env alloc with
      | inl e => inl e
      | inr (podIP, cidr, gw) =>
          match peENIInfos podEni !! alENIID alloc with
          | None => inl (ErrMsg "error get podENI status")
          | Some vid =>
              let conf :=
                mkNetConf
                  (Some (mkBasicInfo (Some podIP) (Some cidr) (Some gw)
                                     (GetServiceCIDR env)))
                  (Some (mkENIInfo (eniMAC nodeTrunkENI) true (uint32 vid)
                                   (eniGatewayIP nodeTrunkENI)))
                  (Some (podOf podInfo))
                  (alInterface alloc) (alExtraRoutes alloc)
                  (alDefaultRoute alloc) in
              match multiIPConfs env podInfo podEni nodeTrunkENI rest with
              | inl e => inl e
              | inr confs => inr (conf :: confs)
              end
          end
      end
  end.

Definition multiIPFromCRD (env : Env) (n : networkService) (podInfo : PodInfo)
           (waitReady : bool) : result (list NetConf) :=
  match requestCRD env n podInfo waitReady with
  | inl e => Err (ErrWrap "error wait pod eni info" e)
  | inr None => Ok []
  | inr (Some podEni) =>
      if negb (eniIPResMgr n) then Panic
      else
        match trunkENI env MgrENIIP with
        | None => Err (ErrMsg "pod status eni parent not match instance trunk eni")
        | Some nodeTrunkENI =>
            if negb (String.eqb (eniID nodeTrunkENI) (peTrunkENIID podEni))
            then Err (ErrMsg "pod status eni parent not match instance trunk eni")
            else
              match multiIPConfs env podInfo podEni nodeTrunkENI
                                 (peAllocations podEni) with
              | inl e => Err e
              | inr confs => Ok confs
              end
        end
  end.

(** The loop of [exclusiveENIFromCRD]; the trunk ENI is given exactly when
    trunking is enabled. *)
Fixpoint exclusiveENIConfs (env : Env) (podInfo : PodInfo) (podEni : PodENIObject)
         (nodeTrunkENI : option ENI) (allocs : list Allocation)
  : error + list NetConf :=
  match allocs with
  | [] => inr []
  | alloc :: rest =>
      match allocAddrs env alloc with
      | inl e => inl e
      | inr (podIP, cidr, gw) =>
          let eniInfo :=
            match nodeTrunkENI with
            | None => inr (mkENIInfo (alENIMAC alloc) false 0 None)
            | Some trunk =>
                match peENIInfos podEni !! alENIID alloc with
                | None => inl (ErrMsg "error get podENI status")
                | Some vid =>
                    inr (mkENIInfo (eniMAC trunk) true (uint32 vid)
                                   (eniGatewayIP trunk))
                end
            end in
          match eniInfo with
          | inl e => inl e
          | inr info =>
              let conf :=
                mkNetConf
                  (Some (mkBasicInfo (Some podIP) (Some cidr) (Some gw)
                                     (GetServiceCIDR env)))
                  (Some info) (Some (podOf podInfo))
                  (alInterface alloc) (alExtraRoutes alloc)
                  (alDefaultRoute alloc) in
              match exclusiveENIConfs env podInfo podEni nodeTrunkENI rest with
              | inl e => inl e
              | inr confs => inr (conf :: confs)
              end
          end
      end
  end.

Definition exclusiveENIFromCRD (env : Env) (n : networkService)
           (podInfo : PodInfo) (waitReady : bool) : result (list NetConf) :=
  match requestCRD env n podInfo waitReady with
  | inl e => Err (ErrWrap "error wait pod eni info" e)
  | inr podEni =>
      (* [podEni] is nil when the pod is not under CRD management; it is
         dereferenced where the trunk ENI is compared and where the
         allocations are read *)
      let trunk : result (option ENI) :=
        if enableTrunk n then
          if negb (eniResMgr n) then Panic
          else
            match trunkENI env MgrENI with
            | None =>
                Err (ErrMsg "pod status eni parent not match instance trunk eni")
            | Some t =>
                match podEni with
                | None => Panic
                | Some podEni' =>
                    if negb (String.eqb (eniID t) (peTrunkENIID podEni'))
                    then Err (ErrMsg
                                "pod status eni parent not match instance trunk eni")
                    else Ok (Some t)
                end
            end
        else Ok None in
      match trunk, podEni with
      | Panic, _ => Panic
      | Err e, _ => Err e
      | Ok _, None => Panic
      | Ok nodeTrunkENI, Some podEni' =>
          match exclusiveENIConfs env podInfo podEni' nodeTrunkENI
                                  (peAllocations podEni') with
          | inl e => Err e
          | inr confs =>
              match defaultForNetConf confs with
              | (Some e, _) => Err e
              | (None, confs') => Ok confs'
              end
          end
      end
  end.

(** ** The request coordinator *)

Record AllocIPRequest : Type := mkAllocIPRequest {
  aK8SPodName : string;
  aK8SPodNamespace : string;
  aK8SPodInfraContainerId : string;
  aNetns : string;
  aIfName : string
}.

Record ReleaseIPRequest : Type := mkReleaseIPRequest {
  rK8SPodName : string;
  rK8SPodNamespace : string;
  rK8SPodInfraContainerId : string
}.

Record GetInfoRequest : Type := mkGetInfoRequest {
  gK8SPodName : string;
  gK8SPodNamespace : string;
  gK8SPodInfraContainerId : string
}.

(** The id of the resource of one type a pod held before, as the four
    [allocate...] helpers compute it: empty unless the old record has a pod
    and exactly one item of the type. *)
Definition priorID (old : PodResources) (resType : string) : string :=
  match ResPodInfo old with
  | None => ""
  | Some _ =>
      match GetResourceItemByType old resType with
      | [item] => ResID item
      | _ => ""
      end
  end.

Definition sumResult {A} (x : error + A) : result A :=
  match x with inl e => Err e | inr a => Ok a end.

Definition allocateVeth (env : Env) (n : networkService) (pod : PodInfo)
           (old : PodResources) (w : World) : result Veth * World :=
  let oldVethID := priorID old ResourceTypeVeth in
  if negb (vethResMgr n) then (Panic, w)
  else (sumResult (vethAllocate env pod oldVethID),
        logEvent (EvAllocate MgrVeth pod oldVethID) w).

Definition allocateENI (env : Env) (n : networkService) (pod : PodInfo)
           (old : PodResources) (w : World) : result ENI * World :=
  let oldENIID := priorID old ResourceTypeENI in
  if negb (eniResMgr n) then (Panic, w)
  else (sumResult (eniAllocate env pod oldENIID),
        logEvent (EvAllocate MgrENI pod oldENIID) w).

Definition allocateENIMultiIP (env : Env) (n : networkService) (pod : PodInfo)
           (old : PodResources) (w : World) : result ENIIP * World :=
  let oldENIIPID := priorID old ResourceTypeENIIP in
  if negb (eniIPResMgr n) then (Panic, w)
  else (sumResult (eniIPAllocate env pod oldENIIPID),
        logEvent (EvAllocate MgrENIIP pod oldENIIPID) w).

Definition allocateEIP (env : Env) (n : networkService) (pod : PodInfo)
           (old : PodResources) (w : World) : result EIP * World :=
  let oldEIPID := priorID old ResourceTypeEIP in
  if negb (eipResMgr n) then (Panic, w)
  else (sumResult (eipAllocate env pod oldEIPID),
        logEvent (EvAllocate MgrEIP pod oldEIPID) w).

Definition setPodIPs (pod : PodInfo) (ips : IPSet) : PodInfo :=
  mkPodInfo (Namespace pod) (Name pod) (PodNetworkType pod) (PodENI pod)
            (PodEip pod) (TcIngress pod) (TcEgress pod) (NetworkPriority pod)
            (IPStickTime pod) ips (SandboxExited pod).

(** How the [switch] of [AllocIP] is left: by a [return] statement, with
    the returned values and the variable [err] at that moment, or by
    falling through to the code after it. Both carry
    [networkContext.resources], the pod as updated, and the world. *)
Inductive allocBranch : Type :=
| Returned (ret : result AllocIPReply) (err : option error)
           (resources : list ResourceItem) (pod : PodInfo) (w : World)
| Continue (ipType : IPType) (netConf : list NetConf)
           (resources : list ResourceItem) (pod : PodInfo) (w : World).

(** How a step of the allocation ends: with a panic, with a [return] of
    an error (the value returned, and the value left in [err]), or by going
    on. *)
Inductive allocStep : Type :=
| StepPanic
| StepFail (ret err : error)
| StepDone.

(** The store record of the pod is written: [newRes] with the current
    network namespace and sandbox container id. *)
Definition putRecord (env : Env) (r : AllocIPRequest) (podinfo : PodInfo)
           (resources : list ResourceItem) (w : World)
  : allocStep * list ResourceItem * PodInfo * World :=
  let newRes := mkPodResources resources (Some podinfo) (Some (aNetns r))
                               (Some (aK8SPodInfraContainerId r)) in
  match dbPut env w (podInfoKey (Namespace podinfo) (Name podinfo)) newRes with
  | (Some e, w1) =>
      (StepFail (ErrWrap "error put resource into store" e) e,
       resources, podinfo, w1)
  | (None, w1) => (StepDone, resources, podinfo, w1)
  end.

(** The part the [ENIMultiIP] and [VPCENI] cases share after their own
    resource is allocated: the optional EIP, then the store record.
    [items] is [ToResItems] of the resource and [ips] the addresses the EIP
    is bound to. [newRes.Resources] and [networkContext.resources] hold the
    same items throughout, so one list stands for both. *)
Definition eipAndPut (env : Env) (n : networkService) (r : AllocIPRequest)
           (podinfo : PodInfo) (oldRes : PodResources)
           (items : list ResourceItem) (ips : IPSet) (w : World)
  : allocStep * list ResourceItem * PodInfo * World :=
  if eipResMgr n && PodEip podinfo then
    let podinfo' := setPodIPs podinfo ips in
    match allocateEIP env n podinfo' oldRes w with
    | (Panic, w1) => (StepPanic, items, podinfo', w1)
    | (Err e, w1) =>
        (StepFail (ErrFmt "error get allocated eip" e) e, items, podinfo', w1)
    | (Ok eipRes, w1) =>
        putRecord env r podinfo' (items ++ eipToResItems eipRes) w1
    end
  else putRecord env r podinfo items w.

Definition allocENIMultiIP (env : Env) (n : networkService)
           (r : AllocIPRequest) (podinfo : PodInfo) (oldRes : PodResources)
           (w : World) : allocBranch :=
  match multiIPFromCRD env n podinfo true with
  | Panic => Returned Panic None [] podinfo w
  | Err e => Returned (Err e) (Some e) [] podinfo w
  | Ok netConf =>
      let defaultIfSet := existsb (fun cfg => defaultIf (IfName cfg)) netConf in
      let afterAlloc :=
        if negb defaultIfSet then
          match allocateENIMultiIP env n podinfo oldRes w with
          | (Panic, w1) => Returned Panic None [] podinfo w1
          | (Err e, w1) =>
              Returned (Err (ErrFmt "error get allocated eniip ip" e))
                       (Some e) [] podinfo w1
          | (Ok eniIP, w1) =>
              match eipAndPut env n r podinfo oldRes
                              (eniipToResItems eniIP) (eniipIPSet eniIP) w1 with
              | (StepPanic, resources, pod', w2) =>
                  Returned Panic None resources pod' w2
              | (StepFail ret e, resources, pod', w2) =>
                  Returned (Err ret) (Some e) resources pod' w2
              | (StepDone, resources, pod', w2) =>
                  Continue TypeENIMultiIP
                    (netConf ++
                     [mkNetConf
                        (Some (mkBasicInfo
                                 (Some (eniipIPSet eniIP))
                                 (eniVSwitchCIDR (eniipENI eniIP))
                                 (eniGatewayIP (eniipENI eniIP))
                                 (GetServiceCIDR env)))
                        (Some (mkENIInfo (eniMAC (eniipENI eniIP)) false 0 None))
                        (Some (podOf pod')) "" [] true])
                    resources pod' w2
              end
          end
        else Continue TypeENIMultiIP netConf [] podinfo w in
      match afterAlloc with
      | Returned ret err resources pod' w' => Returned ret err resources pod' w'
      | Continue ipType netConf' resources pod' w' =>
          match defaultForNetConf netConf' with
          | (Some e, _) => Returned (Err e) (Some e) resources pod' w'
          | (None, netConf'') => Continue ipType netConf'' resources pod' w'
          end
      end
  end.

Definition allocVPCENI (env : Env) (n : networkService)
           (r : AllocIPRequest) (podinfo : PodInfo) (oldRes : PodResources)
           (w : World) : allocBranch :=
  if isIPAMTypeCRD (ipamType n) then
    match exclusiveENIFromCRD env n podinfo true with
    | Panic => Returned Panic None [] podinfo w
    | Err e => Returned (Err e) (Some e) [] podinfo w
    | Ok netConfs => Continue TypeVPCENI netConfs [] podinfo w
    end
  else
    match allocateENI env n podinfo oldRes w with
    | (Panic, w1) => Returned Panic None [] podinfo w1
    | (Err e, w1) =>
        Returned (Err (ErrFmt "error get allocated vpc ENI ip" e))
                 (Some e) [] podinfo w1
    | (Ok eni, w1) =>
        match eipAndPut env n r podinfo oldRes
                        (eniToResItems eni) (eniPrimaryIP eni) w1 with
        | (StepPanic, resources, pod', w2) =>
            Returned Panic None resources pod' w2
        | (StepFail ret e, resources, pod', w2) =>
            Returned (Err ret) (Some e) resources pod' w2
        | (StepDone, resources, pod', w2) =>
            Continue TypeVPCENI
              [mkNetConf
                 (Some (mkBasicInfo (Some (eniPrimaryIP eni))
                                    (eniVSwitchCIDR eni) (eniGatewayIP eni)
                                    (GetServiceCIDR env)))
                 (Some (mkENIInfo (eniMAC eni) false 0 None))
                 (Some (podOf pod')) "" [] true]
              resources pod' w2
        end
    end.

Definition allocVPCIP (env : Env) (n : networkService)
           (r : AllocIPRequest) (podinfo : PodInfo) (oldRes : PodResources)
           (w : World) : allocBranch :=
  match allocateVeth env n podinfo oldRes w with
  | (Panic, w1) => Returned Panic None [] podinfo w1
  | (Err e, w1) =>
      Returned (Err (ErrFmt "error get allocated vpc ip" e)) (Some e)
               [] podinfo w1
  | (Ok vpcVeth, w1) =>
      let newRes := mkPodResources (vethToResItems vpcVeth) (Some podinfo)
                                   (Some (aNetns r))
                                   (Some (aK8SPodInfraContainerId r)) in
      let resources := vethToResItems vpcVeth in
      match dbPut env w1 (podInfoKey (Namespace podinfo) (Name podinfo))
                  newRes with
      | (Some e, w2) =>
          Returned (Err (ErrWrap "error put resource into store" e)) (Some e)
                   resources podinfo w2
      | (None, w2) =>
          Continue TypeVPCIP
            [mkNetConf
               (Some (mkBasicInfo None (GetNodeCidr env) None
                                  (GetServiceCIDR env)))
               None (Some (podOf podinfo)) "" [] true]
            resources podinfo w2
      end
  end.

(** The [switch] on the pod network type. *)
Definition allocSwitch (env : Env) (n : networkService)
           (r : AllocIPRequest) (podinfo : PodInfo) (oldRes : PodResources)
           (w : World) : allocBranch :=
  if String.eqb (PodNetworkType podinfo) podNetworkTypeENIMultiIP
  then allocENIMultiIP env n r podinfo oldRes w
  else if String.eqb (PodNetworkType podinfo) podNetworkTypeVPCENI
  then allocVPCENI env n r podinfo oldRes w
  else if String.eqb (PodNetworkType podinfo) podNetworkTypeVPCIP
  then allocVPCIP env n r podinfo oldRes w
  else Returned (Err (ErrMsg "not support pod network type")) None
                [] podinfo w.

(** The state in which the deferred function of [AllocIP] runs. *)
Record allocFrame : Type := mkAllocFrame {
  fRet : result AllocIPReply;         (* the values being returned *)
  fErr : option error;                (* the variable [err] *)
  fResources : list ResourceItem;     (* [networkContext.resources] *)
  fPod : PodInfo;                     (* [*podinfo] *)
  fNetConfs : list NetConf;           (* [allocIPReply.NetConfs] *)
  fWorld : World
}.

(** [AllocIP] from the old-resource lookup to its [return]. *)
Definition allocBody (env : Env) (n : networkService) (r : AllocIPRequest)
           (podinfo : PodInfo) (w : World) : allocFrame :=
  match getPodResource env w podinfo with
  | inl e =>
      mkAllocFrame (Err (ErrWrap "error get pod resources from db for pod" e))
                   (Some e) [] podinfo [] w
  | inr oldRes =>
      if negb (verifyPodNetworkType (daemonMode n) (PodNetworkType podinfo))
      then mkAllocFrame
             (Err (ErrMsg "unexpect pod network type allocate, maybe daemon mode changed"))
             None [] podinfo [] w
      else
        match allocSwitch env n r podinfo oldRes w with
        | Returned ret err resources pod' w' =>
            mkAllocFrame ret err resources pod' [] w'
        | Continue ipType netConf resources pod' w' =>
            match ctxErr env with
            | Some e =>
                mkAllocFrame (Err (ErrWrap "error on grpc connection" e))
                             (Some e) resources pod' [] w'
            | None =>
                mkAllocFrame
                  (Ok (mkAllocIPReply true ipType (ipFamilyIPv4 n)
                                      (ipFamilyIPv6 n) netConf (enableTrunk n)))
                  None resources pod' netConf w'
            end
        end
  end.

(** The deferred function, error side: for every recorded resource, delete
    the pod's store record, then release the resource through the manager
    of its type, if there is one. Both results are only logged. *)
Fixpoint rollback (env : Env) (n : networkService) (podinfo : PodInfo)
         (resources : list ResourceItem) (w : World) : World :=
  match resources with
  | [] => w
  | res :: rest =>
      let w1 := snd (deletePodResource env w podinfo) in
      match getResourceManagerForRes n (ResType res) with
      | None => rollback env n podinfo rest w1
      | Some mgr =>
          rollback env n podinfo rest (logEvent (EvRelease mgr podinfo res) w1)
      end
  end.

Definition joinComma (l : list string) : string :=
  match l with
  | [] => ""
  | s :: rest => fold_left (fun acc x => (acc ++ "," ++ x)%string) rest s
  end.

(** The deferred function, success side: the pod IPs of every default
    interface are patched onto the pod. *)
Fixpoint patchPodIPs (podinfo : PodInfo) (netConfs : list NetConf) (w : World)
  : World :=
  match netConfs with
  | [] => w
  | netConfig :: rest =>
      if negb (String.eqb (IfName netConfig) IfEth0) &&
         negb (String.eqb (IfName netConfig) "")
      then patchPodIPs podinfo rest w
      else
        match NCBasicInfo netConfig with
        | None => patchPodIPs podinfo rest w
        | Some basic =>
            match PodIP basic with
            | None => patchPodIPs podinfo rest w
            | Some ip =>
                let ips :=
                  (if String.eqb (IPv4 ip) "" then [] else [IPv4 ip]) ++
                  (if String.eqb (IPv6 ip) "" then [] else [IPv6 ip]) in
                patchPodIPs podinfo rest
                  (logEvent (EvPatchPodIPInfo podinfo (joinComma ips)) w)
            end
        end
  end.

Definition allocDeferred (env : Env) (n : networkService) (f : allocFrame)
  : World :=
  match fErr f with
  | Some _ => rollback env n (fPod f) (fResources f) (fWorld f)
  | None => patchPodIPs (fPod f) (fNetConfs f) (fWorld f)
  end.

Definition AllocIP (env : Env) (n : networkService) (w : World)
           (r : AllocIPRequest) : result AllocIPReply * World :=
  let key := podInfoKey (aK8SPodNamespace r) (aK8SPodName r) in
  if decide (key ∈ pendingPods w)
  then (Err (ErrMsg "pod resource processing"), w)
  else
    let w0 := addPending key w in
    match GetPod env (aK8SPodNamespace r) (aK8SPodName r) with
    | inl e => (Err (ErrWrap "error get pod info" e), delPending key w0)
    | inr podinfo =>
        let f := allocBody env n r podinfo w0 in
        match fRet f with
        | Panic => (Panic, fWorld f)
        | ret => (ret, delPending key (allocDeferred env n f))
        end
    end.

(** The loop of [ReleaseIP] over the stored items. It gives the error the
    function returns from inside the loop, if any. *)
Fixpoint releaseResources (env : Env) (n : networkService) (podinfo : PodInfo)
         (resources : list ResourceItem) (w : World) : option error * World :=
  match resources with
  | [] => (None, w)
  | res :: rest =>
      match getResourceManagerForRes n (ResType res) with
      | None => releaseResources env n podinfo rest w
      | Some mgr =>
          if IPStickTime podinfo =? 0 then
            let w1 := logEvent (EvRelease mgr podinfo res) w in
            match mgrRelease env mgr podinfo res with
            | Some e =>
                if negb (isInvalidState e)
                then (Some (ErrWrap "error release request network resource" e),
                      w1)
                else
                  match deletePodResource env w1 podinfo with
                  | (Some e', w2) =>
                      (Some (ErrWrap "error delete resource from db" e'), w2)
                  | (None, w2) => releaseResources env n podinfo rest w2
                  end
            | None =>
                match deletePodResource env w1 podinfo with
                | (Some e', w2) =>
                    (Some (ErrWrap "error delete resource from db" e'), w2)
                | (None, w2) => releaseResources env n podinfo rest w2
                end
            end
          else releaseResources env n podinfo rest w
      end
  end.

Definition ReleaseIP (env : Env) (n : networkService) (w : World)
           (r : ReleaseIPRequest) : result ReleaseIPReply * World :=
  let key := podInfoKey (rK8SPodNamespace r) (rK8SPodName r) in
  if decide (key ∈ pendingPods w)
  then (Err (ErrMsg "pod resource processing"), w)
  else
    let w0 := addPending key w in
    let releaseReply := mkReleaseIPReply true (ipFamilyIPv4 n) (ipFamilyIPv6 n) in
    let '(ret, w') :=
      match GetPod env (rK8SPodNamespace r) (rK8SPodName r) with
      | inl e => (Err (ErrWrap "error get pod info" e), w0)
      | inr podinfo =>
          match getPodResource env w0 podinfo with
          | inl e => (Err e, w0)
          | inr oldRes =>
              if negb (verifyPodNetworkType (daemonMode n)
                                            (PodNetworkType podinfo))
              then (Ok releaseReply, w0)
              else
                let stale :=
                  match ContainerID oldRes with
                  | Some stored =>
                      negb (String.eqb (rK8SPodInfraContainerId r) stored)
                  | None => false
                  end in
                if stale then (Ok releaseReply, w0)
                else
                  match releaseResources env n podinfo (Resources oldRes) w0 with
                  | (Some e, w1) => (Err e, w1)
                  | (None, w1) =>
                      match ctxErr env with
                      | Some e =>
                          (Err (ErrWrap "error on grpc connection" e), w1)
                      | None => (Ok releaseReply, w1)
                      end
                  end
          end
      end in
    (ret, delPending key w').

(** What [GetIPInfo] returns: a reply (or nil) with an error (or nil),
    unless it panics. *)
Inductive infoReturn : Type :=
| InfoReturn (reply : option GetInfoReply) (err : option error)
| InfoPanic.

Definition infoReply (n : networkService) (ipType : IPType) (e : RpcError)
           (netConfs : list NetConf) (trunking : bool) : GetInfoReply :=
  mkGetInfoReply ipType (ipFamilyIPv4 n) (ipFamilyIPv6 n) e netConfs trunking.

(** [getIPInfoResult] before the [switch] sets anything. The zero value of
    the reply's [IPType] is its first constant. *)
Definition infoReply0 (n : networkService) : GetInfoReply :=
  infoReply n TypeVPCIP ErrNone [] false.

Definition infoENIMultiIP (env : Env) (n : networkService)
           (podinfo : PodInfo) (podRes : PodResources) : infoReturn :=
  (* [err] is the result of the store lookup; the function has returned
     already when that was not nil *)
  let err : option error := None in
  match multiIPFromCRD env n podinfo false with
  | Panic => InfoPanic
  | crd =>
      let '(netConfs, err2) :=
        match crd with
        | Ok confs => (confs, None)
        | Err e2 => ([], Some e2)
        | Panic => ([], None)
        end in
      match err with
      | Some _ =>
          let crdNotFound :=
            match err2 with Some e2 => IsNotFound e2 | None => false end in
          InfoReturn
            (Some (infoReply n TypeENIMultiIP
                             (if crdNotFound then ErrCRDNotFound else ErrNone)
                             [] false))
            None
      | None =>
          let netConf := netConfs in
          let defaultIfSet :=
            existsb (fun cfg => defaultIf (IfName cfg)) netConf in
          let withStat : option (list NetConf) :=
            if negb defaultIfSet then
              match GetResourceItemByType podRes ResourceTypeENIIP with
              | [] => Some netConf
              | item :: _ =>
                  if negb (eniIPResMgr n) then None
                  else
                    match eniIPStat env (ResID item) with
                    | inr eniIP =>
                        Some (netConf ++
                              [mkNetConf
                                 (Some (mkBasicInfo
                                          (Some (eniipIPSet eniIP))
                                          (eniVSwitchCIDR (eniipENI eniIP))
                                          (eniGatewayIP (eniipENI eniIP))
                                          (GetServiceCIDR env)))
                                 (Some (mkENIInfo (eniMAC (eniipENI eniIP))
                                                  false 0 None))
                                 (Some (podOf podinfo)) "" [] false])
                    | inl _ => Some netConf
                    end
              end
            else Some netConf in
          match withStat with
          | None => InfoPanic
          | Some netConf' =>
              match defaultForNetConf netConf' with
              | (Some e, _) =>
                  InfoReturn (Some (infoReply n TypeENIMultiIP ErrNone [] false))
                             (Some e)
              | (None, netConf'') =>
                  InfoReturn
                    (Some (infoReply n TypeENIMultiIP ErrNone netConf''
                                     (enableTrunk n)))
                    None
              end
          end
      end
  end.

Definition infoVPCIP (env : Env) (n : networkService) (podinfo : PodInfo)
  : infoReturn :=
  InfoReturn
    (Some (infoReply n TypeVPCIP ErrNone
             [mkNetConf
                (Some (mkBasicInfo None (GetNodeCidr env) None
                                   (GetServiceCIDR env)))
                None (Some (podOf podinfo)) "" [] true]
             (enableTrunk n)))
    None.

Definition infoVPCENI (env : Env) (n : networkService)
           (podinfo : PodInfo) (podRes : PodResources) : infoReturn :=
  if isIPAMTypeCRD (ipamType n) then
    match exclusiveENIFromCRD env n podinfo false with
    | Panic => InfoPanic
    | Err err2 =>
        InfoReturn
          (Some (infoReply n TypeVPCENI
                           (if IsNotFound err2 then ErrCRDNotFound else ErrNone)
                           [] false))
          None
    | Ok netConfs =>
        InfoReturn (Some (infoReply n TypeVPCENI ErrNone netConfs
                                    (enableTrunk n)))
                   None
    end
  else
    match GetResourceItemByType podRes ResourceTypeENI with
    | [] =>
        InfoReturn (Some (infoReply n TypeVPCENI ErrNone [] (enableTrunk n)))
                   None
    | item :: _ =>
        if negb (eniResMgr n) then InfoPanic
        else
          match eniStat env (ResID item) with
          | inr eni =>
              InfoReturn
                (Some (infoReply n TypeVPCENI ErrNone
                         [mkNetConf
                            (Some (mkBasicInfo (Some (eniPrimaryIP eni))
                                               (eniVSwitchCIDR eni)
                                               (eniGatewayIP eni)
                                               (GetServiceCIDR env)))
                            (Some (mkENIInfo (eniMAC eni)
                                             (PodENI podinfo && enableTrunk n
                                              && eniTrunk eni)
                                             0 None))
                            (Some (podOf podinfo)) "" [] true]
                         (enableTrunk n)))
                None
          | inl _ =>
              InfoReturn
                (Some (infoReply n TypeVPCENI ErrNone [] (enableTrunk n)))
                None
          end
    end.

Definition GetIPInfo (env : Env) (n : networkService) (w : World)
           (r : GetInfoRequest) : infoReturn :=
  match GetPod env (gK8SPodNamespace r) (gK8SPodName r) with
  | inl e => InfoReturn None (Some (ErrWrap "error get pod info" e))
  | inr podinfo =>
      if negb (verifyPodNetworkType (daemonMode n) (PodNetworkType podinfo))
      then InfoReturn None
             (Some (ErrMsg "unexpect pod network type get info, maybe daemon mode changed"))
      else
        match getPodResource env w podinfo with
        | inl e => InfoReturn (Some (infoReply0 n)) (Some e)
        | inr podRes =>
            let stale :=
              match ContainerID podRes with
              | Some stored =>
                  negb (String.eqb (gK8SPodInfraContainerId r) stored)
              | None => false
              end in
            if stale then InfoReturn (Some (infoReply0 n)) None
            else if String.eqb (PodNetworkType podinfo) podNetworkTypeENIMultiIP
            then infoENIMultiIP env n podinfo podRes
            else if String.eqb (PodNetworkType podinfo) podNetworkTypeVPCIP
            then infoVPCIP env n podinfo
            else if String.eqb (PodNetworkType podinfo) podNetworkTypeVPCENI
            then infoVPCENI env n podinfo podRes
            else InfoReturn (Some (infoReply0 n))
                            (Some (ErrMsg "unknown or unsupport network type"))
        end
  end.

(** ** The garbage-collection tick *)

(** [inUseSet] and [expireSet]: resource type, then resource id. *)
Abbreviation resSets := (gmap string (gmap string ResourceItem)).

Definition setOfType (sets : resSets) (resType : string)
  : gmap string ResourceItem :=
  default ∅ (sets !! resType).

(** The body of the loop over the items of one record; [podExist] tells
    whether the record counts as present in this tick. *)
Definition classifyItem (podExist : bool) (sets : resSets * resSets)
           (res : ResourceItem) : resSets * resSets :=
  let '(inUseSet, expireSet) := sets in
  let '(inUseSet, expireSet) :=
    match inUseSet !! ResType res with
    | Some _ => (inUseSet, expireSet)
    | None => (<[ResType res := ∅]> inUseSet, <[ResType res := ∅]> expireSet)
    end in
  match setOfType inUseSet (ResType res) !! ResID res with
  | Some _ => (inUseSet, expireSet)          (* already in use by others *)
  | None =>
      if podExist
      then (alter (insert (ResID res) res) (ResType res) inUseSet,
            alter (delete (ResID res)) (ResType res) expireSet)
      else (inUseSet,
            alter (insert (ResID res) res) (ResType res) expireSet)
  end.

Definition setIPStickTime (pod : PodInfo) (t : Z) : PodInfo :=
  mkPodInfo (Namespace pod) (Name pod) (PodNetworkType pod) (PodENI pod)
            (PodEip pod) (TcIngress pod) (TcEgress pod) (NetworkPriority pod)
            t (PodIPs pod) (SandboxExited pod).

Definition withPodInfo (p : PodResources) (pod : PodInfo) : PodResources :=
  mkPodResources (Resources p) (Some pod) (NetNs p) (ContainerID p).

(** What the first loop of a tick builds up. *)
Record gcState : Type := mkGcState {
  gcWorld : World;
  inUseSet : resSets;
  expireSet : resSets;
  relateExpireList : list string
}.

(** Whether a stored record counts as present in a tick: its pod is live,
    or the record is sticky and gets one more tick. *)
Definition recordPresent (podKeyMap : gset string) (info : PodInfo) : bool :=
  bool_decide (podInfoKey (Namespace info) (Name info) ∈ podKeyMap)
  || negb (IPStickTime info =? 0).

(** One stored record in the first loop; [None] is the panic on a record
    without pod info. *)
Definition gcRecord (env : Env) (podKeyMap : gset string) (st : gcState)
           (resRelate : PodResources) : option gcState :=
  match ResPodInfo resRelate with
  | None => None
  | Some info =>
      let key := podInfoKey (Namespace info) (Name info) in
      let '(podExist, w, expired) :=
        if bool_decide (key ∈ podKeyMap)
        then (true, gcWorld st, relateExpireList st)
        else if negb (IPStickTime info =? 0)
        then (true,
              snd (dbPut env (gcWorld st) key
                         (withPodInfo resRelate (setIPStickTime info 0))),
              relateExpireList st)
        else (false, gcWorld st, relateExpireList st ++ [key]) in
      let '(inUse, expire) :=
        fold_left (classifyItem podExist) (Resources resRelate)
                  (inUseSet st, expireSet st) in
      Some (mkGcState w inUse expire expired)
  end.

Fixpoint gcRecords (env : Env) (podKeyMap : gset string) (st : gcState)
         (resRelateList : list PodResources) : option gcState :=
  match resRelateList with
  | [] => Some st
  | resRelate :: rest =>
      match gcRecord env podKeyMap st resRelate with
      | None => None
      | Some st' => gcRecords env podKeyMap st' rest
      end
  end.

(** The loop over the types in use: each type with a manager has its
    [GarbageCollection] called; a failure clears [gcDone]. A type whose
    entry in [mgrForResource] is a nil manager panics. *)
Fixpoint gcManagers (env : Env) (n : networkService) (inUse expire : resSets)
         (mgrTypes : list string) (w : World) (gcDone : bool)
  : option (World * bool) :=
  match mgrTypes with
  | [] => Some (w, gcDone)
  | mgrType :: rest =>
      match mgrForResource n !! mgrType with
      | None => gcManagers env n inUse expire rest w gcDone
      | Some None => None
      | Some (Some mgr) =>
          let inUseOfType := setOfType inUse mgrType in
          let expireOfType := setOfType expire mgrType in
          let w1 := logEvent (EvGarbageCollection mgr inUseOfType expireOfType)
                             w in
          match mgrGarbageCollection env mgr inUseOfType expireOfType with
          | Some _ => gcManagers env n inUse expire rest w1 false
          | None => gcManagers env n inUse expire rest w1 gcDone
          end
      end
  end.

(** [strings.SplitAfterN(s, ".", 2)]: the text up to and including the
    first dot, and the rest; the whole text when it has no dot. *)
Fixpoint splitAfterDot (s : string) : list string :=
  match s with
  | EmptyString => [EmptyString]
  | String c rest =>
      if Ascii.eqb c "."%char then [String c EmptyString; rest]
      else
        match splitAfterDot rest with
        | [whole] => [String c whole]
        | head :: tail => String c head :: tail
        | [] => [String c EmptyString]
        end
  end.

(** The loop over the expired ENI-IP ids, in the order the map hands them
    out: an id without a dot is skipped; an id whose second part does not
    parse ends the function; any other has its rules and routes deleted. *)
Fixpoint cleanIPRules (env : Env) (resIDs : list string) (w : World) : World :=
  match resIDs with
  | [] => w
  | resID :: rest =>
      match splitAfterDot resID with
      | _ :: ip :: _ =>
          match ParseCIDR env (ip +:+ "/32") with
          | None => w                                      (* return *)
          | Some addr =>
              cleanIPRules env rest
                (logEvent (EvDeleteRouteByIP addr)
                          (logEvent (EvDeleteIPRulesByIP addr) w))
          end
      | _ => cleanIPRules env rest w                       (* continue *)
      end
  end.

Definition cleanExpiredENIIP (env : Env) (expire : resSets) (w : World)
  : World :=
  match expire !! ResourceTypeENIIP with
  | None => w
  | Some resMap => cleanIPRules env (map fst (map_to_list resMap)) w
  end.

Fixpoint deleteRelations (env : Env) (relates : list string) (w : World)
  : World :=
  match relates with
  | [] => w
  | relate :: rest => deleteRelations env rest (snd (dbDelete env w relate))
  end.

(** The live pod keys of a tick. *)
Definition podKeysOf (pods : list PodInfo) : gset string :=
  list_to_set
    (map (fun pod => podInfoKey (Namespace pod) (Name pod))
         (filter (fun pod => SandboxExited pod = false) pods)).

(** The first loop of a tick on the records the store lists. *)
Definition gcClassify (env : Env) (podKeyMap : gset string) (w : World)
           (resRelateList : list PodResources) : option gcState :=
  gcRecords env podKeyMap (mkGcState w ∅ ∅ []) resRelateList.

(** One tick of [startGarbageCollectionLoop]; [None] is a panic. The types
    in use are visited in the order the map [inUseSet] hands them out. *)
Definition gcTick (env : Env) (n : networkService) (w : World) : option World :=
  match GetLocalPods env with
  | inl _ => Some w
  | inr pods =>
      let podKeyMap := podKeysOf pods in
      match dbList env w with
      | inl _ => Some w
      | inr resRelateList =>
          match gcClassify env podKeyMap w resRelateList with
          | None => None
          | Some st =>
              match gcManagers env n (inUseSet st) (expireSet st)
                               (map fst (map_to_list (inUseSet st)))
                               (gcWorld st) true with
              | None => None
              | Some (w1, gcDone) =>
                  if gcDone
                  then Some (deleteRelations env (relateExpireList st)
                               (cleanExpiredENIIP env (expireSet st) w1))
                  else Some w1
              end
          end
      end
  end.

(** ** The three-way resource mapping *)

Record PodMapping : Type := mkPodMapping {
  pmName : string;
  pmNamespace : string;
  pmValid : bool;
  pmPodBindResID : string;
  pmLocalResID : string;
  pmRemoteResID : string
}.

Definition setLocal (id : string) (all : gmap string PodMapping)
  : gmap string PodMapping :=
  match all !! id with
  | None => <[id := mkPodMapping "" "" false "" id ""]> all
  | Some old =>
      <[id := mkPodMapping (pmName old) (pmNamespace old) (pmValid old)
                           (pmPodBindResID old) id (pmRemoteResID old)]> all
  end.

Definition setRemote (id : string) (all : gmap string PodMapping)
  : gmap string PodMapping :=
  match all !! id with
  | None => <[id := mkPodMapping "" "" false "" "" id]> all
  | Some old =>
      <[id := mkPodMapping (pmName old) (pmNamespace old) (pmValid old)
                           (pmPodBindResID old) (pmLocalResID old) id]> all
  end.

(** One item of one pod record; [None] is the panic on a record without
    pod info. *)
Definition bindItem (p : PodResources) (all : gmap string PodMapping)
           (res : ResourceItem) : option (gmap string PodMapping) :=
  if String.eqb (ResType res) ResourceTypeEIP then Some all
  else
    match ResPodInfo p with
    | None => None
    | Some info =>
        match all !! ResID res with
        | None =>
            Some (<[ResID res :=
                      mkPodMapping (Name info) (Namespace info) false
                                   (ResID res) "" ""]> all)
        | Some old =>
            let valid :=
              if String.eqb (ResID res) (pmLocalResID old) &&
                 String.eqb (pmLocalResID old) (pmRemoteResID old)
              then true else pmValid old in
            Some (<[ResID res :=
                      mkPodMapping (Name info) (Namespace info) valid
                                   (ResID res) (pmLocalResID old)
                                   (pmRemoteResID old)]> all)
        end
    end.

Fixpoint bindItems (p : PodResources) (all : gmap string PodMapping)
         (items : list ResourceItem) : option (gmap string PodMapping) :=
  match items with
  | [] => Some all
  | res :: rest =>
      match bindItem p all res with
      | None => None
      | Some all' => bindItems p all' rest
      end
  end.

Fixpoint bindPods (all : gmap string PodMapping) (pods : list PodResources)
  : option (gmap string PodMapping) :=
  match pods with
  | [] => Some all
  | p :: rest =>
      match bindItems p all (Resources p) with
      | None => None
      | Some all' => bindPods all' rest
      end
  end.

(** The last loop: an entry without a pod name whose local and remote ids
    agree is valid. *)
Definition markIdle (res : PodMapping) : PodMapping :=
  if String.eqb (pmName res) "" &&
     String.eqb (pmLocalResID res) (pmRemoteResID res)
  then mkPodMapping (pmName res) (pmNamespace res) true (pmPodBindResID res)
                    (pmLocalResID res) (pmRemoteResID res)
  else res.

(** The [less] function given to [sort.Slice]. *)
Definition mappingLess (a b : PodMapping) : bool :=
  if negb (String.eqb (pmName a) (pmName b))
  then String.ltb (pmName b) (pmName a)
  else String.ltb (pmRemoteResID a) (pmRemoteResID b).

(** [sort.Slice]: the entries reordered so that no entry is [less] than an
    earlier one. (The order among entries that compare equal is not fixed
    by the library; this is one of the orders it may give.) *)
Fixpoint insertSorted (less : PodMapping -> PodMapping -> bool)
         (x : PodMapping) (l : list PodMapping) : list PodMapping :=
  match l with
  | [] => [x]
  | y :: rest =>
      if less y x then y :: insertSorted less x rest else x :: y :: rest
  end.

Definition sortSlice (less : PodMapping -> PodMapping -> bool)
           (l : list PodMapping) : list PodMapping :=
  fold_right (insertSorted less) [] l.

(** The map [all] of [toResMapping] before the last loop. *)
Definition joinMapping (local remote : list string) (pods : list PodResources)
  : option (gmap string PodMapping) :=
  bindPods (fold_left (fun all id => setRemote id all) remote
                      (fold_left (fun all id => setLocal id all) local ∅))
           pods.

(** [toResMapping] on the ids of the pool's local and remote resources and
    the stored records; [None] is a panic. *)
Definition toResMapping (local remote : list string) (pods : list PodResources)
  : option (list PodMapping) :=
  match joinMapping local remote pods with
  | None => None
  | Some all =>
      Some (sortSlice mappingLess (map (fun kv => markIdle (snd kv))
                                       (map_to_list all)))
  end.

(** * Configuration, start-up, events and the period check

    The rest of [daemon/daemon.go] that can be told apart from its
    collaborators, and the accessors of [types/daemon/config.go]. *)

From Stdlib Require SpecFloat DecimalString.

(** ** Helpers of the Go library *)

(** [sort.Strings]: the strings in increasing order, compared byte by
    byte. *)
Fixpoint insertString (x : string) (l : list string) : list string :=
  match l with
  | [] => [x]
  | y :: rest =>
      if String.ltb y x then y :: insertString x rest else x :: y :: rest
  end.

Definition sortStrings (l : list string) : list string :=
  fold_right insertString [] l.

(** [fmt.Sprint] and the verb [%d] on an [int]. *)
Definition sprintInt (z : Z) : string :=
  DecimalString.NilZero.string_of_int (Z.to_int z).

(** A Go [float64] is an IEEE 754 binary64 number; [==] is the IEEE
    equality (the two zeros are equal, a NaN equals nothing). *)
Abbreviation float64 := SpecFloat.spec_float.

Definition float64Zero : float64 := SpecFloat.S754_zero false.

Definition float64One : float64 :=
  SpecFloat.S754_finite false 4503599627370496 (-52).

(** ** The configuration of the daemon ([types/daemon/config.go]) *)

Module daemon.

(** The fields of [Config] that the functions at hand read or write.
    A Go [int] is carried as the integer it holds; a map that may be nil
    is [None] when it is. [ExtraRoutes] is the [Dst] of each route. *)
Record Config : Type := mkConfig {
  AccessID : string;
  AccessSecret : string;
  VSwitches : option (gmap string (list string));
  ENITags : option (gmap string string);
  MaxPoolSize : Z;
  MinPoolSize : Z;
  MinENI : Z;
  MaxENI : Z;
  SecurityGroup : string;
  SecurityGroups : list string;
  EniCapRatio : float64;
  EniCapShift : Z;
  VSwitchSelectionPolicy : string;
  IPStack : string;
  EnableENITrunking : bool;
  ENICapPolicy : string;
  ExtraRoutes : list string;
  DisableDevicePlugin : bool;
  WaitTrunkENI : bool;
  DisableSecurityGroupCheck : bool
}.

(** [sets.String.List]: the members of the set, sorted. *)
Definition stringSetList (s : gset string) : list string :=
  sortStrings (elements s).

Definition GetSecurityGroups (c : Config) : list string :=
  let sgIDs : gset string := ∅ in
  let sgIDs :=
    if negb (String.eqb (SecurityGroup c) "")
    then {[SecurityGroup c]} ∪ sgIDs else sgIDs in
  let sgIDs := list_to_set (SecurityGroups c) ∪ sgIDs in
  stringSetList sgIDs.

(** The loop over the map [VSwitches], in the order the map hands its
    entries out; a nil map has none. *)
Definition GetVSwitchIDs (c : Config) : list string :=
  match VSwitches c with
  | None => []
  | Some vSwitches =>
      fold_left (fun vsws kv => vsws ++ snd kv) (map_to_list vSwitches) []
  end.

(** The body of [GetExtraRoutes] is the one of [GetVSwitchIDs]. *)
Definition GetExtraRoutes (c : Config) : list string :=
  match VSwitches c with
  | None => []
  | Some vSwitches =>
      fold_left (fun vsws kv => vsws ++ snd kv) (map_to_list vSwitches) []
  end.

Definition setEniCapRatio (v : float64) (c : Config) : Config :=
  mkConfig (AccessID c) (AccessSecret c) (VSwitches c) (ENITags c)
           (MaxPoolSize c) (MinPoolSize c) (MinENI c) (MaxENI c)
           (SecurityGroup c) (SecurityGroups c) v (EniCapShift c)
           (VSwitchSelectionPolicy c) (IPStack c) (EnableENITrunking c)
           (ENICapPolicy c) (ExtraRoutes c) (DisableDevicePlugin c)
           (WaitTrunkENI c) (DisableSecurityGroupCheck c).

Definition setVSwitchSelectionPolicy (v : string) (c : Config) : Config :=
  mkConfig (AccessID c) (AccessSecret c) (VSwitches c) (ENITags c)
           (MaxPoolSize c) (MinPoolSize c) (MinENI c) (MaxENI c)
           (SecurityGroup c) (SecurityGroups c) (EniCapRatio c) (EniCapShift c)
           v (IPStack c) (EnableENITrunking c)
           (ENICapPolicy c) (ExtraRoutes c) (DisableDevicePlugin c)
           (WaitTrunkENI c) (DisableSecurityGroupCheck c).

Definition setIPStack (v : string) (c : Config) : Config :=
  mkConfig (AccessID c) (AccessSecret c) (VSwitches c) (ENITags c)
           (MaxPoolSize c) (MinPoolSize c) (MinENI c) (MaxENI c)
           (SecurityGroup c) (SecurityGroups c) (EniCapRatio c) (EniCapShift c)
           (VSwitchSelectionPolicy c) v (EnableENITrunking c)
           (ENICapPolicy c) (ExtraRoutes c) (DisableDevicePlugin c)
           (WaitTrunkENI c) (DisableSecurityGroupCheck c).

End daemon.

(** ** The pool configuration ([getPoolConfig]) *)

Module types.

(** [types.PoolConfig], the fields [getPoolConfig] sets. *)
Record PoolConfig : Type := mkPoolConfig {
  MaxPoolSize : Z;
  MinPoolSize : Z;
  MaxENI : Z;
  MinENI : Z;
  AccessID : string;
  AccessSecret : string;
  EniCapRatio : float64;
  EniCapShift : Z;
  SecurityGroups : list string;
  VSwitchSelectionPolicy : string;
  EnableENITrunking : bool;
  ENICapPolicy : string;
  DisableDevicePlugin : bool;
  WaitTrunkENI : bool;
  DisableSecurityGroupCheck : bool;
  VSwitch : list string;
  ENITags : option (gmap string string);
  VPC : string;
  InstanceID : string
}.

End types.

(** Modelled from the spec: the IP stacks of a configuration are [ipv4],
    [ipv6] and [dual], and the default policy of vSwitch selection is
    [random]; the constants belong to the types package. *)
Definition IPStackIPv4 : string := "ipv4".
Definition IPStackDual : string := "dual".
Definition VSwitchSelectionPolicyRandom : string := "random".

(** What [aliyun.GetInstanceMeta] tells about the node. *)
Record InstanceMeta : Type := mkInstanceMeta {
  ZoneID : string;
  VSwitchID : string;
  VPCID : string;
  InstanceID : string
}.

(** [setDefault] fills the configuration in place and returns no error;
    the embedding returns the configuration as it is afterwards. *)
Definition setDefault (cfg : daemon.Config) : option error * daemon.Config :=
  let cfg :=
    if SpecFloat.SFeqb (daemon.EniCapRatio cfg) float64Zero
    then daemon.setEniCapRatio float64One cfg else cfg in
  let cfg :=
    if String.eqb (daemon.VSwitchSelectionPolicy cfg) ""
    then daemon.setVSwitchSelectionPolicy VSwitchSelectionPolicyRandom cfg
    else cfg in
  let cfg :=
    if String.eqb (daemon.IPStack cfg) ""
    then daemon.setIPStack IPStackIPv4 cfg else cfg in
  (None, cfg).

Definition validateConfig (cfg : daemon.Config) : option error :=
  if String.eqb (daemon.IPStack cfg) ""
     || String.eqb (daemon.IPStack cfg) IPStackIPv4
     || String.eqb (daemon.IPStack cfg) IPStackDual
  then None
  else Some (ErrMsg ("unsupported ipStack " +:+ daemon.IPStack cfg
                     +:+ " in configMap")).

Definition getPoolConfig (ins : InstanceMeta) (cfg : daemon.Config)
           (ipamType : IPAMType) : error + types.PoolConfig :=
  let securityGroups := daemon.GetSecurityGroups cfg in
  if (5 <? length securityGroups)%nat
  then inl (ErrMsg ("security groups should not be more than 5, current "
                    +:+ sprintInt (Z.of_nat (length securityGroups))))
  else
    let zone := ZoneID ins in
    let vSwitch : list string :=
      match daemon.VSwitches cfg with
      | None => []
      | Some vSwitches =>
          match vSwitches !! zone with
          | Some zoneVswitchs =>
              if (0 <? length zoneVswitchs)%nat then zoneVswitchs else []
          | None => []
          end
      end in
    let vSwitch :=
      if (length vSwitch =? 0)%nat then [VSwitchID ins] else vSwitch in
    let crd := isIPAMTypeCRD ipamType in
    inr (types.mkPoolConfig
           (if crd then 0 else daemon.MaxPoolSize cfg)
           (if crd then 0 else daemon.MinPoolSize cfg)
           (if crd then 0 else daemon.MaxENI cfg)
           (if crd then 0 else daemon.MinENI cfg)
           (daemon.AccessID cfg) (daemon.AccessSecret cfg)
           (daemon.EniCapRatio cfg) (daemon.EniCapShift cfg)
           securityGroups
           (daemon.VSwitchSelectionPolicy cfg)
           (daemon.EnableENITrunking cfg) (daemon.ENICapPolicy cfg)
           (daemon.DisableDevicePlugin cfg) (daemon.WaitTrunkENI cfg)
           (daemon.DisableSecurityGroupCheck cfg)
           vSwitch (daemon.ENITags cfg) (VPCID ins) (InstanceID ins)).

(** ** The resources to restore at start-up *)

(** [resourceManagerInitItem]: a stored item with the pod of its record. *)
Record resourceManagerInitItem : Type := mkInitItem {
  initItem : ResourceItem;
  initPodInfo : option PodInfo
}.

(** The loop of [newNetworkService] over the stored records that builds
    [localResource]: resource type, then resource id. *)
Definition restoreItem (podInfo : option PodInfo)
           (localResource : gmap string (gmap string resourceManagerInitItem))
           (res : ResourceItem)
  : gmap string (gmap string resourceManagerInitItem) :=
  let localResource :=
    match localResource !! ResType res with
    | None => <[ResType res := ∅]> localResource
    | Some _ => localResource
    end in
  alter (insert (ResID res) (mkInitItem res podInfo)) (ResType res)
        localResource.

Definition restoreRecord
           (localResource : gmap string (gmap string resourceManagerInitItem))
           (podRes : PodResources)
  : gmap string (gmap string resourceManagerInitItem) :=
  fold_left (restoreItem (ResPodInfo podRes)) (Resources podRes) localResource.

Definition localResources (resObjList : list PodResources)
  : gmap string (gmap string resourceManagerInitItem) :=
  fold_left restoreRecord resObjList ∅.

(** ** Events *)

(** The calls to the event recorders of the Kubernetes collaborator. *)
Inductive K8sEvent : Type :=
| EvRecordNodeEvent (eventType reason message : string)
| EvRecordPodEvent (podName podNamespace eventType reason message : string).

(** Modelled from the spec: an event is [Normal] or a [Warning], and is
    about the node or about a pod; the two event types of the daemon
    package are the ones of Kubernetes. *)
Inductive rpcEventType : Type := EventTypeNormal | EventTypeWarning.
Inductive rpcEventTarget : Type := EventTargetNode | EventTargetPod.

Definition eventTypeNormal : string := "Normal".
Definition eventTypeWarning : string := "Warning".

Record EventRequest : Type := mkEventRequest {
  EventTarget : rpcEventTarget;
  eK8SPodName : string;
  eK8SPodNamespace : string;
  EventType : rpcEventType;
  Reason : string;
  Message : string
}.

Record EventReply : Type := mkEventReply {
  Succeed : bool;
  Error : string
}.

(** What the recorder of pod events answers, and the text of an error
    ([err.Error()]). *)
Record EventSink : Type := mkEventSink {
  RecordPodEventErr : string -> string -> string -> string -> string ->
                      option error;
  ErrorText : error -> string
}.

(** [RecordEvent]: the reply, the error, and the calls made. *)
Definition RecordEvent (k8s : EventSink) (r : EventRequest)
  : EventReply * option error * list K8sEvent :=
  let eventType :=
    match EventType r with
    | EventTypeWarning => eventTypeWarning
    | EventTypeNormal => eventTypeNormal
    end in
  let reply := mkEventReply true "" in
  match EventTarget r with
  | EventTargetNode =>
      (reply, None, [EvRecordNodeEvent eventType (Reason r) (Message r)])
  | EventTargetPod =>
      let call := EvRecordPodEvent (eK8SPodName r) (eK8SPodNamespace r)
                                   eventType (Reason r) (Message r) in
      match RecordPodEventErr k8s (eK8SPodName r) (eK8SPodNamespace r)
                              eventType (Reason r) (Message r) with
      | Some err => (mkEventReply false (ErrorText k8s err), Some err, [call])
      | None => (reply, None, [call])
      end
  end.

(** ** The mapping of a service and the period check *)

(** [GetResourceMapping] of the service. [poolOf] is what the manager of
    the daemon mode answers: the ids of its local and of its remote
    resources, each in the order its map hands them out. A daemon mode
    outside the three leaves no pool to read and panics. *)
Definition GetResourceMapping
           (poolOf : Mgr -> error + list string * list string)
           (env : Env) (n : networkService) (w : World)
  : result (list PodMapping) :=
  let withPool (poolStats : result (list string * list string)) :=
    match poolStats with
    | Panic => Panic
    | Err err => Err err
    | Ok (local, remote) =>
        match dbList env w with
        | inl err => Err err
        | inr pods =>
            match toResMapping local remote pods with
            | Some mapping => Ok mapping
            | None => Panic
            end
        end
    end in
  if String.eqb (daemonMode n) daemonModeENIMultiIP then
    withPool (if negb (eniIPResMgr n) then Panic
              else sumResult (poolOf MgrENIIP))
  else if String.eqb (daemonMode n) daemonModeVPC then Ok []
  else if String.eqb (daemonMode n) daemonModeENIOnly then
    withPool (if negb (eniResMgr n) then Panic
              else sumResult (poolOf MgrENI))
  else
    match dbList env w with
    | inl err => Err err
    | inr _ => Panic
    end.

(** The first part of [startPeriodCheck]: the pool is compared with the
    store, and every entry that is not valid is reported on its pod as a
    Kubernetes warning ([corev1.EventTypeWarning], the string [Warning]),
    or only logged when the pod is not known. [None] is a panic. *)
Definition checkMapping (podMapping : list PodMapping) : list K8sEvent :=
  flat_map
    (fun res =>
       if pmValid res then []
       else if String.eqb (pmName res) "" || String.eqb (pmNamespace res) ""
            then []
            else [EvRecordPodEvent (pmName res) (pmNamespace res)
                                   "Warning" "ResourceInvalid"
                                   ("resource " +:+ pmLocalResID res)])
    podMapping.

Definition periodCheckPool
           (poolOf : Mgr -> error + list string * list string)
           (env : Env) (n : networkService) (w : World)
  : option (list K8sEvent) :=
  match GetResourceMapping poolOf env n w with
  | Panic => None
  | Err _ => Some []
  | Ok podMapping => Some (checkMapping podMapping)
  end.

(** ** The default-route policy on a slice of pointers

    [defaultForNetConf] receives a slice of pointers and writes through
    one of them. Here the entries live in a heap and the slice holds their
    addresses; reading an address the heap does not hold is the panic of a
    nil pointer. *)

Abbreviation heap := (gmap nat NetConf).

Fixpoint scanInPlace (h : heap) (netConf : list nat)
         (defaultRouteSet defaultIfSet : bool) : option (error + bool * bool) :=
  match netConf with
  | [] => Some (inr (defaultRouteSet, defaultIfSet))
  | p :: rest =>
      match h !! p with
      | None => None
      | Some c =>
          if DefaultRoute c && defaultRouteSet
          then Some (inl (ErrMsg "default route is dumplicated"))
          else scanInPlace h rest (defaultRouteSet || DefaultRoute c)
                           (if defaultIf (IfName c) then true else defaultIfSet)
      end
  end.

Fixpoint markInPlace (h : heap) (netConf : list nat) : option heap :=
  match netConf with
  | [] => Some h
  | p :: rest =>
      match h !! p with
      | None => None
      | Some c =>
          if String.eqb (IfName c) "" || String.eqb (IfName c) IfEth0
          then Some (<[p := setDefaultRoute c]> h)
          else markInPlace h rest
      end
  end.

Definition defaultForNetConfInPlace (h : heap) (netConf : list nat)
  : option (option error * heap) :=
  match netConf with
  | [] => Some (None, h)
  | _ :: _ =>
      match scanInPlace h netConf false false with
      | None => None
      | Some (inl e) => Some (Some e, h)
      | Some (inr (defaultRouteSet, defaultIfSet)) =>
          if negb defaultIfSet
          then Some (Some (ErrMsg "default interface is not set"), h)
          else if negb defaultRouteSet
               then match markInPlace h netConf with
                    | Some h' => Some (None, h')
                    | None => None
                    end
               else Some (None, h)
      end
  end.

(** The entries a slice points to, when every pointer is good. *)
Fixpoint readAll (h : heap) (netConf : list nat) : option (list NetConf) :=
  match netConf with
  | [] => Some []
  | p :: rest =>
      match h !! p, readAll h rest with
      | Some c, Some cs => Some (c :: cs)
      | _, _ => None
      end
  end.

(** * Vocabulary of the properties *)

(** The number of entries that carry the default route. *)
Definition defaultRoutes (netConf : list NetConf) : nat :=
  length (List.filter DefaultRoute netConf).

(** Whether some entry is a default interface. *)
Definition hasDefaultIf (netConf : list NetConf) : bool :=
  existsb (fun c => defaultIf (IfName c)) netConf.

(** [c'] is [c] with the default route set and nothing else changed. *)
Definition markedDefault (c c' : NetConf) : Prop :=
  DefaultRoute c' = true /\
  NCBasicInfo c' = NCBasicInfo c /\ NCENIInfo c' = NCENIInfo c /\
  NCPod c' = NCPod c /\ IfName c' = IfName c /\
  ExtraRoutes c' = ExtraRoutes c.

Definition exConf (ifName : string) (route : bool) : NetConf :=
  mkNetConf None None None ifName ["10.0.0.0/8"] route.

Definition exNetConfs : list NetConf :=
  [exConf "net1" false; exConf "" false; exConf "eth0" false].

(** [e] is the error [cause], as it is or as the text or the wrapped
    cause of a message built around it. *)
Definition surfaces (e cause : error) : Prop :=
  e = cause \/ (exists msg, e = ErrFmt msg cause) \/
  (exists msg, e = ErrWrap msg cause).

(** The [Release] calls of a rollback over [resources], in order: one for
    every item whose type has a manager. *)
Definition rollbackReleases (n : networkService) (pod : PodInfo)
           (resources : list ResourceItem) : list Event :=
  flat_map (fun item =>
              match getResourceManagerForRes n (ResType item) with
              | Some mgr => [EvRelease mgr pod item]
              | None => []
              end) resources.

(** What holds of the state in which the deferred function of [AllocIP]
    runs, for a call on [pod]. *)
Definition frameOk (pod : PodInfo) (f : allocFrame) : Prop :=
  Namespace (fPod f) = Namespace pod /\ Name (fPod f) = Name pod /\
  match fRet f with
  | Panic => True
  | Err e =>
      match fErr f with
      | Some cause => surfaces e cause
      | None => fResources f = []
      end /\ fNetConfs f = []
  | Ok reply =>
      fErr f = None /\ fNetConfs f = aNetConfs reply /\
      aNetConfs reply <> [] /\ aSuccess reply = true
  end.

Definition branchOk (pod : PodInfo) (b : allocBranch) : Prop :=
  match b with
  | Returned ret err resources pod' _ =>
      Namespace pod' = Namespace pod /\ Name pod' = Name pod /\
      match ret with
      | Panic => True
      | Err e =>
          match err with
          | Some cause => surfaces e cause
          | None => resources = []
          end
      | Ok _ => False
      end
  | Continue _ netConf _ pod' _ =>
      Namespace pod' = Namespace pod /\ Name pod' = Name pod /\ netConf <> []
  end.

(** ** Vocabulary of the garbage collection *)

(** A resource id is in the set of its type. *)
Definition inSet (sets : resSets) (resType resID : string) : Prop :=
  is_Some (setOfType sets resType !! resID).

(** The items of the stored records in the order the first loop of a tick
    meets them, each with the presence of its record. *)
Definition gcItems (podKeyMap : gset string) (records : list PodResources)
  : list (bool * ResourceItem) :=
  flat_map (fun r =>
              match ResPodInfo r with
              | Some info => map (pair (recordPresent podKeyMap info)) (Resources r)
              | None => []
              end) records.

(** Some record that counts as present ([true]) or as gone ([false]) holds
    the resource. *)
Definition heldBy (items : list (bool * ResourceItem)) (present : bool)
           (resType resID : string) : Prop :=
  exists item, In (present, item) items /\
               ResType item = resType /\ ResID item = resID.

(** The sets agree on which types they know, and nothing is in use and
    expired at once. *)
Definition setsAligned (sets : resSets * resSets) : Prop :=
  (forall ty, fst sets !! ty = None <-> snd sets !! ty = None) /\
  (forall ty id, inSet (fst sets) ty id -> ~ inSet (snd sets) ty id).

(** Every record is stored under the key of its own pod. *)
Definition storeKeyed (s : gmap string PodResources) : Prop :=
  forall key rec, s !! key = Some rec ->
    exists info, ResPodInfo rec = Some info /\
                 key = podInfoKey (Namespace info) (Name info).

(** The store answers in a tick. *)
Definition storeWorks (env : Env) : Prop :=
  dbListErr env = None /\ (forall key v, dbPutErr env key v = None) /\
  (forall key, dbDeleteErr env key = None).

(** Every manager's [GarbageCollection] succeeds in a tick. *)
Definition managersCollect (env : Env) : Prop :=
  forall mgr inUse expire, mgrGarbageCollection env mgr inUse expire = None.

(** No stored item has a type that is registered with a nil manager (the
    tick would panic on calling it). *)
Definition managersSet (n : networkService) (s : gmap string PodResources)
  : Prop :=
  forall key rec item, s !! key = Some rec -> In item (Resources rec) ->
                       mgrForResource n !! ResType item <> Some None.

(** The sets the first loop of a tick builds, when the pods and the store
    can be listed. *)
Definition gcSets (env : Env) (w : World) : option (resSets * resSets) :=
  match GetLocalPods env, dbList env w with
  | inr pods, inr records =>
      match gcClassify env (podKeysOf pods) w records with
      | Some st => Some (inUseSet st, expireSet st)
      | None => None
      end
  | _, _ => None
  end.

(** The [GarbageCollection] calls of a tick over the given types. *)
Definition gcCalls (n : networkService) (inUse expire : resSets)
           (mgrTypes : list string) : list Event :=
  flat_map (fun ty =>
              match mgrForResource n !! ty with
              | Some (Some mgr) =>
                  [EvGarbageCollection mgr (setOfType inUse ty)
                                       (setOfType expire ty)]
              | _ => []
              end) mgrTypes.

(** The first loop of a tick, item by item. *)
Definition classifyAll (items : list (bool * ResourceItem))
           (sets : resSets * resSets) : resSets * resSets :=
  fold_left (fun s bi => classifyItem (fst bi) s (snd bi)) items sets.

(** The key of the pod of a stored record. *)
Definition recordKey (r : PodResources) : option string :=
  match ResPodInfo r with
  | Some info => Some (podInfoKey (Namespace info) (Name info))
  | None => None
  end.

(** What the first loop does to the store for one record: a sticky record
    whose pod is gone is written back with its stick time cleared. *)
Definition stickyRewrite (podKeyMap : gset string)
           (s : gmap string PodResources) (r : PodResources)
  : gmap string PodResources :=
  match ResPodInfo r with
  | Some info =>
      let key := podInfoKey (Namespace info) (Name info) in
      if bool_decide (key ∈ podKeyMap) then s
      else if negb (IPStickTime info =? 0)
           then <[key := withPodInfo r (setIPStickTime info 0)]> s
           else s
  | None => s
  end.

(** The keys the first loop puts on [relateExpireList]. *)
Definition expiredKeys (podKeyMap : gset string) (records : list PodResources)
  : list string :=
  flat_map (fun r =>
              match ResPodInfo r with
              | Some info =>
                  if recordPresent podKeyMap info then []
                  else [podInfoKey (Namespace info) (Name info)]
              | None => []
              end) records.

(** A tick on [w] runs to its end: it leaves [w'], its first loop builds
    [sets], and its manager calls are one [GarbageCollection] per type in
    use that has a manager, each with the sets of that type. *)
Definition tickRuns (env : Env) (n : networkService) (w w' : World)
           (sets : resSets * resSets) : Prop :=
  gcTick env n w = Some w' /\ gcSets env w = Some sets /\
  exists cleanup,
    trace w' = trace w
               ++ gcCalls n (fst sets) (snd sets)
                          (map fst (map_to_list (fst sets)))
               ++ cleanup.

(** A tick passes the resource to the managers as in use, and not as
    expired. *)
Definition passedInUse (sets : resSets * resSets) (item : ResourceItem) : Prop :=
  inSet (fst sets) (ResType item) (ResID item) /\
  ~ inSet (snd sets) (ResType item) (ResID item).

(** The items of the records a tick lists, each with the presence of its
    record in that tick. *)
Definition tickItems (pods : list PodInfo) (w : World)
  : list (bool * ResourceItem) :=
  gcItems (podKeysOf pods) (map snd (map_to_list (store w))).

(** A tick over [items] passes the resource to the managers as expired, and
    not as in use, unless a record that counts as present holds it too, in
    which case the tick passes it as in use, and not as expired. *)
Definition passedExpired (items : list (bool * ResourceItem))
           (sets : resSets * resSets) (item : ResourceItem) : Prop :=
  (~ heldBy items true (ResType item) (ResID item) ->
   inSet (snd sets) (ResType item) (ResID item) /\
   ~ inSet (fst sets) (ResType item) (ResID item)) /\
  (heldBy items true (ResType item) (ResID item) -> passedInUse sets item).

(** ** Vocabulary of the three-way mapping *)

(** The entry is bound to a pod. *)
Definition bound (e : PodMapping) : Prop := pmPodBindResID e <> "".

(** [a] may stand before [b]: [b] is not [less] than [a]. *)
Definition mappingOrdered (a b : PodMapping) : Prop := mappingLess b a = false.

(** Some stored record holds the id as an item that is not an EIP. *)
Definition boundInStore (pods : list PodResources) (resID : string) : Prop :=
  exists p item, In p pods /\ In item (Resources p) /\
                 String.eqb (ResType item) ResourceTypeEIP = false /\
                 ResID item = resID.

(** The ids and pod names the join is given are not empty. *)
Definition mappingInputs (local remote : list string)
           (pods : list PodResources) : Prop :=
  Forall (fun id => id <> "") local /\
  Forall (fun id => id <> "") remote /\
  Forall (fun p =>
            (exists info, ResPodInfo p = Some info /\ Name info <> "") /\
            Forall (fun item => ResID item <> "") (Resources p)) pods.

(** What holds of the entry under key [k] before the last loop. *)
Definition entryOk (held : string -> Prop) (k : string) (e : PodMapping) : Prop :=
  k <> "" /\
  (pmLocalResID e = "" \/ pmLocalResID e = k) /\
  (pmRemoteResID e = "" \/ pmRemoteResID e = k) /\
  (pmPodBindResID e = "" \/ pmPodBindResID e = k) /\
  (pmName e <> "" <-> pmPodBindResID e = k) /\
  (pmValid e = true <->
   pmPodBindResID e = k /\ pmLocalResID e = k /\ pmRemoteResID e = k) /\
  (pmPodBindResID e = k -> held k).

Definition allOk (held : string -> Prop) (all : gmap string PodMapping) : Prop :=
  forall k e, all !! k = Some e -> entryOk held k e.

(** The validity rule of the mapping. *)
Definition validRule (e : PodMapping) : Prop :=
  pmValid e = true <->
  (bound e /\ pmLocalResID e = pmRemoteResID e /\
   pmRemoteResID e = pmPodBindResID e) \/
  (~ bound e /\ pmLocalResID e = pmRemoteResID e).

(** What holds of the entry under key [k] while only the pool's local and
    remote resources have been entered. *)
Definition poolEntry (k : string) (e : PodMapping) : Prop :=
  k <> "" /\
  (pmLocalResID e = "" \/ pmLocalResID e = k) /\
  (pmRemoteResID e = "" \/ pmRemoteResID e = k) /\
  pmPodBindResID e = "" /\ pmName e = "" /\ pmValid e = false.

Definition allPool (all : gmap string PodMapping) : Prop :=
  forall k e, all !! k = Some e -> poolEntry k e.

(** The entry the join keeps under a resource id shows the id as the
    pool's local resource, as its remote resource, or as bound to a pod. *)
Definition hasLocal (all : gmap string PodMapping) (id : string) : Prop :=
  exists e, all !! id = Some e /\ pmLocalResID e = id.

Definition hasRemote (all : gmap string PodMapping) (id : string) : Prop :=
  exists e, all !! id = Some e /\ pmRemoteResID e = id.

Definition hasBound (all : gmap string PodMapping) (id : string) : Prop :=
  exists e, all !! id = Some e /\ pmPodBindResID e = id.

(** Some stored record of a pod with this name and namespace holds the id
    as an item that is not an EIP. *)
Definition heldAs (pods : list PodResources) (resID name namespace : string)
  : Prop :=
  exists p info item,
    In p pods /\ ResPodInfo p = Some info /\ In item (Resources p) /\
    String.eqb (ResType item) ResourceTypeEIP = false /\
    ResID item = resID /\ Name info = name /\ Namespace info = namespace.

(** The entry is the join of the three sources at the id [id]: the id is in
    one of them; the entry shows it as local, as remote and as bound
    exactly where it is, and nothing where it is not; and a bound entry
    carries the name and the namespace of a pod that holds the id. *)
Definition joinedAt (local remote : list string) (pods : list PodResources)
           (id : string) (e : PodMapping) : Prop :=
  (In id local \/ In id remote \/ boundInStore pods id) /\
  (pmLocalResID e = id /\ In id local \/
   pmLocalResID e = "" /\ ~ In id local) /\
  (pmRemoteResID e = id /\ In id remote \/
   pmRemoteResID e = "" /\ ~ In id remote) /\
  (pmPodBindResID e = id /\ heldAs pods id (pmName e) (pmNamespace e) \/
   pmPodBindResID e = "" /\ pmName e = "" /\ pmNamespace e = "" /\
   ~ boundInStore pods id).

(** Where the fields of the entry under key [k] come from. *)
Definition entryFrom (isLocal isRemote : string -> Prop)
           (held : string -> string -> string -> Prop)
           (k : string) (e : PodMapping) : Prop :=
  k <> "" /\
  (pmLocalResID e = k \/ pmRemoteResID e = k \/ pmPodBindResID e = k) /\
  (pmLocalResID e = k -> isLocal k) /\
  (pmRemoteResID e = k -> isRemote k) /\
  (pmPodBindResID e = k -> held k (pmName e) (pmNamespace e)) /\
  (pmPodBindResID e = "" -> pmName e = "" /\ pmNamespace e = "").

Definition allFrom (isLocal isRemote : string -> Prop)
           (held : string -> string -> string -> Prop)
           (all : gmap string PodMapping) : Prop :=
  forall k e, all !! k = Some e -> entryFrom isLocal isRemote held k e.

(** * Sample inputs and the vocabulary of the replies *)

(** ** Sample inputs *)

Definition exPod (podNetworkType : string) (stick : Z) : PodInfo :=
  mkPodInfo "default" "web-0" podNetworkType false false 0 0 "" stick
            (mkIPSet "" "") false.

Definition exEipPod : PodInfo :=
  mkPodInfo "default" "web-0" podNetworkTypeENIMultiIP false true 0 0 "" 0
            (mkIPSet "" "") false.

Definition exENI : ENI :=
  mkENI "eni-1" "00:16:3e:00:00:01" (mkIPSet "192.168.0.10" "")
        (Some (mkIPSet "192.168.0.0/24" "")) (Some (mkIPSet "192.168.0.253" ""))
        false [mkResourceItem ResourceTypeENI "00:16:3e:00:00:01" []].

Definition exENIIPItem : ResourceItem :=
  mkResourceItem ResourceTypeENIIP "00:16:3e:00:00:01.192.168.0.11" [].

Definition exENIIP : ENIIP :=
  mkENIIP exENI (mkIPSet "192.168.0.11" "") [exENIIPItem].

Definition exEIPItem : ResourceItem :=
  mkResourceItem ResourceTypeEIP "eip-1" [].

Definition exEIP : EIP := mkEIP [exEIPItem].

Definition exVeth : Veth :=
  mkVeth [mkResourceItem ResourceTypeVeth "cali1234" []].

(** A sample [net.ParseCIDR] for "<ipv4>/32": digits and exactly three
    dots before the suffix. *)
Fixpoint exDotted (s : string) (dots : nat) : option nat :=
  match s with
  | EmptyString => None
  | String c rest =>
      if Ascii.eqb c "/"%char
      then (if String.eqb rest "32" then Some dots else None)
      else if Ascii.eqb c "."%char then exDotted rest (S dots)
      else if (48 <=? Z.of_nat (nat_of_ascii c)) && (Z.of_nat (nat_of_ascii c) <=? 57)
           then exDotted rest dots
           else None
  end.

Definition exParseCIDR (s : string) : option string :=
  match exDotted s 0 with
  | Some 3%nat => Some s
  | _ => None
  end.

(** An environment in which every collaborator answers and nothing fails;
    the pod has no PodENI object. *)
Definition exEnv (pod : PodInfo) : Env :=
  mkEnv (fun _ _ => inr pod) (inr [])
        (fun _ => inl ErrK8sNotFound) (fun _ => inl ErrK8sNotFound)
        (Some (mkIPSet "172.16.0.0/16" "")) (Some (mkIPSet "10.1.0.0/24" ""))
        (fun _ _ => inr exVeth) (fun _ _ => inr exENI)
        (fun _ _ => inr exENIIP) (fun _ _ => inr exEIP)
        (fun _ _ _ => None)
        (fun _ => inr exENI) (fun _ => inr exENIIP)
        (fun _ _ _ => None)
        (fun _ => Some exENI)
        (fun _ => None) (fun _ _ => None) (fun _ => None) None
        None
        (fun cidr => "192.168.0.253") exParseCIDR.

Definition withCtxErr (e : option error) (env : Env) : Env :=
  mkEnv (GetPod env) (GetLocalPods env) (WaitPodENIInfo env)
        (GetPodENIInfo env) (GetServiceCIDR env) (GetNodeCidr env)
        (vethAllocate env) (eniAllocate env) (eniIPAllocate env)
        (eipAllocate env) (mgrRelease env) (eniStat env) (eniIPStat env)
        (mgrGarbageCollection env) (trunkENI env)
        (dbGetErr env) (dbPutErr env) (dbDeleteErr env) (dbListErr env)
        e (DeriveGatewayIP env) (ParseCIDR env).

Definition withEipAllocate (f : PodInfo -> string -> error + EIP) (env : Env)
  : Env :=
  mkEnv (GetPod env) (GetLocalPods env) (WaitPodENIInfo env)
        (GetPodENIInfo env) (GetServiceCIDR env) (GetNodeCidr env)
        (vethAllocate env) (eniAllocate env) (eniIPAllocate env)
        f (mgrRelease env) (eniStat env) (eniIPStat env)
        (mgrGarbageCollection env) (trunkENI env)
        (dbGetErr env) (dbPutErr env) (dbDeleteErr env) (dbListErr env)
        (ctxErr env) (DeriveGatewayIP env) (ParseCIDR env).

Definition withEniIPAllocate (f : PodInfo -> string -> error + ENIIP)
           (env : Env) : Env :=
  mkEnv (GetPod env) (GetLocalPods env) (WaitPodENIInfo env)
        (GetPodENIInfo env) (GetServiceCIDR env) (GetNodeCidr env)
        (vethAllocate env) (eniAllocate env) f
        (eipAllocate env) (mgrRelease env) (eniStat env) (eniIPStat env)
        (mgrGarbageCollection env) (trunkENI env)
        (dbGetErr env) (dbPutErr env) (dbDeleteErr env) (dbListErr env)
        (ctxErr env) (DeriveGatewayIP env) (ParseCIDR env).

Definition withPodENI (f : PodInfo -> error + PodENIObject) (env : Env) : Env :=
  mkEnv (GetPod env) (GetLocalPods env) f f
        (GetServiceCIDR env) (GetNodeCidr env)
        (vethAllocate env) (eniAllocate env) (eniIPAllocate env)
        (eipAllocate env) (mgrRelease env) (eniStat env) (eniIPStat env)
        (mgrGarbageCollection env) (trunkENI env)
        (dbGetErr env) (dbPutErr env) (dbDeleteErr env) (dbListErr env)
        (ctxErr env) (DeriveGatewayIP env) (ParseCIDR env).

Definition withGarbageCollection
           (f : Mgr -> gmap string ResourceItem -> gmap string ResourceItem ->
                option error) (env : Env) : Env :=
  mkEnv (GetPod env) (GetLocalPods env) (WaitPodENIInfo env)
        (GetPodENIInfo env) (GetServiceCIDR env) (GetNodeCidr env)
        (vethAllocate env) (eniAllocate env) (eniIPAllocate env)
        (eipAllocate env) (mgrRelease env) (eniStat env) (eniIPStat env)
        f (trunkENI env)
        (dbGetErr env) (dbPutErr env) (dbDeleteErr env) (dbListErr env)
        (ctxErr env) (DeriveGatewayIP env) (ParseCIDR env).

(** The three kinds of service [newNetworkService] sets up. *)
Definition exServiceMultiIP : networkService :=
  mkNetworkService daemonModeENIMultiIP false false true true
    (<[ResourceTypeENIIP := Some MgrENIIP]>
       (<[ResourceTypeEIP := Some MgrEIP]> ∅))
    false true false IPAMTypeDefault.

Definition exServiceVPC : networkService :=
  mkNetworkService daemonModeVPC true true false false
    (<[ResourceTypeENI := Some MgrENI]>
       (<[ResourceTypeVeth := Some MgrVeth]> ∅))
    false true false IPAMTypeDefault.

Definition exServiceENIOnlyCRD : networkService :=
  mkNetworkService daemonModeENIOnly false true false false
    (<[ResourceTypeENI := Some MgrENI]>
       (<[ResourceTypeEIP := None]> ∅))
    false true false IPAMTypeCRD.

Definition exAllocReq : AllocIPRequest :=
  mkAllocIPRequest "web-0" "default" "sandbox-A" "/proc/42/ns/net" "eth0".

Definition exReleaseReq (containerID : string) : ReleaseIPRequest :=
  mkReleaseIPRequest "web-0" "default" containerID.

Definition exInfoReq : GetInfoRequest :=
  mkGetInfoRequest "web-0" "default" "sandbox-A".

(** The record of the sample pod holding one ENI-IP, made by sandbox A. *)
Definition exRecord (pod : PodInfo) : PodResources :=
  mkPodResources [exENIIPItem] (Some pod) (Some "/proc/42/ns/net")
                 (Some "sandbox-A").

Definition exWorld (records : list (string * PodResources)) : World :=
  mkWorld (list_to_map records) ∅ [].

(** What [ReleaseIP] answers when it succeeds. *)
Definition releaseOk (n : networkService) : result ReleaseIPReply :=
  Ok (mkReleaseIPReply true (ipFamilyIPv4 n) (ipFamilyIPv6 n)).

(** The table of accepted (daemon mode, pod network type) pairs. *)
Definition acceptedPair (mode podNetworkType : string) : Prop :=
  (mode = daemonModeVPC /\
   (podNetworkType = podNetworkTypeVPCENI \/ podNetworkType = podNetworkTypeVPCIP))
  \/ (mode = daemonModeENIMultiIP /\ podNetworkType = podNetworkTypeENIMultiIP)
  \/ (mode = daemonModeENIOnly /\ podNetworkType = podNetworkTypeVPCENI).

(** The calls of a trace that release a resource. *)
Definition isRelease (ev : Event) : bool :=
  match ev with EvRelease _ _ _ => true | _ => false end.

Definition releasesOf (tr : list Event) : list Event := List.filter isRelease tr.

Definition exStickyPod : PodInfo := exPod podNetworkTypeENIMultiIP 300.

Definition exStickyWorld : World :=
  exWorld [("default/web-0", exRecord exStickyPod)].

Definition exPlainPod : PodInfo := exPod podNetworkTypeENIMultiIP 0.

Definition exPlainWorld : World :=
  exWorld [("default/web-0", exRecord exPlainPod)].

(** The EIP manager refuses; everything else answers. *)
Definition exEipFailEnv : Env :=
  withEipAllocate (fun _ _ => inl (ErrMsg "eip quota exceeded"))
                  (exEnv exEipPod).

(** The ENI-IP manager refuses. *)
Definition exEniIPFailEnv : Env :=
  withEniIPAllocate (fun _ _ => inl (ErrMsg "no free address"))
                    (exEnv exPlainPod).

(** An [ENIMultiIP] service and an [ENIOnly] service under CRD IPAM. *)
Definition exServiceMultiIPCRD : networkService :=
  mkNetworkService daemonModeENIMultiIP false false true false
    (<[ResourceTypeENIIP := Some MgrENIIP]>
       (<[ResourceTypeEIP := None]> ∅))
    true true false IPAMTypeCRD.

Definition exENIPod : PodInfo := exPod podNetworkTypeVPCENI 0.

(** A PodENI object that exists and lists no allocation. *)
Definition exNoAllocEnv : Env :=
  withPodENI (fun _ => inr (mkPodENI [] "eni-1" ∅)) (exEnv exENIPod).

Definition withDbGetErr (f : string -> option error) (env : Env) : Env :=
  mkEnv (GetPod env) (GetLocalPods env) (WaitPodENIInfo env)
        (GetPodENIInfo env) (GetServiceCIDR env) (GetNodeCidr env)
        (vethAllocate env) (eniAllocate env) (eniIPAllocate env)
        (eipAllocate env) (mgrRelease env) (eniStat env) (eniIPStat env)
        (mgrGarbageCollection env) (trunkENI env)
        f (dbPutErr env) (dbDeleteErr env) (dbListErr env)
        (ctxErr env) (DeriveGatewayIP env) (ParseCIDR env).

(** The store cannot be read. *)
Definition exStoreFailEnv (pod : PodInfo) : Env :=
  withDbGetErr (fun _ => Some (ErrMsg "database not open")) (exEnv pod).

(** Every manager's [GarbageCollection] fails. *)
Definition exGcFailEnv : Env :=
  withGarbageCollection (fun _ _ _ => Some (ErrMsg "cloud api throttled"))
                        (exEnv exPlainPod).

(** Two expired ENI-IP records: the id of the first is the one of a
    dual-stack address ("<eni>.<ipv4>-<ipv6>"), the id of the second the
    one of an IPv4 address. *)
Definition exDualID : string := "00:16:3e:00:00:01.192.168.0.11-fd00::11".
Definition exV4ID : string := "00:16:3e:00:00:02.192.168.0.12".

Definition exGonePod (name : string) : PodInfo :=
  mkPodInfo "default" name podNetworkTypeENIMultiIP false false 0 0 "" 0
            (mkIPSet "" "") false.

Definition exExpiredWorld : World :=
  exWorld
    [("default/web-0",
      mkPodResources [mkResourceItem ResourceTypeENIIP exDualID []]
                     (Some (exGonePod "web-0")) None (Some "sandbox-A"));
     ("default/web-1",
      mkPodResources [mkResourceItem ResourceTypeENIIP exV4ID []]
                     (Some (exGonePod "web-1")) None (Some "sandbox-B"))].

(** The calls of a trace that delete kernel rules or routes. *)
Definition isRouteCleanup (ev : Event) : bool :=
  match ev with
  | EvDeleteIPRulesByIP _ | EvDeleteRouteByIP _ => true
  | _ => false
  end.

(** The pool knows two ENIs locally and two remotely; one pod holds an ENI
    and an EIP. *)
Definition exLocal : list string := ["eni-a"; "eni-b"].
Definition exRemote : list string := ["eni-b"; "eni-c"].

Definition exBoundPods : list PodResources :=
  [mkPodResources [mkResourceItem ResourceTypeENI "eni-b" [];
                   mkResourceItem ResourceTypeEIP "eip-1" []]
                  (Some (exPod podNetworkTypeVPCENI 0)) None None].

(** Degenerate records: a pod without a name, and an item without an
    id. *)
Definition exNamelessPods : list PodResources :=
  [mkPodResources [mkResourceItem ResourceTypeENI "eni-x" []]
                  (Some (exGonePod "")) None None].

Definition exIdlessPods : list PodResources :=
  [mkPodResources [mkResourceItem ResourceTypeENI "" []]
                  (Some (exGonePod "web-0")) None None].

(** ** Vocabulary of the further properties *)

(** Exactly one entry carries the default route, and some entry is a
    default interface. *)
Definition singleDefault (netConf : list NetConf) : Prop :=
  defaultRoutes netConf = 1%nat /\ hasDefaultIf netConf = true.

(** The kinds of calls a request makes. *)
Definition isAllocate (ev : Event) : bool :=
  match ev with EvAllocate _ _ _ => true | _ => false end.

Definition isPatch (ev : Event) : bool :=
  match ev with EvPatchPodIPInfo _ _ => true | _ => false end.

(** The resource type a manager hands out. *)
Definition resourceTypeOf (m : Mgr) : string :=
  match m with
  | MgrVeth => ResourceTypeVeth
  | MgrENI => ResourceTypeENI
  | MgrENIIP => ResourceTypeENIIP
  | MgrEIP => ResourceTypeEIP
  end.

(** The call is an [Allocate] that passes on the id of the resource of
    the manager's type which the old record [old] holds. *)
Definition passesPriorID (old : PodResources) (ev : Event) : bool :=
  match ev with
  | EvAllocate m _ prior => String.eqb prior (priorID old (resourceTypeOf m))
  | _ => false
  end.

(** [w'] comes from [w] by calls that are all [allowed], with the
    pending-pod set as it was and no record touched but the one under
    [key]. *)
Definition touches (allowed : Event -> bool) (key : string) (w w' : World)
  : Prop :=
  pendingPods w' = pendingPods w /\
  (exists evs, trace w' = trace w ++ evs /\ forallb allowed evs = true) /\
  (forall k, k <> key -> store w' !! k = store w !! k).

(** The world an allocation branch ends in. *)
Definition branchWorld (b : allocBranch) : World :=
  match b with
  | Returned _ _ _ _ w => w
  | Continue _ _ _ _ w => w
  end.

(** The key of a pod's record. *)
Definition podKey (pod : PodInfo) : string :=
  podInfoKey (Namespace pod) (Name pod).

(** [k] is not the key of the record of the pod a request for
    [namespace]/[name] is about. *)
Definition otherRecord (env : Env) (namespace name k : string) : Prop :=
  match GetPod env namespace name with
  | inr pod => k <> podKey pod
  | inl _ => True
  end.

(** [tr'] is [tr] followed by calls of a first kind and then calls of a
    second kind only. *)
Definition callsAfter (first second : Event -> bool) (tr tr' : list Event)
  : Prop :=
  exists evs1 evs2,
    tr' = tr ++ evs1 ++ evs2 /\
    forallb first evs1 = true /\ forallb second evs2 = true.

(** Every record of [w'] is a record of [w], under the same key and
    unchanged: from [w] to [w'] records were only deleted. *)
Definition onlyDeletes (w w' : World) : Prop :=
  forall k rec, store w' !! k = Some rec -> store w !! k = Some rec.

(** The store of [w] holds, under the key of [pod], a record of that pod
    made for the network namespace and the sandbox of the request [r]. *)
Definition recorded (r : AllocIPRequest) (pod : PodInfo) (w : World) : Prop :=
  exists rec info,
    store w !! podKey pod = Some rec /\
    NetNs rec = Some (aNetns r) /\
    ContainerID rec = Some (aK8SPodInfraContainerId r) /\
    ResPodInfo rec = Some info /\
    Namespace info = Namespace pod /\ Name info = Name pod.

(** The managers a daemon mode needs are set. *)
Definition wired (n : networkService) : Prop :=
  (daemonMode n = daemonModeVPC /\ vethResMgr n = true /\ eniResMgr n = true) \/
  (daemonMode n = daemonModeENIMultiIP /\ eniIPResMgr n = true) \/
  (daemonMode n = daemonModeENIOnly /\ eniResMgr n = true).

(** The type of the item has a manager. *)
Definition managed (n : networkService) (item : ResourceItem) : bool :=
  match getResourceManagerForRes n (ResType item) with
  | Some _ => true
  | None => false
  end.

(** Every manager takes back every resource of the pod, or says that the
    resource is in no state to be released. *)
Definition releasesAccepted (env : Env) (pod : PodInfo) : Prop :=
  forall mgr item,
    mgrRelease env mgr pod item = None \/
    mgrRelease env mgr pod item = Some ErrInvalidState.

(** ** Further sample inputs *)

Definition withRelease (f : Mgr -> PodInfo -> ResourceItem -> option error)
           (env : Env) : Env :=
  mkEnv (GetPod env) (GetLocalPods env) (WaitPodENIInfo env)
        (GetPodENIInfo env) (GetServiceCIDR env) (GetNodeCidr env)
        (vethAllocate env) (eniAllocate env) (eniIPAllocate env)
        (eipAllocate env) f (eniStat env) (eniIPStat env)
        (mgrGarbageCollection env) (trunkENI env)
        (dbGetErr env) (dbPutErr env) (dbDeleteErr env) (dbListErr env)
        (ctxErr env) (DeriveGatewayIP env) (ParseCIDR env).

(** Every manager refuses to take a resource back. *)
Definition exReleaseFailEnv : Env :=
  withRelease (fun _ _ _ => Some (ErrMsg "eni is busy")) (exEnv exPlainPod).

Definition withLocalPods (pods : error + list PodInfo) (env : Env) : Env :=
  mkEnv (GetPod env) pods (WaitPodENIInfo env)
        (GetPodENIInfo env) (GetServiceCIDR env) (GetNodeCidr env)
        (vethAllocate env) (eniAllocate env) (eniIPAllocate env)
        (eipAllocate env) (mgrRelease env) (eniStat env) (eniIPStat env)
        (mgrGarbageCollection env) (trunkENI env)
        (dbGetErr env) (dbPutErr env) (dbDeleteErr env) (dbListErr env)
        (ctxErr env) (DeriveGatewayIP env) (ParseCIDR env).

(** The pod is among the local pods, its sandbox alive. *)
Definition exLiveEnv (pod : PodInfo) : Env :=
  withLocalPods (inr [pod]) (exEnv pod).

(** ** Vocabulary of the configuration *)

(** [a] stands before [b] in the byte order of strings. *)
Definition strictlyBefore (a b : string) : Prop := String.ltb a b = true.

(** The security group is configured: it is the single group of the
    configuration (when that is not empty) or one of the listed ones. *)
Definition configuredGroup (cfg : daemon.Config) (sg : string) : Prop :=
  (sg = daemon.SecurityGroup cfg /\ sg <> "") \/
  In sg (daemon.SecurityGroups cfg).

(** A sample configuration: two groups, one of them named twice, and
    vSwitches in two zones. *)
Definition exConfig : daemon.Config :=
  daemon.mkConfig "" "" 
    (Some (<["zone-a" := ["vsw-1"; "vsw-2"]]> (<["zone-b" := []]> ∅)))
    None 5 0 0 0 "sg-2" ["sg-1"; "sg-2"] float64Zero 0 "" "" false ""
    ["10.0.0.0/8"] false false false.

Definition exInstance : InstanceMeta :=
  mkInstanceMeta "zone-b" "vsw-9" "vpc-1" "i-1".

(** ** Vocabulary of the period check and of the start-up *)



(** The entry of [localResource] for a resource type and id. *)
Definition restored
           (localResource : gmap string (gmap string resourceManagerInitItem))
           (resType resID : string) : option resourceManagerInitItem :=
  match localResource !! resType with
  | Some items => items !! resID
  | None => None
  end.

(** A PodENI object with one allocation on the trunk ENI of the node. *)
Definition exAllocation : Allocation :=
  mkAllocation "192.168.1.5" "" "192.168.1.0/24" "" "eni-9"
               "00:16:3e:00:00:09" "eth0" ["10.0.0.0/8"] false.

Definition exPodENI : PodENIObject :=
  mkPodENI [exAllocation] "eni-1" {[ "eni-9" := 101 ]}.

Definition exTrunkPod : PodInfo :=
  mkPodInfo "default" "web-0" podNetworkTypeENIMultiIP true false 0 0 "" 0
            (mkIPSet "" "") false.

Definition exPodENIEnv : Env :=
  withPodENI (fun _ => inr exPodENI) (exEnv exTrunkPod).

(** The pool of the sample mapping: what the manager answers. *)
Definition exPoolOf (mgr : Mgr) : error + list string * list string :=
  inr (exLocal, ["eni-c"]).

Definition exBoundWorld : World :=
  mkWorld {[ "default/web-0" :=
               mkPodResources [mkResourceItem ResourceTypeENIIP "eni-b" []]
                              (Some exPlainPod) None None ]} ∅ [].

(** The entry is the one the CRD assembly makes for the allocation, but
    for the default route, which the policy may set afterwards: interface
    name and extra routes of the allocation, the addresses of the
    allocation as the pod's, and the pod's traffic settings. *)
Definition followsAllocation (podInfo : PodInfo) (alloc : Allocation)
           (conf : NetConf) : Prop :=
  IfName conf = alInterface alloc /\
  ExtraRoutes conf = alExtraRoutes alloc /\
  NCPod conf = Some (podOf podInfo) /\
  exists basic,
    NCBasicInfo conf = Some basic /\
    PodIP basic = Some (mkIPSet (alIPv4 alloc) (alIPv6 alloc)).

(** The ENI part of the entry says that the pod goes through the trunk
    ENI, with the VLAN id the PodENI status gives for the allocation. *)
Definition onTrunk (podEni : PodENIObject) (trunk : ENI) (alloc : Allocation)
           (conf : NetConf) : Prop :=
  exists vid,
    peENIInfos podEni !! alENIID alloc = Some vid /\
    NCENIInfo conf = Some (mkENIInfo (eniMAC trunk) true (uint32 vid)
                                     (eniGatewayIP trunk)).

(** * Properties *)

(** ** The default-route policy *)

Lemma defaultIf_eq (name : string) :
  defaultIf name = String.eqb name "" || String.eqb name IfEth0.
Proof. unfold defaultIf. destruct (_ || _); reflexivity. Qed.

Lemma setDefaultRoute_marked (c : NetConf) : markedDefault c (setDefaultRoute c).
Proof. repeat split. Qed.

Lemma scanNetConf_duplicated (l : list NetConf) (drs dis : bool) :
  (2 <= defaultRoutes l + (if drs then 1 else 0))%nat ->
  scanNetConf l drs dis = inl (ErrMsg "default route is dumplicated").
Proof.
  revert drs dis. unfold defaultRoutes.
  induction l as [|c l IH]; intros drs dis H; simpl in *.
  - destruct drs; lia.
  - destruct (DefaultRoute c) eqn:Hc; simpl in *.
    + destruct drs; simpl; [reflexivity|].
      apply IH. simpl. lia.
    + rewrite orb_false_r. apply IH. lia.
Qed.

Lemma scanNetConf_flags (l : list NetConf) (drs dis : bool) :
  (defaultRoutes l + (if drs then 1 else 0) <= 1)%nat ->
  scanNetConf l drs dis =
  inr (drs || negb (Nat.eqb (defaultRoutes l) 0), dis || hasDefaultIf l).
Proof.
  revert drs dis. unfold defaultRoutes, hasDefaultIf.
  induction l as [|c l IH]; intros drs dis H; simpl in *.
  - rewrite !orb_false_r. reflexivity.
  - destruct (DefaultRoute c) eqn:Hc; simpl in *.
    + destruct drs; [lia|]. simpl.
      rewrite IH by (simpl; lia). simpl.
      destruct (defaultIf (IfName c)); simpl;
        [rewrite orb_true_r | ]; reflexivity.
    + rewrite orb_false_r, andb_false_l || rewrite orb_false_r.
      rewrite IH by lia.
      destruct (defaultIf (IfName c)); simpl;
        [rewrite orb_true_r | ]; reflexivity.
Qed.

Lemma markFirstDefaultIf_first (l : list NetConf) :
  hasDefaultIf l = true ->
  exists pre c post,
    l = pre ++ c :: post /\
    Forall (fun x => defaultIf (IfName x) = false) pre /\
    defaultIf (IfName c) = true /\
    markFirstDefaultIf l = pre ++ setDefaultRoute c :: post.
Proof.
  unfold hasDefaultIf. induction l as [|c l IH]; simpl; intros H.
  - discriminate.
  - rewrite <- defaultIf_eq.
    destruct (defaultIf (IfName c)) eqn:Hc.
    + exists [], c, l. repeat split; auto.
    + simpl in H. destruct (IH H) as (pre & c0 & post & -> & Hpre & Hc0 & Hm).
      exists (c :: pre), c0, post. rewrite Hm. repeat split; auto.
Qed.

Lemma markFirstDefaultIf_length (l : list NetConf) :
  length (markFirstDefaultIf l) = length l.
Proof.
  induction l as [|x xs IH]; simpl; [reflexivity|].
  destruct (_ || _); simpl; congruence.
Qed.

Lemma defaultForNetConf_length (l l' : list NetConf) (e : option error) :
  defaultForNetConf l = (e, l') -> length l' = length l.
Proof.
  unfold defaultForNetConf. destruct l as [|c l]; [intros [= <- <-]; reflexivity|].
  destruct (scanNetConf (c :: l) false false) as [err|[drs dis]].
  - intros [= <- <-]. reflexivity.
  - destruct (negb dis); [intros [= <- <-]; reflexivity|].
    destruct (negb drs); intros [= <- <-]; [|reflexivity].
    apply (markFirstDefaultIf_length (c :: l)).
Qed.

(** C2, as amended: on a non-empty list, two or more default routes are an
    error, no default interface is an error, and otherwise a list without a
    default route gets it on exactly the first default interface (every
    other entry and every other field unchanged), while a list with one
    default route is left as it is. An error leaves the list untouched. *)
Theorem defaultForNetConf_policy (netConf : list NetConf) :
  netConf <> [] ->
  ((2 <= defaultRoutes netConf)%nat ->
   exists e, defaultForNetConf netConf = (Some e, netConf)) /\
  (hasDefaultIf netConf = false ->
   exists e, defaultForNetConf netConf = (Some e, netConf)) /\
  (defaultRoutes netConf = 0%nat -> hasDefaultIf netConf = true ->
   exists pre c c' post,
     netConf = pre ++ c :: post /\
     Forall (fun x => defaultIf (IfName x) = false) pre /\
     defaultIf (IfName c) = true /\
     markedDefault c c' /\
     defaultForNetConf netConf = (None, pre ++ c' :: post)) /\
  (defaultRoutes netConf = 1%nat -> hasDefaultIf netConf = true ->
   defaultForNetConf netConf = (None, netConf)).
Proof.
  intros Hne. destruct netConf as [|c0 l0]; [congruence|].
  set (l := c0 :: l0) in *.
  assert (Hdef : defaultForNetConf l =
                 match scanNetConf l false false with
                 | inl e => (Some e, l)
                 | inr (drs, dis) =>
                     if negb dis
                     then (Some (ErrMsg "default interface is not set"), l)
                     else if negb drs then (None, markFirstDefaultIf l)
                          else (None, l)
                 end) by reflexivity.
  rewrite Hdef. clearbody l. clear Hdef Hne.
  repeat split.
  - intros H2. rewrite scanNetConf_duplicated by lia. eauto.
  - intros Hif.
    destruct (Nat.le_gt_cases 2 (defaultRoutes l)) as [H2|H1].
    + rewrite scanNetConf_duplicated by lia. eauto.
    + rewrite scanNetConf_flags by lia. simpl. rewrite Hif. simpl. eauto.
  - intros H0 Hif. rewrite scanNetConf_flags by lia.
    rewrite H0, Hif. simpl.
    destruct (markFirstDefaultIf_first l Hif) as (pre & c & post & E & Hp & Hc & Hm).
    exists pre, c, (setDefaultRoute c), post.
    rewrite Hm. repeat split; auto.
  - intros H1 Hif. rewrite scanNetConf_flags by lia.
    rewrite H1, Hif. reflexivity.
Qed.

Lemma defaultForNetConf_policy_witness :
  exNetConfs <> [] /\
  (defaultRoutes exNetConfs = 0%nat -> hasDefaultIf exNetConfs = true ->
   exists pre c c' post,
     exNetConfs = pre ++ c :: post /\
     Forall (fun x => defaultIf (IfName x) = false) pre /\
     defaultIf (IfName c) = true /\
     markedDefault c c' /\
     defaultForNetConf exNetConfs = (None, pre ++ c' :: post)).
Proof.
  split; [discriminate|].
  apply (defaultForNetConf_policy exNetConfs). discriminate.
Defined.

Example defaultForNetConf_marks_first :
  defaultForNetConf exNetConfs =
  (None, [exConf "net1" false; exConf "" true; exConf "eth0" false]).
Proof. reflexivity. Qed.

(** C2, as stated, fails on the empty list: no entry is a default
    interface, and yet no error is returned. *)
Lemma defaultForNetConf_nil_counterexample :
  ~ ((forall c : NetConf, In c [] -> defaultIf (IfName c) = false) ->
     exists e, fst (defaultForNetConf []) = Some e).
Proof.
  intros H. destruct H as [e He].
  - intros c [].
  - simpl in He. discriminate.
Qed.

(** ** In place and by value

    On a slice of good pointers the in-place function returns what
    [defaultForNetConf] returns on the entries; when no entry occurs twice
    in the slice, the entries read afterwards are the list it returns. *)

Lemma scanInPlace_by_value h ptrs confs drs dis :
  readAll h ptrs = Some confs ->
  scanInPlace h ptrs drs dis = Some (scanNetConf confs drs dis).
Proof.
  revert confs drs dis. induction ptrs as [|p rest IH]; intros confs drs dis.
  - intros [= <-]. reflexivity.
  - cbn [readAll scanInPlace]. destruct (h !! p) as [c|]; [|discriminate].
    destruct (readAll h rest) as [cs|]; [|discriminate].
    intros [= <-]. cbn [scanNetConf].
    destruct (DefaultRoute c && drs); [reflexivity|]. apply IH. reflexivity.
Qed.

Lemma readAll_insert_fresh h ptrs p c :
  p ∉ ptrs -> readAll (<[p := c]> h) ptrs = readAll h ptrs.
Proof.
  induction ptrs as [|q rest IH]; intros Hp; [reflexivity|].
  apply not_elem_of_cons in Hp as [Hne Hp]. cbn [readAll].
  rewrite lookup_insert_ne by congruence. rewrite IH by assumption. reflexivity.
Qed.

Lemma markInPlace_by_value h ptrs confs :
  NoDup ptrs -> readAll h ptrs = Some confs ->
  exists h', markInPlace h ptrs = Some h' /\
             readAll h' ptrs = Some (markFirstDefaultIf confs) /\
             (forall q, q ∉ ptrs -> h' !! q = h !! q).
Proof.
  intros Hnd. revert confs. induction Hnd as [|p rest Hp Hnd IH]; intros confs.
  - intros [= <-]. exists h. auto.
  - cbn [readAll markInPlace]. destruct (h !! p) as [c|] eqn:Hc; [|discriminate].
    destruct (readAll h rest) as [cs|] eqn:Hcs; [|discriminate].
    intros [= <-]. cbn [markFirstDefaultIf].
    destruct (String.eqb (IfName c) "" || String.eqb (IfName c) IfEth0).
    + eexists. split; [reflexivity|]. split.
      * cbn [readAll]. rewrite lookup_insert_eq.
        rewrite readAll_insert_fresh, Hcs by assumption. reflexivity.
      * intros q Hq. apply not_elem_of_cons in Hq as [Hne _].
        apply lookup_insert_ne. congruence.
    + destruct (IH cs eq_refl) as (h' & Hm & Hr & Hother).
      exists h'. split; [assumption|]. split.
      * cbn [readAll]. rewrite (Hother p Hp), Hc, Hr. reflexivity.
      * intros q Hq. apply not_elem_of_cons in Hq as [_ Hq]. auto.
Qed.

Theorem defaultForNetConfInPlace_by_value h ptrs confs :
  NoDup ptrs -> readAll h ptrs = Some confs ->
  exists h',
    defaultForNetConfInPlace h ptrs
    = Some (fst (defaultForNetConf confs), h') /\
    readAll h' ptrs = Some (snd (defaultForNetConf confs)) /\
    (forall q, q ∉ ptrs -> h' !! q = h !! q).
Proof.
  intros Hnd Hr. destruct ptrs as [|p rest].
  - injection Hr as <-. exists h. auto.
  - assert (Hne : exists c cs, confs = c :: cs).
    { cbn [readAll] in Hr. destruct (h !! p); [|discriminate].
      destruct (readAll h rest); [|discriminate]. injection Hr as <-. eauto. }
    destruct Hne as (c & cs & ->).
    unfold defaultForNetConfInPlace, defaultForNetConf.
    rewrite (scanInPlace_by_value h (p :: rest) (c :: cs) false false Hr).
    destruct (scanNetConf (c :: cs) false false) as [e|[drs dis]].
    + exists h. auto.
    + destruct (negb dis); [exists h; auto|].
      destruct (negb drs); [|exists h; auto].
      destruct (markInPlace_by_value h (p :: rest) (c :: cs) Hnd Hr)
        as (h' & -> & Hr' & Hother).
      exists h'. auto.
Qed.

(** The same entry twice in the slice: the write through the first
    position shows at the second as well. *)
Example defaultForNetConfInPlace_shared_entry :
  exists h',
    defaultForNetConfInPlace {[ 0%nat := exConf "" false ]} [0%nat; 0%nat]
    = Some (None, h') /\
    readAll h' [0%nat; 0%nat] = Some [exConf "" true; exConf "" true].
Proof. eexists. split; vm_compute; reflexivity. Qed.

(** ** The sample services are services [newNetworkService] builds *)

Example exServiceMultiIP_wired :
  newNetworkService daemonModeENIMultiIP true false true false IPAMTypeDefault
  = Some exServiceMultiIP.
Proof. reflexivity. Qed.

Example exServiceVPC_wired :
  newNetworkService daemonModeVPC false false true false IPAMTypeDefault
  = Some exServiceVPC.
Proof. reflexivity. Qed.

Example exServiceENIOnlyCRD_wired :
  newNetworkService daemonModeENIOnly false false true false IPAMTypeCRD
  = Some exServiceENIOnlyCRD.
Proof. reflexivity. Qed.

Example exServiceMultiIPCRD_wired :
  newNetworkService daemonModeENIMultiIP false true true false IPAMTypeCRD
  = Some exServiceMultiIPCRD.
Proof. reflexivity. Qed.

(** ** The pending-pod set and the store across a call *)

Lemma delPending_addPending (key : string) (w : World) :
  key ∉ pendingPods w -> delPending key (addPending key w) = w.
Proof.
  intros H. destruct w as [s p t]. unfold delPending, addPending. simpl in *.
  f_equal. apply set_eq. intros x.
  rewrite elem_of_difference, elem_of_union, elem_of_singleton.
  split; [tauto|]. intros Hx. split; [auto|]. intros ->. contradiction.
Qed.

Lemma getPodResource_addPending env key w pod :
  getPodResource env (addPending key w) pod = getPodResource env w pod.
Proof. reflexivity. Qed.

Lemma getPodResource_stored env w pod rec :
  dbGetErr env (podInfoKey (Namespace pod) (Name pod)) = None ->
  store w !! podInfoKey (Namespace pod) (Name pod) = Some rec ->
  getPodResource env w pod = inr rec.
Proof.
  intros Hg Hs. unfold getPodResource, dbGet. rewrite Hg, Hs. reflexivity.
Qed.

Lemma getPodResource_absent env w pod :
  dbGetErr env (podInfoKey (Namespace pod) (Name pod)) = None ->
  store w !! podInfoKey (Namespace pod) (Name pod) = None ->
  getPodResource env w pod = inr emptyPodResources.
Proof.
  intros Hg Hs. unfold getPodResource, dbGet. rewrite Hg, Hs. reflexivity.
Qed.

(** ** The mode policy (C7) *)

Lemma verifyPodNetworkType_accepted (mode podNetworkType : string) :
  verifyPodNetworkType mode podNetworkType = true <->
  acceptedPair mode podNetworkType.
Proof.
  unfold verifyPodNetworkType, acceptedPair.
  rewrite !orb_true_iff, !andb_true_iff, !orb_true_iff, !String.eqb_eq.
  tauto.
Qed.

Lemma ReleaseIP_foreign env n w r pod :
  podInfoKey (rK8SPodNamespace r) (rK8SPodName r) ∉ pendingPods w ->
  GetPod env (rK8SPodNamespace r) (rK8SPodName r) = inr pod ->
  dbGetErr env (podInfoKey (Namespace pod) (Name pod)) = None ->
  verifyPodNetworkType (daemonMode n) (PodNetworkType pod) = false ->
  ReleaseIP env n w r = (releaseOk n, w).
Proof.
  intros Hp Hg Hd Hv. unfold ReleaseIP.
  destruct (decide _) as [Hin|_]; [contradiction|].
  rewrite Hg. unfold getPodResource, dbGet. rewrite Hd. simpl.
  destruct (store w !! _); simpl; rewrite Hv; simpl;
    rewrite delPending_addPending by assumption; reflexivity.
Qed.

Lemma allocBody_foreign env n r pod w :
  verifyPodNetworkType (daemonMode n) (PodNetworkType pod) = false ->
  exists e err,
    allocBody env n r pod w = mkAllocFrame (Err e) err [] pod [] w.
Proof.
  intros Hv. unfold allocBody.
  destruct (getPodResource env w pod) as [e|oldRes]; [eauto|].
  rewrite Hv. simpl. eauto.
Qed.

Lemma allocDeferred_nothing env n ret err pod w :
  allocDeferred env n (mkAllocFrame ret err [] pod [] w) = w.
Proof. unfold allocDeferred. destruct err; reflexivity. Qed.

Lemma AllocIP_foreign env n w r pod :
  GetPod env (aK8SPodNamespace r) (aK8SPodName r) = inr pod ->
  verifyPodNetworkType (daemonMode n) (PodNetworkType pod) = false ->
  (exists e, fst (AllocIP env n w r) = Err e) /\ snd (AllocIP env n w r) = w.
Proof.
  intros Hg Hv. unfold AllocIP.
  destruct (decide _) as [Hin|Hp]; [simpl; eauto|].
  rewrite Hg.
  destruct (allocBody_foreign env n r pod
              (addPending (podInfoKey (aK8SPodNamespace r) (aK8SPodName r)) w) Hv)
    as (e & err & ->).
  cbn [fRet fWorld fst snd]. rewrite allocDeferred_nothing.
  rewrite delPending_addPending by assumption. eauto.
Qed.

Lemma ReleaseIP_unreadable env n w r pod e :
  podInfoKey (rK8SPodNamespace r) (rK8SPodName r) ∉ pendingPods w ->
  GetPod env (rK8SPodNamespace r) (rK8SPodName r) = inr pod ->
  getPodResource env w pod = inl e ->
  ReleaseIP env n w r = (Err e, w).
Proof.
  intros Hp Hg Hd. unfold ReleaseIP.
  destruct (decide _) as [Hin|_]; [contradiction|].
  rewrite Hg, getPodResource_addPending, Hd.
  rewrite delPending_addPending by assumption. reflexivity.
Qed.

Lemma ReleaseIP_foreign_read env n w r pod old :
  podInfoKey (rK8SPodNamespace r) (rK8SPodName r) ∉ pendingPods w ->
  GetPod env (rK8SPodNamespace r) (rK8SPodName r) = inr pod ->
  getPodResource env w pod = inr old ->
  verifyPodNetworkType (daemonMode n) (PodNetworkType pod) = false ->
  ReleaseIP env n w r = (releaseOk n, w).
Proof.
  intros Hp Hg Hd Hv. unfold ReleaseIP.
  destruct (decide _) as [Hin|_]; [contradiction|].
  rewrite Hg, getPodResource_addPending, Hd, Hv. simpl.
  rewrite delPending_addPending by assumption. reflexivity.
Qed.

(** C7, as amended: a (daemon mode, pod network type) pair passes the check
    exactly when it is in the table; for a pod whose pair is not in the
    table, [AllocIP] returns an error and leaves store and managers alone,
    and [ReleaseIP], the request admitted, leaves store and managers alone
    and answers by what the read of the pod's record gave, which comes
    before the check: success when the store could be read (the record
    found or not), and the error of the store when it could not. *)
Theorem mode_policy env n w ra rr pod :
  GetPod env (aK8SPodNamespace ra) (aK8SPodName ra) = inr pod ->
  GetPod env (rK8SPodNamespace rr) (rK8SPodName rr) = inr pod ->
  podInfoKey (rK8SPodNamespace rr) (rK8SPodName rr) ∉ pendingPods w ->
  (forall mode podNetworkType,
      verifyPodNetworkType mode podNetworkType = true <->
      acceptedPair mode podNetworkType) /\
  (~ acceptedPair (daemonMode n) (PodNetworkType pod) ->
   (exists e, fst (AllocIP env n w ra) = Err e) /\
   snd (AllocIP env n w ra) = w /\
   (forall old, getPodResource env w pod = inr old ->
                ReleaseIP env n w rr = (releaseOk n, w)) /\
   (forall e, getPodResource env w pod = inl e ->
              ReleaseIP env n w rr = (Err e, w))).
Proof.
  intros Hga Hgr Hp. split; [apply verifyPodNetworkType_accepted|].
  intros Hna.
  assert (Hv : verifyPodNetworkType (daemonMode n) (PodNetworkType pod) = false).
  { destruct (verifyPodNetworkType _ _) eqn:E; [|reflexivity].
    apply verifyPodNetworkType_accepted in E. contradiction. }
  destruct (AllocIP_foreign env n w ra pod Hga Hv) as [He Hw].
  split; [exact He|]. split; [exact Hw|]. split.
  - intros old Hold. apply ReleaseIP_foreign_read with pod old; assumption.
  - intros e Herr. apply ReleaseIP_unreadable with pod; assumption.
Qed.

(** Releasing an [ENIMultiIP] pod under daemon mode [VPC]. *)
Lemma mode_policy_witness :
  (forall mode podNetworkType,
      verifyPodNetworkType mode podNetworkType = true <->
      acceptedPair mode podNetworkType) /\
  (~ acceptedPair (daemonMode exServiceVPC)
       (PodNetworkType (exPod podNetworkTypeENIMultiIP 0)) ->
   (exists e,
       fst (AllocIP (exEnv (exPod podNetworkTypeENIMultiIP 0)) exServiceVPC
                    (exWorld [("default/web-0",
                               exRecord (exPod podNetworkTypeENIMultiIP 0))])
                    exAllocReq) = Err e) /\
   snd (AllocIP (exEnv (exPod podNetworkTypeENIMultiIP 0)) exServiceVPC
                (exWorld [("default/web-0",
                           exRecord (exPod podNetworkTypeENIMultiIP 0))])
                exAllocReq)
   = exWorld [("default/web-0", exRecord (exPod podNetworkTypeENIMultiIP 0))] /\
   (forall old,
       getPodResource (exEnv (exPod podNetworkTypeENIMultiIP 0))
                      (exWorld [("default/web-0",
                                 exRecord (exPod podNetworkTypeENIMultiIP 0))])
                      (exPod podNetworkTypeENIMultiIP 0) = inr old ->
       ReleaseIP (exEnv (exPod podNetworkTypeENIMultiIP 0)) exServiceVPC
                 (exWorld [("default/web-0",
                            exRecord (exPod podNetworkTypeENIMultiIP 0))])
                 (exReleaseReq "sandbox-A")
       = (releaseOk exServiceVPC,
          exWorld [("default/web-0",
                    exRecord (exPod podNetworkTypeENIMultiIP 0))])) /\
   (forall e,
       getPodResource (exEnv (exPod podNetworkTypeENIMultiIP 0))
                      (exWorld [("default/web-0",
                                 exRecord (exPod podNetworkTypeENIMultiIP 0))])
                      (exPod podNetworkTypeENIMultiIP 0) = inl e ->
       ReleaseIP (exEnv (exPod podNetworkTypeENIMultiIP 0)) exServiceVPC
                 (exWorld [("default/web-0",
                            exRecord (exPod podNetworkTypeENIMultiIP 0))])
                 (exReleaseReq "sandbox-A")
       = (Err e,
          exWorld [("default/web-0",
                    exRecord (exPod podNetworkTypeENIMultiIP 0))]))).
Proof.
  apply (mode_policy (exEnv (exPod podNetworkTypeENIMultiIP 0)) exServiceVPC
                     (exWorld [("default/web-0",
                                exRecord (exPod podNetworkTypeENIMultiIP 0))])
                     exAllocReq (exReleaseReq "sandbox-A")
                     (exPod podNetworkTypeENIMultiIP 0)).
  - reflexivity.
  - reflexivity.
  - vm_compute. intros H. inversion H.
Defined.

(** Under daemon mode [VPC] an [ENIMultiIP] pod is foreign, and its release
    succeeds with no manager call and the record still stored. *)
Example cross_mode_release :
  ~ acceptedPair daemonModeVPC podNetworkTypeENIMultiIP /\
  ReleaseIP (exEnv (exPod podNetworkTypeENIMultiIP 0)) exServiceVPC
            (exWorld [("default/web-0",
                       exRecord (exPod podNetworkTypeENIMultiIP 0))])
            (exReleaseReq "sandbox-A")
  = (releaseOk exServiceVPC,
     exWorld [("default/web-0", exRecord (exPod podNetworkTypeENIMultiIP 0))]).
Proof.
  split.
  - rewrite <- verifyPodNetworkType_accepted. discriminate.
  - apply ReleaseIP_foreign with (exPod podNetworkTypeENIMultiIP 0);
      try reflexivity.
    vm_compute. intros H. inversion H.
Qed.

(** C7, as stated, fails when the store cannot be read: the record of the
    pod is read before the check of the pair, so the release of an
    [ENIMultiIP] pod under daemon mode [VPC] returns the error of the
    store, and not a success reply. *)
Lemma mode_policy_unreadable_store_counterexample :
  ~ acceptedPair daemonModeVPC podNetworkTypeENIMultiIP /\
  ReleaseIP (exStoreFailEnv (exPod podNetworkTypeENIMultiIP 0)) exServiceVPC
            (exWorld [("default/web-0",
                       exRecord (exPod podNetworkTypeENIMultiIP 0))])
            (exReleaseReq "sandbox-A")
  = (Err (ErrMsg "database not open"),
     exWorld [("default/web-0", exRecord (exPod podNetworkTypeENIMultiIP 0))]).
Proof.
  split.
  - rewrite <- verifyPodNetworkType_accepted. discriminate.
  - apply ReleaseIP_unreadable with (exPod podNetworkTypeENIMultiIP 0);
      try reflexivity.
    vm_compute. intros H. inversion H.
Qed.

(** ** Releases that leave everything in place (C3, C6) *)

Lemma releaseResources_sticky env n pod resources w :
  IPStickTime pod <> 0 ->
  releaseResources env n pod resources w = (None, w).
Proof.
  intros Hs. apply Z.eqb_neq in Hs.
  induction resources as [|res rest IH]; simpl; [reflexivity|].
  destruct (getResourceManagerForRes n (ResType res)); [rewrite Hs|]; exact IH.
Qed.

(** What [ReleaseIP] does once the request is admitted, the pod found and
    the old record read, with the mode check passed and the sandbox not
    stale. *)
Lemma ReleaseIP_reaches_loop env n w r pod oldRes :
  podInfoKey (rK8SPodNamespace r) (rK8SPodName r) ∉ pendingPods w ->
  GetPod env (rK8SPodNamespace r) (rK8SPodName r) = inr pod ->
  getPodResource env w pod = inr oldRes ->
  verifyPodNetworkType (daemonMode n) (PodNetworkType pod) = true ->
  (forall stored, ContainerID oldRes = Some stored ->
                  rK8SPodInfraContainerId r = stored) ->
  ReleaseIP env n w r =
  let key := podInfoKey (rK8SPodNamespace r) (rK8SPodName r) in
  match releaseResources env n pod (Resources oldRes) (addPending key w) with
  | (Some e, w1) => (Err e, delPending key w1)
  | (None, w1) =>
      match ctxErr env with
      | Some e => (Err (ErrWrap "error on grpc connection" e), delPending key w1)
      | None => (releaseOk n, delPending key w1)
      end
  end.
Proof.
  intros Hp Hg Ho Hv Hc. unfold ReleaseIP.
  destruct (decide _) as [Hin|_]; [contradiction|].
  rewrite Hg, getPodResource_addPending, Ho, Hv. cbn [negb].
  assert (Hstale : match ContainerID oldRes with
                   | Some stored =>
                       negb (String.eqb (rK8SPodInfraContainerId r) stored)
                   | None => false
                   end = false).
  { destruct (ContainerID oldRes) as [stored|]; [|reflexivity].
    rewrite (Hc stored eq_refl), String.eqb_refl. reflexivity. }
  rewrite Hstale. cbv zeta.
  destruct (releaseResources _ _ _ _ _) as [[e|] w1]; [reflexivity|].
  destruct (ctxErr env); reflexivity.
Qed.

(** C3, as amended: when the pod's [IPStickTime] is positive (the request
    admitted, the pod and its record read, mode and sandbox matching),
    [ReleaseIP] calls no manager and leaves the store as it is, whatever
    the request context; it answers success when the context is alive, and
    the context's error when it is cancelled. *)
Theorem sticky_release env n w r pod oldRes :
  podInfoKey (rK8SPodNamespace r) (rK8SPodName r) ∉ pendingPods w ->
  GetPod env (rK8SPodNamespace r) (rK8SPodName r) = inr pod ->
  getPodResource env w pod = inr oldRes ->
  verifyPodNetworkType (daemonMode n) (PodNetworkType pod) = true ->
  (forall stored, ContainerID oldRes = Some stored ->
                  rK8SPodInfraContainerId r = stored) ->
  0 < IPStickTime pod ->
  snd (ReleaseIP env n w r) = w /\
  (ctxErr env = None -> fst (ReleaseIP env n w r) = releaseOk n) /\
  (forall e, ctxErr env = Some e ->
             fst (ReleaseIP env n w r)
             = Err (ErrWrap "error on grpc connection" e)).
Proof.
  intros Hp Hg Ho Hv Hc Hs.
  rewrite (ReleaseIP_reaches_loop env n w r pod oldRes Hp Hg Ho Hv Hc).
  cbv zeta. rewrite releaseResources_sticky by lia.
  rewrite delPending_addPending by assumption.
  destruct (ctxErr env) as [e|]; cbn [fst snd].
  - repeat split; [discriminate | intros e' [= <-]; reflexivity].
  - repeat split. discriminate.
Qed.

Lemma sticky_release_witness :
  snd (ReleaseIP (exEnv exStickyPod) exServiceMultiIP exStickyWorld
                 (exReleaseReq "sandbox-A")) = exStickyWorld /\
  (ctxErr (exEnv exStickyPod) = None ->
   fst (ReleaseIP (exEnv exStickyPod) exServiceMultiIP exStickyWorld
                  (exReleaseReq "sandbox-A")) = releaseOk exServiceMultiIP) /\
  (forall e, ctxErr (exEnv exStickyPod) = Some e ->
             fst (ReleaseIP (exEnv exStickyPod) exServiceMultiIP exStickyWorld
                            (exReleaseReq "sandbox-A"))
             = Err (ErrWrap "error on grpc connection" e)).
Proof.
  apply (sticky_release (exEnv exStickyPod) exServiceMultiIP exStickyWorld
                        (exReleaseReq "sandbox-A") exStickyPod
                        (exRecord exStickyPod)).
  - vm_compute. intros H. inversion H.
  - reflexivity.
  - reflexivity.
  - reflexivity.
  - intros stored [= <-]. reflexivity.
  - reflexivity.
Defined.

(** C3, as stated, fails when the request context is cancelled: the pod is
    sticky, mode and sandbox match, and the call returns an error. *)
Lemma sticky_release_cancelled_counterexample :
  0 < IPStickTime exStickyPod /\
  verifyPodNetworkType (daemonMode exServiceMultiIP)
                       (PodNetworkType exStickyPod) = true /\
  ContainerID (exRecord exStickyPod)
  = Some (rK8SPodInfraContainerId (exReleaseReq "sandbox-A")) /\
  fst (ReleaseIP (withCtxErr (Some (ErrCtx "context canceled"))
                             (exEnv exStickyPod))
                 exServiceMultiIP exStickyWorld (exReleaseReq "sandbox-A"))
  = Err (ErrWrap "error on grpc connection" (ErrCtx "context canceled")).
Proof. repeat split. Qed.

(** C6: when the stored record carries another sandbox's container id (the
    request admitted, the pod and its record read), [ReleaseIP] answers
    success, calls no manager and leaves the store as it is, whether or not
    the mode check passes. *)
Theorem stale_sandbox_release env n w r pod oldRes stored :
  podInfoKey (rK8SPodNamespace r) (rK8SPodName r) ∉ pendingPods w ->
  GetPod env (rK8SPodNamespace r) (rK8SPodName r) = inr pod ->
  dbGetErr env (podInfoKey (Namespace pod) (Name pod)) = None ->
  store w !! podInfoKey (Namespace pod) (Name pod) = Some oldRes ->
  ContainerID oldRes = Some stored ->
  rK8SPodInfraContainerId r <> stored ->
  ReleaseIP env n w r = (releaseOk n, w).
Proof.
  intros Hp Hg Hd Hs Hc Hne. unfold ReleaseIP.
  destruct (decide _) as [Hin|_]; [contradiction|].
  rewrite Hg, getPodResource_addPending.
  rewrite (getPodResource_stored env w pod oldRes Hd Hs), Hc.
  apply String.eqb_neq in Hne. rewrite Hne.
  destruct (verifyPodNetworkType _ _); cbn [negb];
    rewrite delPending_addPending by assumption; reflexivity.
Qed.

Lemma stale_sandbox_release_witness :
  ReleaseIP (exEnv exPlainPod) exServiceMultiIP exPlainWorld
            (exReleaseReq "sandbox-B")
  = (releaseOk exServiceMultiIP, exPlainWorld).
Proof.
  apply (stale_sandbox_release (exEnv exPlainPod) exServiceMultiIP exPlainWorld
                               (exReleaseReq "sandbox-B") exPlainPod
                               (exRecord exPlainPod) "sandbox-A").
  - vm_compute. intros H. inversion H.
  - reflexivity.
  - reflexivity.
  - reflexivity.
  - reflexivity.
  - discriminate.
Defined.

(** The same pod released by its own sandbox: the manager is called and
    the record goes. *)
Example own_sandbox_release :
  releasesOf (trace (snd (ReleaseIP (exEnv exPlainPod) exServiceMultiIP
                                    exPlainWorld (exReleaseReq "sandbox-A"))))
  = [EvRelease MgrENIIP exPlainPod exENIIPItem] /\
  store (snd (ReleaseIP (exEnv exPlainPod) exServiceMultiIP exPlainWorld
                        (exReleaseReq "sandbox-A"))) !! "default/web-0" = None.
Proof. split; reflexivity. Qed.

(** ** Allocation: what reaches the deferred function *)

Lemma surfaces_refl e : surfaces e e.
Proof. left. reflexivity. Qed.

Lemma surfaces_fmt msg e : surfaces (ErrFmt msg e) e.
Proof. right. left. eauto. Qed.

Lemma surfaces_wrap msg e : surfaces (ErrWrap msg e) e.
Proof. right. right. eauto. Qed.

Lemma surfaces_rootCause e cause : surfaces e cause -> rootCause e = rootCause cause.
Proof. intros [->|[[msg ->]|[msg ->]]]; reflexivity. Qed.

Create HintDb alloc.
#[local] Hint Resolve surfaces_refl surfaces_fmt surfaces_wrap : alloc.

Lemma putRecord_ok env r pod resources w step resources' pod' w' :
  putRecord env r pod resources w = (step, resources', pod', w') ->
  pod' = pod /\ resources' = resources /\
  match step with
  | StepPanic => False
  | StepFail ret e => surfaces ret e
  | StepDone => True
  end.
Proof.
  unfold putRecord. destruct (dbPut _ _ _ _) as [[e|] w1];
    intros [= <- <- <- <-]; auto with alloc.
Qed.

Lemma eipAndPut_ok env n r pod old items ips w step resources pod' w' :
  eipAndPut env n r pod old items ips w = (step, resources, pod', w') ->
  Namespace pod' = Namespace pod /\ Name pod' = Name pod /\
  match step with
  | StepPanic => True
  | StepFail ret e => surfaces ret e
  | StepDone => True
  end.
Proof.
  unfold eipAndPut. destruct (eipResMgr n && PodEip pod).
  - destruct (allocateEIP _ _ _ _ _) as [[eip|e|] w1].
    + intros H. apply putRecord_ok in H as (-> & _ & Hs).
      destruct step; auto; contradiction.
    + intros [= <- <- <- <-]. auto with alloc.
    + intros [= <- <- <- <-]. auto.
  - intros H. apply putRecord_ok in H as (-> & _ & Hs).
    destruct step; auto; contradiction.
Qed.

Lemma defaultForNetConf_nonempty l l' :
  defaultForNetConf l = (None, l') -> l <> [] -> l' <> [].
Proof.
  intros H Hne. apply defaultForNetConf_length in H.
  destruct l; [congruence|]. destruct l'; [discriminate|congruence].
Qed.

Lemma existsb_nonempty {A} (f : A -> bool) (l : list A) :
  existsb f l = true -> l <> [].
Proof. destruct l; [discriminate|congruence]. Qed.

Lemma allocENIMultiIP_ok env n r pod old w :
  branchOk pod (allocENIMultiIP env n r pod old w).
Proof.
  unfold allocENIMultiIP.
  destruct (multiIPFromCRD env n pod true) as [netConf|e|]; simpl; auto with alloc.
  destruct (existsb _ netConf) eqn:Hex; cbn [negb].
  - destruct (defaultForNetConf netConf) as [[e|] netConf'] eqn:Hd; simpl;
      auto with alloc.
    repeat split; auto.
    eapply defaultForNetConf_nonempty; eauto using existsb_nonempty.
  - destruct (allocateENIMultiIP _ _ _ _ _) as [[eniIP|e|] w1]; simpl;
      auto with alloc.
    destruct (eipAndPut _ _ _ _ _ _ _ _) as [[[step resources] pod'] w2] eqn:He.
    apply eipAndPut_ok in He as (Hns & Hn & Hs).
    destruct step; simpl; auto.
    destruct (defaultForNetConf _) as [[e|] netConf'] eqn:Hd; simpl;
      auto with alloc.
    repeat split; auto.
    eapply defaultForNetConf_nonempty; eauto.
    destruct netConf; discriminate.
Qed.

Lemma exclusiveENIConfs_length env pod podEni trunk allocs confs :
  exclusiveENIConfs env pod podEni trunk allocs = inr confs ->
  length confs = length allocs.
Proof.
  revert confs. induction allocs as [|alloc rest IH]; simpl; intros confs.
  - intros [= <-]. reflexivity.
  - destruct (allocAddrs env alloc) as [e|[[podIP cidr] gw]]; [discriminate|].
    destruct trunk as [t|].
    + destruct (peENIInfos podEni !! alENIID alloc); [|discriminate].
      destruct (exclusiveENIConfs _ _ _ _ rest) as [e|confs']; [discriminate|].
      intros [= <-]. simpl. f_equal. auto.
    + destruct (exclusiveENIConfs _ _ _ _ rest) as [e|confs']; [discriminate|].
      intros [= <-]. simpl. f_equal. auto.
Qed.

Lemma requestCRD_allocations env n pod waitReady podEni :
  requestCRD env n pod waitReady = inr (Some podEni) ->
  peAllocations podEni <> [].
Proof.
  unfold requestCRD. destruct (_ || _); [|discriminate].
  destruct (if waitReady then _ else _) as [e|podENI]; [discriminate|].
  destruct (length (peAllocations podENI) <=? 0)%nat eqn:Hl; [discriminate|].
  intros [= <-]. destruct (peAllocations podENI); [discriminate|congruence].
Qed.

Lemma exclusiveENIFromCRD_nonempty env n pod waitReady confs :
  exclusiveENIFromCRD env n pod waitReady = Ok confs -> confs <> [].
Proof.
  unfold exclusiveENIFromCRD.
  destruct (requestCRD env n pod waitReady) as [e|[podEni|]] eqn:Hr;
    [discriminate| |].
  - apply requestCRD_allocations in Hr.
    destruct (if enableTrunk n then _ else _) as [trunk|e|]; try discriminate.
    destruct (exclusiveENIConfs _ _ _ _ _) as [e|confs0] eqn:Hc; [discriminate|].
    apply exclusiveENIConfs_length in Hc.
    destruct (defaultForNetConf confs0) as [[e|] confs'] eqn:Hd; [discriminate|].
    intros [= <-]. eapply defaultForNetConf_nonempty; eauto.
    destruct confs0; [|discriminate].
    destruct (peAllocations podEni); [congruence|discriminate].
  - destruct (if enableTrunk n then _ else _) as [trunk|e|]; discriminate.
Qed.

Lemma allocVPCENI_ok env n r pod old w :
  branchOk pod (allocVPCENI env n r pod old w).
Proof.
  unfold allocVPCENI. destruct (isIPAMTypeCRD (ipamType n)).
  - destruct (exclusiveENIFromCRD env n pod true) as [confs|e|] eqn:Hx; simpl;
      auto with alloc.
    repeat split; auto. eapply exclusiveENIFromCRD_nonempty; eauto.
  - destruct (allocateENI _ _ _ _ _) as [[eni|e|] w1]; simpl; auto with alloc.
    destruct (eipAndPut _ _ _ _ _ _ _ _) as [[[step resources] pod'] w2] eqn:He.
    apply eipAndPut_ok in He as (Hns & Hn & Hs).
    destruct step; simpl; auto.
Qed.

Lemma allocVPCIP_ok env n r pod old w :
  branchOk pod (allocVPCIP env n r pod old w).
Proof.
  unfold allocVPCIP.
  destruct (allocateVeth _ _ _ _ _) as [[veth|e|] w1]; simpl; auto with alloc.
  destruct (dbPut _ _ _ _) as [[e|] w2]; simpl; auto with alloc.
Qed.

Lemma allocSwitch_ok env n r pod old w :
  branchOk pod (allocSwitch env n r pod old w).
Proof.
  unfold allocSwitch.
  destruct (String.eqb _ podNetworkTypeENIMultiIP); [apply allocENIMultiIP_ok|].
  destruct (String.eqb _ podNetworkTypeVPCENI); [apply allocVPCENI_ok|].
  destruct (String.eqb _ podNetworkTypeVPCIP); [apply allocVPCIP_ok|].
  simpl. auto.
Qed.

Lemma allocBody_ok env n r pod w : frameOk pod (allocBody env n r pod w).
Proof.
  unfold allocBody, frameOk.
  destruct (getPodResource env w pod) as [e|old]; simpl; auto with alloc.
  destruct (verifyPodNetworkType _ _); simpl; auto.
  pose proof (allocSwitch_ok env n r pod old w) as Hb.
  destruct (allocSwitch env n r pod old w)
    as [ret err resources pod' w'|ipType netConf resources pod' w']; simpl in *.
  - destruct Hb as (Hns & Hn & Hr). repeat split; auto.
    destruct ret; auto. contradiction.
  - destruct Hb as (Hns & Hn & Hne).
    destruct (ctxErr env); simpl; repeat split; auto with alloc.
Qed.

(** ** The rollback *)

Lemma store_logEvent ev w : store (logEvent ev w) = store w.
Proof. reflexivity. Qed.

Lemma rollback_trace env n pod resources w :
  trace (rollback env n pod resources w)
  = trace w ++ rollbackReleases n pod resources.
Proof.
  revert w. induction resources as [|res rest IH]; intros w; simpl.
  - rewrite app_nil_r. reflexivity.
  - assert (Ht : trace (snd (deletePodResource env w pod)) = trace w).
    { unfold deletePodResource, dbDelete. destruct (dbDeleteErr env _); reflexivity. }
    destruct (getResourceManagerForRes n (ResType res)) as [mgr|]; rewrite IH.
    + simpl. rewrite Ht, <- app_assoc. reflexivity.
    + rewrite Ht. reflexivity.
Qed.

Lemma rollback_pending env n pod resources w :
  pendingPods (rollback env n pod resources w) = pendingPods w.
Proof.
  revert w. induction resources as [|res rest IH]; intros w; simpl; [reflexivity|].
  assert (Ht : pendingPods (snd (deletePodResource env w pod)) = pendingPods w).
  { unfold deletePodResource, dbDelete. destruct (dbDeleteErr env _); reflexivity. }
  destruct (getResourceManagerForRes n (ResType res)); rewrite IH; exact Ht.
Qed.

Lemma rollback_store env n pod resources w :
  resources <> [] ->
  dbDeleteErr env (podInfoKey (Namespace pod) (Name pod)) = None ->
  store (rollback env n pod resources w)
  = delete (podInfoKey (Namespace pod) (Name pod)) (store w).
Proof.
  intros Hne Hd.
  assert (Hdel : forall w0, store (snd (deletePodResource env w0 pod))
                            = delete (podInfoKey (Namespace pod) (Name pod))
                                     (store w0)).
  { intros w0. unfold deletePodResource, dbDelete. rewrite Hd. reflexivity. }
  assert (Hgo : forall rs w0,
             store w0 !! podInfoKey (Namespace pod) (Name pod) = None ->
             store (rollback env n pod rs w0) = store w0).
  { induction rs as [|res rest IH]; intros w0 Hnone; simpl; [reflexivity|].
    destruct (getResourceManagerForRes n (ResType res));
      rewrite IH; rewrite ?store_logEvent, Hdel;
      try apply lookup_delete_eq; apply delete_id; assumption. }
  destruct resources as [|res rest]; [congruence|]. simpl.
  destruct (getResourceManagerForRes n (ResType res));
    rewrite Hgo; rewrite ?store_logEvent, Hdel;
    try reflexivity; apply lookup_delete_eq.
Qed.

Lemma rollback_no_resources env n pod w : rollback env n pod [] w = w.
Proof. reflexivity. Qed.

(** ** Rollback completeness (C1) *)

Lemma AllocIP_admitted env n w r pod :
  podInfoKey (aK8SPodNamespace r) (aK8SPodName r) ∉ pendingPods w ->
  GetPod env (aK8SPodNamespace r) (aK8SPodName r) = inr pod ->
  AllocIP env n w r =
  let key := podInfoKey (aK8SPodNamespace r) (aK8SPodName r) in
  let f := allocBody env n r pod (addPending key w) in
  match fRet f with
  | Panic => (Panic, fWorld f)
  | ret => (ret, delPending key (allocDeferred env n f))
  end.
Proof.
  intros Hp Hg. unfold AllocIP.
  destruct (decide _) as [Hin|_]; [contradiction|].
  rewrite Hg. reflexivity.
Qed.

(** C1, as amended: when [AllocIP] returns an error after at least one
    resource item was recorded in the request context (the request
    admitted, the pod found, the store's delete not failing), the store
    holds no record for the pod afterwards; the calls made by the rollback
    are exactly one [Release] per recorded item, in order, by the manager
    of the item's type; and the error returned is the error that stopped
    the allocation, as it is or inside a message built around it. *)
Theorem rollback_completeness env n w r pod :
  let key := podInfoKey (aK8SPodNamespace r) (aK8SPodName r) in
  let f := allocBody env n r pod (addPending key w) in
  let after := snd (AllocIP env n w r) in
  key ∉ pendingPods w ->
  GetPod env (aK8SPodNamespace r) (aK8SPodName r) = inr pod ->
  (exists e, fst (AllocIP env n w r) = Err e) ->
  fResources f <> [] ->
  dbDeleteErr env (podInfoKey (Namespace pod) (Name pod)) = None ->
  store after !! podInfoKey (Namespace pod) (Name pod) = None /\
  trace after
  = trace (fWorld f) ++ rollbackReleases n (fPod f) (fResources f) /\
  (forall item mgr,
      In item (fResources f) ->
      getResourceManagerForRes n (ResType item) = Some mgr ->
      In (EvRelease mgr (fPod f) item) (trace after)) /\
  (exists e cause,
      fst (AllocIP env n w r) = Err e /\ fErr f = Some cause /\
      surfaces e cause).
Proof.
  intros key f after Hp Hg [e He] Hres Hdel. subst after.
  rewrite (AllocIP_admitted env n w r pod Hp Hg) in *. cbv zeta in *.
  fold key in He |- *. fold f in He |- *.
  pose proof (allocBody_ok env n r pod (addPending key w)) as Hok.
  fold f in Hok. destruct Hok as (Hns & Hn & Hret).
  destruct (fRet f) as [reply|e0|] eqn:Hf; cbn [fst snd] in *; try discriminate.
  destruct Hret as [Herr _].
  destruct (fErr f) as [cause|] eqn:Hfe; [|contradiction].
  unfold allocDeferred. rewrite Hfe.
  assert (Htrace :
            trace (delPending key
                     (rollback env n (fPod f) (fResources f) (fWorld f)))
            = trace (fWorld f) ++ rollbackReleases n (fPod f) (fResources f)).
  { unfold delPending. cbn [trace]. apply rollback_trace. }
  repeat split.
  - unfold delPending. cbn [store].
    rewrite rollback_store; rewrite ?Hns, ?Hn; auto.
    apply lookup_delete_eq.
  - exact Htrace.
  - intros item mgr Hin Hm. rewrite Htrace. apply in_or_app. right.
    unfold rollbackReleases. apply in_flat_map. exists item.
    rewrite Hm. split; [assumption | left; reflexivity].
  - exists e0, cause. auto.
Qed.

(** The EIP manager fails after the ENI-IP manager has answered. *)
Lemma rollback_completeness_witness :
  store (snd (AllocIP exEipFailEnv exServiceMultiIP (exWorld []) exAllocReq))
    !! podInfoKey (Namespace exEipPod) (Name exEipPod) = None /\
  trace (snd (AllocIP exEipFailEnv exServiceMultiIP (exWorld []) exAllocReq))
  = trace (fWorld (allocBody exEipFailEnv exServiceMultiIP exAllocReq exEipPod
                     (addPending "default/web-0" (exWorld []))))
    ++ rollbackReleases exServiceMultiIP
         (fPod (allocBody exEipFailEnv exServiceMultiIP exAllocReq exEipPod
                  (addPending "default/web-0" (exWorld []))))
         (fResources (allocBody exEipFailEnv exServiceMultiIP exAllocReq
                        exEipPod (addPending "default/web-0" (exWorld [])))) /\
  (forall item mgr,
      In item (fResources (allocBody exEipFailEnv exServiceMultiIP exAllocReq
                             exEipPod (addPending "default/web-0" (exWorld [])))) ->
      getResourceManagerForRes exServiceMultiIP (ResType item) = Some mgr ->
      In (EvRelease mgr
            (fPod (allocBody exEipFailEnv exServiceMultiIP exAllocReq exEipPod
                     (addPending "default/web-0" (exWorld []))))
            item)
         (trace (snd (AllocIP exEipFailEnv exServiceMultiIP (exWorld [])
                              exAllocReq)))) /\
  (exists e cause,
      fst (AllocIP exEipFailEnv exServiceMultiIP (exWorld []) exAllocReq) = Err e /\
      fErr (allocBody exEipFailEnv exServiceMultiIP exAllocReq exEipPod
              (addPending "default/web-0" (exWorld []))) = Some cause /\
      surfaces e cause).
Proof.
  apply (rollback_completeness exEipFailEnv exServiceMultiIP (exWorld [])
                               exAllocReq exEipPod).
  - vm_compute. intros H. inversion H.
  - reflexivity.
  - eexists. vm_compute. reflexivity.
  - vm_compute. discriminate.
  - reflexivity.
Defined.

(** The same call, spelled out: the ENI-IP that was handed out is released
    by its manager, nothing is stored, and the caller sees the EIP error. *)
Example rollback_after_eip_failure :
  fst (AllocIP exEipFailEnv exServiceMultiIP (exWorld []) exAllocReq)
  = Err (ErrFmt "error get allocated eip" (ErrMsg "eip quota exceeded")) /\
  store (snd (AllocIP exEipFailEnv exServiceMultiIP (exWorld []) exAllocReq))
  = ∅ /\
  releasesOf (trace (snd (AllocIP exEipFailEnv exServiceMultiIP (exWorld [])
                                  exAllocReq)))
  = [EvRelease MgrENIIP (setPodIPs exEipPod (mkIPSet "192.168.0.11" ""))
               exENIIPItem].
Proof. repeat split; vm_compute; reflexivity. Qed.

(** C1, as stated, fails when the pod already has a record and the first
    manager refuses: allocation has begun (the manager was asked), the
    call returns the manager's error, nothing was recorded in the request
    context, and the old record is still in the store. *)
Lemma rollback_keeps_old_record_counterexample :
  fst (AllocIP exEniIPFailEnv exServiceMultiIP exPlainWorld exAllocReq)
  = Err (ErrFmt "error get allocated eniip ip" (ErrMsg "no free address")) /\
  trace (snd (AllocIP exEniIPFailEnv exServiceMultiIP exPlainWorld exAllocReq))
  = [EvAllocate MgrENIIP exPlainPod "00:16:3e:00:00:01.192.168.0.11"] /\
  store (snd (AllocIP exEniIPFailEnv exServiceMultiIP exPlainWorld exAllocReq))
    !! "default/web-0" = Some (exRecord exPlainPod).
Proof. repeat split; vm_compute; reflexivity. Qed.

(** ** Replies without NetConfs (C10) *)

Lemma AllocIP_success_has_netconf env n w r reply w' :
  AllocIP env n w r = (Ok reply, w') ->
  aSuccess reply = true /\ aNetConfs reply <> [].
Proof.
  unfold AllocIP. destruct (decide _); [discriminate|].
  destruct (GetPod env _ _) as [e|pod]; [discriminate|].
  pose proof (allocBody_ok env n r pod
                (addPending (podInfoKey (aK8SPodNamespace r) (aK8SPodName r)) w))
    as (_ & _ & Hret).
  destruct (fRet _) as [reply0|e|]; try discriminate.
  intros [= <- _]. tauto.
Qed.

(** C10, as amended: on the empty list [defaultForNetConf] returns no
    error and makes no check, so a [GetIPInfo] reply can carry zero
    NetConfs with no error; an [AllocIP] reply cannot: whenever [AllocIP]
    succeeds its reply carries at least one NetConf. *)
Theorem empty_netconf_edge_case :
  (hasDefaultIf [] = false /\ defaultForNetConf [] = (None, [])) /\
  (exists env n w r reply,
      GetIPInfo env n w r = InfoReturn (Some reply) None /\
      gError reply = ErrNone /\ gNetConfs reply = []) /\
  (forall env n w r reply w',
      AllocIP env n w r = (Ok reply, w') ->
      aSuccess reply = true /\ aNetConfs reply <> []).
Proof.
  split; [split; reflexivity|]. split.
  - exists (exEnv exPlainPod), exServiceMultiIP, (exWorld []), exInfoReq.
    eexists. split; [vm_compute; reflexivity|]. split; reflexivity.
  - apply AllocIP_success_has_netconf.
Qed.

(** C10, as stated, fails for [AllocIP]: no successful reply of it carries
    zero NetConfs. *)
Lemma alloc_reply_empty_counterexample :
  ~ (exists env n w r reply w',
        AllocIP env n w r = (Ok reply, w') /\ aNetConfs reply = []).
Proof.
  intros (env & n & w & r & reply & w' & H & Hnil).
  apply AllocIP_success_has_netconf in H as [_ Hne]. contradiction.
Qed.

(** ** The PodENI object is not ready (C5) *)

Lemma requestCRD_crd_error env n pod (waitReady : bool) e :
  ipamType n = IPAMTypeCRD ->
  (if waitReady then WaitPodENIInfo env pod else GetPodENIInfo env pod) = inl e ->
  requestCRD env n pod waitReady = inl e.
Proof.
  intros Hi He. unfold requestCRD. rewrite Hi. cbn [isIPAMTypeCRD orb].
  rewrite He. reflexivity.
Qed.

Lemma requestCRD_no_allocation env n pod (waitReady : bool) podENI :
  ipamType n = IPAMTypeCRD ->
  (if waitReady then WaitPodENIInfo env pod else GetPodENIInfo env pod)
  = inr podENI ->
  peAllocations podENI = [] ->
  requestCRD env n pod waitReady = inl (ErrMsg "podENI has no allocation info").
Proof.
  intros Hi He Ha. unfold requestCRD. rewrite Hi. cbn [isIPAMTypeCRD orb].
  rewrite He, Ha. reflexivity.
Qed.

Lemma GetIPInfo_VPCENI_crd env n w r pod podRes :
  GetPod env (gK8SPodNamespace r) (gK8SPodName r) = inr pod ->
  verifyPodNetworkType (daemonMode n) (PodNetworkType pod) = true ->
  PodNetworkType pod = podNetworkTypeVPCENI ->
  ipamType n = IPAMTypeCRD ->
  getPodResource env w pod = inr podRes ->
  (forall stored, ContainerID podRes = Some stored ->
                  gK8SPodInfraContainerId r = stored) ->
  forall e, requestCRD env n pod false = inl e ->
  GetIPInfo env n w r
  = InfoReturn
      (Some (infoReply n TypeVPCENI
                       (if IsNotFound e then ErrCRDNotFound else ErrNone)
                       [] false))
      None.
Proof.
  intros Hg Hv Ht Hi Ho Hc e He. unfold GetIPInfo.
  rewrite Hg, Hv, Ho. cbn [negb].
  assert (Hstale : match ContainerID podRes with
                   | Some stored =>
                       negb (String.eqb (gK8SPodInfraContainerId r) stored)
                   | None => false
                   end = false).
  { destruct (ContainerID podRes) as [stored|]; [|reflexivity].
    rewrite (Hc stored eq_refl), String.eqb_refl. reflexivity. }
  rewrite Hstale, Ht. cbn [String.eqb Ascii.eqb Bool.eqb
                           podNetworkTypeVPCENI podNetworkTypeENIMultiIP
                           podNetworkTypeVPCIP].
  unfold infoVPCENI, exclusiveENIFromCRD. rewrite Hi, He. reflexivity.
Qed.

(** C5, as amended: for a [VPCENI] pod under CRD IPAM (mode check passed,
    record read, sandbox not stale), a failed read of the PodENI object
    makes [GetIPInfo] return a reply with no NetConfs and no error of its
    own; the reply's [Error] is [ErrCRDNotFound] exactly when the read
    failed with a Kubernetes not-found error. A PodENI object that exists
    with zero allocations gives the same empty reply with no [Error]. *)
Theorem info_crd_not_ready env n w r pod podRes :
  GetPod env (gK8SPodNamespace r) (gK8SPodName r) = inr pod ->
  verifyPodNetworkType (daemonMode n) (PodNetworkType pod) = true ->
  PodNetworkType pod = podNetworkTypeVPCENI ->
  ipamType n = IPAMTypeCRD ->
  getPodResource env w pod = inr podRes ->
  (forall stored, ContainerID podRes = Some stored ->
                  gK8SPodInfraContainerId r = stored) ->
  (forall e, GetPodENIInfo env pod = inl e ->
             GetIPInfo env n w r
             = InfoReturn
                 (Some (infoReply n TypeVPCENI
                                  (if IsNotFound e then ErrCRDNotFound
                                   else ErrNone) [] false))
                 None) /\
  (forall podENI, GetPodENIInfo env pod = inr podENI ->
                  peAllocations podENI = [] ->
                  GetIPInfo env n w r
                  = InfoReturn (Some (infoReply n TypeVPCENI ErrNone [] false))
                               None).
Proof.
  intros Hg Hv Ht Hi Ho Hc. split.
  - intros e He.
    apply (GetIPInfo_VPCENI_crd env n w r pod podRes Hg Hv Ht Hi Ho Hc e).
    apply requestCRD_crd_error; assumption.
  - intros podENI He Ha.
    apply (GetIPInfo_VPCENI_crd env n w r pod podRes Hg Hv Ht Hi Ho Hc
             (ErrMsg "podENI has no allocation info")).
    apply requestCRD_no_allocation with podENI; assumption.
Qed.

Lemma info_crd_not_ready_witness :
  (forall e, GetPodENIInfo (exEnv exENIPod) exENIPod = inl e ->
             GetIPInfo (exEnv exENIPod) exServiceENIOnlyCRD (exWorld []) exInfoReq
             = InfoReturn
                 (Some (infoReply exServiceENIOnlyCRD TypeVPCENI
                                  (if IsNotFound e then ErrCRDNotFound
                                   else ErrNone) [] false))
                 None) /\
  (forall podENI, GetPodENIInfo (exEnv exENIPod) exENIPod = inr podENI ->
                  peAllocations podENI = [] ->
                  GetIPInfo (exEnv exENIPod) exServiceENIOnlyCRD (exWorld [])
                            exInfoReq
                  = InfoReturn (Some (infoReply exServiceENIOnlyCRD TypeVPCENI
                                                ErrNone [] false))
                               None).
Proof.
  apply (info_crd_not_ready (exEnv exENIPod) exServiceENIOnlyCRD (exWorld [])
                            exInfoReq exENIPod emptyPodResources).
  - reflexivity.
  - reflexivity.
  - reflexivity.
  - reflexivity.
  - reflexivity.
  - intros stored H. discriminate H.
Defined.

(** The PodENI object is missing: the reply says so. *)
Example info_crd_missing :
  GetIPInfo (exEnv exENIPod) exServiceENIOnlyCRD (exWorld []) exInfoReq
  = InfoReturn (Some (infoReply exServiceENIOnlyCRD TypeVPCENI ErrCRDNotFound
                                [] false)) None.
Proof. vm_compute. reflexivity. Qed.

(** C5, as stated, fails twice. A PodENI object with zero allocations is
    not reported as [ErrCRDNotFound]; and for an [ENIMultiIP] pod whose
    PodENI object is missing, the reply has no [Error] and, when the pod
    holds an ENI-IP, a NetConf. *)
Lemma info_crd_not_found_counterexample :
  GetIPInfo exNoAllocEnv exServiceENIOnlyCRD (exWorld []) exInfoReq
  = InfoReturn (Some (infoReply exServiceENIOnlyCRD TypeVPCENI ErrNone [] false))
               None /\
  GetPodENIInfo (exEnv exPlainPod) exPlainPod = inl ErrK8sNotFound /\
  exists reply,
    GetIPInfo (exEnv exPlainPod) exServiceMultiIPCRD exPlainWorld exInfoReq
    = InfoReturn (Some reply) None /\
    gError reply = ErrNone /\ length (gNetConfs reply) = 1%nat.
Proof.
  split; [vm_compute; reflexivity|]. split; [reflexivity|].
  eexists. split; [vm_compute; reflexivity|]. split; reflexivity.
Qed.

(** ** The classification of a tick *)

Lemma setOfType_insert_empty_None (sets : resSets) ty ty' :
  sets !! ty = None ->
  setOfType (<[ty := ∅]> sets) ty' = setOfType sets ty'.
Proof.
  intros Hn. unfold setOfType.
  destruct (decide (ty = ty')) as [<-|Hne].
  - rewrite lookup_insert_eq, Hn. reflexivity.
  - rewrite lookup_insert_ne by assumption. reflexivity.
Qed.

Lemma setOfType_alter (f : gmap string ResourceItem -> gmap string ResourceItem)
      (sets : resSets) ty ty' :
  is_Some (sets !! ty) ->
  setOfType (alter f ty sets) ty'
  = if decide (ty = ty') then f (setOfType sets ty) else setOfType sets ty'.
Proof.
  intros [m Hm]. unfold setOfType. destruct (decide (ty = ty')) as [<-|Hne].
  - rewrite lookup_alter_eq, Hm. reflexivity.
  - rewrite lookup_alter_ne by assumption. reflexivity.
Qed.

Lemma alter_None_iff {A} (f : A -> A) (m : gmap string A) ty ty' :
  alter f ty m !! ty' = None <-> m !! ty' = None.
Proof.
  destruct (decide (ty = ty')) as [<-|Hne].
  - rewrite lookup_alter_eq. destruct (m !! ty); simpl; split; congruence.
  - rewrite lookup_alter_ne by assumption. reflexivity.
Qed.

(** One item: what becomes of the two sets. *)
Lemma classifyItem_sets (podExist : bool) (sets : resSets * resSets)
      (res : ResourceItem) :
  setsAligned sets ->
  let sets' := classifyItem podExist sets res in
  setsAligned sets' /\
  (forall ty id,
      inSet (fst sets') ty id <->
      inSet (fst sets) ty id \/
      (podExist = true /\ ty = ResType res /\ id = ResID res)) /\
  (forall ty id,
      inSet (snd sets') ty id <->
      (inSet (snd sets) ty id /\
       ~ (podExist = true /\ ty = ResType res /\ id = ResID res)) \/
      (podExist = false /\ ty = ResType res /\ id = ResID res /\
       ~ inSet (fst sets) ty id)).
Proof.
  destruct sets as [iu ex]. intros [Hdom Hdis]. cbn [fst snd] in *.
  (* the sets after the two maps of the type are made, if need be *)
  set (iu0 := match iu !! ResType res with
              | Some _ => iu | None => <[ResType res := ∅]> iu end).
  set (ex0 := match iu !! ResType res with
              | Some _ => ex | None => <[ResType res := ∅]> ex end).
  assert (Hiu0 : forall ty, setOfType iu0 ty = setOfType iu ty).
  { intros ty. subst iu0. destruct (iu !! ResType res) eqn:E; [reflexivity|].
    apply setOfType_insert_empty_None; assumption. }
  assert (Hex0 : forall ty, setOfType ex0 ty = setOfType ex ty).
  { intros ty. subst ex0. destruct (iu !! ResType res) eqn:E; [reflexivity|].
    apply setOfType_insert_empty_None. apply Hdom; assumption. }
  assert (Hdom0 : forall ty, iu0 !! ty = None <-> ex0 !! ty = None).
  { intros ty. subst iu0 ex0. destruct (iu !! ResType res) eqn:E; [apply Hdom|].
    destruct (decide (ResType res = ty)) as [<-|Hne].
    - rewrite !lookup_insert_eq. split; discriminate.
    - rewrite !lookup_insert_ne by assumption. apply Hdom. }
  assert (Hsome_iu : is_Some (iu0 !! ResType res)).
  { subst iu0. destruct (iu !! ResType res) eqn:E; [rewrite E; eauto|].
    rewrite lookup_insert_eq. eauto. }
  assert (Hsome_ex : is_Some (ex0 !! ResType res)).
  { destruct (ex0 !! ResType res) eqn:E; [eauto|].
    apply Hdom0 in E. destruct Hsome_iu as [m Hm]. congruence. }
  assert (Hstep : classifyItem podExist (iu, ex) res =
                  match setOfType iu0 (ResType res) !! ResID res with
                  | Some _ => (iu0, ex0)
                  | None =>
                      if podExist
                      then (alter (insert (ResID res) res) (ResType res) iu0,
                            alter (delete (ResID res)) (ResType res) ex0)
                      else (iu0,
                            alter (insert (ResID res) res) (ResType res) ex0)
                  end).
  { unfold classifyItem. subst iu0 ex0.
    destruct (iu !! ResType res); reflexivity. }
  cbv zeta. rewrite Hstep. clear Hstep. unfold setsAligned, inSet in *.
  rewrite Hiu0.
  destruct (setOfType iu (ResType res) !! ResID res) as [held|] eqn:Hheld.
  - (* already in use by others *)
    cbn [fst snd]. split; [split|split].
    + exact Hdom0.
    + intros ty id. rewrite Hiu0, Hex0. apply Hdis.
    + intros ty id. rewrite Hiu0. split; [auto|].
      intros [H|(_ & -> & ->)]; [assumption|]. rewrite Hheld. eauto.
    + intros ty id. rewrite Hex0. split.
      * intros H. left. split; [assumption|].
        intros (_ & -> & ->). apply (Hdis (ResType res) (ResID res)); [|assumption].
        rewrite Hheld. eauto.
      * intros [[H _]|(_ & -> & -> & Hn)]; [assumption|].
        exfalso. apply Hn. rewrite Hheld. eauto.
  - destruct podExist; cbn [fst snd].
    + (* the record is present: in use, and no longer expired *)
      split; [split|split].
      * intros ty. rewrite !alter_None_iff. apply Hdom0.
      * intros ty id. rewrite !setOfType_alter by assumption.
        destruct (decide (ResType res = ty)) as [<-|Hne];
          rewrite ?Hiu0, ?Hex0; [|apply Hdis].
        destruct (decide (ResID res = id)) as [<-|Hni].
        -- rewrite lookup_delete_eq. intros _ [x Hx]. discriminate.
        -- rewrite lookup_insert_ne, lookup_delete_ne by assumption.
           apply Hdis.
      * intros ty id. rewrite setOfType_alter by assumption.
        destruct (decide (ResType res = ty)) as [<-|Hne]; rewrite ?Hiu0.
        -- destruct (decide (ResID res = id)) as [<-|Hni].
           ++ rewrite lookup_insert_eq. split; [intros _; right; auto | eauto].
           ++ rewrite lookup_insert_ne by assumption. split; [auto|].
              intros [H|(_ & _ & ->)]; [assumption | congruence].
        -- split; [auto|]. intros [H|(_ & -> & _)]; [assumption | congruence].
      * intros ty id. rewrite setOfType_alter by assumption.
        destruct (decide (ResType res = ty)) as [<-|Hne]; rewrite ?Hex0.
        -- destruct (decide (ResID res = id)) as [<-|Hni].
           ++ rewrite lookup_delete_eq. split.
              ** intros [x Hx]. discriminate.
              ** intros [[_ Hn]|(Hf & _)]; [exfalso; apply Hn; auto | discriminate].
           ++ rewrite lookup_delete_ne by assumption. split.
              ** intros H. left. split; [assumption|]. intros (_ & _ & ->). congruence.
              ** intros [[H _]|(Hf & _)]; [assumption | discriminate].
        -- split.
           ++ intros H. left. split; [assumption|]. intros (_ & -> & _). congruence.
           ++ intros [[H _]|(Hf & _)]; [assumption | discriminate].
    + (* the record is gone: expired, unless in use *)
      split; [split|split].
      * intros ty. rewrite alter_None_iff. apply Hdom0.
      * intros ty id. rewrite setOfType_alter by assumption.
        destruct (decide (ResType res = ty)) as [<-|Hne];
          rewrite ?Hiu0, ?Hex0; [|apply Hdis].
        destruct (decide (ResID res = id)) as [<-|Hni].
        -- rewrite Hheld. intros [x Hx]. discriminate.
        -- rewrite lookup_insert_ne by assumption. apply Hdis.
      * intros ty id. rewrite Hiu0. split; [auto|].
        intros [H|(Hf & _)]; [assumption | discriminate].
      * intros ty id. rewrite setOfType_alter by assumption.
        destruct (decide (ResType res = ty)) as [<-|Hne]; rewrite ?Hex0, ?Hiu0.
        -- destruct (decide (ResID res = id)) as [<-|Hni].
           ++ rewrite lookup_insert_eq. split; [|eauto].
              intros _. right. repeat split; auto.
              rewrite Hheld. intros [x Hx]. discriminate.
           ++ rewrite lookup_insert_ne by assumption. split.
              ** intros H. left. split; [assumption|]. intros (Hf & _). discriminate.
              ** intros [[H _]|(_ & _ & -> & _)]; [assumption | congruence].
        -- split.
           ++ intros H. left. split; [assumption|]. intros (Hf & _). discriminate.
           ++ intros [[H _]|(_ & -> & _)]; [assumption | congruence].
Qed.

Lemma heldBy_cons (x : bool * ResourceItem) items present ty id :
  heldBy (x :: items) present ty id <->
  (fst x = present /\ ResType (snd x) = ty /\ ResID (snd x) = id) \/
  heldBy items present ty id.
Proof.
  unfold heldBy. split.
  - intros (item & [Hx|Hin] & Ht & Hi).
    + left. subst x. auto.
    + right. eauto.
  - intros [(Hb & Ht & Hi)|(item & Hin & Ht & Hi)].
    + exists (snd x). destruct x as [b it]. simpl in *. subst b. auto.
    + exists item. simpl. auto.
Qed.

Lemma heldBy_nil present ty id : ~ heldBy [] present ty id.
Proof. intros (item & [] & _). Qed.

Lemma heldBy_app items1 items2 present ty id :
  heldBy (items1 ++ items2) present ty id <->
  heldBy items1 present ty id \/ heldBy items2 present ty id.
Proof.
  unfold heldBy. split.
  - intros (item & Hin & H). apply in_app_or in Hin as [Hin|Hin]; eauto.
  - intros [(item & Hin & H)|(item & Hin & H)]; exists item;
      (split; [apply in_or_app; auto | assumption]).
Qed.

(** The sets after the first loop: what is in use is what a present record
    holds; what is expired is what a gone record holds and no present
    record does. *)
Lemma classifyAll_sets (items : list (bool * ResourceItem))
      (sets : resSets * resSets) :
  setsAligned sets ->
  setsAligned (classifyAll items sets) /\
  (forall ty id,
      inSet (fst (classifyAll items sets)) ty id <->
      inSet (fst sets) ty id \/ heldBy items true ty id) /\
  (forall ty id,
      inSet (snd (classifyAll items sets)) ty id <->
      (inSet (snd sets) ty id \/ heldBy items false ty id) /\
      ~ (inSet (fst sets) ty id \/ heldBy items true ty id)).
Proof.
  revert sets. induction items as [|[b item] rest IH]; intros sets Hal.
  - simpl. split; [assumption|]. split; intros ty id.
    + pose proof (heldBy_nil true ty id). tauto.
    + pose proof (heldBy_nil true ty id). pose proof (heldBy_nil false ty id).
      destruct Hal as [_ Hdis]. specialize (Hdis ty id). tauto.
  - change (classifyAll ((b, item) :: rest) sets)
      with (classifyAll rest (classifyItem b sets item)).
    destruct (classifyItem_sets b sets item Hal) as (Hal1 & Hiu1 & Hex1).
    destruct (IH _ Hal1) as (Hal2 & Hiu2 & Hex2).
    split; [assumption|]. split; intros ty id.
    + rewrite Hiu2, Hiu1, heldBy_cons. cbn [fst snd].
      destruct b; intuition congruence.
    + rewrite Hex2, Hex1, Hiu1, !heldBy_cons. cbn [fst snd].
      destruct Hal as [_ Hdis]. specialize (Hdis ty id).
      destruct b; split; intros H; intuition (subst; try congruence; eauto).
Qed.

Lemma setsAligned_empty : setsAligned (∅, ∅).
Proof.
  split.
  - intros ty. cbn [fst snd]. rewrite !lookup_empty. tauto.
  - intros ty id [x Hx]. unfold setOfType in Hx. cbn [fst] in Hx.
    rewrite lookup_empty in Hx. simpl in Hx. rewrite lookup_empty in Hx.
    discriminate.
Qed.

Lemma inSet_empty ty id : ~ inSet ∅ ty id.
Proof.
  intros [x Hx]. unfold setOfType in Hx. rewrite lookup_empty in Hx.
  simpl in Hx. rewrite lookup_empty in Hx. discriminate.
Qed.

(** The types the sets know are the types of the items met. *)
Lemma classifyItem_types (podExist : bool) (sets : resSets * resSets)
      (res : ResourceItem) ty :
  is_Some (fst (classifyItem podExist sets res) !! ty) ->
  is_Some (fst sets !! ty) \/ ty = ResType res.
Proof.
  destruct sets as [iu ex]. unfold classifyItem. cbn [fst].
  destruct (decide (ty = ResType res)) as [->|Hne]; [auto|].
  intros H. left.
  destruct (iu !! ResType res) eqn:E.
  - destruct (setOfType iu (ResType res) !! ResID res); [exact H|].
    destruct podExist; cbn [fst] in H; [|exact H].
    rewrite lookup_alter_ne in H by congruence. exact H.
  - destruct (setOfType (<[ResType res := ∅]> iu) (ResType res) !! ResID res);
      [|destruct podExist]; cbn [fst] in H;
      rewrite ?lookup_alter_ne in H by congruence;
      rewrite lookup_insert_ne in H by congruence; exact H.
Qed.

Lemma classifyAll_types (items : list (bool * ResourceItem))
      (sets : resSets * resSets) ty :
  is_Some (fst (classifyAll items sets) !! ty) ->
  is_Some (fst sets !! ty) \/
  exists bi, In bi items /\ ResType (snd bi) = ty.
Proof.
  revert sets. induction items as [|[b item] rest IH]; intros sets H.
  - left. exact H.
  - change (classifyAll ((b, item) :: rest) sets)
      with (classifyAll rest (classifyItem b sets item)) in H.
    destruct (IH _ H) as [H1|(bi & Hin & Hty)].
    + apply classifyItem_types in H1 as [H1 | ->]; [auto|].
      right. exists (b, item). split; [left; reflexivity | reflexivity].
    + right. exists bi. split; [right; assumption | assumption].
Qed.

(** ** The first loop of a tick, record by record *)

Lemma classifyAll_app items1 items2 sets :
  classifyAll (items1 ++ items2) sets
  = classifyAll items2 (classifyAll items1 sets).
Proof. unfold classifyAll. apply fold_left_app. Qed.

Lemma classifyAll_map b (items : list ResourceItem) sets :
  classifyAll (map (pair b) items) sets = fold_left (classifyItem b) items sets.
Proof.
  revert sets. induction items as [|x rest IH]; intros sets; [reflexivity|].
  simpl. apply IH.
Qed.

(** What one record does to the state of the first loop. *)
Lemma gcRecord_effect env live st r info :
  (forall key v, dbPutErr env key v = None) ->
  ResPodInfo r = Some info ->
  gcRecord env live st r
  = Some (mkGcState
            (setStore (stickyRewrite live (store (gcWorld st)) r) (gcWorld st))
            (fst (classifyAll (map (pair (recordPresent live info)) (Resources r))
                              (inUseSet st, expireSet st)))
            (snd (classifyAll (map (pair (recordPresent live info)) (Resources r))
                              (inUseSet st, expireSet st)))
            (relateExpireList st
             ++ (if recordPresent live info then []
                 else [podInfoKey (Namespace info) (Name info)]))).
Proof.
  intros Hput Hinfo. unfold gcRecord, stickyRewrite, recordPresent.
  rewrite Hinfo, !classifyAll_map.
  destruct (bool_decide _); cbn [orb].
  - destruct (fold_left _ _ _) as [iu ex]. cbn [fst snd].
    rewrite app_nil_r. destruct (gcWorld st). reflexivity.
  - destruct (negb (IPStickTime info =? 0)).
    + unfold dbPut. rewrite Hput. cbn [snd].
      destruct (fold_left _ _ _) as [iu ex]. cbn [fst snd].
      rewrite app_nil_r. reflexivity.
    + destruct (fold_left _ _ _) as [iu ex]. cbn [fst snd].
      destruct (gcWorld st). reflexivity.
Qed.

Lemma gcRecords_effect env live rs :
  (forall key v, dbPutErr env key v = None) ->
  Forall (fun r => is_Some (ResPodInfo r)) rs ->
  forall st,
  gcRecords env live st rs
  = Some (mkGcState
            (setStore (fold_left (stickyRewrite live) rs (store (gcWorld st)))
                      (gcWorld st))
            (fst (classifyAll (gcItems live rs) (inUseSet st, expireSet st)))
            (snd (classifyAll (gcItems live rs) (inUseSet st, expireSet st)))
            (relateExpireList st ++ expiredKeys live rs)).
Proof.
  intros Hput Hall. induction Hall as [|r rest [info Hinfo] Hrest IH]; intros st.
  - simpl. rewrite app_nil_r. destruct st as [[s p t] iu ex rel]. reflexivity.
  - cbn [gcRecords]. rewrite (gcRecord_effect env live st r info Hput Hinfo).
    rewrite IH. cbn [gcWorld inUseSet expireSet relateExpireList].
    unfold gcItems, expiredKeys. cbn [flat_map fold_left]. rewrite Hinfo.
    rewrite classifyAll_app, <- app_assoc.
    destruct (classifyAll (map _ (Resources r)) _) as [iu ex]. cbn [fst snd].
    reflexivity.
Qed.

(** ** The manager calls, the route cleanup and the deletions *)

Lemma gcManagers_effect env n inUse expire mgrTypes :
  Forall (fun ty => mgrForResource n !! ty <> Some None) mgrTypes ->
  forall w gcDone,
  exists gcDone',
    gcManagers env n inUse expire mgrTypes w gcDone
    = Some (mkWorld (store w) (pendingPods w)
                    (trace w ++ gcCalls n inUse expire mgrTypes), gcDone') /\
    (managersCollect env -> gcDone' = gcDone).
Proof.
  intros Hnil. induction Hnil as [|ty rest Hty Hrest IH]; intros w gcDone.
  - exists gcDone. simpl. rewrite app_nil_r. destruct w. auto.
  - cbn [gcManagers gcCalls flat_map].
    destruct (mgrForResource n !! ty) as [[mgr|]|] eqn:Hm.
    + destruct (mgrGarbageCollection env mgr _ _) as [e|] eqn:Hgc.
      * destruct (IH (logEvent (EvGarbageCollection mgr (setOfType inUse ty)
                                                    (setOfType expire ty)) w)
                     false) as (d & -> & Hd).
        exists d. cbn [logEvent store pendingPods trace].
        rewrite <- app_assoc. split; [reflexivity|].
        intros Hc. rewrite Hc in Hgc. discriminate.
      * destruct (IH (logEvent (EvGarbageCollection mgr (setOfType inUse ty)
                                                    (setOfType expire ty)) w)
                     gcDone) as (d & -> & Hd).
        exists d. cbn [logEvent store pendingPods trace].
        rewrite <- app_assoc. split; [reflexivity | assumption].
    + exfalso. apply Hty. reflexivity.
    + apply IH.
Qed.

Lemma cleanIPRules_effect env resIDs w :
  store (cleanIPRules env resIDs w) = store w /\
  pendingPods (cleanIPRules env resIDs w) = pendingPods w /\
  exists events, trace (cleanIPRules env resIDs w) = trace w ++ events.
Proof.
  revert w. induction resIDs as [|resID rest IH]; intros w; simpl.
  - repeat split. exists []. rewrite app_nil_r. reflexivity.
  - destruct (splitAfterDot resID) as [|head [|ip tail]]; try apply IH.
    destruct (ParseCIDR env _) as [addr|].
    + destruct (IH (logEvent (EvDeleteRouteByIP addr)
                             (logEvent (EvDeleteIPRulesByIP addr) w)))
        as (Hs & Hp & events & Ht).
      rewrite Hs, Hp, Ht. repeat split. cbn [logEvent trace].
      eexists. rewrite <- !app_assoc. reflexivity.
    + repeat split. exists []. rewrite app_nil_r. reflexivity.
Qed.

Lemma cleanExpiredENIIP_effect env expire w :
  store (cleanExpiredENIIP env expire w) = store w /\
  pendingPods (cleanExpiredENIIP env expire w) = pendingPods w /\
  exists events, trace (cleanExpiredENIIP env expire w) = trace w ++ events.
Proof.
  unfold cleanExpiredENIIP. destruct (expire !! ResourceTypeENIIP).
  - apply cleanIPRules_effect.
  - repeat split. exists []. rewrite app_nil_r. reflexivity.
Qed.

Lemma deleteRelations_effect env relates w :
  (forall key, dbDeleteErr env key = None) ->
  deleteRelations env relates w
  = setStore (fold_left (fun s key => delete key s) relates (store w)) w.
Proof.
  intros Hd. revert w. induction relates as [|key rest IH]; intros w.
  - destruct w. reflexivity.
  - cbn [deleteRelations fold_left]. rewrite IH. unfold dbDelete. rewrite Hd.
    reflexivity.
Qed.

Lemma fold_delete_lookup (keys : list string) (s : gmap string PodResources) k :
  fold_left (fun s key => delete key s) keys s !! k
  = if decide (k ∈ keys) then None else s !! k.
Proof.
  revert s. induction keys as [|key rest IH]; intros s.
  - cbn [fold_left]. destruct (decide (k ∈ [])) as [Hin|_]; [|reflexivity].
    inversion Hin.
  - cbn [fold_left]. rewrite IH.
    destruct (decide (k ∈ rest)) as [Hin|Hnin].
    + destruct (decide (k ∈ key :: rest)) as [_|Hn]; [reflexivity|].
      exfalso. apply Hn. apply elem_of_cons. auto.
    + destruct (decide (key = k)) as [->|Hne].
      * rewrite lookup_delete_eq.
        destruct (decide (k ∈ k :: rest)) as [_|Hn]; [reflexivity|].
        exfalso. apply Hn. apply elem_of_cons. auto.
      * rewrite lookup_delete_ne by assumption.
        destruct (decide (k ∈ key :: rest)) as [Hin|_]; [|reflexivity].
        apply elem_of_cons in Hin as [->|Hin]; [congruence | contradiction].
Qed.

Lemma in_gcItems_inv live rs b item :
  In (b, item) (gcItems live rs) ->
  exists r, In r rs /\ In item (Resources r).
Proof.
  unfold gcItems. intros H. apply in_flat_map in H as (r & Hr & H).
  exists r. split; [assumption|].
  destruct (ResPodInfo r); [|destruct H].
  apply in_map_iff in H as (item' & [= _ <-] & H). assumption.
Qed.

(** ** One tick, as a whole *)

Lemma storeKeyed_records (s : gmap string PodResources) :
  storeKeyed s ->
  Forall (fun r => is_Some (ResPodInfo r)) (map snd (map_to_list s)).
Proof.
  intros Hk. apply Forall_forall. intros r Hin.
  apply list_elem_of_In, in_map_iff in Hin as ([key r'] & <- & Hin).
  apply list_elem_of_In, elem_of_map_to_list in Hin.
  destruct (Hk key r' Hin) as (info & Hinfo & _). simpl. rewrite Hinfo. eauto.
Qed.

Lemma gcTick_effect env n w pods :
  storeKeyed (store w) -> managersSet n (store w) -> storeWorks env ->
  GetLocalPods env = inr pods ->
  let live := podKeysOf pods in
  let records := map snd (map_to_list (store w)) in
  let sets := classifyAll (gcItems live records) (∅, ∅) in
  let rewritten := fold_left (stickyRewrite live) records (store w) in
  exists w' gcDone,
    tickRuns env n w w' sets /\
    (managersCollect env -> gcDone = true) /\
    store w' = if gcDone : bool
               then fold_left (fun s key => delete key s)
                              (expiredKeys live records) rewritten
               else rewritten.
Proof.
  intros Hkeyed Hnil (Hlist & Hput & Hdel) Hpods live records sets rewritten.
  pose proof (storeKeyed_records _ Hkeyed) as Hall. fold records in Hall.
  assert (Hclass : gcClassify env live w records
                   = Some (mkGcState (setStore rewritten w) (fst sets) (snd sets)
                                     (expiredKeys live records))).
  { unfold gcClassify. rewrite (gcRecords_effect env live records Hput Hall).
    reflexivity. }
  assert (Hsets : gcSets env w = Some sets).
  { unfold gcSets, dbList. rewrite Hpods, Hlist. fold live records.
    rewrite Hclass. cbn [inUseSet expireSet]. destruct sets; reflexivity. }
  assert (Htypes : Forall (fun ty => mgrForResource n !! ty <> Some None)
                          (map fst (map_to_list (fst sets)))).
  { apply List.Forall_forall. intros ty Hty.
    apply in_map_iff in Hty as ([ty' m] & <- & Hty).
    apply list_elem_of_In, elem_of_map_to_list in Hty. cbn [fst].
    destruct (classifyAll_types (gcItems live records) (∅, ∅) ty')
      as [[x Hx]|([b item] & Hbi & <-)].
    - fold sets. rewrite Hty. eauto.
    - cbn [fst] in Hx. rewrite lookup_empty in Hx. discriminate.
    - apply in_gcItems_inv in Hbi as (r & Hr & Hitem).
      apply in_map_iff in Hr as ([key r'] & <- & Hr).
      apply list_elem_of_In, elem_of_map_to_list in Hr.
      apply (Hnil key r' item Hr Hitem). }
  destruct (gcManagers_effect env n (fst sets) (snd sets)
              (map fst (map_to_list (fst sets))) Htypes (setStore rewritten w) true)
    as (gcDone & Hmgr & Hdone).
  assert (Htick : gcTick env n w =
                  Some (if gcDone
                        then deleteRelations env (expiredKeys live records)
                               (cleanExpiredENIIP env (snd sets)
                                  (mkWorld rewritten (pendingPods w)
                                     (trace w ++ gcCalls n (fst sets) (snd sets)
                                        (map fst (map_to_list (fst sets))))))
                        else mkWorld rewritten (pendingPods w)
                               (trace w ++ gcCalls n (fst sets) (snd sets)
                                  (map fst (map_to_list (fst sets)))))).
  { unfold gcTick, dbList. rewrite Hpods, Hlist. fold live records.
    rewrite Hclass. cbn [inUseSet expireSet gcWorld relateExpireList].
    rewrite Hmgr. destruct gcDone; reflexivity. }
  eexists. exists gcDone. split; [split; [exact Htick | split; [exact Hsets|]] | split].
  - destruct gcDone.
    + rewrite (deleteRelations_effect _ _ _ Hdel). cbn [setStore trace].
      destruct (cleanExpiredENIIP_effect env (snd sets)
                  (mkWorld rewritten (pendingPods w)
                     (trace w ++ gcCalls n (fst sets) (snd sets)
                        (map fst (map_to_list (fst sets))))))
        as (_ & _ & events & Ht).
      rewrite Ht. cbn [trace]. exists events. rewrite <- app_assoc. reflexivity.
    + exists []. cbn [trace]. rewrite app_nil_r. reflexivity.
  - intros Hc. rewrite (Hdone Hc). reflexivity.
  - destruct gcDone.
    + rewrite (deleteRelations_effect _ _ _ Hdel). cbn [setStore store].
      destruct (cleanExpiredENIIP_effect env (snd sets)
                  (mkWorld rewritten (pendingPods w)
                     (trace w ++ gcCalls n (fst sets) (snd sets)
                        (map fst (map_to_list (fst sets))))))
        as (Hs & _). rewrite Hs. reflexivity.
    + reflexivity.
Qed.

(** ** One stored record across ticks *)

Lemma stored_record_listed (s : gmap string PodResources) key rec :
  s !! key = Some rec -> In rec (map snd (map_to_list s)).
Proof.
  intros H. apply in_map_iff. exists (key, rec). split; [reflexivity|].
  apply list_elem_of_In, elem_of_map_to_list. assumption.
Qed.

Lemma stored_record_unique (s : gmap string PodResources) key rec :
  storeKeyed s -> s !! key = Some rec ->
  forall r, In r (map snd (map_to_list s)) -> recordKey r = Some key -> r = rec.
Proof.
  intros Hk Hs r Hin Hr.
  apply in_map_iff in Hin as ([key' r'] & <- & Hin).
  apply list_elem_of_In, elem_of_map_to_list in Hin. cbn [snd] in *.
  destruct (Hk key' r' Hin) as (info & Hinfo & ->).
  unfold recordKey in Hr. rewrite Hinfo in Hr. injection Hr as Hr.
  rewrite Hr in Hin. congruence.
Qed.

Lemma recordPresent_sticky live info :
  IPStickTime info <> 0 -> recordPresent live info = true.
Proof.
  intros H. unfold recordPresent. apply Z.eqb_neq in H. rewrite H.
  apply orb_true_r.
Qed.

Lemma recordPresent_gone live info :
  podInfoKey (Namespace info) (Name info) ∉ live -> IPStickTime info = 0 ->
  recordPresent live info = false.
Proof.
  intros Hl Hs. unfold recordPresent. rewrite Hs.
  rewrite bool_decide_eq_false_2 by assumption. reflexivity.
Qed.

Lemma stickyRewrite_lookup live s r key :
  stickyRewrite live s r !! key
  = match ResPodInfo r with
    | Some info =>
        if bool_decide (podInfoKey (Namespace info) (Name info) = key)
           && (negb (bool_decide (podInfoKey (Namespace info) (Name info) ∈ live))
               && negb (IPStickTime info =? 0))
        then Some (withPodInfo r (setIPStickTime info 0))
        else s !! key
    | None => s !! key
    end.
Proof.
  unfold stickyRewrite.
  destruct (ResPodInfo r) as [info|]; [|reflexivity].
  destruct (bool_decide (_ ∈ live)) eqn:Hl; cbn [andb negb].
  - rewrite andb_false_r. reflexivity.
  - destruct (IPStickTime info =? 0); cbn [negb andb].
    + rewrite andb_false_r. reflexivity.
    + rewrite andb_true_r. destruct (bool_decide (_ = key)) eqn:Hk.
      * apply bool_decide_eq_true in Hk. subst key. apply lookup_insert_eq.
      * apply bool_decide_eq_false in Hk. apply lookup_insert_ne. assumption.
Qed.

(** A record that is not sticky, or whose pod is live, is left as stored by
    the first loop. *)
Lemma fold_stickyRewrite_untouched live rs key :
  (forall r info, In r rs -> ResPodInfo r = Some info ->
                  podInfoKey (Namespace info) (Name info) = key ->
                  key ∈ live \/ IPStickTime info = 0) ->
  forall s, fold_left (stickyRewrite live) rs s !! key = s !! key.
Proof.
  induction rs as [|r rest IH]; intros Hno s; [reflexivity|].
  cbn [fold_left]. rewrite IH by (intros; eapply Hno; eauto; right; eauto).
  rewrite stickyRewrite_lookup.
  destruct (ResPodInfo r) as [info|] eqn:Hinfo; [|reflexivity].
  destruct (bool_decide (_ = key)) eqn:Hk; [|reflexivity].
  apply bool_decide_eq_true in Hk.
  destruct (Hno r info (or_introl eq_refl) Hinfo Hk) as [Hl|Hs].
  - subst key. rewrite (bool_decide_eq_true_2 _ Hl). reflexivity.
  - rewrite Hs. cbn [Z.eqb negb andb]. rewrite andb_false_r. reflexivity.
Qed.

(** A sticky record whose pod is gone is stored with its stick time
    cleared by the first loop. *)
Lemma fold_stickyRewrite_cleared live rs key rec info :
  ResPodInfo rec = Some info ->
  podInfoKey (Namespace info) (Name info) = key ->
  key ∉ live -> IPStickTime info <> 0 ->
  (forall r, In r rs -> recordKey r = Some key -> r = rec) ->
  forall s,
    (s !! key = Some (withPodInfo rec (setIPStickTime info 0)) \/ In rec rs) ->
    fold_left (stickyRewrite live) rs s !! key
    = Some (withPodInfo rec (setIPStickTime info 0)).
Proof.
  intros Hinfo Hkey Hl Hs.
  assert (Hrec : forall s, stickyRewrite live s rec !! key
                           = Some (withPodInfo rec (setIPStickTime info 0))).
  { intros s. rewrite stickyRewrite_lookup, Hinfo.
    rewrite (bool_decide_eq_true_2 _ Hkey).
    rewrite Hkey, (bool_decide_eq_false_2 _ Hl).
    apply Z.eqb_neq in Hs. rewrite Hs. reflexivity. }
  induction rs as [|r rest IH]; intros Huniq s Hstart.
  - destruct Hstart as [H|[]]. exact H.
  - cbn [fold_left]. apply IH; [intros; apply Huniq; auto; right; auto|].
    destruct (decide (recordKey r = Some key)) as [Hr|Hr].
    + left. rewrite (Huniq r (or_introl eq_refl) Hr). apply Hrec.
    + destruct Hstart as [H|[->|Hin]].
      * left. rewrite stickyRewrite_lookup.
        unfold recordKey in Hr. destruct (ResPodInfo r) as [info'|]; [|exact H].
        rewrite bool_decide_eq_false_2 by congruence. exact H.
      * left. apply Hrec.
      * right. exact Hin.
Qed.

Lemma in_expiredKeys live rs key :
  In key (expiredKeys live rs) <->
  exists r info, In r rs /\ ResPodInfo r = Some info /\
                 podInfoKey (Namespace info) (Name info) = key /\
                 recordPresent live info = false.
Proof.
  unfold expiredKeys. rewrite in_flat_map. split.
  - intros (r & Hin & Hk). destruct (ResPodInfo r) as [info|] eqn:Hinfo; [|destruct Hk].
    destruct (recordPresent live info) eqn:Hp; [destruct Hk|].
    destruct Hk as [<-|[]]. eauto 6.
  - intros (r & info & Hin & Hinfo & <- & Hp). exists r. split; [assumption|].
    rewrite Hinfo, Hp. left. reflexivity.
Qed.

Lemma in_gcItems live rs r info item :
  In r rs -> ResPodInfo r = Some info -> In item (Resources r) ->
  In (recordPresent live info, item) (gcItems live rs).
Proof.
  intros Hin Hinfo Hitem. unfold gcItems. apply in_flat_map. exists r.
  split; [assumption|]. rewrite Hinfo. apply in_map. assumption.
Qed.

Lemma storeKeyed_stickyRewrite live rs s :
  storeKeyed s -> storeKeyed (fold_left (stickyRewrite live) rs s).
Proof.
  revert s. induction rs as [|r rest IH]; intros s Hk; [assumption|].
  cbn [fold_left]. apply IH. intros key rec.
  rewrite stickyRewrite_lookup. destruct (ResPodInfo r) as [info|]; [|apply Hk].
  destruct (bool_decide (_ = key)) eqn:Hkey; [|apply Hk].
  destruct (_ && _); [|apply Hk].
  apply bool_decide_eq_true in Hkey. intros [= <-].
  exists (setIPStickTime info 0). split; [reflexivity|]. symmetry. exact Hkey.
Qed.

Lemma storeKeyed_delete keys s :
  storeKeyed s -> storeKeyed (fold_left (fun s key => delete key s) keys s).
Proof.
  intros Hk key rec. rewrite fold_delete_lookup.
  destruct (decide _); [discriminate | apply Hk].
Qed.

Lemma managersSet_stickyRewrite n live rs s :
  (forall r item, In r rs -> In item (Resources r) ->
                  mgrForResource n !! ResType item <> Some None) ->
  managersSet n s -> managersSet n (fold_left (stickyRewrite live) rs s).
Proof.
  revert s. induction rs as [|r rest IH]; intros s Hrs Hm; [assumption|].
  cbn [fold_left]. apply IH; [intros r' item Hr'; apply Hrs; right; assumption|].
  intros key rec item. rewrite stickyRewrite_lookup.
  destruct (ResPodInfo r) as [info|]; [|apply Hm].
  destruct (_ && _); [|apply Hm].
  intros [= <-]. cbn [withPodInfo Resources]. apply Hrs. left. reflexivity.
Qed.

Lemma managersSet_delete n keys s :
  managersSet n s -> managersSet n (fold_left (fun s key => delete key s) keys s).
Proof.
  intros Hm key rec item. rewrite fold_delete_lookup.
  destruct (decide _); [discriminate | apply Hm].
Qed.

Lemma managersSet_records n s :
  managersSet n s ->
  forall r item, In r (map snd (map_to_list s)) -> In item (Resources r) ->
                 mgrForResource n !! ResType item <> Some None.
Proof.
  intros Hm r item Hr. apply in_map_iff in Hr as ([key r'] & <- & Hr).
  apply list_elem_of_In, elem_of_map_to_list in Hr. apply (Hm key r' item Hr).
Qed.

Lemma storeKeyed_key s key rec info :
  storeKeyed s -> s !! key = Some rec -> ResPodInfo rec = Some info ->
  podInfoKey (Namespace info) (Name info) = key.
Proof.
  intros Hk Hs Hinfo. destruct (Hk key rec Hs) as (info' & Hinfo' & ->).
  congruence.
Qed.

(** A tick that finds a sticky record without its pod. *)
Lemma gc_tick_defers_sticky env n w pods key rec info :
  storeKeyed (store w) -> managersSet n (store w) -> storeWorks env ->
  GetLocalPods env = inr pods ->
  store w !! key = Some rec -> ResPodInfo rec = Some info ->
  key ∉ podKeysOf pods -> IPStickTime info <> 0 ->
  exists w' sets,
    tickRuns env n w w' sets /\
    (storeKeyed (store w') /\ managersSet n (store w')) /\
    store w' !! key = Some (withPodInfo rec (setIPStickTime info 0)) /\
    (forall item, In item (Resources rec) -> passedInUse sets item).
Proof.
  intros Hkeyed Hnil Hworks Hpods Hs Hinfo Hgone Hsticky.
  pose proof (storeKeyed_key _ _ _ _ Hkeyed Hs Hinfo) as Hkey.
  destruct (gcTick_effect env n w pods Hkeyed Hnil Hworks Hpods)
    as (w' & gcDone & Hruns & _ & Hstore).
  cbv zeta in *.
  set (live := podKeysOf pods) in *.
  set (records := map snd (map_to_list (store w))) in *.
  pose proof (stored_record_listed _ _ _ Hs) as Hin. fold records in Hin.
  pose proof (stored_record_unique _ _ _ Hkeyed Hs) as Huniq. fold records in Huniq.
  assert (Hcleared : fold_left (stickyRewrite live) records (store w) !! key
                     = Some (withPodInfo rec (setIPStickTime info 0))).
  { apply fold_stickyRewrite_cleared; auto. }
  exists w', (classifyAll (gcItems live records) (∅, ∅)).
  split; [exact Hruns|]. split; [|split].
  - pose proof (managersSet_records n _ Hnil) as Hrs. fold records in Hrs.
    rewrite Hstore. destruct gcDone; split.
    + apply storeKeyed_delete, storeKeyed_stickyRewrite, Hkeyed.
    + apply managersSet_delete, managersSet_stickyRewrite; assumption.
    + apply storeKeyed_stickyRewrite, Hkeyed.
    + apply managersSet_stickyRewrite; assumption.
  - rewrite Hstore. destruct gcDone; [|exact Hcleared].
    rewrite fold_delete_lookup. destruct (decide _) as [Hexp|_]; [|exact Hcleared].
    exfalso. apply list_elem_of_In, in_expiredKeys in Hexp
      as (r & info' & Hr & Hinfo' & Hk' & Hp).
    assert (r = rec) by (apply Huniq; [assumption|];
                         unfold recordKey; rewrite Hinfo'; congruence).
    subst r. assert (info' = info) by congruence. subst info'.
    rewrite recordPresent_sticky in Hp by assumption. discriminate.
  - intros item Hitem.
    destruct (classifyAll_sets (gcItems live records) (∅, ∅) setsAligned_empty)
      as ((_ & Hdis) & Hiu & _).
    assert (Hheld : inSet (fst (classifyAll (gcItems live records) (∅, ∅)))
                          (ResType item) (ResID item)).
    { apply Hiu. right. exists item. split; [|auto].
      rewrite <- (recordPresent_sticky live info Hsticky).
      apply in_gcItems with rec; assumption. }
    split; [exact Hheld | apply Hdis; exact Hheld].
Qed.

(** A tick that finds a record without its pod and without stick time. *)
Lemma gc_tick_expires env n w pods key rec info :
  storeKeyed (store w) -> managersSet n (store w) -> storeWorks env ->
  GetLocalPods env = inr pods ->
  store w !! key = Some rec -> ResPodInfo rec = Some info ->
  key ∉ podKeysOf pods -> IPStickTime info = 0 ->
  exists w' sets,
    tickRuns env n w w' sets /\
    (forall item, In item (Resources rec) ->
                  passedExpired (tickItems pods w) sets item) /\
    (managersCollect env -> store w' !! key = None).
Proof.
  intros Hkeyed Hnil Hworks Hpods Hs Hinfo Hgone Hzero.
  pose proof (storeKeyed_key _ _ _ _ Hkeyed Hs Hinfo) as Hkey.
  destruct (gcTick_effect env n w pods Hkeyed Hnil Hworks Hpods)
    as (w' & gcDone & Hruns & Hdone & Hstore).
  cbv zeta in *.
  set (live := podKeysOf pods) in *.
  set (records := map snd (map_to_list (store w))) in *.
  pose proof (stored_record_listed _ _ _ Hs) as Hin. fold records in Hin.
  assert (Hp : recordPresent live info = false).
  { apply recordPresent_gone; [rewrite Hkey|]; assumption. }
  exists w', (classifyAll (gcItems live records) (∅, ∅)).
  split; [exact Hruns|]. split.
  - intros item Hitem.
    destruct (classifyAll_sets (gcItems live records) (∅, ∅) setsAligned_empty)
      as ((_ & Hdis) & Hiu & Hex).
    assert (Hheld : heldBy (gcItems live records) false (ResType item) (ResID item)).
    { exists item. split; [|auto]. rewrite <- Hp.
      apply in_gcItems with rec; assumption. }
    pose proof (inSet_empty (ResType item) (ResID item)) as Hempty.
    unfold passedExpired, passedInUse, tickItems. fold live records.
    cbn [fst snd] in Hiu, Hex, Hempty.
    split.
    + intros Hnone. split.
      * apply Hex. split; [right; exact Hheld | tauto].
      * rewrite Hiu. tauto.
    + intros Hsome.
      assert (Hin' : inSet (fst (classifyAll (gcItems live records) (∅, ∅)))
                           (ResType item) (ResID item))
        by (apply Hiu; right; exact Hsome).
      split; [exact Hin' | apply Hdis; exact Hin'].
  - intros Hc. rewrite Hstore, (Hdone Hc), fold_delete_lookup.
    destruct (decide _) as [_|Hn]; [reflexivity|].
    exfalso. apply Hn. apply list_elem_of_In, in_expiredKeys.
    exists rec, info. auto.
Qed.

(** ** Two-phase sticky garbage collection (C4) *)

(** C4, as amended: take a stored record whose pod is absent from the live
    pods of two ticks in which the pods and the store can be listed and
    written. If its [IPStickTime] is not zero, the first tick writes the
    record back with [IPStickTime] zero, keeps it, and hands its resources
    to the managers as in use and not as expired; the second tick hands
    them as expired and not as in use (unless a record that counts as
    present holds them too, and then as in use and not as expired) and,
    provided every manager's [GarbageCollection] succeeds in it, deletes
    the record. If its [IPStickTime] is zero, one tick does what the
    second does. *)
Theorem two_phase_sticky_gc env1 env2 n w pods1 pods2 key rec info :
  storeKeyed (store w) -> managersSet n (store w) ->
  storeWorks env1 -> storeWorks env2 ->
  GetLocalPods env1 = inr pods1 -> GetLocalPods env2 = inr pods2 ->
  store w !! key = Some rec -> ResPodInfo rec = Some info ->
  key ∉ podKeysOf pods1 -> key ∉ podKeysOf pods2 ->
  (IPStickTime info <> 0 ->
   exists w1 sets1,
     tickRuns env1 n w w1 sets1 /\
     store w1 !! key = Some (withPodInfo rec (setIPStickTime info 0)) /\
     (forall item, In item (Resources rec) -> passedInUse sets1 item) /\
     exists w2 sets2,
       tickRuns env2 n w1 w2 sets2 /\
       (forall item, In item (Resources rec) ->
                     passedExpired (tickItems pods2 w1) sets2 item) /\
       (managersCollect env2 -> store w2 !! key = None)) /\
  (IPStickTime info = 0 ->
   exists w1 sets1,
     tickRuns env1 n w w1 sets1 /\
     (forall item, In item (Resources rec) ->
                   passedExpired (tickItems pods1 w) sets1 item) /\
     (managersCollect env1 -> store w1 !! key = None)).
Proof.
  intros Hkeyed Hnil Hw1 Hw2 Hp1 Hp2 Hs Hinfo Hg1 Hg2. split.
  - intros Hsticky.
    destruct (gc_tick_defers_sticky env1 n w pods1 key rec info
                Hkeyed Hnil Hw1 Hp1 Hs Hinfo Hg1 Hsticky)
      as (w1 & sets1 & Hruns1 & (Hkeyed1 & Hnil1) & Hs1 & Hin1).
    exists w1, sets1. repeat (split; [assumption|]).
    destruct (gc_tick_expires env2 n w1 pods2 key
                (withPodInfo rec (setIPStickTime info 0))
                (setIPStickTime info 0) Hkeyed1 Hnil1 Hw2 Hp2 Hs1 eq_refl Hg2
                eq_refl)
      as (w2 & sets2 & Hruns2 & Hex2 & Hdel2).
    exists w2, sets2. auto.
  - intros Hzero.
    apply (gc_tick_expires env1 n w pods1 key rec info); assumption.
Qed.

Lemma storeKeyed_sample pod :
  storeKeyed (store (exWorld [(podInfoKey (Namespace pod) (Name pod),
                               exRecord pod)])).
Proof.
  intros key rec. cbn [exWorld store list_to_map foldr uncurry fst snd].
  destruct (decide (podInfoKey (Namespace pod) (Name pod) = key)) as [<-|Hne].
  - rewrite lookup_insert_eq. intros [= <-]. exists pod. auto.
  - rewrite lookup_insert_ne, lookup_empty by assumption. discriminate.
Qed.

Lemma managersSet_sample pod :
  managersSet exServiceMultiIP
              (store (exWorld [(podInfoKey (Namespace pod) (Name pod),
                                exRecord pod)])).
Proof.
  intros key rec item. cbn [exWorld store list_to_map foldr uncurry fst snd].
  destruct (decide (podInfoKey (Namespace pod) (Name pod) = key)) as [<-|Hne].
  - rewrite lookup_insert_eq. intros [= <-] [<-|[]]. discriminate.
  - rewrite lookup_insert_ne, lookup_empty by assumption. discriminate.
Qed.

Lemma storeWorks_sample pod : storeWorks (exEnv pod).
Proof. repeat split. Qed.

(** The sticky sample record, its pod gone in both ticks. *)
Lemma two_phase_sticky_gc_witness :
  (IPStickTime exStickyPod <> 0 ->
   exists w1 sets1,
     tickRuns (exEnv exStickyPod) exServiceMultiIP exStickyWorld w1 sets1 /\
     store w1 !! "default/web-0"
     = Some (withPodInfo (exRecord exStickyPod) (setIPStickTime exStickyPod 0)) /\
     (forall item, In item (Resources (exRecord exStickyPod)) ->
                   passedInUse sets1 item) /\
     exists w2 sets2,
       tickRuns (exEnv exStickyPod) exServiceMultiIP w1 w2 sets2 /\
       (forall item, In item (Resources (exRecord exStickyPod)) ->
                     passedExpired (tickItems [] w1) sets2 item) /\
       (managersCollect (exEnv exStickyPod) -> store w2 !! "default/web-0" = None))
  /\
  (IPStickTime exStickyPod = 0 ->
   exists w1 sets1,
     tickRuns (exEnv exStickyPod) exServiceMultiIP exStickyWorld w1 sets1 /\
     (forall item, In item (Resources (exRecord exStickyPod)) ->
                   passedExpired (tickItems [] exStickyWorld) sets1 item) /\
     (managersCollect (exEnv exStickyPod) -> store w1 !! "default/web-0" = None)).
Proof.
  apply (two_phase_sticky_gc (exEnv exStickyPod) (exEnv exStickyPod)
           exServiceMultiIP exStickyWorld [] [] "default/web-0"
           (exRecord exStickyPod) exStickyPod).
  - apply (storeKeyed_sample exStickyPod).
  - apply (managersSet_sample exStickyPod).
  - apply storeWorks_sample.
  - apply storeWorks_sample.
  - reflexivity.
  - reflexivity.
  - reflexivity.
  - reflexivity.
  - vm_compute. intros H. inversion H.
  - vm_compute. intros H. inversion H.
Defined.

(** The sample, tick by tick: the first tick clears the stick time and
    keeps the record; the second deletes it and cleans the routes of its
    address. *)
Example sticky_record_two_ticks :
  exists w1 w2,
    gcTick (exEnv exStickyPod) exServiceMultiIP exStickyWorld = Some w1 /\
    store w1 !! "default/web-0" = Some (exRecord exPlainPod) /\
    gcTick (exEnv exStickyPod) exServiceMultiIP w1 = Some w2 /\
    store w2 = ∅ /\
    In (EvDeleteIPRulesByIP "192.168.0.11/32") (trace w2).
Proof.
  eexists. eexists. split; [vm_compute; reflexivity|].
  split; [vm_compute; reflexivity|].
  split; [vm_compute; reflexivity|].
  split; [vm_compute; reflexivity|].
  vm_compute. auto 10.
Qed.

(** C4, as stated, fails when a manager's [GarbageCollection] fails: the
    record has no stick time and its pod is gone, and the tick leaves it
    in the store. *)
Lemma gc_failure_keeps_record_counterexample :
  IPStickTime exPlainPod = 0 /\
  GetLocalPods exGcFailEnv = inr [] /\
  exists w1,
    gcTick exGcFailEnv exServiceMultiIP exPlainWorld = Some w1 /\
    store w1 !! "default/web-0" = Some (exRecord exPlainPod).
Proof.
  split; [reflexivity|]. split; [reflexivity|].
  eexists. split; vm_compute; reflexivity.
Qed.

(** ** The route-rule cleanup (C9) *)



(** An id whose second part does not parse ends the loop: the ids after it
    are not looked at. *)
Lemma cleanIPRules_stops env resID rest w head ip tail :
  splitAfterDot resID = head :: ip :: tail ->
  ParseCIDR env (ip +:+ "/32") = None ->
  cleanIPRules env (resID :: rest) w = w.
Proof. intros Hs Hp. cbn [cleanIPRules]. rewrite Hs, Hp. reflexivity. Qed.

(** C9 at a failing input: of two expired ENI-IP ids the map hands out the
    dual-stack one first; its address part does not parse, and the rules
    and routes of the other, well-formed id are never deleted, although
    they are when the order is the other way round. The expired records
    are deleted all the same. *)
Theorem gc_cleanup_stops_at_unparsable_id :
  splitAfterDot exDualID = ["00:16:3e:00:00:01."; "192.168.0.11-fd00::11"] /\
  ParseCIDR (exEnv exPlainPod) ("192.168.0.11-fd00::11" +:+ "/32") = None /\
  cleanIPRules (exEnv exPlainPod) [exDualID; exV4ID] (exWorld []) = exWorld [] /\
  trace (cleanIPRules (exEnv exPlainPod) [exV4ID; exDualID] (exWorld []))
  = [EvDeleteIPRulesByIP "192.168.0.12/32"; EvDeleteRouteByIP "192.168.0.12/32"] /\
  exists w1,
    gcTick (exEnv exPlainPod) exServiceMultiIP exExpiredWorld = Some w1 /\
    List.filter isRouteCleanup (trace w1) = [] /\
    store w1 = ∅.
Proof.
  split; [reflexivity|]. split; [reflexivity|].
  split; [vm_compute; reflexivity|]. split; [vm_compute; reflexivity|].
  eexists. split; [vm_compute; reflexivity|]. split; vm_compute; reflexivity.
Qed.

(** ** The order of the mapping *)

Lemma ltb_lts (a b : string) :
  String.ltb a b = true <-> OrderedTypeEx.String_as_OT.lt a b.
Proof.
  unfold String.ltb. rewrite <- OrderedTypeEx.String_as_OT.cmp_lt.
  unfold OrderedTypeEx.String_as_OT.cmp.
  destruct (String.compare a b); split; congruence.
Qed.

Lemma ltb_trans (a b c : string) :
  String.ltb a b = true -> String.ltb b c = true -> String.ltb a c = true.
Proof.
  rewrite !ltb_lts. apply OrderedTypeEx.String_as_OT.lt_trans.
Qed.

Lemma ltb_irrefl (a : string) : String.ltb a a = false.
Proof.
  destruct (String.ltb a a) eqn:H; [|reflexivity].
  apply ltb_lts in H. apply OrderedTypeEx.String_as_OT.lt_not_eq in H.
  exfalso. apply H. reflexivity.
Qed.

Lemma ltb_trichotomy (a b : string) :
  a = b \/ String.ltb a b = true \/ String.ltb b a = true.
Proof.
  unfold String.ltb. rewrite (String.compare_antisym b a).
  destruct (String.compare a b) eqn:H; simpl; auto.
  left. apply String.compare_eq_iff. assumption.
Qed.

Lemma mappingLess_spec (a b : PodMapping) :
  mappingLess a b = true <->
  String.ltb (pmName b) (pmName a) = true \/
  (pmName a = pmName b /\
   String.ltb (pmRemoteResID a) (pmRemoteResID b) = true).
Proof.
  unfold mappingLess. destruct (String.eqb_spec (pmName a) (pmName b)) as [E|N];
    cbn [negb].
  - rewrite E, ltb_irrefl. intuition congruence.
  - intuition congruence.
Qed.

Lemma mappingLess_asym (a b : PodMapping) :
  mappingLess a b = true -> mappingLess b a = false.
Proof.
  intros H. destruct (mappingLess b a) eqn:H'; [|reflexivity].
  apply mappingLess_spec in H, H'.
  destruct H as [H|[E H]], H' as [H'|[E' H']].
  - pose proof (ltb_trans _ _ _ H H') as C. rewrite ltb_irrefl in C. discriminate.
  - rewrite E' in H. rewrite ltb_irrefl in H. discriminate.
  - rewrite E in H'. rewrite ltb_irrefl in H'. discriminate.
  - pose proof (ltb_trans _ _ _ H H') as C. rewrite ltb_irrefl in C. discriminate.
Qed.

Lemma mappingLess_cotrans (a b c : PodMapping) :
  mappingLess c a = true -> mappingLess b a = true \/ mappingLess c b = true.
Proof.
  rewrite !mappingLess_spec. intros [H|[E H]].
  - destruct (ltb_trichotomy (pmName b) (pmName a)) as [Eb|[Hb|Hb]].
    + right. left. rewrite Eb. assumption.
    + right. left. eapply ltb_trans; eassumption.
    + left. left. assumption.
  - destruct (ltb_trichotomy (pmName b) (pmName a)) as [Eb|[Hb|Hb]].
    + destruct (ltb_trichotomy (pmRemoteResID b) (pmRemoteResID a))
        as [Er|[Hr|Hr]].
      * right. right. split; [congruence|]. rewrite Er. assumption.
      * left. right. auto.
      * right. right. split; [congruence|]. eapply ltb_trans; eassumption.
    + right. left. rewrite E. assumption.
    + left. left. assumption.
Qed.

Lemma mappingOrdered_trans (a b c : PodMapping) :
  mappingOrdered a b -> mappingOrdered b c -> mappingOrdered a c.
Proof.
  unfold mappingOrdered. intros Hab Hbc.
  destruct (mappingLess c a) eqn:H; [|reflexivity].
  destruct (mappingLess_cotrans a b c H) as [H'|H']; congruence.
Qed.

Lemma insertSorted_In x y l :
  In y (insertSorted mappingLess x l) <-> y = x \/ In y l.
Proof.
  induction l as [|z rest IH]; simpl.
  - intuition congruence.
  - destruct (mappingLess z x); simpl; rewrite ?IH; intuition congruence.
Qed.

Lemma insertSorted_sorted x l :
  StronglySorted mappingOrdered l ->
  StronglySorted mappingOrdered (insertSorted mappingLess x l).
Proof.
  induction 1 as [|y rest Hrest IH Hall]; simpl.
  - constructor; constructor.
  - destruct (mappingLess y x) eqn:Hyx.
    + constructor; [assumption|].
      apply List.Forall_forall. intros z Hz. apply insertSorted_In in Hz as [->|Hz].
      * apply mappingLess_asym. assumption.
      * rewrite List.Forall_forall in Hall. auto.
    + constructor; [constructor; assumption|].
      constructor; [exact Hyx|].
      rewrite List.Forall_forall in Hall |- *. intros z Hz.
      apply mappingOrdered_trans with y; [exact Hyx | auto].
Qed.

Lemma sortSlice_sorted l : StronglySorted mappingOrdered (sortSlice mappingLess l).
Proof.
  induction l as [|x rest IH]; simpl; [constructor|].
  apply insertSorted_sorted. assumption.
Qed.

Lemma insertSorted_perm x l : Permutation (insertSorted mappingLess x l) (x :: l).
Proof.
  induction l as [|y rest IH]; simpl; [reflexivity|].
  destruct (mappingLess y x); [|reflexivity].
  rewrite IH. apply perm_swap.
Qed.

Lemma sortSlice_perm l : Permutation (sortSlice mappingLess l) l.
Proof.
  induction l as [|x rest IH]; simpl; [reflexivity|].
  rewrite insertSorted_perm. constructor. assumption.
Qed.

(** ** The join *)

Lemma allOk_empty held : allOk held ∅.
Proof. intros k e H. rewrite lookup_empty in H. discriminate. Qed.

Lemma allOk_insert held all k e :
  allOk held all -> entryOk held k e -> allOk held (<[k := e]> all).
Proof.
  intros Hall He k' e'. destruct (decide (k = k')) as [<-|Hne].
  - rewrite lookup_insert_eq. intros [= <-]. assumption.
  - rewrite lookup_insert_ne by assumption. apply Hall.
Qed.

Lemma allPool_insert all k e :
  allPool all -> poolEntry k e -> allPool (<[k := e]> all).
Proof.
  intros Hall He k' e'. destruct (decide (k = k')) as [<-|Hne].
  - rewrite lookup_insert_eq. intros [= <-]. assumption.
  - rewrite lookup_insert_ne by assumption. apply Hall.
Qed.

Lemma setLocal_ok id all : id <> "" -> allPool all -> allPool (setLocal id all).
Proof.
  intros Hid Hall. unfold setLocal.
  destruct (all !! id) as [old|] eqn:Hold; apply allPool_insert; try assumption.
  - destruct (Hall id old Hold) as (_ & Hl & Hr & Hp & Hn & Hv).
    unfold poolEntry. cbn. auto 10.
  - unfold poolEntry. cbn. auto 10.
Qed.

Lemma setRemote_ok id all : id <> "" -> allPool all -> allPool (setRemote id all).
Proof.
  intros Hid Hall. unfold setRemote.
  destruct (all !! id) as [old|] eqn:Hold; apply allPool_insert; try assumption.
  - destruct (Hall id old Hold) as (_ & Hl & Hr & Hp & Hn & Hv).
    unfold poolEntry. cbn. auto 10.
  - unfold poolEntry. cbn. auto 10.
Qed.

Lemma fold_setLocal_ok ids all :
  Forall (fun id => id <> "") ids -> allPool all ->
  allPool (fold_left (fun all id => setLocal id all) ids all).
Proof.
  intros Hids. revert all. induction Hids as [|id rest Hid Hrest IH]; intros all Hall.
  - assumption.
  - cbn [fold_left]. apply IH, setLocal_ok; assumption.
Qed.

Lemma fold_setRemote_ok ids all :
  Forall (fun id => id <> "") ids -> allPool all ->
  allPool (fold_left (fun all id => setRemote id all) ids all).
Proof.
  intros Hids. revert all. induction Hids as [|id rest Hid Hrest IH]; intros all Hall.
  - assumption.
  - cbn [fold_left]. apply IH, setRemote_ok; assumption.
Qed.

Lemma allPool_allOk held all : allPool all -> allOk held all.
Proof.
  intros Hall k e He. destruct (Hall k e He) as (Hk & Hl & Hr & Hp & Hn & Hv).
  unfold entryOk. rewrite Hp, Hn, Hv.
  repeat split; auto; try congruence; intros; intuition congruence.
Qed.

Lemma bindItem_ok (held : string -> Prop) p info all res :
  ResPodInfo p = Some info -> Name info <> "" -> ResID res <> "" ->
  (String.eqb (ResType res) ResourceTypeEIP = false -> held (ResID res)) ->
  allOk held all ->
  exists all', bindItem p all res = Some all' /\ allOk held all'.
Proof.
  intros Hinfo Hname Hid Hheld Hall. unfold bindItem.
  destruct (String.eqb (ResType res) ResourceTypeEIP) eqn:Heip; [eauto|].
  rewrite Hinfo. specialize (Hheld eq_refl).
  destruct (all !! ResID res) as [old|] eqn:Hold; eexists; (split; [reflexivity|]);
    apply allOk_insert; try assumption.
  - destruct (Hall _ old Hold) as (_ & Hl & Hr & Hp & Hn & Hv & Hh).
    assert (Hvalid :
              (if String.eqb (ResID res) (pmLocalResID old) &&
                  String.eqb (pmLocalResID old) (pmRemoteResID old)
               then true else pmValid old) = true <->
              pmLocalResID old = ResID res /\ pmRemoteResID old = ResID res).
    { destruct (String.eqb_spec (ResID res) (pmLocalResID old)) as [E1|N1];
        cbn [andb].
      - destruct (String.eqb_spec (pmLocalResID old) (pmRemoteResID old))
          as [E2|N2].
        + split; [intros _; split; congruence | reflexivity].
        + rewrite Hv. split; [tauto | intros [_ E]; congruence].
      - rewrite Hv. split; [tauto | intros [E _]; congruence]. }
    unfold entryOk. cbn.
    split; [assumption|]. split; [assumption|]. split; [assumption|].
    split; [auto|]. split; [tauto|]. split; [|auto].
    rewrite Hvalid. tauto.
  - unfold entryOk. cbn.
    split; [assumption|]. split; [auto|]. split; [auto|]. split; [auto|].
    split; [tauto|]. split; [|auto].
    split; [discriminate | intros (_ & E & _); congruence].
Qed.

Lemma bindItems_ok (held : string -> Prop) p info items all :
  ResPodInfo p = Some info -> Name info <> "" ->
  Forall (fun item => ResID item <> "") items ->
  (forall item, In item items ->
                String.eqb (ResType item) ResourceTypeEIP = false ->
                held (ResID item)) ->
  allOk held all ->
  exists all', bindItems p all items = Some all' /\ allOk held all'.
Proof.
  intros Hinfo Hname Hids. revert all.
  induction Hids as [|res rest Hid Hrest IH]; intros all Hheld Hall.
  - simpl. eauto.
  - cbn [bindItems].
    destruct (bindItem_ok held p info all res Hinfo Hname Hid) as (all1 & -> & Hall1);
      [intros; apply Hheld; [left; reflexivity | assumption] | assumption |].
    apply IH; [|assumption]. intros item Hin. apply Hheld. right. assumption.
Qed.

Lemma bindPods_ok (held : string -> Prop) pods all :
  Forall (fun p =>
            (exists info, ResPodInfo p = Some info /\ Name info <> "") /\
            Forall (fun item => ResID item <> "") (Resources p)) pods ->
  (forall p item, In p pods -> In item (Resources p) ->
                  String.eqb (ResType item) ResourceTypeEIP = false ->
                  held (ResID item)) ->
  allOk held all ->
  exists all', bindPods all pods = Some all' /\ allOk held all'.
Proof.
  intros Hpods. revert all.
  induction Hpods as [|p rest [(info & Hinfo & Hname) Hids] Hrest IH];
    intros all Hheld Hall.
  - simpl. eauto.
  - cbn [bindPods].
    destruct (bindItems_ok held p info (Resources p) all Hinfo Hname Hids)
      as (all1 & -> & Hall1);
      [intros item Hin; apply (Hheld p item); [left; reflexivity | assumption]
      | assumption |].
    apply IH; [|assumption]. intros p' item Hp'. apply (Hheld p' item).
    right. assumption.
Qed.

Lemma joinMapping_ok local remote pods :
  mappingInputs local remote pods ->
  exists all, joinMapping local remote pods = Some all /\
              allOk (boundInStore pods) all.
Proof.
  intros (Hl & Hr & Hp). unfold joinMapping.
  apply bindPods_ok; [assumption| |].
  - intros p item Hin Hitem Heip. exists p, item. auto.
  - apply allPool_allOk.
    apply fold_setRemote_ok; [assumption|].
    apply fold_setLocal_ok; [assumption|].
    intros k e H. rewrite lookup_empty in H. discriminate.
Qed.

(** The last loop turns what holds under a key into the validity rule. *)
Lemma markIdle_rule held k e :
  entryOk held k e ->
  validRule (markIdle e) /\ (bound (markIdle e) -> held (pmPodBindResID (markIdle e))).
Proof.
  intros (Hk & Hl & Hr & Hp & Hn & Hv & Hh).
  unfold validRule, bound, markIdle.
  destruct (String.eqb_spec (pmName e) "") as [En|Nn]; cbn [andb].
  - (* no pod name: the entry is bound to no pod *)
    assert (Hnb : pmPodBindResID e = "").
    { destruct Hp as [Hp|Hp]; [assumption|]. apply Hn in Hp. contradiction. }
    destruct (String.eqb_spec (pmLocalResID e) (pmRemoteResID e)) as [E|N]; cbn.
    + split; [|intros Hb; contradiction]. split; [|reflexivity].
      intros _. right. auto.
    + split; [|intros Hb; contradiction]. split.
      * intros Hvalid. apply Hv in Hvalid as (Hpk & _). congruence.
      * intros [(Hb & _)|(_ & E)]; [contradiction | contradiction].
  - (* a pod name: the entry is bound *)
    assert (Hb : pmPodBindResID e = k) by (apply Hn; assumption).
    split; [|intros _; rewrite Hb; auto]. split.
    + intros Hvalid. apply Hv in Hvalid as (_ & E1 & E2).
      left. repeat split; congruence.
    + intros [(_ & E1 & E2)|(Hnb & _)].
      * apply Hv. repeat split; congruence.
      * exfalso. apply Hnb. congruence.
Qed.

(** ** The join leaves nothing out *)

Lemma setLocal_local id all : hasLocal (setLocal id all) id.
Proof.
  unfold hasLocal, setLocal. destruct (all !! id);
    eexists; rewrite lookup_insert_eq; split; reflexivity.
Qed.

Lemma setRemote_remote id all : hasRemote (setRemote id all) id.
Proof.
  unfold hasRemote, setRemote. destruct (all !! id);
    eexists; rewrite lookup_insert_eq; split; reflexivity.
Qed.

Lemma setLocal_keeps id all k :
  (hasLocal all k -> hasLocal (setLocal id all) k) /\
  (hasRemote all k -> hasRemote (setLocal id all) k) /\
  (hasBound all k -> hasBound (setLocal id all) k).
Proof.
  destruct (decide (k = id)) as [->|Hne].
  - unfold hasLocal, hasRemote, hasBound, setLocal.
    repeat split; intros (e & He & Hid); rewrite He;
      eexists; rewrite lookup_insert_eq; (split; [reflexivity|]);
      cbn; auto.
  - unfold hasLocal, hasRemote, hasBound, setLocal.
    repeat split; intros (e & He & Hid); exists e;
      (split; [|assumption]);
      destruct (all !! id); rewrite lookup_insert_ne by congruence; exact He.
Qed.

Lemma setRemote_keeps id all k :
  (hasLocal all k -> hasLocal (setRemote id all) k) /\
  (hasRemote all k -> hasRemote (setRemote id all) k) /\
  (hasBound all k -> hasBound (setRemote id all) k).
Proof.
  destruct (decide (k = id)) as [->|Hne].
  - unfold hasLocal, hasRemote, hasBound, setRemote.
    repeat split; intros (e & He & Hid); rewrite He;
      eexists; rewrite lookup_insert_eq; (split; [reflexivity|]);
      cbn; auto.
  - unfold hasLocal, hasRemote, hasBound, setRemote.
    repeat split; intros (e & He & Hid); exists e;
      (split; [|assumption]);
      destruct (all !! id); rewrite lookup_insert_ne by congruence; exact He.
Qed.

Lemma bindItem_keeps p all res all' k :
  bindItem p all res = Some all' ->
  (hasLocal all k -> hasLocal all' k) /\
  (hasRemote all k -> hasRemote all' k) /\
  (hasBound all k -> hasBound all' k) /\
  (String.eqb (ResType res) ResourceTypeEIP = false -> hasBound all' (ResID res)).
Proof.
  unfold bindItem. destruct (String.eqb (ResType res) ResourceTypeEIP).
  { intros [= <-]. repeat split; auto. discriminate. }
  destruct (ResPodInfo p) as [info|]; [|discriminate].
  assert (Hnew : forall e, hasBound (<[ResID res := mkPodMapping (Name info)
                              (Namespace info) (pmValid e) (ResID res)
                              (pmLocalResID e) (pmRemoteResID e)]> all)
                           (ResID res)).
  { intros e. eexists. rewrite lookup_insert_eq. split; reflexivity. }
  destruct (decide (k = ResID res)) as [->|Hne].
  - destruct (all !! ResID res) as [old|] eqn:Hold; intros [= <-].
    + unfold hasLocal, hasRemote, hasBound. rewrite Hold.
      repeat split; try (intros (e & [= <-] & Hid)); try intros _;
        eexists; rewrite lookup_insert_eq; (split; [reflexivity|]);
        cbn; auto.
    + unfold hasLocal, hasRemote, hasBound. rewrite Hold.
      repeat split; try (intros (e & He & _); discriminate).
      intros _. eexists. rewrite lookup_insert_eq. split; reflexivity.
  - assert (Hother : forall v, <[ResID res := v]> all !! k = all !! k)
      by (intros v; apply lookup_insert_ne; congruence).
    destruct (all !! ResID res) as [old|] eqn:Hold; intros [= <-];
      unfold hasLocal, hasRemote, hasBound; rewrite !Hother;
      repeat split; auto; intros _; eexists; rewrite lookup_insert_eq;
      split; reflexivity.
Qed.

Lemma bindItems_keeps p items all all' k :
  bindItems p all items = Some all' ->
  (hasLocal all k -> hasLocal all' k) /\
  (hasRemote all k -> hasRemote all' k) /\
  (hasBound all k -> hasBound all' k) /\
  (forall item, In item items ->
                String.eqb (ResType item) ResourceTypeEIP = false ->
                ResID item = k -> hasBound all' k).
Proof.
  revert all. induction items as [|res rest IH]; intros all; cbn [bindItems].
  { intros [= <-]. repeat split; auto. intros item []. }
  destruct (bindItem p all res) as [all1|] eqn:H1; [|discriminate].
  intros H2. destruct (bindItem_keeps p all res all1 k H1) as (L1 & R1 & B1 & N1).
  destruct (IH all1 H2) as (L2 & R2 & B2 & N2).
  repeat split; auto.
  intros item [->|Hin] Heip Hid; [|eauto].
  apply B2. rewrite <- Hid. apply (bindItem_keeps p all item all1 (ResID item) H1).
  assumption.
Qed.

Lemma bindPods_keeps pods all all' k :
  bindPods all pods = Some all' ->
  (hasLocal all k -> hasLocal all' k) /\
  (hasRemote all k -> hasRemote all' k) /\
  (hasBound all k -> hasBound all' k) /\
  (boundInStore pods k -> hasBound all' k).
Proof.
  revert all. induction pods as [|p rest IH]; intros all; cbn [bindPods].
  { intros [= <-]. repeat split; auto.
    intros (p & item & [] & _). }
  destruct (bindItems p all (Resources p)) as [all1|] eqn:H1; [|discriminate].
  intros H2.
  destruct (bindItems_keeps p (Resources p) all all1 k H1) as (L1 & R1 & B1 & N1).
  destruct (IH all1 H2) as (L2 & R2 & B2 & N2).
  repeat split; auto.
  intros (p0 & item & [->|Hin] & Hitem & Heip & Hid).
  - apply B2. eapply N1; eauto.
  - apply N2. exists p0, item. auto.
Qed.

Lemma fold_setLocal_has ids k :
  forall all,
    (In k ids \/ hasLocal all k -> 
     hasLocal (fold_left (fun all id => setLocal id all) ids all) k) /\
    (hasRemote all k ->
     hasRemote (fold_left (fun all id => setLocal id all) ids all) k) /\
    (hasBound all k ->
     hasBound (fold_left (fun all id => setLocal id all) ids all) k).
Proof.
  induction ids as [|id rest IH]; intros all; cbn [fold_left].
  { repeat split; auto. intros [[]|H]; exact H. }
  destruct (IH (setLocal id all)) as (L & R & B).
  destruct (setLocal_keeps id all k) as (L0 & R0 & B0).
  repeat split; auto.
  intros [[->|Hin]|H]; apply L; auto. right. apply setLocal_local.
Qed.

Lemma fold_setRemote_has ids k :
  forall all,
    (hasLocal all k ->
     hasLocal (fold_left (fun all id => setRemote id all) ids all) k) /\
    (In k ids \/ hasRemote all k ->
     hasRemote (fold_left (fun all id => setRemote id all) ids all) k) /\
    (hasBound all k ->
     hasBound (fold_left (fun all id => setRemote id all) ids all) k).
Proof.
  induction ids as [|id rest IH]; intros all; cbn [fold_left].
  { repeat split; auto. intros [[]|H]; exact H. }
  destruct (IH (setRemote id all)) as (L & R & B).
  destruct (setRemote_keeps id all k) as (L0 & R0 & B0).
  repeat split; auto.
  intros [[->|Hin]|H]; apply R; auto. right. apply setRemote_remote.
Qed.

Lemma joinMapping_complete local remote pods all k :
  joinMapping local remote pods = Some all ->
  (In k local -> hasLocal all k) /\
  (In k remote -> hasRemote all k) /\
  (boundInStore pods k -> hasBound all k).
Proof.
  unfold joinMapping. intros H.
  destruct (bindPods_keeps pods _ all k H) as (L & R & _ & B).
  repeat split; [| |exact B].
  - intros Hin. apply L.
    apply (fold_setRemote_has remote k), (fold_setLocal_has local k). auto.
  - intros Hin. apply R. apply (fold_setRemote_has remote k). auto.
Qed.

Lemma markIdle_ids e :
  pmLocalResID (markIdle e) = pmLocalResID e /\
  pmRemoteResID (markIdle e) = pmRemoteResID e /\
  pmPodBindResID (markIdle e) = pmPodBindResID e /\
  pmName (markIdle e) = pmName e.
Proof. unfold markIdle. destruct (_ && _); auto. Qed.

(** ** The join adds nothing *)

Lemma allFrom_insert isLocal isRemote held all k e :
  allFrom isLocal isRemote held all -> entryFrom isLocal isRemote held k e ->
  allFrom isLocal isRemote held (<[k := e]> all).
Proof.
  intros Hall He k' e'. destruct (decide (k = k')) as [<-|Hne].
  - rewrite lookup_insert_eq. intros [= <-]. assumption.
  - rewrite lookup_insert_ne by assumption. apply Hall.
Qed.

Ltac from_fields :=
  unfold entryFrom; cbn; repeat apply conj; intros;
  try tauto; try congruence; auto 10.

Lemma setLocal_from isLocal isRemote held id all :
  id <> "" -> isLocal id ->
  allFrom isLocal isRemote held all ->
  allFrom isLocal isRemote held (setLocal id all).
Proof.
  intros Hid Hloc Hall. unfold setLocal.
  destruct (all !! id) as [old|] eqn:Hold; apply allFrom_insert; try assumption.
  - destruct (Hall id old Hold) as (_ & _ & Hl & Hr & Hb & Hn).
    from_fields.
  - from_fields.
Qed.

Lemma setRemote_from isLocal isRemote held id all :
  id <> "" -> isRemote id ->
  allFrom isLocal isRemote held all ->
  allFrom isLocal isRemote held (setRemote id all).
Proof.
  intros Hid Hrem Hall. unfold setRemote.
  destruct (all !! id) as [old|] eqn:Hold; apply allFrom_insert; try assumption.
  - destruct (Hall id old Hold) as (_ & _ & Hl & Hr & Hb & Hn).
    from_fields.
  - from_fields.
Qed.

Lemma fold_setLocal_from isLocal isRemote held ids all :
  Forall (fun id => id <> "") ids -> (forall id, In id ids -> isLocal id) ->
  allFrom isLocal isRemote held all ->
  allFrom isLocal isRemote held
          (fold_left (fun all id => setLocal id all) ids all).
Proof.
  intros Hids. revert all.
  induction Hids as [|id rest Hid Hrest IH]; intros all Hloc Hall.
  - assumption.
  - cbn [fold_left]. apply IH.
    + intros id' Hin. apply Hloc. right. assumption.
    + apply setLocal_from; [assumption | apply Hloc; left; reflexivity
                            | assumption].
Qed.

Lemma fold_setRemote_from isLocal isRemote held ids all :
  Forall (fun id => id <> "") ids -> (forall id, In id ids -> isRemote id) ->
  allFrom isLocal isRemote held all ->
  allFrom isLocal isRemote held
          (fold_left (fun all id => setRemote id all) ids all).
Proof.
  intros Hids. revert all.
  induction Hids as [|id rest Hid Hrest IH]; intros all Hrem Hall.
  - assumption.
  - cbn [fold_left]. apply IH.
    + intros id' Hin. apply Hrem. right. assumption.
    + apply setRemote_from; [assumption | apply Hrem; left; reflexivity
                             | assumption].
Qed.

Lemma bindItem_from isLocal isRemote held p info all res all' :
  ResPodInfo p = Some info -> ResID res <> "" ->
  (String.eqb (ResType res) ResourceTypeEIP = false ->
   held (ResID res) (Name info) (Namespace info)) ->
  allFrom isLocal isRemote held all ->
  bindItem p all res = Some all' ->
  allFrom isLocal isRemote held all'.
Proof.
  intros Hinfo Hid Hheld Hall. unfold bindItem.
  destruct (String.eqb (ResType res) ResourceTypeEIP) eqn:Heip;
    [intros [= <-]; assumption|].
  rewrite Hinfo. specialize (Hheld eq_refl).
  destruct (all !! ResID res) as [old|] eqn:Hold; intros [= <-];
    apply allFrom_insert; try assumption.
  - destruct (Hall _ old Hold) as (_ & _ & Hl & Hr & Hb & Hn).
    from_fields.
  - from_fields.
Qed.

Lemma bindItems_from isLocal isRemote held p info items all all' :
  ResPodInfo p = Some info ->
  Forall (fun item => ResID item <> "") items ->
  (forall item, In item items ->
                String.eqb (ResType item) ResourceTypeEIP = false ->
                held (ResID item) (Name info) (Namespace info)) ->
  allFrom isLocal isRemote held all ->
  bindItems p all items = Some all' ->
  allFrom isLocal isRemote held all'.
Proof.
  intros Hinfo Hids. revert all.
  induction Hids as [|res rest Hid Hrest IH]; intros all Hheld Hall;
    cbn [bindItems].
  - intros [= <-]. assumption.
  - destruct (bindItem p all res) as [all1|] eqn:H1; [|discriminate].
    apply IH.
    + intros item Hin. apply Hheld. right. assumption.
    + apply (bindItem_from isLocal isRemote held p info all res all1);
        try assumption.
      apply Hheld. left. reflexivity.
Qed.

Lemma bindPods_from isLocal isRemote held pods all all' :
  Forall (fun p =>
            (exists info, ResPodInfo p = Some info /\ Name info <> "") /\
            Forall (fun item => ResID item <> "") (Resources p)) pods ->
  (forall p info item,
      In p pods -> ResPodInfo p = Some info -> In item (Resources p) ->
      String.eqb (ResType item) ResourceTypeEIP = false ->
      held (ResID item) (Name info) (Namespace info)) ->
  allFrom isLocal isRemote held all ->
  bindPods all pods = Some all' ->
  allFrom isLocal isRemote held all'.
Proof.
  intros Hpods. revert all.
  induction Hpods as [|p rest [(info & Hinfo & Hname) Hids] Hrest IH];
    intros all Hheld Hall; cbn [bindPods].
  - intros [= <-]. assumption.
  - destruct (bindItems p all (Resources p)) as [all1|] eqn:H1; [|discriminate].
    apply IH.
    + intros p' info' item Hp'. apply (Hheld p' info' item). right. assumption.
    + apply (bindItems_from isLocal isRemote held p info (Resources p) all all1);
        try assumption.
      intros item Hin. apply (Hheld p info item); auto. left. reflexivity.
Qed.

Lemma joinMapping_from local remote pods all :
  mappingInputs local remote pods ->
  joinMapping local remote pods = Some all ->
  allFrom (fun id => In id local) (fun id => In id remote) (heldAs pods) all.
Proof.
  intros (Hl & Hr & Hp). unfold joinMapping.
  apply bindPods_from; [assumption| |].
  - intros p info item Hin Hinfo Hitem Heip. exists p, info, item. auto 10.
  - apply fold_setRemote_from; [assumption | auto |].
    apply fold_setLocal_from; [assumption | auto |].
    intros k e H. rewrite lookup_empty in H. discriminate.
Qed.

Lemma heldAs_bound pods id name namespace :
  heldAs pods id name namespace -> boundInStore pods id.
Proof. intros (p & info & item & Hp & _ & Hi & He & Hid & _). exists p, item. auto. Qed.

Lemma markIdle_namespace e : pmNamespace (markIdle e) = pmNamespace e.
Proof. unfold markIdle. destruct (_ && _); reflexivity. Qed.

(** The entry the join keeps under a key is the join of the three sources
    at that key. *)
Lemma entry_joinedAt local remote pods all k e :
  joinMapping local remote pods = Some all ->
  allOk (boundInStore pods) all ->
  allFrom (fun id => In id local) (fun id => In id remote) (heldAs pods) all ->
  all !! k = Some e ->
  joinedAt local remote pods k (markIdle e).
Proof.
  intros Hjoin Hok Hfrom He.
  destruct (Hok k e He) as (Hk & Hl & Hr & Hb & _).
  destruct (Hfrom k e He) as (_ & Hsome & Fl & Fr & Fb & Fn).
  destruct (joinMapping_complete local remote pods all k Hjoin) as (Cl & Cr & Cb).
  assert (Hown : forall e', all !! k = Some e' -> e' = e) by (intros; congruence).
  unfold joinedAt. destruct (markIdle_ids e) as (El & Er & Eb & En).
  rewrite El, Er, Eb, En, markIdle_namespace. clear El Er Eb En.
  split; [|split; [|split]].
  - destruct Hsome as [E|[E|E]]; [auto | auto |].
    right. right. apply heldAs_bound with (pmName e) (pmNamespace e). auto.
  - destruct Hl as [E|E]; [right | left; auto].
    split; [assumption|]. intros Hin. destruct (Cl Hin) as (e' & He' & E').
    rewrite (Hown e' He') in E'. congruence.
  - destruct Hr as [E|E]; [right | left; auto].
    split; [assumption|]. intros Hin. destruct (Cr Hin) as (e' & He' & E').
    rewrite (Hown e' He') in E'. congruence.
  - destruct Hb as [E|E]; [right | left; auto].
    destruct (Fn E) as [En Ens]. repeat split; try assumption.
    intros Hin. destruct (Cb Hin) as (e' & He' & E').
    rewrite (Hown e' He') in E'. congruence.
Qed.

(** An entry shows the key it is kept under. *)
Lemma joinedAt_key local remote pods all k e id :
  mappingInputs local remote pods ->
  allOk (boundInStore pods) all -> all !! k = Some e ->
  joinedAt local remote pods id (markIdle e) -> k = id.
Proof.
  intros (Hl & Hr & Hp) Hok He (Hid & Jl & Jr & Jb).
  destruct (Hok k e He) as (Hk & Ol & Or & Ob & _).
  destruct (markIdle_ids e) as (El & Er & Eb & _).
  rewrite El in Jl. rewrite Er in Jr. rewrite Eb in Jb.
  assert (Hne : id <> "").
  { rewrite List.Forall_forall in Hl, Hr, Hp.
    destruct Hid as [H|[H|(p & item & H1 & H2 & _ & <-)]];
      [apply Hl; assumption | apply Hr; assumption |].
    destruct (Hp p H1) as [_ Hitems].
    rewrite List.Forall_forall in Hitems. apply Hitems. assumption. }
  destruct Hid as [H|[H|H]].
  - destruct Jl as [[E _]|[_ N]]; [|contradiction].
    destruct Ol as [O|O]; congruence.
  - destruct Jr as [[E _]|[_ N]]; [|contradiction].
    destruct Or as [O|O]; congruence.
  - destruct Jb as [[E _]|(_ & _ & _ & N)]; [|contradiction].
    destruct Ob as [O|O]; congruence.
Qed.

Lemma NoDup_map_on {A B} (f : A -> B) (l : list A) :
  (forall x y, In x l -> In y l -> f x = f y -> x = y) ->
  NoDup l -> NoDup (map f l).
Proof.
  intros Hinj Hnd. induction Hnd as [|x l Hx Hnd IH]; cbn [map].
  - constructor.
  - constructor.
    + rewrite list_elem_of_In, in_map_iff. intros (y & Hfy & Hy).
      apply Hx. rewrite list_elem_of_In.
      assert (y = x) by (apply Hinj; [right; assumption | left; reflexivity
                                     | assumption]).
      subst y. assumption.
    + apply IH. intros a b Ha Hb. apply Hinj; right; assumption.
Qed.

(** No entry of the join is listed twice. *)
Lemma joinMapping_NoDup local remote pods all :
  mappingInputs local remote pods ->
  joinMapping local remote pods = Some all ->
  allOk (boundInStore pods) all ->
  allFrom (fun id => In id local) (fun id => In id remote) (heldAs pods) all ->
  NoDup (map (fun kv => markIdle (snd kv)) (map_to_list all)).
Proof.
  intros Hin Hjoin Hok Hfrom. apply NoDup_map_on; [|apply NoDup_map_to_list].
  intros [k1 e1] [k2 e2] H1 H2 Heq. cbn [snd] in Heq.
  apply list_elem_of_In, elem_of_map_to_list in H1, H2.
  pose proof (entry_joinedAt local remote pods all k1 e1 Hjoin Hok Hfrom H1) as J.
  rewrite Heq in J.
  assert (k2 = k1)
    by (apply (joinedAt_key local remote pods all k2 e2 k1); assumption).
  subst k2. congruence.
Qed.

(** ** The three-way mapping (C8) *)

(** C8, as amended: on resource ids and pod names that are not empty, the
    join returns a list with exactly the entries of the three-way join:
    every entry is the join of the pool's local resources, its remote
    resources and the items of the stored records that are not EIPs at one
    resource id, every id found in one of the three has one such entry,
    and no entry is listed twice. Every entry is valid exactly when it is bound to a pod and its
    local, remote and pod-bound ids agree, or bound to no pod and its local
    and remote ids agree; and the list is ordered by name descending, then
    remote id ascending. *)
Theorem three_way_mapping local remote pods :
  mappingInputs local remote pods ->
  exists mapping,
    toResMapping local remote pods = Some mapping /\
    (forall e, In e mapping ->
               validRule e /\ exists id, joinedAt local remote pods id e) /\
    (forall id,
        In id local \/ In id remote \/ boundInStore pods id ->
        exists e,
          In e mapping /\ joinedAt local remote pods id e /\
          forall e', In e' mapping -> joinedAt local remote pods id e' ->
                     e' = e) /\
    NoDup mapping /\
    StronglySorted mappingOrdered mapping.
Proof.
  intros Hin. destruct (joinMapping_ok local remote pods Hin) as (all & Hjoin & Hall).
  pose proof (joinMapping_from local remote pods all Hin Hjoin) as Hfrom.
  unfold toResMapping. rewrite Hjoin. eexists. split; [reflexivity|].
  assert (Hentry : forall e,
             In e (sortSlice mappingLess
                     (map (fun kv => markIdle (snd kv)) (map_to_list all))) <->
             exists k e0, all !! k = Some e0 /\ e = markIdle e0).
  { intros e. split.
    - intros He. apply (Permutation_in _ (sortSlice_perm _)) in He.
      apply in_map_iff in He as ([k e0] & <- & He).
      apply list_elem_of_In, elem_of_map_to_list in He. eauto.
    - intros (k & e0 & Hk & ->).
      apply (Permutation_in _ (Permutation_sym (sortSlice_perm _))).
      apply in_map_iff. exists (k, e0). split; [reflexivity|].
      apply list_elem_of_In, elem_of_map_to_list. exact Hk. }
  split; [|split; [|split]].
  - intros e He. apply Hentry in He as (k & e0 & Hk & ->). split.
    + apply (markIdle_rule _ k e0 (Hall k e0 Hk)).
    + exists k. apply entry_joinedAt with all; assumption.
  - intros id Hid.
    destruct (joinMapping_complete local remote pods all id Hjoin) as (L & R & B).
    assert (He : exists e, all !! id = Some e).
    { destruct Hid as [H|[H|H]];
        [destruct (L H) as (e & He & _) | destruct (R H) as (e & He & _)
         | destruct (B H) as (e & He & _)]; eauto. }
    destruct He as (e & He). exists (markIdle e).
    split; [apply Hentry; eauto|].
    split; [apply entry_joinedAt with all; assumption|].
    intros e' He' Hj'. apply Hentry in He' as (k & e0 & Hk & ->).
    assert (k = id) by (apply (joinedAt_key local remote pods all k e0 id);
                        assumption).
    subst k. congruence.
  - rewrite sortSlice_perm.
    apply joinMapping_NoDup with local remote pods; assumption.
  - apply sortSlice_sorted.
Qed.

Lemma three_way_mapping_witness :
  exists mapping,
    toResMapping exLocal exRemote exBoundPods = Some mapping /\
    (forall e, In e mapping ->
               validRule e /\
               exists id, joinedAt exLocal exRemote exBoundPods id e) /\
    (forall id,
        In id exLocal \/ In id exRemote \/ boundInStore exBoundPods id ->
        exists e,
          In e mapping /\ joinedAt exLocal exRemote exBoundPods id e /\
          forall e', In e' mapping ->
                     joinedAt exLocal exRemote exBoundPods id e' -> e' = e) /\
    NoDup mapping /\
    StronglySorted mappingOrdered mapping.
Proof.
  apply (three_way_mapping exLocal exRemote exBoundPods).
  repeat constructor; try discriminate. exists (exPod podNetworkTypeVPCENI 0).
  split; [reflexivity | discriminate].
Defined.

(** C8, as stated, fails on an empty pod name and on an empty resource id.
    The resource of a pod without a name, unknown to the pool, gets an
    entry that is bound and valid although its ids do not agree; the
    resource without an id of a named pod gets an entry on which the local,
    remote and pod-bound ids agree (all are empty) and which is not
    valid. *)
Lemma three_way_mapping_empty_name_counterexample :
  (exists e,
      toResMapping [] [] exNamelessPods = Some [e] /\
      bound e /\ pmLocalResID e <> pmPodBindResID e /\ pmValid e = true /\
      ~ validRule e) /\
  (exists e,
      toResMapping [] [] exIdlessPods = Some [e] /\
      pmName e = "web-0" /\
      pmLocalResID e = pmRemoteResID e /\ pmRemoteResID e = pmPodBindResID e /\
      pmValid e = false /\ ~ validRule e).
Proof.
  split.
  - eexists. split; [vm_compute; reflexivity|].
    cbn. repeat split; try discriminate.
    unfold validRule, bound. cbn. intros [Hv _].
    destruct (Hv eq_refl) as [(_ & _ & E)|(N & _)];
      [discriminate | apply N; discriminate].
  - eexists. split; [vm_compute; reflexivity|].
    cbn. repeat split.
    unfold validRule, bound. cbn. intros [_ Hv].
    assert (E : false = true); [|discriminate].
    apply Hv. right. split; [intros N; apply N; reflexivity | reflexivity].
Qed.

(** The sample, spelled out: the bound ENI comes first and is valid; of the
    idle entries the one known on one side only is not; the EIP is absent. *)
Example three_way_mapping_sample :
  toResMapping exLocal exRemote exBoundPods
  = Some [mkPodMapping "web-0" "default" true "eni-b" "eni-b" "eni-b";
          mkPodMapping "" "" false "" "eni-a" "";
          mkPodMapping "" "" false "" "" "eni-c"].
Proof. vm_compute. reflexivity. Qed.

(** * Further properties of the coordinator *)

(** ** One default route in every reply *)

Lemma defaultRoutes_app (l1 l2 : list NetConf) :
  defaultRoutes (l1 ++ l2) = (defaultRoutes l1 + defaultRoutes l2)%nat.
Proof. unfold defaultRoutes. rewrite List.filter_app, length_app. reflexivity. Qed.

Lemma hasDefaultIf_app (l1 l2 : list NetConf) :
  hasDefaultIf (l1 ++ l2) = hasDefaultIf l1 || hasDefaultIf l2.
Proof. unfold hasDefaultIf. apply existsb_app. Qed.

Lemma defaultForNetConf_single (l l' : list NetConf) :
  defaultForNetConf l = (None, l') -> l <> [] -> singleDefault l'.
Proof.
  intros H Hne. destruct l as [|c0 l0]; [congruence|]. clear Hne.
  set (l := c0 :: l0) in *.
  assert (Hdef : defaultForNetConf l =
                 match scanNetConf l false false with
                 | inl e => (Some e, l)
                 | inr (drs, dis) =>
                     if negb dis
                     then (Some (ErrMsg "default interface is not set"), l)
                     else if negb drs then (None, markFirstDefaultIf l)
                          else (None, l)
                 end) by reflexivity.
  rewrite Hdef in H. clearbody l. clear Hdef.
  destruct (Nat.le_gt_cases 2 (defaultRoutes l)) as [H2|H1].
  - rewrite scanNetConf_duplicated in H by lia. discriminate.
  - rewrite scanNetConf_flags in H by lia. cbn [orb] in H.
    destruct (hasDefaultIf l) eqn:Hif; cbn [negb] in H; [|discriminate].
    destruct (Nat.eqb (defaultRoutes l) 0) eqn:H0; cbn [negb] in H.
    + apply Nat.eqb_eq in H0. injection H as <-.
      destruct (markFirstDefaultIf_first l Hif)
        as (pre & c & post & E & Hp & Hc & Hm).
      rewrite Hm. subst l. split.
      * rewrite defaultRoutes_app in H0 |- *.
        change (c :: post) with ([c] ++ post) in H0.
        change (setDefaultRoute c :: post)
          with ([setDefaultRoute c] ++ post).
        rewrite defaultRoutes_app in H0 |- *.
        unfold defaultRoutes at 2. simpl. lia.
      * rewrite hasDefaultIf_app in Hif |- *.
        unfold hasDefaultIf in *. simpl in *. exact Hif.
    + apply Nat.eqb_neq in H0. injection H as <-. split; [lia|exact Hif].
Qed.

Lemma exclusiveENIFromCRD_single env n pod waitReady confs :
  exclusiveENIFromCRD env n pod waitReady = Ok confs -> singleDefault confs.
Proof.
  unfold exclusiveENIFromCRD.
  destruct (requestCRD env n pod waitReady) as [e|[podEni|]] eqn:Hr;
    [discriminate| |].
  - apply requestCRD_allocations in Hr.
    destruct (if enableTrunk n then _ else _) as [trunk|e|]; try discriminate.
    destruct (exclusiveENIConfs _ _ _ _ _) as [e|confs0] eqn:Hc; [discriminate|].
    apply exclusiveENIConfs_length in Hc.
    destruct (defaultForNetConf confs0) as [[e|] confs'] eqn:Hd; [discriminate|].
    intros [= <-]. eapply defaultForNetConf_single; eauto.
    destruct confs0; [|discriminate].
    destruct (peAllocations podEni); [congruence|discriminate].
  - destruct (if enableTrunk n then _ else _) as [trunk|e|]; discriminate.
Qed.

Lemma allocSwitch_single env n r pod old w ipType netConf resources pod' w' :
  allocSwitch env n r pod old w = Continue ipType netConf resources pod' w' ->
  singleDefault netConf.
Proof.
  unfold allocSwitch.
  destruct (String.eqb _ podNetworkTypeENIMultiIP).
  { unfold allocENIMultiIP.
    destruct (multiIPFromCRD env n pod true) as [confs|e|]; try discriminate.
    destruct (existsb _ confs) eqn:Hex; cbn [negb].
    - destruct (defaultForNetConf confs) as [[e|] confs'] eqn:Hd;
        [discriminate|].
      intros [= _ <- _ _ _]. eapply defaultForNetConf_single; eauto.
      eapply existsb_nonempty; eauto.
    - destruct (allocateENIMultiIP _ _ _ _ _) as [[eniIP|e|] w1];
        try discriminate.
      destruct (eipAndPut _ _ _ _ _ _ _ _) as [[[step rs] p] w2].
      destruct step; try discriminate.
      destruct (defaultForNetConf _) as [[e|] confs'] eqn:Hd; [discriminate|].
      intros [= _ <- _ _ _]. eapply defaultForNetConf_single; eauto.
      destruct confs; discriminate. }
  destruct (String.eqb _ podNetworkTypeVPCENI).
  { unfold allocVPCENI. destruct (isIPAMTypeCRD (ipamType n)).
    - destruct (exclusiveENIFromCRD env n pod true) as [confs|e|] eqn:Hx;
        try discriminate.
      intros [= _ <- _ _ _]. eapply exclusiveENIFromCRD_single; eauto.
    - destruct (allocateENI _ _ _ _ _) as [[eni|e|] w1]; try discriminate.
      destruct (eipAndPut _ _ _ _ _ _ _ _) as [[[step rs] p] w2].
      destruct step; try discriminate.
      intros [= _ <- _ _ _]. split; reflexivity. }
  destruct (String.eqb _ podNetworkTypeVPCIP); [|discriminate].
  unfold allocVPCIP.
  destruct (allocateVeth _ _ _ _ _) as [[veth|e|] w1]; try discriminate.
  destruct (dbPut _ _ _ _) as [[e|] w2]; try discriminate.
  intros [= _ <- _ _ _]. split; reflexivity.
Qed.

Lemma allocBody_single env n r pod w reply :
  fRet (allocBody env n r pod w) = Ok reply -> singleDefault (aNetConfs reply).
Proof.
  unfold allocBody.
  destruct (getPodResource env w pod) as [e|old]; [discriminate|].
  destruct (verifyPodNetworkType _ _); cbn [negb]; [|discriminate].
  destruct (allocSwitch env n r pod old w)
    as [ret err resources pod' w'|ipType netConf resources pod' w'] eqn:Hs.
  - cbn [fRet]. intros ->.
    pose proof (allocSwitch_ok env n r pod old w) as Hb. rewrite Hs in Hb.
    simpl in Hb. tauto.
  - apply allocSwitch_single in Hs.
    destruct (ctxErr env); [discriminate|].
    cbn [fRet]. intros [= <-]. exact Hs.
Qed.

Lemma AllocIP_reply env n w r reply w' :
  AllocIP env n w r = (Ok reply, w') ->
  exists pod w0,
    GetPod env (aK8SPodNamespace r) (aK8SPodName r) = inr pod /\
    (podInfoKey (aK8SPodNamespace r) (aK8SPodName r) ∉ pendingPods w) /\
    w0 = addPending (podInfoKey (aK8SPodNamespace r) (aK8SPodName r)) w /\
    fRet (allocBody env n r pod w0) = Ok reply /\
    w' = delPending (podInfoKey (aK8SPodNamespace r) (aK8SPodName r))
                    (allocDeferred env n (allocBody env n r pod w0)).
Proof.
  unfold AllocIP. destruct (decide _) as [Hin|Hout]; [discriminate|].
  destruct (GetPod env _ _) as [e|pod]; [discriminate|].
  destruct (fRet (allocBody env n r pod _)) as [reply0|e|] eqn:Hf;
    try discriminate.
  intros [= <- <-]. exists pod. eexists. repeat split; eauto.
Qed.

(** X1: every successful reply of [AllocIP] carries exactly one entry with
    the default route, and has an entry for the default interface (named
    "" or "eth0"). *)
Theorem alloc_reply_single_default_route env n w r reply w' :
  AllocIP env n w r = (Ok reply, w') ->
  defaultRoutes (aNetConfs reply) = 1%nat /\
  hasDefaultIf (aNetConfs reply) = true.
Proof.
  intros H. apply AllocIP_reply in H as (pod & w0 & _ & _ & _ & Hf & _).
  exact (allocBody_single env n r pod w0 reply Hf).
Qed.

(** An [ENIMultiIP] pod on a service with default IPAM. *)
Lemma alloc_reply_single_default_route_witness :
  exists reply w',
    AllocIP (exEnv exPlainPod) exServiceMultiIP (exWorld []) exAllocReq
    = (Ok reply, w') /\
    defaultRoutes (aNetConfs reply) = 1%nat /\
    hasDefaultIf (aNetConfs reply) = true.
Proof.
  eexists. eexists. split; [vm_compute; reflexivity|].
  eapply (alloc_reply_single_default_route
            (exEnv exPlainPod) exServiceMultiIP (exWorld []) exAllocReq).
  vm_compute. reflexivity.
Defined.

Lemma infoENIMultiIP_single env n pod podRes reply :
  infoENIMultiIP env n pod podRes = InfoReturn (Some reply) None ->
  gNetConfs reply = [] \/ singleDefault (gNetConfs reply).
Proof.
  unfold infoENIMultiIP.
  destruct (multiIPFromCRD env n pod false) as [confs|e2|]; try discriminate.
  - match goal with
    | |- context [match ?x with Some _ => _ | None => InfoPanic end] =>
        destruct x as [confs'|] eqn:Hw
    end; [|discriminate].
    destruct (defaultForNetConf confs') as [[e|] confs''] eqn:Hd;
      [discriminate|].
    intros [= <-]. cbn [gNetConfs infoReply].
    destruct confs' as [|c cs].
    + left. apply defaultForNetConf_length in Hd.
      destruct confs''; [reflexivity|discriminate].
    + right. eapply defaultForNetConf_single; [eassumption|discriminate].
  - match goal with
    | |- context [match ?x with Some _ => _ | None => InfoPanic end] =>
        destruct x as [confs'|] eqn:Hw
    end; [|discriminate].
    destruct (defaultForNetConf confs') as [[e|] confs''] eqn:Hd;
      [discriminate|].
    intros [= <-]. cbn [gNetConfs infoReply].
    destruct confs' as [|c cs].
    + left. apply defaultForNetConf_length in Hd.
      destruct confs''; [reflexivity|discriminate].
    + right. eapply defaultForNetConf_single; [eassumption|discriminate].
Qed.

Lemma infoVPCENI_single env n pod podRes reply :
  infoVPCENI env n pod podRes = InfoReturn (Some reply) None ->
  gNetConfs reply = [] \/ singleDefault (gNetConfs reply).
Proof.
  unfold infoVPCENI. destruct (isIPAMTypeCRD (ipamType n)).
  - destruct (exclusiveENIFromCRD env n pod false) as [confs|e|] eqn:Hx;
      try discriminate; intros [= <-]; cbn [gNetConfs infoReply]; auto.
    right. eapply exclusiveENIFromCRD_single; eauto.
  - destruct (GetResourceItemByType podRes ResourceTypeENI) as [|item rest].
    + intros [= <-]. left. reflexivity.
    + destruct (eniResMgr n); cbn [negb]; [|discriminate].
      destruct (eniStat env (ResID item)) as [e|eni]; intros [= <-];
        cbn [gNetConfs infoReply]; [left; reflexivity|].
      right. split; reflexivity.
Qed.

(** X2: a reply [GetIPInfo] returns without an error carries no entry at
    all, or exactly one entry with the default route and an entry for the
    default interface. *)
Theorem info_reply_single_default_route env n w r reply :
  GetIPInfo env n w r = InfoReturn (Some reply) None ->
  gNetConfs reply = [] \/
  (defaultRoutes (gNetConfs reply) = 1%nat /\
   hasDefaultIf (gNetConfs reply) = true).
Proof.
  unfold GetIPInfo.
  destruct (GetPod env _ _) as [e|pod]; [discriminate|].
  destruct (verifyPodNetworkType _ _); cbn [negb]; [|discriminate].
  destruct (getPodResource env w pod) as [e|podRes]; [discriminate|].
  match goal with
  | |- context [if ?b then InfoReturn (Some (infoReply0 n)) None else _] =>
      destruct b
  end.
  { intros [= <-]. left. reflexivity. }
  destruct (String.eqb _ podNetworkTypeENIMultiIP);
    [apply infoENIMultiIP_single|].
  destruct (String.eqb _ podNetworkTypeVPCIP).
  { intros [= <-]. right. split; reflexivity. }
  destruct (String.eqb _ podNetworkTypeVPCENI);
    [apply infoVPCENI_single | discriminate].
Qed.

(** The record of the sample pod is asked for by its own sandbox. *)
Lemma info_reply_single_default_route_witness :
  exists reply,
    GetIPInfo (exEnv exPlainPod) exServiceMultiIP exPlainWorld exInfoReq
    = InfoReturn (Some reply) None /\
    (gNetConfs reply = [] \/
     (defaultRoutes (gNetConfs reply) = 1%nat /\
      hasDefaultIf (gNetConfs reply) = true)).
Proof.
  eexists. split; [vm_compute; reflexivity|].
  eapply (info_reply_single_default_route
            (exEnv exPlainPod) exServiceMultiIP exPlainWorld exInfoReq).
  vm_compute. reflexivity.
Defined.

(** ** What a request touches *)

Lemma touches_refl allowed key w : touches allowed key w w.
Proof.
  split; [reflexivity|]. split; [|auto].
  exists []. rewrite app_nil_r. auto.
Qed.

Lemma touches_trans allowed key w1 w2 w3 :
  touches allowed key w1 w2 -> touches allowed key w2 w3 ->
  touches allowed key w1 w3.
Proof.
  intros (Hp1 & (evs1 & Ht1 & Ha1) & Hs1) (Hp2 & (evs2 & Ht2 & Ha2) & Hs2).
  split; [congruence|]. split.
  - exists (evs1 ++ evs2). rewrite Ht2, Ht1, <- app_assoc.
    rewrite forallb_app, Ha1, Ha2. auto.
  - intros k Hk. rewrite Hs2, Hs1 by assumption. reflexivity.
Qed.

Lemma touches_weaken (a b : Event -> bool) key w w' :
  (forall ev, a ev = true -> b ev = true) ->
  touches a key w w' -> touches b key w w'.
Proof.
  intros Hab (Hp & (evs & Ht & Ha) & Hs).
  split; [assumption|]. split; [|assumption].
  exists evs. split; [assumption|].
  rewrite forallb_forall in Ha |- *. auto.
Qed.

Lemma touches_logEvent (allowed : Event -> bool) key ev w :
  allowed ev = true -> touches allowed key w (logEvent ev w).
Proof.
  intros Ha. split; [reflexivity|]. split; [|auto].
  exists [ev]. simpl. rewrite Ha. auto.
Qed.

Lemma touches_dbPut allowed env key v w :
  touches allowed key w (snd (dbPut env w key v)).
Proof.
  unfold dbPut. destruct (dbPutErr env key v); [apply touches_refl|].
  split; [reflexivity|]. split.
  - exists []. simpl. rewrite app_nil_r. auto.
  - intros k Hk. simpl. apply lookup_insert_ne. congruence.
Qed.

Lemma touches_dbDelete allowed env key w :
  touches allowed key w (snd (dbDelete env w key)).
Proof.
  unfold dbDelete. destruct (dbDeleteErr env key); [apply touches_refl|].
  split; [reflexivity|]. split.
  - exists []. simpl. rewrite app_nil_r. auto.
  - intros k Hk. simpl. apply lookup_delete_ne. congruence.
Qed.

Lemma touches_allocateVeth env n pod old w key :
  touches (passesPriorID old) key w (snd (allocateVeth env n pod old w)).
Proof.
  unfold allocateVeth. destruct (negb (vethResMgr n)); cbn [snd];
    [apply touches_refl | apply touches_logEvent; apply String.eqb_refl].
Qed.

Lemma touches_allocateENI env n pod old w key :
  touches (passesPriorID old) key w (snd (allocateENI env n pod old w)).
Proof.
  unfold allocateENI. destruct (negb (eniResMgr n)); cbn [snd];
    [apply touches_refl | apply touches_logEvent; apply String.eqb_refl].
Qed.

Lemma touches_allocateENIMultiIP env n pod old w key :
  touches (passesPriorID old) key w (snd (allocateENIMultiIP env n pod old w)).
Proof.
  unfold allocateENIMultiIP. destruct (negb (eniIPResMgr n)); cbn [snd];
    [apply touches_refl | apply touches_logEvent; apply String.eqb_refl].
Qed.

Lemma touches_allocateEIP env n pod old w key :
  touches (passesPriorID old) key w (snd (allocateEIP env n pod old w)).
Proof.
  unfold allocateEIP. destruct (negb (eipResMgr n)); cbn [snd];
    [apply touches_refl | apply touches_logEvent; apply String.eqb_refl].
Qed.

Lemma touches_putRecord old env r pod resources w :
  touches (passesPriorID old) (podKey pod) w (snd (putRecord env r pod resources w)).
Proof.
  unfold putRecord.
  match goal with
  | |- context [dbPut env w ?k ?v] =>
      pose proof (touches_dbPut (passesPriorID old) env k v w) as H;
      destruct (dbPut env w k v) as [[e|] w1]
  end; exact H.
Qed.

Lemma touches_eipAndPut env n r pod old items ips w :
  touches (passesPriorID old) (podKey pod) w
          (snd (eipAndPut env n r pod old items ips w)).
Proof.
  unfold eipAndPut. destruct (eipResMgr n && PodEip pod);
    [|apply touches_putRecord].
  pose proof (touches_allocateEIP env n (setPodIPs pod ips) old w (podKey pod))
    as H1.
  destruct (allocateEIP _ _ _ _ _) as [[eip|e|] w1]; cbn [snd] in *;
    try exact H1.
  eapply touches_trans; [exact H1|].
  apply (touches_putRecord old env r (setPodIPs pod ips)).
Qed.

Lemma touches_allocENIMultiIP env n r pod old w :
  touches (passesPriorID old) (podKey pod) w
          (branchWorld (allocENIMultiIP env n r pod old w)).
Proof.
  unfold allocENIMultiIP.
  destruct (multiIPFromCRD env n pod true) as [confs|e|];
    try apply touches_refl.
  destruct (negb (existsb _ confs)).
  - pose proof (touches_allocateENIMultiIP env n pod old w (podKey pod)) as H1.
    destruct (allocateENIMultiIP _ _ _ _ _) as [[eniIP|e|] w1];
      cbn [snd] in H1; try exact H1.
    pose proof (touches_eipAndPut env n r pod old (eniipToResItems eniIP)
                                  (eniipIPSet eniIP) w1) as H2.
    destruct (eipAndPut _ _ _ _ _ _ _ _) as [[[step rs] p] w2].
    cbn [snd] in H2.
    assert (H3 : touches (passesPriorID old) (podKey pod) w w2)
      by (eapply touches_trans; eauto).
    destruct step; try exact H3.
    destruct (defaultForNetConf _) as [[e|] confs']; exact H3.
  - destruct (defaultForNetConf confs) as [[e|] confs']; apply touches_refl.
Qed.

Lemma touches_allocVPCENI env n r pod old w :
  touches (passesPriorID old) (podKey pod) w
          (branchWorld (allocVPCENI env n r pod old w)).
Proof.
  unfold allocVPCENI. destruct (isIPAMTypeCRD (ipamType n)).
  - destruct (exclusiveENIFromCRD env n pod true); apply touches_refl.
  - pose proof (touches_allocateENI env n pod old w (podKey pod)) as H1.
    destruct (allocateENI _ _ _ _ _) as [[eni|e|] w1];
      cbn [snd] in H1; try exact H1.
    pose proof (touches_eipAndPut env n r pod old (eniToResItems eni)
                                  (eniPrimaryIP eni) w1) as H2.
    destruct (eipAndPut _ _ _ _ _ _ _ _) as [[[step rs] p] w2].
    cbn [snd] in H2.
    assert (H3 : touches (passesPriorID old) (podKey pod) w w2)
      by (eapply touches_trans; eauto).
    destruct step; exact H3.
Qed.

Lemma touches_allocVPCIP env n r pod old w :
  touches (passesPriorID old) (podKey pod) w
          (branchWorld (allocVPCIP env n r pod old w)).
Proof.
  unfold allocVPCIP.
  pose proof (touches_allocateVeth env n pod old w (podKey pod)) as H1.
  destruct (allocateVeth _ _ _ _ _) as [[veth|e|] w1];
    cbn [snd] in H1; try exact H1.
  match goal with
  | |- context [dbPut env w1 ?k ?v] =>
      pose proof (touches_dbPut (passesPriorID old) env k v w1) as H2;
      destruct (dbPut env w1 k v) as [[e|] w2]
  end; cbn [snd] in H2; eapply touches_trans; eauto.
Qed.

Lemma touches_allocSwitch env n r pod old w :
  touches (passesPriorID old) (podKey pod) w
          (branchWorld (allocSwitch env n r pod old w)).
Proof.
  unfold allocSwitch.
  destruct (String.eqb _ podNetworkTypeENIMultiIP);
    [apply touches_allocENIMultiIP|].
  destruct (String.eqb _ podNetworkTypeVPCENI); [apply touches_allocVPCENI|].
  destruct (String.eqb _ podNetworkTypeVPCIP); [apply touches_allocVPCIP|].
  apply touches_refl.
Qed.

Lemma passesPriorID_allocate old ev :
  passesPriorID old ev = true -> isAllocate ev = true.
Proof. destruct ev; simpl; congruence. Qed.

Lemma touches_allocBody_prior env n r pod w old :
  getPodResource env w pod = inr old ->
  touches (passesPriorID old) (podKey pod) w (fWorld (allocBody env n r pod w)).
Proof.
  intros Hold. unfold allocBody. rewrite Hold.
  destruct (negb (verifyPodNetworkType _ _)); [apply touches_refl|].
  pose proof (touches_allocSwitch env n r pod old w) as H.
  destruct (allocSwitch env n r pod old w); cbn [branchWorld] in H;
    [exact H|].
  destruct (ctxErr env); exact H.
Qed.

Lemma touches_allocBody env n r pod w :
  touches isAllocate (podKey pod) w (fWorld (allocBody env n r pod w)).
Proof.
  destruct (getPodResource env w pod) as [e|old] eqn:Hold.
  - unfold allocBody. rewrite Hold. apply touches_refl.
  - eapply touches_weaken; [apply (passesPriorID_allocate old)|].
    apply touches_allocBody_prior. exact Hold.
Qed.

Lemma touches_rollback env n pod resources w :
  touches isRelease (podKey pod) w (rollback env n pod resources w).
Proof.
  revert w. induction resources as [|res rest IH]; intros w; simpl;
    [apply touches_refl|].
  pose proof (touches_dbDelete isRelease env (podKey pod) w) as H1.
  fold (deletePodResource env w pod) in H1.
  destruct (getResourceManagerForRes n (ResType res)) as [mgr|].
  - eapply touches_trans; [exact H1|].
    eapply touches_trans; [|apply IH].
    apply touches_logEvent. reflexivity.
  - eapply touches_trans; [exact H1|apply IH].
Qed.

Lemma touches_patchPodIPs pod netConfs w key :
  touches isPatch key w (patchPodIPs pod netConfs w).
Proof.
  revert w. induction netConfs as [|c rest IH]; intros w; simpl;
    [apply touches_refl|].
  destruct (_ && _); [apply IH|].
  destruct (NCBasicInfo c) as [basic|]; [|apply IH].
  destruct (PodIP basic) as [ip|]; [|apply IH].
  eapply touches_trans; [|apply IH].
  apply touches_logEvent. reflexivity.
Qed.

Lemma pending_restored (key : string) (P : gset string) :
  key ∉ P -> ({[key]} ∪ P) ∖ {[key]} = P.
Proof.
  intros H. apply set_eq. intros x.
  rewrite elem_of_difference, elem_of_union, elem_of_singleton.
  split; [tauto|]. intros Hx. split; [auto|]. intros ->. contradiction.
Qed.

Lemma callsAfter_nil first second tr : callsAfter first second tr tr.
Proof. exists [], []. rewrite app_nil_r. auto. Qed.

Lemma podKey_frame env n r pod w :
  podKey (fPod (allocBody env n r pod w)) = podKey pod.
Proof.
  destruct (allocBody_ok env n r pod w) as (Hns & Hn & _).
  unfold podKey. rewrite Hns, Hn. reflexivity.
Qed.

(** An [AllocIP] call that does not panic: the pending-pod set is as it
    was, no record but the pod's own is touched, and the calls are
    allocations followed by patches of the pod (on success) or by releases
    (on failure). *)
Lemma AllocIP_effect env n w r :
  fst (AllocIP env n w r) <> Panic ->
  pendingPods (snd (AllocIP env n w r)) = pendingPods w /\
  (forall k, otherRecord env (aK8SPodNamespace r) (aK8SPodName r) k ->
             store (snd (AllocIP env n w r)) !! k = store w !! k) /\
  match fst (AllocIP env n w r) with
  | Ok _ => callsAfter isAllocate isPatch (trace w)
                       (trace (snd (AllocIP env n w r)))
  | _ => callsAfter isAllocate isRelease (trace w)
                    (trace (snd (AllocIP env n w r)))
  end.
Proof.
  unfold AllocIP, otherRecord.
  set (key := podInfoKey (aK8SPodNamespace r) (aK8SPodName r)).
  destruct (decide (key ∈ pendingPods w)) as [Hin|Hout]; cbn [fst snd].
  { intros _. repeat split; auto using callsAfter_nil. }
  destruct (GetPod env _ _) as [e|pod]; cbn [fst snd].
  { intros _. unfold delPending, addPending. cbn [pendingPods store trace].
    repeat split; auto using callsAfter_nil, pending_restored. }
  set (w0 := addPending key w).
  pose proof (touches_allocBody env n r pod w0) as Hbody.
  pose proof (allocBody_ok env n r pod w0) as Hok.
  pose proof (podKey_frame env n r pod w0) as Hkey.
  set (f := allocBody env n r pod w0) in *.
  destruct Hok as (_ & _ & Hret).
  destruct Hbody as (Hp1 & (evs1 & Ht1 & Ha1) & Hs1).
  destruct (fRet f) as [reply|e|] eqn:Hf; cbn [fst snd];
    [| |congruence]; intros _.
  - destruct Hret as (Herr & _). unfold allocDeferred. rewrite Herr.
    destruct (touches_patchPodIPs (fPod f) (fNetConfs f) (fWorld f)
                                  (podKey pod))
      as (Hp2 & (evs2 & Ht2 & Ha2) & Hs2).
    unfold delPending. cbn [pendingPods store trace].
    rewrite Hp2, Hp1. repeat split.
    + apply pending_restored. assumption.
    + intros k Hk. rewrite Hs2, Hs1 by assumption. reflexivity.
    + exists evs1, evs2. rewrite Ht2, Ht1, <- app_assoc. auto.
  - assert (Hdef : touches isRelease (podKey pod) (fWorld f)
                           (allocDeferred env n f)).
    { unfold allocDeferred. destruct Hret as (Herr & Hnc).
      destruct (fErr f) as [cause|].
      - rewrite <- Hkey. apply touches_rollback.
      - rewrite Hnc. apply touches_refl. }
    destruct Hdef as (Hp2 & (evs2 & Ht2 & Ha2) & Hs2).
    unfold delPending. cbn [pendingPods store trace].
    rewrite Hp2, Hp1. repeat split.
    + apply pending_restored. assumption.
    + intros k Hk. rewrite Hs2, Hs1 by assumption. reflexivity.
    + exists evs1, evs2. rewrite Ht2, Ht1, <- app_assoc. auto.
Qed.

Lemma onlyDeletes_refl w : onlyDeletes w w.
Proof. intros k rec H. exact H. Qed.

Lemma onlyDeletes_trans w1 w2 w3 :
  onlyDeletes w1 w2 -> onlyDeletes w2 w3 -> onlyDeletes w1 w3.
Proof. intros H1 H2 k rec H. auto. Qed.

Lemma onlyDeletes_dbDelete env key w :
  onlyDeletes w (snd (dbDelete env w key)).
Proof.
  unfold dbDelete. destruct (dbDeleteErr env key); [apply onlyDeletes_refl|].
  intros k rec. cbn [snd setStore store].
  destruct (decide (k = key)) as [->|Hne].
  - rewrite lookup_delete_eq. discriminate.
  - rewrite lookup_delete_ne by congruence. auto.
Qed.

Lemma releaseResources_effect env n pod resources w :
  touches isRelease (podKey pod) w (snd (releaseResources env n pod resources w))
  /\ onlyDeletes w (snd (releaseResources env n pod resources w)).
Proof.
  revert w. induction resources as [|res rest IH]; intros w; simpl.
  { split; [apply touches_refl | apply onlyDeletes_refl]. }
  destruct (getResourceManagerForRes n (ResType res)) as [mgr|]; [|apply IH].
  destruct (IPStickTime pod =? 0); [|apply IH].
  set (w1 := logEvent (EvRelease mgr pod res) w).
  assert (H1 : touches isRelease (podKey pod) w w1)
    by (apply touches_logEvent; reflexivity).
  assert (H1' : onlyDeletes w w1) by (intros k rec H; exact H).
  pose proof (touches_dbDelete isRelease env (podKey pod) w1) as H2.
  pose proof (onlyDeletes_dbDelete env (podKey pod) w1) as H2'.
  unfold deletePodResource.
  change (podInfoKey (Namespace pod) (Name pod)) with (podKey pod).
  assert (Hgo :
            touches isRelease (podKey pod) w
              (snd match dbDelete env w1 (podKey pod) with
                   | (Some e', w2) =>
                       (Some (ErrWrap "error delete resource from db" e'), w2)
                   | (None, w2) => releaseResources env n pod rest w2
                   end) /\
            onlyDeletes w
              (snd match dbDelete env w1 (podKey pod) with
                   | (Some e', w2) =>
                       (Some (ErrWrap "error delete resource from db" e'), w2)
                   | (None, w2) => releaseResources env n pod rest w2
                   end)).
  { destruct (dbDelete env w1 (podKey pod)) as [[e'|] w2]; cbn [snd] in *.
    - split; [exact (touches_trans _ _ _ _ _ H1 H2)
             | exact (onlyDeletes_trans _ _ _ H1' H2')].
    - destruct (IH w2) as [H3 H3']. split.
      + exact (touches_trans _ _ _ _ _ H1 (touches_trans _ _ _ _ _ H2 H3)).
      + exact (onlyDeletes_trans _ _ _ H1' (onlyDeletes_trans _ _ _ H2' H3')). }
  destruct (mgrRelease env mgr pod res) as [e|]; [|exact Hgo].
  destruct (negb (isInvalidState e)); [|exact Hgo].
  cbn [snd]. split; assumption.
Qed.

(** A [ReleaseIP] call: the pending-pod set is as it was, no record but
    the pod's own is touched, records are only deleted, and the calls are
    releases. *)
Lemma ReleaseIP_effect env n w r :
  pendingPods (snd (ReleaseIP env n w r)) = pendingPods w /\
  (forall k, otherRecord env (rK8SPodNamespace r) (rK8SPodName r) k ->
             store (snd (ReleaseIP env n w r)) !! k = store w !! k) /\
  onlyDeletes w (snd (ReleaseIP env n w r)) /\
  exists evs, trace (snd (ReleaseIP env n w r)) = trace w ++ evs /\
              forallb isRelease evs = true.
Proof.
  unfold ReleaseIP, otherRecord.
  set (key := podInfoKey (rK8SPodNamespace r) (rK8SPodName r)).
  destruct (decide (key ∈ pendingPods w)) as [Hin|Hout]; cbn [fst snd].
  { repeat split; auto using onlyDeletes_refl.
    exists []. rewrite app_nil_r. auto. }
  set (w0 := addPending key w).
  assert (Hsame :
            pendingPods (delPending key w0) = pendingPods w /\
            (forall k : string, store (delPending key w0) !! k = store w !! k) /\
            onlyDeletes w (delPending key w0) /\
            exists evs, trace (delPending key w0) = trace w ++ evs /\
                        forallb isRelease evs = true).
  { unfold delPending, w0, addPending. cbn [pendingPods store trace].
    repeat split; auto using pending_restored.
    - intros k rec H. exact H.
    - exists []. rewrite app_nil_r. auto. }
  destruct Hsame as (Hs1 & Hs2 & Hs3 & Hs4).
  destruct (GetPod env _ _) as [e|pod]; [cbn [snd]; auto|].
  destruct (getPodResource env w0 pod) as [e|oldRes]; [cbn [snd]; auto|].
  destruct (negb (verifyPodNetworkType _ _)); [cbn [snd]; auto|].
  match goal with
  | |- context [if ?b then (Ok _, w0) else _] => destruct b
  end; [cbn [snd]; auto|].
  destruct (releaseResources_effect env n pod (Resources oldRes) w0)
    as [(Hp & (evs & Ht & Ha) & Hs) Hd].
  assert (Hend :
            let w1 := snd (releaseResources env n pod (Resources oldRes) w0) in
            pendingPods (delPending key w1) = pendingPods w /\
            (forall k, k <> podKey pod ->
                       store (delPending key w1) !! k = store w !! k) /\
            onlyDeletes w (delPending key w1) /\
            exists evs, trace (delPending key w1) = trace w ++ evs /\
                        forallb isRelease evs = true).
  { intros w1. subst w1. unfold delPending.
    cbn [pendingPods store trace]. rewrite Hp. repeat split.
    - apply pending_restored. assumption.
    - intros k Hk. rewrite Hs by assumption. reflexivity.
    - intros k rec H. apply Hd in H. exact H.
    - exists evs. auto. }
  destruct (releaseResources env n pod (Resources oldRes) w0) as [[e|] w1];
    cbn [snd] in Hend; [exact Hend|].
  destruct (ctxErr env); exact Hend.
Qed.

(** X3: the pending-pod set guards a pod and is left as it was found. A
    request for a pod that is pending is refused with "pod resource
    processing" and changes nothing; after any other [ReleaseIP], and any
    other [AllocIP] that does not panic, the set is what it was before the
    call. *)
Theorem pending_set_restored env n w :
  (forall r, podInfoKey (aK8SPodNamespace r) (aK8SPodName r) ∈ pendingPods w ->
             AllocIP env n w r = (Err (ErrMsg "pod resource processing"), w)) /\
  (forall r, podInfoKey (rK8SPodNamespace r) (rK8SPodName r) ∈ pendingPods w ->
             ReleaseIP env n w r = (Err (ErrMsg "pod resource processing"), w)) /\
  (forall r, fst (AllocIP env n w r) <> Panic ->
             pendingPods (snd (AllocIP env n w r)) = pendingPods w) /\
  (forall r, pendingPods (snd (ReleaseIP env n w r)) = pendingPods w).
Proof.
  repeat split.
  - intros r Hin. unfold AllocIP.
    destruct (decide _) as [_|Hout]; [reflexivity|contradiction].
  - intros r Hin. unfold ReleaseIP.
    destruct (decide _) as [_|Hout]; [reflexivity|contradiction].
  - intros r Hp. apply (AllocIP_effect env n w r Hp).
  - intros r. apply (ReleaseIP_effect env n w r).
Qed.

(** X4: a request touches no record but the one of its own pod: after an
    [AllocIP] that does not panic, and after any [ReleaseIP], every record
    under another key is what it was; and [ReleaseIP] writes no record at
    all, it only deletes. *)
Theorem request_touches_own_record env n w :
  (forall r k, fst (AllocIP env n w r) <> Panic ->
               otherRecord env (aK8SPodNamespace r) (aK8SPodName r) k ->
               store (snd (AllocIP env n w r)) !! k = store w !! k) /\
  (forall r k, otherRecord env (rK8SPodNamespace r) (rK8SPodName r) k ->
               store (snd (ReleaseIP env n w r)) !! k = store w !! k) /\
  (forall r k rec, store (snd (ReleaseIP env n w r)) !! k = Some rec ->
                   store w !! k = Some rec).
Proof.
  repeat split.
  - intros r k Hp. apply (AllocIP_effect env n w r Hp).
  - intros r k. apply (ReleaseIP_effect env n w r).
  - intros r k rec. apply (ReleaseIP_effect env n w r).
Qed.

(** X5: the calls of a request. A successful [AllocIP] calls [Allocate]
    and then only patches the pod's addresses: it releases nothing. A
    failed [AllocIP] calls [Allocate] and then only [Release]: it patches
    nothing. [ReleaseIP] only calls [Release]. *)
Theorem request_call_discipline env n w :
  (forall r reply w',
      AllocIP env n w r = (Ok reply, w') ->
      callsAfter isAllocate isPatch (trace w) (trace w')) /\
  (forall r e w',
      AllocIP env n w r = (Err e, w') ->
      callsAfter isAllocate isRelease (trace w) (trace w')) /\
  (forall r, exists evs,
        trace (snd (ReleaseIP env n w r)) = trace w ++ evs /\
        forallb isRelease evs = true).
Proof.
  repeat split.
  - intros r reply w' H.
    assert (Hp : fst (AllocIP env n w r) <> Panic) by (rewrite H; discriminate).
    destruct (AllocIP_effect env n w r Hp) as (_ & _ & Hc).
    rewrite H in Hc. exact Hc.
  - intros r e w' H.
    assert (Hp : fst (AllocIP env n w r) <> Panic) by (rewrite H; discriminate).
    destruct (AllocIP_effect env n w r Hp) as (_ & _ & Hc).
    rewrite H in Hc. exact Hc.
  - intros r. apply (ReleaseIP_effect env n w r).
Qed.



Example alloc_prior_id_sample :
  priorID (exRecord exPlainPod) ResourceTypeENIIP
  = "00:16:3e:00:00:01.192.168.0.11" /\
  priorID (exRecord exPlainPod) ResourceTypeEIP = "" /\
  In (EvAllocate MgrENIIP exPlainPod "00:16:3e:00:00:01.192.168.0.11")
     (trace (snd (AllocIP (exEnv exPlainPod) exServiceMultiIP exPlainWorld
                          exAllocReq))).
Proof. repeat split. vm_compute. auto. Qed.

(** ** A successful allocation is on record *)

Lemma store_patchPodIPs pod netConfs w :
  store (patchPodIPs pod netConfs w) = store w.
Proof.
  revert w. induction netConfs as [|c rest IH]; intros w; simpl; [reflexivity|].
  destruct (_ && _); [apply IH|].
  destruct (NCBasicInfo c) as [basic|]; [|apply IH].
  destruct (PodIP basic) as [ip|]; [|apply IH].
  rewrite IH. reflexivity.
Qed.

Lemma recorded_putRecord env r pod resources w rs p w' :
  putRecord env r pod resources w = (StepDone, rs, p, w') ->
  recorded r pod w'.
Proof.
  unfold putRecord, dbPut.
  destruct (dbPutErr env _ _); [discriminate|].
  intros [= _ _ <-]. eexists. exists pod. cbn [store setStore].
  split; [apply lookup_insert_eq|]. repeat split.
Qed.

Lemma recorded_eipAndPut env n r pod old items ips w rs p w' :
  eipAndPut env n r pod old items ips w = (StepDone, rs, p, w') ->
  recorded r pod w'.
Proof.
  unfold eipAndPut. destruct (eipResMgr n && PodEip pod);
    [|apply recorded_putRecord].
  destruct (allocateEIP _ _ _ _ _) as [[eip|e|] w1]; try discriminate.
  intros H. apply recorded_putRecord in H.
  destruct H as (rec & info & H1 & H2 & H3 & H4 & H5 & H6).
  exists rec, info. repeat split; assumption.
Qed.

Lemma requestCRD_unmanaged env n pod (waitReady : bool) :
  ipamType n = IPAMTypeDefault -> PodENI pod && enableTrunk n = false ->
  requestCRD env n pod waitReady = inr None.
Proof.
  intros Hi Ht. unfold requestCRD. rewrite Hi, Ht. reflexivity.
Qed.

Lemma recorded_allocSwitch env n r pod old w ipType netConf resources pod' w' :
  ipamType n = IPAMTypeDefault -> PodENI pod && enableTrunk n = false ->
  allocSwitch env n r pod old w = Continue ipType netConf resources pod' w' ->
  recorded r pod w'.
Proof.
  intros Hi Ht. unfold allocSwitch.
  destruct (String.eqb _ podNetworkTypeENIMultiIP).
  { unfold allocENIMultiIP, multiIPFromCRD.
    rewrite (requestCRD_unmanaged env n pod true Hi Ht).
    cbn [existsb negb].
    destruct (allocateENIMultiIP _ _ _ _ _) as [[eniIP|e|] w1];
      try discriminate.
    destruct (eipAndPut _ _ _ _ _ _ _ _) as [[[step rs] p] w2] eqn:He.
    destruct step; try discriminate.
    apply recorded_eipAndPut in He.
    destruct (defaultForNetConf _) as [[e|] confs']; [discriminate|].
    intros [= _ _ _ _ <-]. exact He. }
  destruct (String.eqb _ podNetworkTypeVPCENI).
  { unfold allocVPCENI. rewrite Hi. cbn [isIPAMTypeCRD].
    destruct (allocateENI _ _ _ _ _) as [[eni|e|] w1]; try discriminate.
    destruct (eipAndPut _ _ _ _ _ _ _ _) as [[[step rs] p] w2] eqn:He.
    destruct step; try discriminate.
    apply recorded_eipAndPut in He.
    intros [= _ _ _ _ <-]. exact He. }
  destruct (String.eqb _ podNetworkTypeVPCIP); [|discriminate].
  unfold allocVPCIP.
  destruct (allocateVeth _ _ _ _ _) as [[veth|e|] w1]; try discriminate.
  unfold dbPut. destruct (dbPutErr env _ _); [discriminate|].
  intros [= _ _ _ _ <-]. eexists. exists pod. cbn [store setStore].
  split; [apply lookup_insert_eq|]. repeat split.
Qed.

Lemma AllocIP_recorded env n w r pod reply w' :
  ipamType n = IPAMTypeDefault ->
  PodENI pod && enableTrunk n = false ->
  GetPod env (aK8SPodNamespace r) (aK8SPodName r) = inr pod ->
  AllocIP env n w r = (Ok reply, w') ->
  recorded r pod w'.
Proof.
  intros Hi Ht Hg H.
  apply AllocIP_reply in H as (pod0 & w0 & Hg0 & _ & -> & Hf & ->).
  rewrite Hg in Hg0. injection Hg0 as <-.
  set (key := podInfoKey (aK8SPodNamespace r) (aK8SPodName r)) in *.
  set (w0 := addPending key w) in *.
  assert (Hrec : recorded r pod (fWorld (allocBody env n r pod w0))).
  { revert Hf. unfold allocBody.
    destruct (getPodResource env w0 pod) as [e|old]; [discriminate|].
    destruct (verifyPodNetworkType _ _); cbn [negb]; [|discriminate].
    destruct (allocSwitch env n r pod old w0)
      as [ret err resources pod' w1|ipType netConf resources pod' w1] eqn:Hs.
    - cbn [fRet]. intros ->.
      pose proof (allocSwitch_ok env n r pod old w0) as Hb. rewrite Hs in Hb.
      simpl in Hb. tauto.
    - apply (recorded_allocSwitch env n r pod old w0) in Hs; try assumption.
      destruct (ctxErr env); [discriminate|]. intros _. exact Hs. }
  pose proof (allocBody_ok env n r pod w0) as (_ & _ & Hok).
  rewrite Hf in Hok. destruct Hok as (Herr & _).
  unfold allocDeferred. rewrite Herr.
  unfold delPending. cbn [store]. rewrite store_patchPodIPs.
  exact Hrec.
Qed.

(** X6: a successful [AllocIP] is on record. On a service with default
    IPAM, for a pod that is not handed to the trunk controller, a call
    that succeeds leaves in the store, under the pod's key, a record of
    that pod with the network namespace and the sandbox container id of
    the request. *)
Theorem alloc_success_is_recorded env n w r pod reply w' :
  ipamType n = IPAMTypeDefault ->
  PodENI pod && enableTrunk n = false ->
  GetPod env (aK8SPodNamespace r) (aK8SPodName r) = inr pod ->
  AllocIP env n w r = (Ok reply, w') ->
  exists rec info,
    store w' !! podInfoKey (Namespace pod) (Name pod) = Some rec /\
    NetNs rec = Some (aNetns r) /\
    ContainerID rec = Some (aK8SPodInfraContainerId r) /\
    ResPodInfo rec = Some info /\
    Namespace info = Namespace pod /\ Name info = Name pod.
Proof.
  intros Hi Ht Hg H.
  exact (AllocIP_recorded env n w r pod reply w' Hi Ht Hg H).
Qed.

(** The sample [ENIMultiIP] pod on a service with default IPAM. *)
Lemma alloc_success_is_recorded_witness :
  exists reply w',
    AllocIP (exEnv exPlainPod) exServiceMultiIP (exWorld []) exAllocReq
    = (Ok reply, w') /\
    exists rec info,
      store w' !! podInfoKey (Namespace exPlainPod) (Name exPlainPod)
      = Some rec /\
      NetNs rec = Some (aNetns exAllocReq) /\
      ContainerID rec = Some (aK8SPodInfraContainerId exAllocReq) /\
      ResPodInfo rec = Some info /\
      Namespace info = Namespace exPlainPod /\ Name info = Name exPlainPod.
Proof.
  eexists. eexists. split; [vm_compute; reflexivity|].
  eapply (alloc_success_is_recorded (exEnv exPlainPod) exServiceMultiIP
            (exWorld []) exAllocReq exPlainPod);
    [reflexivity | reflexivity | reflexivity | vm_compute; reflexivity].
Defined.

(** ** The managers a service is set up with *)

Lemma newNetworkService_wired mode eipPool trunking v4 v6 ipam n :
  newNetworkService mode eipPool trunking v4 v6 ipam = Some n -> wired n.
Proof.
  unfold newNetworkService, wired.
  destruct (String.eqb mode daemonModeVPC) eqn:E1.
  { apply String.eqb_eq in E1. intros [= <-]. left. auto. }
  destruct (String.eqb mode daemonModeENIMultiIP) eqn:E2.
  { apply String.eqb_eq in E2. intros [= <-]. right. left. auto. }
  destruct (String.eqb mode daemonModeENIOnly) eqn:E3; [|discriminate].
  apply String.eqb_eq in E3. intros [= <-]. right. right. auto.
Qed.

Lemma wired_manager n podNetworkType :
  wired n -> verifyPodNetworkType (daemonMode n) podNetworkType = true ->
  (String.eqb podNetworkType podNetworkTypeENIMultiIP = true ->
   eniIPResMgr n = true) /\
  (String.eqb podNetworkType podNetworkTypeVPCENI = true ->
   eniResMgr n = true) /\
  (String.eqb podNetworkType podNetworkTypeVPCIP = true ->
   vethResMgr n = true).
Proof.
  intros Hw Hver.
  repeat split; intros E; apply String.eqb_eq in E; subst podNetworkType;
    destruct Hw as [(Hm & Hv & He)|[(Hm & Hi)|(Hm & He)]];
    rewrite Hm in Hver; try assumption; vm_compute in Hver; discriminate.
Qed.

Lemma requestCRD_crd env n pod (waitReady : bool) :
  isIPAMTypeCRD (ipamType n) = true ->
  requestCRD env n pod waitReady <> inr None.
Proof.
  intros Hi. unfold requestCRD. rewrite Hi. cbn [orb].
  destruct (if waitReady then _ else _) as [e|podENI]; [discriminate|].
  destruct (_ <=? _)%nat; discriminate.
Qed.

Lemma multiIPFromCRD_runs env n pod waitReady :
  eniIPResMgr n = true -> multiIPFromCRD env n pod waitReady <> Panic.
Proof.
  intros Hm. unfold multiIPFromCRD. rewrite Hm. cbn [negb].
  destruct (requestCRD env n pod waitReady) as [e|[podEni|]]; try discriminate.
  destruct (trunkENI env MgrENIIP) as [t|]; [|discriminate].
  destruct (negb _); [discriminate|].
  destruct (multiIPConfs _ _ _ _ _); discriminate.
Qed.

Lemma exclusiveENIFromCRD_runs env n pod waitReady :
  eniResMgr n = true -> isIPAMTypeCRD (ipamType n) = true ->
  exclusiveENIFromCRD env n pod waitReady <> Panic.
Proof.
  intros Hm Hi. unfold exclusiveENIFromCRD. rewrite Hm. cbn [negb].
  pose proof (requestCRD_crd env n pod waitReady Hi) as Hr.
  destruct (requestCRD env n pod waitReady) as [e|[podEni|]];
    [discriminate| |congruence].
  destruct (enableTrunk n).
  - destruct (trunkENI env MgrENI) as [t|]; [|discriminate].
    destruct (negb _); [discriminate|].
    destruct (exclusiveENIConfs _ _ _ _ _); [discriminate|].
    destruct (defaultForNetConf _) as [[e|] confs']; discriminate.
  - destruct (exclusiveENIConfs _ _ _ _ _); [discriminate|].
    destruct (defaultForNetConf _) as [[e|] confs']; discriminate.
Qed.

Lemma eipAndPut_runs env n r pod old items ips w :
  fst (fst (fst (eipAndPut env n r pod old items ips w))) <> StepPanic.
Proof.
  unfold eipAndPut, allocateEIP, putRecord.
  destruct (eipResMgr n) eqn:Hm; cbn [andb negb].
  - destruct (PodEip pod).
    + destruct (eipAllocate env _ _) as [e0|eip]; cbn [sumResult fst];
        [discriminate|].
      destruct (dbPut _ _ _ _) as [[e|] w1]; discriminate.
    + destruct (dbPut _ _ _ _) as [[e|] w1]; discriminate.
  - destruct (dbPut _ _ _ _) as [[e|] w1]; discriminate.
Qed.

Lemma allocBody_runs env n r pod w :
  wired n -> fRet (allocBody env n r pod w) <> Panic.
Proof.
  intros Hw. unfold allocBody.
  destruct (getPodResource env w pod) as [e|old]; [discriminate|].
  destruct (verifyPodNetworkType _ _) eqn:Hver; cbn [negb]; [|discriminate].
  destruct (wired_manager n _ Hw Hver) as (Hmulti & Heni & Hveth).
  assert (Hs : forall ret err rs p w',
             allocSwitch env n r pod old w = Returned ret err rs p w' ->
             ret <> Panic).
  { unfold allocSwitch.
    destruct (String.eqb _ podNetworkTypeENIMultiIP).
    { specialize (Hmulti eq_refl). unfold allocENIMultiIP.
      pose proof (multiIPFromCRD_runs env n pod true Hmulti) as Hc.
      destruct (multiIPFromCRD env n pod true) as [confs|e|];
        [| intros ? ? ? ? ? [= <- _ _ _ _]; discriminate | congruence].
      destruct (negb (existsb _ confs)).
      - unfold allocateENIMultiIP. rewrite Hmulti. cbn [negb].
        destruct (eniIPAllocate env _ _) as [e|eniIP]; cbn [sumResult].
        + intros ? ? ? ? ? [= <- _ _ _ _]. discriminate.
        + match goal with
          | |- context [eipAndPut ?a ?b ?c ?d ?e ?f ?g ?h] =>
              pose proof (eipAndPut_runs a b c d e f g h) as Hp;
              destruct (eipAndPut a b c d e f g h) as [[[step rs] p] w2]
          end.
          cbn [fst] in Hp. destruct step; [congruence| |].
          * intros ? ? ? ? ? [= <- _ _ _ _]. discriminate.
          * destruct (defaultForNetConf _) as [[e|] confs'];
              [|discriminate].
            intros ? ? ? ? ? [= <- _ _ _ _]. discriminate.
      - destruct (defaultForNetConf _) as [[e|] confs']; [|discriminate].
        intros ? ? ? ? ? [= <- _ _ _ _]. discriminate. }
    destruct (String.eqb _ podNetworkTypeVPCENI).
    { specialize (Heni eq_refl). unfold allocVPCENI.
      destruct (isIPAMTypeCRD (ipamType n)) eqn:Hi.
      - pose proof (exclusiveENIFromCRD_runs env n pod true Heni Hi) as Hc.
        destruct (exclusiveENIFromCRD env n pod true) as [confs|e|];
          [discriminate | | congruence].
        intros ? ? ? ? ? [= <- _ _ _ _]. discriminate.
      - unfold allocateENI. rewrite Heni. cbn [negb].
        destruct (eniAllocate env _ _) as [e|eni]; cbn [sumResult].
        + intros ? ? ? ? ? [= <- _ _ _ _]. discriminate.
        + match goal with
          | |- context [eipAndPut ?a ?b ?c ?d ?e ?f ?g ?h] =>
              pose proof (eipAndPut_runs a b c d e f g h) as Hp;
              destruct (eipAndPut a b c d e f g h) as [[[step rs] p] w2]
          end.
          cbn [fst] in Hp. destruct step; [congruence| |discriminate].
          intros ? ? ? ? ? [= <- _ _ _ _]. discriminate. }
    destruct (String.eqb _ podNetworkTypeVPCIP).
    { specialize (Hveth eq_refl). unfold allocVPCIP, allocateVeth.
      rewrite Hveth. cbn [negb].
      destruct (vethAllocate env _ _) as [e|veth]; cbn [sumResult].
      - intros ? ? ? ? ? [= <- _ _ _ _]. discriminate.
      - destruct (dbPut _ _ _ _) as [[e|] w2]; [|discriminate].
        intros ? ? ? ? ? [= <- _ _ _ _]. discriminate. }
    intros ? ? ? ? ? [= <- _ _ _ _]. discriminate. }
  destruct (allocSwitch env n r pod old w)
    as [ret err rs p w'|ipType netConf rs p w'].
  - cbn [fRet]. eapply Hs. reflexivity.
  - destruct (ctxErr env); discriminate.
Qed.

Lemma GetIPInfo_runs env n w r : wired n -> GetIPInfo env n w r <> InfoPanic.
Proof.
  intros Hw. unfold GetIPInfo.
  destruct (GetPod env _ _) as [e|pod]; [discriminate|].
  destruct (verifyPodNetworkType _ _) eqn:Hver; cbn [negb]; [|discriminate].
  destruct (wired_manager n _ Hw Hver) as (Hmulti & Heni & _).
  destruct (getPodResource env w pod) as [e|podRes]; [discriminate|].
  match goal with
  | |- context [if ?b then InfoReturn (Some (infoReply0 n)) None else _] =>
      destruct b
  end; [discriminate|].
  destruct (String.eqb _ podNetworkTypeENIMultiIP).
  { specialize (Hmulti eq_refl). unfold infoENIMultiIP.
    pose proof (multiIPFromCRD_runs env n pod false Hmulti) as Hc.
    rewrite Hmulti. cbn [negb].
    destruct (multiIPFromCRD env n pod false) as [confs|e|]; [| |congruence].
    - destruct (negb (existsb _ confs)).
      + destruct (GetResourceItemByType _ _) as [|item rest].
        * destruct (defaultForNetConf _) as [[e|] c']; discriminate.
        * destruct (eniIPStat env _);
            destruct (defaultForNetConf _) as [[e'|] c']; discriminate.
      + destruct (defaultForNetConf _) as [[e|] c']; discriminate.
    - cbn [existsb negb].
      destruct (GetResourceItemByType _ _) as [|item rest].
      + discriminate.
      + destruct (eniIPStat env _);
          destruct (defaultForNetConf _) as [[e'|] c']; discriminate. }
  destruct (String.eqb _ podNetworkTypeVPCIP); [discriminate|].
  destruct (String.eqb _ podNetworkTypeVPCENI); [|discriminate].
  specialize (Heni eq_refl). unfold infoVPCENI. rewrite Heni. cbn [negb].
  destruct (isIPAMTypeCRD (ipamType n)) eqn:Hi.
  - pose proof (exclusiveENIFromCRD_runs env n pod false Heni Hi) as Hc.
    destruct (exclusiveENIFromCRD env n pod false); [discriminate..|congruence].
  - destruct (GetResourceItemByType _ _) as [|item rest]; [discriminate|].
    destruct (eniStat env _); discriminate.
Qed.

(** X7: a service, once [newNetworkService] has set up the managers of
    its daemon mode, never dereferences a manager that is nil or a PodENI
    object that is missing: for every environment, store and request,
    [AllocIP] and [GetIPInfo] return (a reply or an error) and do not
    panic. *)
Theorem wired_service_never_panics mode eipPool trunking v4 v6 ipam n :
  newNetworkService mode eipPool trunking v4 v6 ipam = Some n ->
  (forall env w r, fst (AllocIP env n w r) <> Panic) /\
  (forall env w r, GetIPInfo env n w r <> InfoPanic).
Proof.
  intros Hn. apply newNetworkService_wired in Hn. split.
  - intros env w r. unfold AllocIP.
    destruct (decide _); [discriminate|].
    destruct (GetPod env _ _) as [e|pod]; [discriminate|].
    match goal with
    | |- context [allocBody env n r pod ?w0] =>
        pose proof (allocBody_runs env n r pod w0 Hn) as Hb;
        destruct (fRet (allocBody env n r pod w0)); [discriminate..|congruence]
    end.
  - intros env w r. apply GetIPInfo_runs. assumption.
Qed.

Lemma wired_service_never_panics_witness :
  (forall env w r, fst (AllocIP env exServiceENIOnlyCRD w r) <> Panic) /\
  (forall env w r, GetIPInfo env exServiceENIOnlyCRD w r <> InfoPanic).
Proof.
  apply (wired_service_never_panics daemonModeENIOnly false false true false
                                    IPAMTypeCRD exServiceENIOnlyCRD).
  reflexivity.
Defined.

(** ** Release *)

Lemma rollbackReleases_unmanaged n pod item rest :
  managed n item = false ->
  rollbackReleases n pod (item :: rest) = rollbackReleases n pod rest.
Proof.
  unfold managed, rollbackReleases. simpl.
  destruct (getResourceManagerForRes n (ResType item)); [discriminate|].
  reflexivity.
Qed.

Lemma releaseResources_all env n pod items w :
  IPStickTime pod = 0 -> releasesAccepted env pod ->
  dbDeleteErr env (podKey pod) = None ->
  releaseResources env n pod items w
  = (None,
     mkWorld (if existsb (managed n) items
              then delete (podKey pod) (store w) else store w)
             (pendingPods w)
             (trace w ++ rollbackReleases n pod items)).
Proof.
  intros Hstick Hacc Hdel. revert w.
  induction items as [|item rest IH]; intros w.
  - simpl. rewrite app_nil_r. destruct w; reflexivity.
  - cbn [releaseResources existsb]. unfold managed at 1.
    unfold rollbackReleases. cbn [flat_map].
    fold (rollbackReleases n pod rest).
    destruct (getResourceManagerForRes n (ResType item)) as [mgr|];
      [|rewrite IH; reflexivity].
    rewrite Hstick. cbn [Z.eqb orb].
    assert (Hgo :
              match deletePodResource env
                      (logEvent (EvRelease mgr pod item) w) pod with
              | (Some e', w2) =>
                  (Some (ErrWrap "error delete resource from db" e'), w2)
              | (None, w2) => releaseResources env n pod rest w2
              end
              = (None,
                 mkWorld (delete (podKey pod) (store w)) (pendingPods w)
                         (trace w ++ [EvRelease mgr pod item]
                                 ++ rollbackReleases n pod rest))).
    { unfold deletePodResource, dbDelete.
      change (podInfoKey (Namespace pod) (Name pod)) with (podKey pod).
      rewrite Hdel, IH. cbn [setStore logEvent store pendingPods trace].
      rewrite <- app_assoc.
      destruct (existsb (managed n) rest); [|reflexivity].
      rewrite delete_delete_eq. reflexivity. }
    destruct (Hacc mgr item) as [-> | ->]; exact Hgo.
Qed.

Lemma ReleaseIP_all env n w r pod rec :
  podInfoKey (rK8SPodNamespace r) (rK8SPodName r) ∉ pendingPods w ->
  GetPod env (rK8SPodNamespace r) (rK8SPodName r) = inr pod ->
  dbGetErr env (podKey pod) = None ->
  store w !! podKey pod = Some rec ->
  verifyPodNetworkType (daemonMode n) (PodNetworkType pod) = true ->
  (forall stored, ContainerID rec = Some stored ->
                  rK8SPodInfraContainerId r = stored) ->
  IPStickTime pod = 0 ->
  releasesAccepted env pod ->
  dbDeleteErr env (podKey pod) = None ->
  ctxErr env = None ->
  fst (ReleaseIP env n w r) = releaseOk n /\
  trace (snd (ReleaseIP env n w r))
  = trace w ++ rollbackReleases n pod (Resources rec) /\
  store (snd (ReleaseIP env n w r))
  = if existsb (managed n) (Resources rec)
    then delete (podKey pod) (store w) else store w.
Proof.
  intros Hp Hg Hget Hs Hver Hcid Hstick Hacc Hdel Hctx.
  assert (Hres : getPodResource env w pod = inr rec)
    by (apply getPodResource_stored; assumption).
  rewrite (ReleaseIP_reaches_loop env n w r pod rec Hp Hg Hres Hver Hcid).
  cbv zeta. rewrite releaseResources_all by assumption. rewrite Hctx.
  cbn [fst snd delPending addPending store trace]. auto.
Qed.

(** X8: a release that goes through. The request is admitted (its pod is
    not pending) and its pod is found; the pod's record can be read and is
    in the store; the daemon mode accepts the network type of the pod; the
    record was made by the sandbox that asks (or by none); the pod holds no
    sticky address; the managers take every resource back (or find it in
    no state to release); the store deletes; and the request is alive.
    Then [ReleaseIP] succeeds; its calls are one [Release] per stored item
    whose type has a manager, in the order of the record (the calls a
    rollback of these items would make); and the record is deleted, unless
    no item of it has a manager, in which case it stays. *)
Theorem release_frees_record env n w r pod rec :
  podInfoKey (rK8SPodNamespace r) (rK8SPodName r) ∉ pendingPods w ->
  GetPod env (rK8SPodNamespace r) (rK8SPodName r) = inr pod ->
  dbGetErr env (podKey pod) = None ->
  store w !! podKey pod = Some rec ->
  verifyPodNetworkType (daemonMode n) (PodNetworkType pod) = true ->
  (forall stored, ContainerID rec = Some stored ->
                  rK8SPodInfraContainerId r = stored) ->
  IPStickTime pod = 0 ->
  releasesAccepted env pod ->
  dbDeleteErr env (podKey pod) = None ->
  ctxErr env = None ->
  fst (ReleaseIP env n w r) = releaseOk n /\
  trace (snd (ReleaseIP env n w r))
  = trace w ++ rollbackReleases n pod (Resources rec) /\
  store (snd (ReleaseIP env n w r))
  = if existsb (managed n) (Resources rec)
    then delete (podKey pod) (store w) else store w.
Proof.
  intros Hp Hg Hget Hs Hver Hcid Hstick Hacc Hdel Hctx.
  exact (ReleaseIP_all env n w r pod rec Hp Hg Hget Hs Hver Hcid Hstick Hacc
                       Hdel Hctx).
Qed.

(** The record of the sample pod, released by its own sandbox. *)
Lemma release_frees_record_witness :
  fst (ReleaseIP (exEnv exPlainPod) exServiceMultiIP exPlainWorld
                 (exReleaseReq "sandbox-A"))
  = releaseOk exServiceMultiIP /\
  trace (snd (ReleaseIP (exEnv exPlainPod) exServiceMultiIP exPlainWorld
                        (exReleaseReq "sandbox-A")))
  = trace exPlainWorld
    ++ rollbackReleases exServiceMultiIP exPlainPod
         (Resources (exRecord exPlainPod)) /\
  store (snd (ReleaseIP (exEnv exPlainPod) exServiceMultiIP exPlainWorld
                        (exReleaseReq "sandbox-A")))
  = if existsb (managed exServiceMultiIP) (Resources (exRecord exPlainPod))
    then delete (podKey exPlainPod) (store exPlainWorld)
    else store exPlainWorld.
Proof.
  apply (release_frees_record (exEnv exPlainPod) exServiceMultiIP exPlainWorld
                              (exReleaseReq "sandbox-A") exPlainPod
                              (exRecord exPlainPod)).
  - vm_compute. intros H. inversion H.
  - reflexivity.
  - reflexivity.
  - reflexivity.
  - reflexivity.
  - intros stored [= <-]. reflexivity.
  - reflexivity.
  - intros mgr item. left. reflexivity.
  - reflexivity.
  - reflexivity.
Defined.

(** X9: releasing a pod that has no record. The store holds nothing under
    the pod's key and the request is alive: [ReleaseIP] succeeds, calls no
    manager and leaves the store, the pending-pod set and the calls made
    so far as they were, whatever the daemon mode and the pod's network
    type. *)
Theorem release_without_record env n w r pod :
  podInfoKey (rK8SPodNamespace r) (rK8SPodName r) ∉ pendingPods w ->
  GetPod env (rK8SPodNamespace r) (rK8SPodName r) = inr pod ->
  dbGetErr env (podKey pod) = None ->
  store w !! podKey pod = None ->
  ctxErr env = None ->
  ReleaseIP env n w r = (releaseOk n, w).
Proof.
  intros Hp Hg Hget Hs Hctx.
  destruct (verifyPodNetworkType (daemonMode n) (PodNetworkType pod)) eqn:Hver.
  - assert (Hres : getPodResource env w pod = inr emptyPodResources)
      by (apply getPodResource_absent; assumption).
    rewrite (ReleaseIP_reaches_loop env n w r pod emptyPodResources
               Hp Hg Hres Hver) by (intros stored; discriminate).
    cbv zeta. cbn [Resources emptyPodResources releaseResources].
    rewrite Hctx, delPending_addPending by assumption. reflexivity.
  - apply (ReleaseIP_foreign env n w r pod); assumption.
Qed.

Lemma release_without_record_witness :
  ReleaseIP (exEnv exPlainPod) exServiceMultiIP (exWorld [])
            (exReleaseReq "sandbox-A")
  = (releaseOk exServiceMultiIP, exWorld []).
Proof.
  apply (release_without_record (exEnv exPlainPod) exServiceMultiIP
                                (exWorld []) (exReleaseReq "sandbox-A")
                                exPlainPod).
  - vm_compute. intros H. inversion H.
  - reflexivity.
  - reflexivity.
  - reflexivity.
  - reflexivity.
Defined.

Lemma releaseResources_refused env n pod pre item post w mgr e :
  IPStickTime pod = 0 ->
  forallb (fun i => negb (managed n i)) pre = true ->
  getResourceManagerForRes n (ResType item) = Some mgr ->
  mgrRelease env mgr pod item = Some e -> isInvalidState e = false ->
  releaseResources env n pod (pre ++ item :: post) w
  = (Some (ErrWrap "error release request network resource" e),
     logEvent (EvRelease mgr pod item) w).
Proof.
  intros Hstick Hpre Hm Hrel Hinv.
  induction pre as [|i pre IH]; cbn [app releaseResources].
  - rewrite Hm, Hstick, Hrel, Hinv. reflexivity.
  - cbn [forallb] in Hpre. apply andb_prop in Hpre as [Hi Hpre].
    unfold managed in Hi.
    destruct (getResourceManagerForRes n (ResType i)); [discriminate|].
    apply IH. assumption.
Qed.

(** X10: a release that a manager refuses. When the first stored item
    whose type has a manager is refused by that manager with an error
    other than the invalid-state one, [ReleaseIP] returns that error
    wrapped, makes no other call, and keeps the record in the store as it
    is, so that the release can be asked again. *)
Theorem release_refused_keeps_record env n w r pod rec pre item post mgr e :
  podInfoKey (rK8SPodNamespace r) (rK8SPodName r) ∉ pendingPods w ->
  GetPod env (rK8SPodNamespace r) (rK8SPodName r) = inr pod ->
  dbGetErr env (podKey pod) = None ->
  store w !! podKey pod = Some rec ->
  verifyPodNetworkType (daemonMode n) (PodNetworkType pod) = true ->
  (forall stored, ContainerID rec = Some stored ->
                  rK8SPodInfraContainerId r = stored) ->
  IPStickTime pod = 0 ->
  Resources rec = pre ++ item :: post ->
  forallb (fun i => negb (managed n i)) pre = true ->
  getResourceManagerForRes n (ResType item) = Some mgr ->
  mgrRelease env mgr pod item = Some e -> isInvalidState e = false ->
  fst (ReleaseIP env n w r)
  = Err (ErrWrap "error release request network resource" e) /\
  trace (snd (ReleaseIP env n w r)) = trace w ++ [EvRelease mgr pod item] /\
  store (snd (ReleaseIP env n w r)) = store w.
Proof.
  intros Hp Hg Hget Hs Hver Hcid Hstick Hitems Hpre Hm Hrel Hinv.
  assert (Hres : getPodResource env w pod = inr rec)
    by (apply getPodResource_stored; assumption).
  rewrite (ReleaseIP_reaches_loop env n w r pod rec Hp Hg Hres Hver Hcid).
  cbv zeta. rewrite Hitems.
  rewrite (releaseResources_refused env n pod pre item post _ mgr e)
    by assumption.
  cbn [fst snd delPending addPending logEvent store trace]. auto.
Qed.

(** The ENI-IP manager refuses the address of the sample pod. *)
Lemma release_refused_keeps_record_witness :
  fst (ReleaseIP exReleaseFailEnv exServiceMultiIP exPlainWorld
                 (exReleaseReq "sandbox-A"))
  = Err (ErrWrap "error release request network resource"
                 (ErrMsg "eni is busy")) /\
  trace (snd (ReleaseIP exReleaseFailEnv exServiceMultiIP exPlainWorld
                        (exReleaseReq "sandbox-A")))
  = trace exPlainWorld ++ [EvRelease MgrENIIP exPlainPod exENIIPItem] /\
  store (snd (ReleaseIP exReleaseFailEnv exServiceMultiIP exPlainWorld
                        (exReleaseReq "sandbox-A")))
  = store exPlainWorld.
Proof.
  apply (release_refused_keeps_record exReleaseFailEnv exServiceMultiIP
           exPlainWorld (exReleaseReq "sandbox-A") exPlainPod
           (exRecord exPlainPod) [] exENIIPItem [] MgrENIIP
           (ErrMsg "eni is busy")).
  - vm_compute. intros H. inversion H.
  - reflexivity.
  - reflexivity.
  - reflexivity.
  - reflexivity.
  - intros stored [= <-]. reflexivity.
  - reflexivity.
  - reflexivity.
  - reflexivity.
  - reflexivity.
  - reflexivity.
  - reflexivity.
Defined.

Lemma allocBody_admitted env n r pod w reply :
  fRet (allocBody env n r pod w) = Ok reply ->
  verifyPodNetworkType (daemonMode n) (PodNetworkType pod) = true /\
  ctxErr env = None.
Proof.
  unfold allocBody.
  destruct (getPodResource env w pod) as [e|old]; [discriminate|].
  destruct (verifyPodNetworkType _ _); cbn [negb]; [|discriminate].
  pose proof (allocSwitch_ok env n r pod old w) as Hb.
  destruct (allocSwitch env n r pod old w)
    as [ret err resources pod' w'|ipType netConf resources pod' w'].
  - cbn [fRet]. intros ->. simpl in Hb. tauto.
  - destruct (ctxErr env); [discriminate|]. auto.
Qed.

(** X11: allocate, then release. On a service with default IPAM, for a pod
    that is not handed to the trunk controller and holds no sticky
    address: when [AllocIP] has succeeded, and [ReleaseIP] is then asked
    by the same sandbox with the collaborators answering as before, the
    managers taking every resource back, the store working and the request
    alive, the release succeeds and, the record holding an item whose type
    has a manager, the store has no record of the pod afterwards. *)
Theorem alloc_then_release env n w ra rr pod reply w1 :
  ipamType n = IPAMTypeDefault ->
  PodENI pod && enableTrunk n = false ->
  GetPod env (aK8SPodNamespace ra) (aK8SPodName ra) = inr pod ->
  AllocIP env n w ra = (Ok reply, w1) ->
  rK8SPodNamespace rr = aK8SPodNamespace ra ->
  rK8SPodName rr = aK8SPodName ra ->
  rK8SPodInfraContainerId rr = aK8SPodInfraContainerId ra ->
  IPStickTime pod = 0 ->
  dbGetErr env (podKey pod) = None ->
  dbDeleteErr env (podKey pod) = None ->
  releasesAccepted env pod ->
  (forall rec, store w1 !! podKey pod = Some rec ->
               existsb (managed n) (Resources rec) = true) ->
  fst (ReleaseIP env n w1 rr) = releaseOk n /\
  store (snd (ReleaseIP env n w1 rr)) !! podKey pod = None /\
  pendingPods (snd (ReleaseIP env n w1 rr)) = pendingPods w.
Proof.
  intros Hi Ht Hg Ha Hns Hname Hcid Hstick Hget Hdel Hacc Hman.
  destruct (AllocIP_recorded env n w ra pod reply w1 Hi Ht Hg Ha)
    as (rec & info & Hs & Hnetns & Hc & _).
  pose proof Ha as Ha'.
  apply AllocIP_reply in Ha' as (pod0 & w0 & Hg0 & Hout & -> & Hf & Hw1).
  rewrite Hg in Hg0. injection Hg0 as <-.
  apply allocBody_admitted in Hf as (Hver & Hctx).
  assert (Hpend : pendingPods w1 = pendingPods w).
  { assert (Hp : fst (AllocIP env n w ra) <> Panic) by (rewrite Ha; discriminate).
    destruct (AllocIP_effect env n w ra Hp) as (Hpp & _).
    rewrite Ha in Hpp. exact Hpp. }
  assert (Hp1 : podInfoKey (rK8SPodNamespace rr) (rK8SPodName rr)
                ∉ pendingPods w1) by (rewrite Hns, Hname, Hpend; exact Hout).
  assert (Hg1 : GetPod env (rK8SPodNamespace rr) (rK8SPodName rr) = inr pod)
    by (rewrite Hns, Hname; exact Hg).
  destruct (ReleaseIP_all env n w1 rr pod rec Hp1 Hg1 Hget Hs Hver)
    as (Hr1 & _ & Hr3); try assumption.
  { intros stored Hst. rewrite Hc in Hst. injection Hst as <-. exact Hcid. }
  split; [exact Hr1|]. split.
  - rewrite Hr3, (Hman rec Hs). apply lookup_delete_eq.
  - rewrite <- Hpend. apply (ReleaseIP_effect env n w1 rr).
Qed.

(** The sample pod gets an address and gives it back. *)
Lemma alloc_then_release_witness :
  exists reply w1,
    AllocIP (exEnv exPlainPod) exServiceMultiIP (exWorld []) exAllocReq
    = (Ok reply, w1) /\
    fst (ReleaseIP (exEnv exPlainPod) exServiceMultiIP w1
                   (exReleaseReq "sandbox-A"))
    = releaseOk exServiceMultiIP /\
    store (snd (ReleaseIP (exEnv exPlainPod) exServiceMultiIP w1
                          (exReleaseReq "sandbox-A")))
      !! podKey exPlainPod = None /\
    pendingPods (snd (ReleaseIP (exEnv exPlainPod) exServiceMultiIP w1
                                (exReleaseReq "sandbox-A")))
    = pendingPods (exWorld []).
Proof.
  eexists. eexists. split; [vm_compute; reflexivity|].
  eapply (alloc_then_release (exEnv exPlainPod) exServiceMultiIP (exWorld [])
            exAllocReq (exReleaseReq "sandbox-A") exPlainPod).
  - reflexivity.
  - reflexivity.
  - reflexivity.
  - vm_compute. reflexivity.
  - reflexivity.
  - reflexivity.
  - reflexivity.
  - reflexivity.
  - reflexivity.
  - reflexivity.
  - intros mgr item. left. reflexivity.
  - intros rec H. vm_compute in H. injection H as <-. reflexivity.
Defined.

(** ** Garbage collection: what a tick keeps *)

Lemma recordPresent_live live info :
  podInfoKey (Namespace info) (Name info) ∈ live ->
  recordPresent live info = true.
Proof.
  intros H. unfold recordPresent. rewrite (bool_decide_eq_true_2 _ H).
  reflexivity.
Qed.

Lemma fold_stickyRewrite_inv live rs key rec' :
  forall s,
    fold_left (stickyRewrite live) rs s !! key = Some rec' ->
    s !! key = Some rec' \/
    exists r info,
      In r rs /\ ResPodInfo r = Some info /\
      podInfoKey (Namespace info) (Name info) = key /\
      (key ∉ live) /\ IPStickTime info <> 0 /\
      rec' = withPodInfo r (setIPStickTime info 0).
Proof.
  induction rs as [|r rest IH]; intros s H; [left; exact H|].
  cbn [fold_left] in H. apply IH in H as [H|(r0 & info & Hin & Hrest)].
  - rewrite stickyRewrite_lookup in H.
    destruct (ResPodInfo r) as [info|] eqn:Hinfo; [|left; exact H].
    destruct (bool_decide (_ = key)) eqn:Hk; [|left; exact H].
    destruct (bool_decide (_ ∈ live)) eqn:Hl; [left; exact H|].
    destruct (IPStickTime info =? 0) eqn:Hz; [left; exact H|].
    cbn [negb andb] in H. injection H as <-.
    apply bool_decide_eq_true in Hk. apply bool_decide_eq_false in Hl.
    apply Z.eqb_neq in Hz.
    right. exists r, info. rewrite Hk in Hl.
    repeat split; auto. left. reflexivity.
  - right. exists r0, info. split; [right; exact Hin | exact Hrest].
Qed.

Lemma listed_record_stored (s : gmap string PodResources) r info :
  storeKeyed s -> In r (map snd (map_to_list s)) -> ResPodInfo r = Some info ->
  s !! podInfoKey (Namespace info) (Name info) = Some r.
Proof.
  intros Hk Hin Hinfo.
  apply in_map_iff in Hin as ([key r'] & <- & Hin).
  apply list_elem_of_In, elem_of_map_to_list in Hin. cbn [snd] in *.
  rewrite (storeKeyed_key s key r' info Hk Hin Hinfo). exact Hin.
Qed.

(** X12: a tick leaves the pods that are alive alone. In a tick in which
    the pods and the store can be listed and written, a record whose pod
    is among the live pods stays in the store as it is, and every resource
    of it is handed to the managers as in use and not as expired. *)
Theorem gc_keeps_live_pod env n w pods key rec :
  storeKeyed (store w) -> managersSet n (store w) -> storeWorks env ->
  GetLocalPods env = inr pods ->
  store w !! key = Some rec -> key ∈ podKeysOf pods ->
  exists w' sets,
    tickRuns env n w w' sets /\
    store w' !! key = Some rec /\
    (forall item, In item (Resources rec) -> passedInUse sets item).
Proof.
  intros Hkeyed Hnil Hworks Hpods Hs Hlive.
  destruct (Hkeyed key rec Hs) as (info & Hinfo & Hkey).
  destruct (gcTick_effect env n w pods Hkeyed Hnil Hworks Hpods)
    as (w' & gcDone & Hruns & _ & Hstore).
  cbv zeta in *.
  set (live := podKeysOf pods) in *.
  set (records := map snd (map_to_list (store w))) in *.
  pose proof (stored_record_listed _ _ _ Hs) as Hin. fold records in Hin.
  assert (Hkept : fold_left (stickyRewrite live) records (store w) !! key
                  = Some rec).
  { rewrite fold_stickyRewrite_untouched; [exact Hs|]. intros. left. exact Hlive. }
  assert (Hp : recordPresent live info = true)
    by (apply recordPresent_live; rewrite <- Hkey; exact Hlive).
  exists w', (classifyAll (gcItems live records) (∅, ∅)).
  split; [exact Hruns|]. split.
  - rewrite Hstore. destruct gcDone; [|exact Hkept].
    rewrite fold_delete_lookup. destruct (decide _) as [Hexp|_]; [|exact Hkept].
    exfalso. apply list_elem_of_In, in_expiredKeys in Hexp
      as (r & info' & Hr & Hinfo' & Hk' & Hp').
    rewrite recordPresent_live in Hp' by (rewrite Hk'; exact Hlive).
    discriminate.
  - intros item Hitem.
    destruct (classifyAll_sets (gcItems live records) (∅, ∅) setsAligned_empty)
      as ((_ & Hdis) & Hiu & _).
    assert (Hheld : inSet (fst (classifyAll (gcItems live records) (∅, ∅)))
                          (ResType item) (ResID item)).
    { apply Hiu. right. exists item. split; [|auto].
      rewrite <- Hp. apply in_gcItems with rec; assumption. }
    split; [exact Hheld | apply Hdis; exact Hheld].
Qed.

Lemma gc_keeps_live_pod_witness :
  exists w' sets,
    tickRuns (exLiveEnv exPlainPod) exServiceMultiIP exPlainWorld w' sets /\
    store w' !! "default/web-0" = Some (exRecord exPlainPod) /\
    (forall item, In item (Resources (exRecord exPlainPod)) ->
                  passedInUse sets item).
Proof.
  apply (gc_keeps_live_pod (exLiveEnv exPlainPod) exServiceMultiIP exPlainWorld
                           [exPlainPod] "default/web-0" (exRecord exPlainPod)).
  - apply (storeKeyed_sample exPlainPod).
  - apply (managersSet_sample exPlainPod).
  - repeat split.
  - reflexivity.
  - reflexivity.
  - vm_compute. reflexivity.
Defined.

(** X13: a tick makes no record and rewrites none, but for the stick
    time. In a tick in which the pods and the store can be listed and
    written, every record found in the store afterwards was in the store
    before, under the same key, and is either that record as it was or,
    when that record was sticky and its pod was not among the live pods,
    that record with its [IPStickTime] set to zero. *)
Theorem gc_tick_only_clears_or_deletes env n w pods :
  storeKeyed (store w) -> managersSet n (store w) -> storeWorks env ->
  GetLocalPods env = inr pods ->
  exists w',
    gcTick env n w = Some w' /\
    forall key rec',
      store w' !! key = Some rec' ->
      exists rec,
        store w !! key = Some rec /\
        (rec' = rec \/
         exists info,
           ResPodInfo rec = Some info /\ IPStickTime info <> 0 /\
           (key ∉ podKeysOf pods) /\
           rec' = withPodInfo rec (setIPStickTime info 0)).
Proof.
  intros Hkeyed Hnil Hworks Hpods.
  destruct (gcTick_effect env n w pods Hkeyed Hnil Hworks Hpods)
    as (w' & gcDone & (Htick & _) & _ & Hstore).
  cbv zeta in *.
  set (live := podKeysOf pods) in *.
  set (records := map snd (map_to_list (store w))) in *.
  exists w'. split; [exact Htick|]. intros key rec' Hrec'.
  assert (Hrw : fold_left (stickyRewrite live) records (store w) !! key
                = Some rec').
  { rewrite Hstore in Hrec'. destruct gcDone; [|exact Hrec'].
    rewrite fold_delete_lookup in Hrec'.
    destruct (decide _); [discriminate|exact Hrec']. }
  apply fold_stickyRewrite_inv in Hrw
    as [Hsame|(r & info & Hin & Hinfo & Hk & Hl & Hz & ->)].
  - exists rec'. auto.
  - exists r. split.
    + rewrite <- Hk. apply listed_record_stored; assumption.
    + right. exists info. auto.
Qed.

Lemma gc_tick_only_clears_or_deletes_witness :
  exists w',
    gcTick (exEnv exStickyPod) exServiceMultiIP exStickyWorld = Some w' /\
    forall key rec',
      store w' !! key = Some rec' ->
      exists rec,
        store exStickyWorld !! key = Some rec /\
        (rec' = rec \/
         exists info,
           ResPodInfo rec = Some info /\ IPStickTime info <> 0 /\
           (key ∉ podKeysOf []) /\
           rec' = withPodInfo rec (setIPStickTime info 0)).
Proof.
  apply (gc_tick_only_clears_or_deletes (exEnv exStickyPod) exServiceMultiIP
                                        exStickyWorld []).
  - apply (storeKeyed_sample exStickyPod).
  - apply (managersSet_sample exStickyPod).
  - repeat split.
  - reflexivity.
Defined.

(** X14: what a tick hands to the managers depends on which records hold
    a resource, not on the order the store lists them in. In a tick in
    which the pods and the store can be listed and written, a resource is
    in the in-use set of its type exactly when some record that counts as
    present (its pod is alive, or it is sticky) holds it, and in the
    expired set exactly when some record that counts as gone holds it and
    no record that counts as present does. *)
Theorem gc_sets_by_presence env n w pods :
  storeKeyed (store w) -> managersSet n (store w) -> storeWorks env ->
  GetLocalPods env = inr pods ->
  exists w' sets,
    tickRuns env n w w' sets /\
    (forall ty id,
        inSet (fst sets) ty id <->
        heldBy (gcItems (podKeysOf pods) (map snd (map_to_list (store w))))
               true ty id) /\
    (forall ty id,
        inSet (snd sets) ty id <->
        heldBy (gcItems (podKeysOf pods) (map snd (map_to_list (store w))))
               false ty id /\
        ~ heldBy (gcItems (podKeysOf pods) (map snd (map_to_list (store w))))
                 true ty id).
Proof.
  intros Hkeyed Hnil Hworks Hpods.
  destruct (gcTick_effect env n w pods Hkeyed Hnil Hworks Hpods)
    as (w' & gcDone & Hruns & _ & _).
  cbv zeta in *.
  set (items := gcItems (podKeysOf pods) (map snd (map_to_list (store w)))) in *.
  exists w', (classifyAll items (∅, ∅)). split; [exact Hruns|].
  destruct (classifyAll_sets items (∅, ∅) setsAligned_empty)
    as (_ & Hiu & Hex).
  cbn [fst snd] in Hiu, Hex. split.
  - intros ty id. rewrite Hiu. pose proof (inSet_empty ty id). tauto.
  - intros ty id. rewrite Hex. pose proof (inSet_empty ty id). tauto.
Qed.

Lemma gc_sets_by_presence_witness :
  exists w' sets,
    tickRuns (exEnv exStickyPod) exServiceMultiIP exStickyWorld w' sets /\
    (forall ty id,
        inSet (fst sets) ty id <->
        heldBy (gcItems (podKeysOf [])
                        (map snd (map_to_list (store exStickyWorld))))
               true ty id) /\
    (forall ty id,
        inSet (snd sets) ty id <->
        heldBy (gcItems (podKeysOf [])
                        (map snd (map_to_list (store exStickyWorld))))
               false ty id /\
        ~ heldBy (gcItems (podKeysOf [])
                          (map snd (map_to_list (store exStickyWorld))))
                 true ty id).
Proof.
  apply (gc_sets_by_presence (exEnv exStickyPod) exServiceMultiIP
                             exStickyWorld []).
  - apply (storeKeyed_sample exStickyPod).
  - apply (managersSet_sample exStickyPod).
  - repeat split.
  - reflexivity.
Defined.

(** ** Garbage collection: the gate before the deletions *)

Lemma classifyItem_type_kept (podExist : bool) (sets : resSets * resSets)
      (res : ResourceItem) ty :
  is_Some (fst sets !! ty) \/ ty = ResType res ->
  is_Some (fst (classifyItem podExist sets res) !! ty).
Proof.
  destruct sets as [iu ex]. unfold classifyItem. cbn [fst].
  intros H.
  assert (Hkey : is_Some
                   ((match iu !! ResType res with
                     | Some _ => iu
                     | None => <[ResType res := ∅]> iu
                     end) !! ty)).
  { destruct (iu !! ResType res) as [m|] eqn:E.
    - destruct H as [H| ->]; [exact H|eauto].
    - destruct (decide (ty = ResType res)) as [->|Hne].
      + rewrite lookup_insert_eq. eauto.
      + rewrite lookup_insert_ne by congruence.
        destruct H as [H|H]; [exact H|contradiction]. }
  destruct (iu !! ResType res) as [m|] eqn:E.
  - destruct (setOfType iu (ResType res) !! ResID res); [exact Hkey|].
    destruct podExist; cbn [fst]; [|exact Hkey].
    apply not_eq_None_Some. rewrite alter_None_iff.
    apply not_eq_None_Some. exact Hkey.
  - destruct (setOfType (<[ResType res := ∅]> iu) (ResType res) !! ResID res);
      [exact Hkey|].
    destruct podExist; cbn [fst]; [|exact Hkey].
    apply not_eq_None_Some. rewrite alter_None_iff.
    apply not_eq_None_Some. exact Hkey.
Qed.

Lemma classifyAll_type_kept (items : list (bool * ResourceItem))
      (sets : resSets * resSets) ty :
  is_Some (fst sets !! ty) \/
  (exists bi, In bi items /\ ResType (snd bi) = ty) ->
  is_Some (fst (classifyAll items sets) !! ty).
Proof.
  revert sets. induction items as [|[b item] rest IH]; intros sets H.
  - destruct H as [H|(bi & [] & _)]. exact H.
  - change (classifyAll ((b, item) :: rest) sets)
      with (classifyAll rest (classifyItem b sets item)).
    apply IH. destruct H as [H|(bi & [<-|Hin] & Hty)].
    + left. apply classifyItem_type_kept. left. exact H.
    + left. apply classifyItem_type_kept. right. symmetry. exact Hty.
    + right. exists bi. auto.
Qed.

Lemma gcManagers_gate env n inUse expire mgrTypes :
  forall w gcDone w' gcDone',
    gcManagers env n inUse expire mgrTypes w gcDone = Some (w', gcDone') ->
    (gcDone = false -> gcDone' = false) /\
    (forall ty mgr,
        In ty mgrTypes -> mgrForResource n !! ty = Some (Some mgr) ->
        mgrGarbageCollection env mgr (setOfType inUse ty) (setOfType expire ty)
        <> None ->
        gcDone' = false).
Proof.
  induction mgrTypes as [|mgrType rest IH]; intros w gcDone w' gcDone';
    cbn [gcManagers].
  { intros [= <- <-]. split; [auto|]. intros ty mgr []. }
  destruct (mgrForResource n !! mgrType) as [[mgr0|]|] eqn:Hm;
    [| discriminate |].
  - destruct (mgrGarbageCollection env mgr0 _ _) as [e|] eqn:Hgc; intros H;
      destruct (IH _ _ _ _ H) as [IH1 IH2]; split.
    + intros _. apply IH1. reflexivity.
    + intros ty mgr _ _ _. apply IH1. reflexivity.
    + exact IH1.
    + intros ty mgr [->|Hin] Hty Hfail; [|eauto].
      rewrite Hm in Hty. injection Hty as <-. rewrite Hgc in Hfail.
      contradiction.
  - intros H. destruct (IH _ _ _ _ H) as [IH1 IH2]. split; [exact IH1|].
    intros ty mgr [->|Hin] Hty Hfail; [|eauto].
    rewrite Hm in Hty. discriminate.
Qed.

Lemma gcCalls_no_cleanup n inUse expire mgrTypes :
  List.filter isRouteCleanup (gcCalls n inUse expire mgrTypes) = [].
Proof.
  unfold gcCalls. induction mgrTypes as [|ty rest IH]; [reflexivity|].
  cbn [flat_map]. rewrite List.filter_app, IH, app_nil_r.
  destruct (mgrForResource n !! ty) as [[mgr|]|]; reflexivity.
Qed.

Lemma fold_stickyRewrite_keeps live rs key :
  forall s, is_Some (s !! key) ->
            is_Some (fold_left (stickyRewrite live) rs s !! key).
Proof.
  induction rs as [|r rest IH]; intros s H; [exact H|].
  cbn [fold_left]. apply IH. rewrite stickyRewrite_lookup.
  destruct (ResPodInfo r) as [info|]; [|exact H].
  destruct (_ && _); [eauto|exact H].
Qed.

(** X30: nothing is deleted behind a failed collection. In a tick in
    which the pods and the store can be listed and written, if the
    manager of the type of some stored item fails in [GarbageCollection],
    then the tick deletes no record (every key of the store is still
    there afterwards) and deletes no kernel rule and no route. *)
Theorem gc_failure_deletes_nothing env n w pods key0 rec0 item mgr :
  storeKeyed (store w) -> managersSet n (store w) -> storeWorks env ->
  GetLocalPods env = inr pods ->
  store w !! key0 = Some rec0 -> In item (Resources rec0) ->
  mgrForResource n !! ResType item = Some (Some mgr) ->
  (forall inUse expire, mgrGarbageCollection env mgr inUse expire <> None) ->
  exists w',
    gcTick env n w = Some w' /\
    (forall key, is_Some (store w !! key) -> is_Some (store w' !! key)) /\
    List.filter isRouteCleanup (trace w')
    = List.filter isRouteCleanup (trace w).
Proof.
  intros Hkeyed Hnil (Hlist & Hput & Hdel) Hpods Hs0 Hitem Hmgr Hfail.
  set (live := podKeysOf pods).
  set (records := map snd (map_to_list (store w))).
  set (sets := classifyAll (gcItems live records) (∅, ∅)).
  set (rewritten := fold_left (stickyRewrite live) records (store w)).
  pose proof (storeKeyed_records _ Hkeyed) as Hall. fold records in Hall.
  assert (Hclass : gcClassify env live w records
                   = Some (mkGcState (setStore rewritten w) (fst sets) (snd sets)
                                     (expiredKeys live records))).
  { unfold gcClassify. rewrite (gcRecords_effect env live records Hput Hall).
    reflexivity. }
  assert (Htypes : Forall (fun ty => mgrForResource n !! ty <> Some None)
                          (map fst (map_to_list (fst sets)))).
  { apply List.Forall_forall. intros ty Hty.
    apply in_map_iff in Hty as ([ty' m] & <- & Hty).
    apply list_elem_of_In, elem_of_map_to_list in Hty. cbn [fst].
    destruct (classifyAll_types (gcItems live records) (∅, ∅) ty')
      as [[x Hx]|([b item'] & Hbi & <-)].
    - fold sets. rewrite Hty. eauto.
    - cbn [fst] in Hx. rewrite lookup_empty in Hx. discriminate.
    - apply in_gcItems_inv in Hbi as (r & Hr & Hitem').
      eapply managersSet_records; eauto. }
  destruct (gcManagers_effect env n (fst sets) (snd sets)
              (map fst (map_to_list (fst sets))) Htypes (setStore rewritten w)
              true) as (gcDone & Hrun & _).
  assert (Hfalse : gcDone = false).
  { destruct (gcManagers_gate env n (fst sets) (snd sets) _ _ _ _ _ Hrun)
      as [_ Hg].
    apply (Hg (ResType item) mgr); [|exact Hmgr|apply Hfail].
    destruct (Hkeyed key0 rec0 Hs0) as (info & Hinfo & _).
    assert (Hty : is_Some (fst sets !! ResType item)).
    { apply classifyAll_type_kept. right.
      exists (recordPresent live info, item). split; [|reflexivity].
      apply in_gcItems with rec0; auto.
      apply stored_record_listed with key0. exact Hs0. }
    destruct Hty as [m Hm]. apply in_map_iff. exists (ResType item, m).
    split; [reflexivity|].
    apply list_elem_of_In, elem_of_map_to_list. exact Hm. }
  subst gcDone. eexists. split; [|split].
  - unfold gcTick, dbList. rewrite Hpods, Hlist. fold live records.
    rewrite Hclass. cbn [inUseSet expireSet gcWorld relateExpireList].
    rewrite Hrun. reflexivity.
  - intros key Hkey. cbn [store setStore].
    apply fold_stickyRewrite_keeps. exact Hkey.
  - cbn [trace setStore]. rewrite List.filter_app, gcCalls_no_cleanup.
    apply app_nil_r.
Qed.

(** Every manager fails; the record of the gone pod stays. *)
Lemma gc_failure_deletes_nothing_witness :
  exists w',
    gcTick exGcFailEnv exServiceMultiIP exPlainWorld = Some w' /\
    (forall key, is_Some (store exPlainWorld !! key) ->
                 is_Some (store w' !! key)) /\
    List.filter isRouteCleanup (trace w')
    = List.filter isRouteCleanup (trace exPlainWorld).
Proof.
  apply (gc_failure_deletes_nothing exGcFailEnv exServiceMultiIP exPlainWorld
           [] "default/web-0" (exRecord exPlainPod) exENIIPItem MgrENIIP).
  - apply (storeKeyed_sample exPlainPod).
  - apply (managersSet_sample exPlainPod).
  - repeat split.
  - reflexivity.
  - reflexivity.
  - left. reflexivity.
  - reflexivity.
  - intros inUse expire. discriminate.
Defined.

(** ** Garbage collection: the clean-up of rules and routes *)




(** ** The three-way mapping: nothing is left out *)

(** X16: the three-way mapping leaves nothing out, and joins by resource
    id. Whenever [toResMapping] returns, every resource id that is among
    the pool's local resources, among its remote resources, or held by a
    stored record as an item that is not an EIP has one entry of the
    mapping that shows the id in each of the three places it was found
    in. *)
Theorem mapping_is_complete local remote pods mapping id :
  toResMapping local remote pods = Some mapping ->
  In id local \/ In id remote \/ boundInStore pods id ->
  exists e,
    In e mapping /\
    (In id local -> pmLocalResID e = id) /\
    (In id remote -> pmRemoteResID e = id) /\
    (boundInStore pods id -> pmPodBindResID e = id).
Proof.
  unfold toResMapping.
  destruct (joinMapping local remote pods) as [all|] eqn:Hj; [|discriminate].
  intros [= <-] Hid.
  destruct (joinMapping_complete local remote pods all id Hj) as (L & R & B).
  assert (He : exists e, all !! id = Some e).
  { destruct Hid as [H|[H|H]];
      [destruct (L H) as (e & He & _) | destruct (R H) as (e & He & _)
       | destruct (B H) as (e & He & _)]; eauto. }
  destruct He as (e & He). exists (markIdle e).
  destruct (markIdle_ids e) as (Hl & Hr & Hb & _).
  split; [|repeat split].
  - apply (Permutation_in _ (Permutation_sym (sortSlice_perm _))).
    apply in_map_iff. exists (id, e). split; [reflexivity|].
    apply list_elem_of_In, elem_of_map_to_list. exact He.
  - intros H. destruct (L H) as (e' & He' & Hid'). congruence.
  - intros H. destruct (R H) as (e' & He' & Hid'). congruence.
  - intros H. destruct (B H) as (e' & He' & Hid'). congruence.
Qed.

(** The pool knows "eni-b" locally and remotely, and a pod holds it. *)
Lemma mapping_is_complete_witness :
  exists e,
    In e [mkPodMapping "web-0" "default" true "eni-b" "eni-b" "eni-b";
          mkPodMapping "" "" false "" "eni-a" "";
          mkPodMapping "" "" false "" "" "eni-c"] /\
    (In "eni-b" exLocal -> pmLocalResID e = "eni-b") /\
    (In "eni-b" exRemote -> pmRemoteResID e = "eni-b") /\
    (boundInStore exBoundPods "eni-b" -> pmPodBindResID e = "eni-b").
Proof.
  apply (mapping_is_complete exLocal exRemote exBoundPods _ "eni-b").
  - vm_compute. reflexivity.
  - left. right. left. reflexivity.
Defined.

(** ** The default-route policy, applied again *)

Lemma defaultForNetConf_kept (l : list NetConf) :
  singleDefault l -> defaultForNetConf l = (None, l).
Proof.
  intros [H1 Hif]. destruct l as [|c0 l0]; [reflexivity|].
  set (l := c0 :: l0) in *.
  assert (Hdef : defaultForNetConf l =
                 match scanNetConf l false false with
                 | inl e => (Some e, l)
                 | inr (drs, dis) =>
                     if negb dis
                     then (Some (ErrMsg "default interface is not set"), l)
                     else if negb drs then (None, markFirstDefaultIf l)
                          else (None, l)
                 end) by reflexivity.
  rewrite Hdef. clearbody l. clear Hdef.
  rewrite scanNetConf_flags by lia. rewrite H1, Hif. reflexivity.
Qed.

(** X17: the default-route policy settles at once. A list that
    [defaultForNetConf] has accepted (and completed, if it carried no
    default route) is accepted again and left as it is. *)
Theorem defaultForNetConf_idempotent (netConf netConf' : list NetConf) :
  defaultForNetConf netConf = (None, netConf') ->
  defaultForNetConf netConf' = (None, netConf').
Proof.
  intros H. destruct netConf as [|c l].
  - injection H as <-. reflexivity.
  - apply defaultForNetConf_kept.
    apply (defaultForNetConf_single (c :: l)); [exact H|discriminate].
Qed.

Lemma defaultForNetConf_idempotent_witness :
  defaultForNetConf [exConf "net1" false; exConf "" true; exConf "eth0" false]
  = (None, [exConf "net1" false; exConf "" true; exConf "eth0" false]).
Proof.
  apply (defaultForNetConf_idempotent exNetConfs). reflexivity.
Defined.

(** * Properties of the configuration *)

(** ** The security groups *)

Lemma insertString_In x y l : In y (insertString x l) <-> y = x \/ In y l.
Proof.
  induction l as [|z rest IH]; simpl.
  - intuition.
  - destruct (String.ltb z x); simpl; rewrite ?IH; intuition.
Qed.

Lemma sortStrings_In y l : In y (sortStrings l) <-> In y l.
Proof.
  induction l as [|x rest IH]; simpl; [reflexivity|].
  rewrite insertString_In, IH. intuition.
Qed.

Lemma insertString_sorted x l :
  ~ In x l -> StronglySorted strictlyBefore l ->
  StronglySorted strictlyBefore (insertString x l).
Proof.
  intros Hx Hs. induction Hs as [|z rest Hrest IH Hall]; simpl.
  - constructor; constructor.
  - destruct (String.ltb z x) eqn:Hzx.
    + constructor.
      * apply IH. intros H. apply Hx. right. exact H.
      * apply List.Forall_forall. intros y Hy.
        apply insertString_In in Hy as [->|Hy]; [exact Hzx|].
        rewrite List.Forall_forall in Hall. auto.
    + assert (Hxz : strictlyBefore x z).
      { destruct (ltb_trichotomy x z) as [->|[H|H]].
        - exfalso. apply Hx. left. reflexivity.
        - exact H.
        - congruence. }
      constructor; [constructor; assumption|].
      constructor; [exact Hxz|].
      apply List.Forall_forall. intros y Hy.
      rewrite List.Forall_forall in Hall.
      apply (ltb_trans x z y); [exact Hxz | exact (Hall y Hy)].
Qed.

Lemma sortStrings_sorted l :
  NoDup l -> StronglySorted strictlyBefore (sortStrings l).
Proof.
  induction 1 as [|x l Hx Hnd IH]; simpl; [constructor|].
  apply insertString_sorted; [|exact IH].
  rewrite sortStrings_In. intros H. apply Hx, list_elem_of_In. exact H.
Qed.

Lemma strictlySorted_NoDup l : StronglySorted strictlyBefore l -> NoDup l.
Proof.
  induction 1 as [|x l Hs IH Hall]; constructor; [|exact IH].
  intros Hin. apply list_elem_of_In in Hin.
  rewrite List.Forall_forall in Hall.
  specialize (Hall x Hin). unfold strictlyBefore in Hall.
  rewrite ltb_irrefl in Hall. discriminate.
Qed.

Lemma stringSetList_In (s : gset string) x :
  In x (daemon.stringSetList s) <-> x ∈ s.
Proof.
  unfold daemon.stringSetList.
  rewrite sortStrings_In, <- list_elem_of_In, elem_of_elements. reflexivity.
Qed.

Lemma GetSecurityGroups_In cfg sg :
  In sg (daemon.GetSecurityGroups cfg) <-> configuredGroup cfg sg.
Proof.
  unfold daemon.GetSecurityGroups, configuredGroup.
  rewrite stringSetList_In, elem_of_union, elem_of_list_to_set,
    <- list_elem_of_In.
  destruct (String.eqb (daemon.SecurityGroup cfg) "") eqn:E; cbn [negb].
  - apply String.eqb_eq in E. rewrite elem_of_empty. split.
    + intros [H|[]]. right. exact H.
    + intros [[-> H]|H]; [congruence | left; exact H].
  - apply String.eqb_neq in E.
    rewrite elem_of_union, elem_of_singleton, elem_of_empty. split.
    + intros [H|[->|[]]]; [right; exact H | left; auto].
    + intros [[-> H]|H]; [right; left; reflexivity | left; exact H].
Qed.

Lemma GetSecurityGroups_sorted cfg :
  StronglySorted strictlyBefore (daemon.GetSecurityGroups cfg).
Proof.
  unfold daemon.GetSecurityGroups, daemon.stringSetList.
  apply sortStrings_sorted, NoDup_elements.
Qed.

(** X18: [GetSecurityGroups] lists every configured group once, in
    increasing order. Its result is strictly increasing in the byte order
    of strings (so no group is listed twice), and a group is in it exactly
    when it is the single [SecurityGroup] of the configuration and not
    empty, or one of [SecurityGroups] (an empty name among those is
    listed). *)
Theorem security_groups_listed cfg :
  StronglySorted strictlyBefore (daemon.GetSecurityGroups cfg) /\
  forall sg,
    In sg (daemon.GetSecurityGroups cfg) <->
    (sg = daemon.SecurityGroup cfg /\ sg <> "") \/
    In sg (daemon.SecurityGroups cfg).
Proof.
  split; [apply GetSecurityGroups_sorted | apply GetSecurityGroups_In].
Qed.

Example security_groups_sample :
  daemon.GetSecurityGroups exConfig = ["sg-1"; "sg-2"].
Proof. vm_compute. reflexivity. Qed.

(** X19: the bound on security groups counts distinct groups.
    [getPoolConfig] returns an error exactly when more than five different
    groups are configured: for any duplicate-free list of the configured
    groups, it fails if and only if that list is longer than five. *)
Theorem pool_config_security_group_bound ins cfg ipamType groups :
  NoDup groups ->
  (forall sg, In sg groups <-> configuredGroup cfg sg) ->
  (exists err, getPoolConfig ins cfg ipamType = inl err) <->
  (5 < length groups)%nat.
Proof.
  intros Hnd Hgroups.
  assert (Hlen : length groups = length (daemon.GetSecurityGroups cfg)).
  { apply Permutation_length, NoDup_Permutation.
    - exact Hnd.
    - apply strictlySorted_NoDup, GetSecurityGroups_sorted.
    - intros sg. rewrite !list_elem_of_In, Hgroups, GetSecurityGroups_In.
      reflexivity. }
  rewrite Hlen. unfold getPoolConfig.
  destruct (5 <? length (daemon.GetSecurityGroups cfg))%nat eqn:E.
  - apply Nat.ltb_lt in E. split; [auto|]. intros _. eauto.
  - apply Nat.ltb_ge in E. split; [|lia]. intros [err H]. discriminate.
Qed.

Lemma pool_config_security_group_bound_witness :
  (exists err, getPoolConfig exInstance exConfig IPAMTypeDefault = inl err) <->
  (5 < length ["sg-2"; "sg-1"])%nat.
Proof.
  apply (pool_config_security_group_bound exInstance exConfig IPAMTypeDefault
                                          ["sg-2"; "sg-1"]).
  - constructor; [|constructor; [|constructor]];
      intros H; apply list_elem_of_In in H; simpl in H; intuition discriminate.
  - intros sg. unfold configuredGroup. simpl. split.
    + intros [<-|[<-|[]]]; auto.
    + intros [[-> _]|[<-|[<-|[]]]]; auto.
Defined.

(** ** The pool configuration *)

(** X20: what [getPoolConfig] hands to the pool. Whenever it succeeds, the
    vSwitch list of the pool configuration is not empty: it is the list
    configured for the zone of the node when that list exists and is not
    empty, and otherwise the one vSwitch of the node itself; the security
    groups are the configured ones, at most five; and under CRD IPAM the
    four bounds of the pool are zero whatever the configuration says. *)
Theorem pool_config_shape ins cfg ipamType poolConfig :
  getPoolConfig ins cfg ipamType = inr poolConfig ->
  types.VSwitch poolConfig <> [] /\
  (forall vSwitches ids,
      daemon.VSwitches cfg = Some vSwitches ->
      vSwitches !! ZoneID ins = Some ids -> ids <> [] ->
      types.VSwitch poolConfig = ids) /\
  ((forall vSwitches ids,
       daemon.VSwitches cfg = Some vSwitches ->
       vSwitches !! ZoneID ins = Some ids -> ids = []) ->
   types.VSwitch poolConfig = [VSwitchID ins]) /\
  types.SecurityGroups poolConfig = daemon.GetSecurityGroups cfg /\
  (length (types.SecurityGroups poolConfig) <= 5)%nat /\
  (ipamType = IPAMTypeCRD ->
   types.MaxPoolSize poolConfig = 0 /\ types.MinPoolSize poolConfig = 0 /\
   types.MaxENI poolConfig = 0 /\ types.MinENI poolConfig = 0) /\
  (ipamType = IPAMTypeDefault ->
   types.MaxPoolSize poolConfig = daemon.MaxPoolSize cfg /\
   types.MinPoolSize poolConfig = daemon.MinPoolSize cfg /\
   types.MaxENI poolConfig = daemon.MaxENI cfg /\
   types.MinENI poolConfig = daemon.MinENI cfg).
Proof.
  unfold getPoolConfig.
  destruct (5 <? length (daemon.GetSecurityGroups cfg))%nat eqn:E;
    [discriminate|].
  apply Nat.ltb_ge in E. intros [= <-].
  cbn [types.VSwitch types.SecurityGroups types.MaxPoolSize types.MinPoolSize
       types.MaxENI types.MinENI].
  split; [|split; [|split; [|split; [|split; [|split]]]]].
  - destruct (daemon.VSwitches cfg) as [vsw|]; [|discriminate].
    destruct (vsw !! ZoneID ins) as [[|id ids]|]; discriminate.
  - intros vsw ids -> -> Hne. destruct ids; [congruence|reflexivity].
  - intros Hnone. destruct (daemon.VSwitches cfg) as [vsw|]; [|reflexivity].
    destruct (vsw !! ZoneID ins) as [ids|] eqn:Hz; [|reflexivity].
    rewrite (Hnone vsw ids eq_refl Hz). reflexivity.
  - reflexivity.
  - exact E.
  - intros ->. repeat split.
  - intros ->. repeat split.
Qed.

(** The node is in a zone for which the configuration lists no
    vSwitch. *)
Lemma pool_config_shape_witness :
  exists poolConfig,
    getPoolConfig exInstance exConfig IPAMTypeCRD = inr poolConfig /\
    types.VSwitch poolConfig = ["vsw-9"] /\
    types.SecurityGroups poolConfig = ["sg-1"; "sg-2"] /\
    types.MaxPoolSize poolConfig = 0.
Proof.
  eexists. split; [vm_compute; reflexivity|].
  edestruct (pool_config_shape exInstance exConfig IPAMTypeCRD)
    as (_ & _ & Hv & Hs & _ & Hc & _); [vm_compute; reflexivity|].
  split; [|split].
  - apply Hv. intros vsw ids [= <-] H. vm_compute in H. congruence.
  - exact Hs.
  - apply Hc. reflexivity.
Defined.

(** ** Defaults and validation *)

Ltac config_fields :=
  cbn [daemon.EniCapRatio daemon.VSwitchSelectionPolicy daemon.IPStack
       daemon.setEniCapRatio daemon.setVSwitchSelectionPolicy daemon.setIPStack
       daemon.AccessID daemon.AccessSecret daemon.VSwitches daemon.ENITags
       daemon.MaxPoolSize daemon.MinPoolSize daemon.MinENI daemon.MaxENI
       daemon.SecurityGroup daemon.SecurityGroups daemon.EniCapShift
       daemon.EnableENITrunking daemon.ENICapPolicy daemon.ExtraRoutes
       daemon.DisableDevicePlugin daemon.WaitTrunkENI
       daemon.DisableSecurityGroupCheck fst snd].

Lemma setDefault_ratio cfg :
  daemon.EniCapRatio (snd (setDefault cfg))
  = if SpecFloat.SFeqb (daemon.EniCapRatio cfg) float64Zero
    then float64One else daemon.EniCapRatio cfg.
Proof.
  unfold setDefault.
  destruct (SpecFloat.SFeqb (daemon.EniCapRatio cfg) float64Zero);
    config_fields;
    destruct (String.eqb _ ""); config_fields;
    destruct (String.eqb _ ""); reflexivity.
Qed.

Lemma setDefault_policy cfg :
  daemon.VSwitchSelectionPolicy (snd (setDefault cfg))
  = if String.eqb (daemon.VSwitchSelectionPolicy cfg) ""
    then VSwitchSelectionPolicyRandom else daemon.VSwitchSelectionPolicy cfg.
Proof.
  unfold setDefault.
  destruct (SpecFloat.SFeqb (daemon.EniCapRatio cfg) float64Zero);
    config_fields;
    destruct (String.eqb (daemon.VSwitchSelectionPolicy cfg) "");
    config_fields;
    destruct (String.eqb _ ""); reflexivity.
Qed.

Lemma setDefault_stack cfg :
  daemon.IPStack (snd (setDefault cfg))
  = if String.eqb (daemon.IPStack cfg) ""
    then IPStackIPv4 else daemon.IPStack cfg.
Proof.
  unfold setDefault.
  destruct (SpecFloat.SFeqb (daemon.EniCapRatio cfg) float64Zero);
    config_fields;
    destruct (String.eqb (daemon.VSwitchSelectionPolicy cfg) "");
    config_fields;
    destruct (String.eqb (daemon.IPStack cfg) ""); reflexivity.
Qed.

Lemma setDefault_unchanged cfg :
  SpecFloat.SFeqb (daemon.EniCapRatio cfg) float64Zero = false ->
  String.eqb (daemon.VSwitchSelectionPolicy cfg) "" = false ->
  String.eqb (daemon.IPStack cfg) "" = false ->
  setDefault cfg = (None, cfg).
Proof.
  intros Hr Hp Hs. unfold setDefault. rewrite Hr, Hp, Hs. reflexivity.
Qed.

(** X21: [setDefault] fills what is missing, keeps what is set, and
    settles at once. It returns no error; afterwards the ENI cap ratio is
    not zero, and the vSwitch selection policy and the IP stack are not
    empty; a ratio that was not zero, a policy and a stack that were not
    empty are kept; and applying it again changes nothing. *)
Theorem setDefault_settles cfg :
  fst (setDefault cfg) = None /\
  setDefault (snd (setDefault cfg)) = (None, snd (setDefault cfg)) /\
  SpecFloat.SFeqb (daemon.EniCapRatio (snd (setDefault cfg))) float64Zero
  = false /\
  daemon.VSwitchSelectionPolicy (snd (setDefault cfg)) <> "" /\
  daemon.IPStack (snd (setDefault cfg)) <> "" /\
  (SpecFloat.SFeqb (daemon.EniCapRatio cfg) float64Zero = false ->
   daemon.EniCapRatio (snd (setDefault cfg)) = daemon.EniCapRatio cfg) /\
  (daemon.VSwitchSelectionPolicy cfg <> "" ->
   daemon.VSwitchSelectionPolicy (snd (setDefault cfg))
   = daemon.VSwitchSelectionPolicy cfg) /\
  (daemon.IPStack cfg <> "" ->
   daemon.IPStack (snd (setDefault cfg)) = daemon.IPStack cfg).
Proof.
  assert (Hr : SpecFloat.SFeqb (daemon.EniCapRatio (snd (setDefault cfg)))
                               float64Zero = false).
  { rewrite setDefault_ratio.
    destruct (SpecFloat.SFeqb (daemon.EniCapRatio cfg) float64Zero) eqn:E;
      [reflexivity | exact E]. }
  assert (Hp : String.eqb (daemon.VSwitchSelectionPolicy (snd (setDefault cfg)))
                          "" = false).
  { rewrite setDefault_policy.
    destruct (String.eqb (daemon.VSwitchSelectionPolicy cfg) "") eqn:E;
      [reflexivity | exact E]. }
  assert (Hs : String.eqb (daemon.IPStack (snd (setDefault cfg))) "" = false).
  { rewrite setDefault_stack.
    destruct (String.eqb (daemon.IPStack cfg) "") eqn:E;
      [reflexivity | exact E]. }
  split; [reflexivity|].
  split; [apply setDefault_unchanged; assumption|].
  split; [exact Hr|].
  split; [apply String.eqb_neq; exact Hp|].
  split; [apply String.eqb_neq; exact Hs|].
  split; [|split].
  - intros E. rewrite setDefault_ratio, E. reflexivity.
  - intros E. apply String.eqb_neq in E. rewrite setDefault_policy, E.
    reflexivity.
  - intros E. apply String.eqb_neq in E. rewrite setDefault_stack, E.
    reflexivity.
Qed.

Lemma validateConfig_stacks cfg :
  validateConfig cfg = None <->
  daemon.IPStack cfg = "" \/ daemon.IPStack cfg = IPStackIPv4 \/
  daemon.IPStack cfg = IPStackDual.
Proof.
  unfold validateConfig.
  destruct (String.eqb (daemon.IPStack cfg) "") eqn:E1;
    [apply String.eqb_eq in E1; cbn [orb]; tauto|].
  destruct (String.eqb (daemon.IPStack cfg) IPStackIPv4) eqn:E2;
    [apply String.eqb_eq in E2; cbn [orb]; tauto|].
  destruct (String.eqb (daemon.IPStack cfg) IPStackDual) eqn:E3;
    [apply String.eqb_eq in E3; cbn [orb]; tauto|].
  apply String.eqb_neq in E1, E2, E3. cbn [orb].
  split; [discriminate|]. intros [H|[H|H]]; contradiction.
Qed.

(** X22: validation, then defaults. [validateConfig] accepts exactly the
    IP stacks "", "ipv4" and "dual" (a stack "ipv6" is refused). A
    configuration it accepts has, after [setDefault], the stack "ipv4" or
    "dual", and is still accepted. *)
Theorem validated_config_stack cfg :
  (validateConfig cfg = None <->
   daemon.IPStack cfg = "" \/ daemon.IPStack cfg = "ipv4" \/
   daemon.IPStack cfg = "dual") /\
  (validateConfig cfg = None ->
   (daemon.IPStack (snd (setDefault cfg)) = "ipv4" \/
    daemon.IPStack (snd (setDefault cfg)) = "dual") /\
   validateConfig (snd (setDefault cfg)) = None).
Proof.
  split; [apply validateConfig_stacks|].
  intros Hv.
  assert (Hs : daemon.IPStack (snd (setDefault cfg)) = "ipv4" \/
               daemon.IPStack (snd (setDefault cfg)) = "dual").
  { apply validateConfig_stacks in Hv.
    rewrite setDefault_stack.
    destruct Hv as [H|[H|H]]; rewrite H; [left|left|right]; reflexivity. }
  split; [exact Hs|].
  apply validateConfig_stacks. destruct Hs as [H|H]; auto.
Qed.

Example validateConfig_refuses_ipv6 :
  validateConfig (daemon.setIPStack "ipv6" exConfig)
  = Some (ErrMsg "unsupported ipStack ipv6 in configMap").
Proof. reflexivity. Qed.

(** ** The vSwitch ids *)

Lemma fold_append_In (l : list (string * list string)) acc id :
  In id (fold_left (fun vsws kv => vsws ++ snd kv) l acc) <->
  In id acc \/ exists kv, In kv l /\ In id (snd kv).
Proof.
  revert acc. induction l as [|kv rest IH]; intros acc; cbn [fold_left].
  - split; [auto|]. intros [H|(kv & [] & _)]. exact H.
  - rewrite IH, in_app_iff. split.
    + intros [[H|H]|(kv' & Hin & H)]; eauto.
      * right. exists kv. split; [left; reflexivity|exact H].
      * right. exists kv'. split; [right; exact Hin|exact H].
    + intros [H|(kv' & [->|Hin] & H)]; eauto.
Qed.

(** X23: [GetVSwitchIDs] gathers the vSwitches of every zone, and so does
    [GetExtraRoutes]. An id is in the result of either exactly when the
    map [VSwitches] lists it for some zone; the field [ExtraRoutes] has no
    part in the result of [GetExtraRoutes]. *)
Theorem vswitch_ids_listed cfg id :
  (In id (daemon.GetVSwitchIDs cfg) <->
   exists vSwitches zone ids,
     daemon.VSwitches cfg = Some vSwitches /\
     vSwitches !! zone = Some ids /\ In id ids) /\
  (In id (daemon.GetExtraRoutes cfg) <->
   exists vSwitches zone ids,
     daemon.VSwitches cfg = Some vSwitches /\
     vSwitches !! zone = Some ids /\ In id ids).
Proof.
  assert (H : forall l : list string,
             l = daemon.GetVSwitchIDs cfg ->
             In id l <->
             exists vSwitches zone ids,
               daemon.VSwitches cfg = Some vSwitches /\
               vSwitches !! zone = Some ids /\ In id ids).
  { intros l ->. unfold daemon.GetVSwitchIDs.
    destruct (daemon.VSwitches cfg) as [vsw|].
    - rewrite fold_append_In. split.
      + intros [[]|([zone ids] & Hin & Hid)].
        apply list_elem_of_In, elem_of_map_to_list in Hin.
        exists vsw, zone, ids. auto.
      + intros (vsw' & zone & ids & [= <-] & Hz & Hid). right.
        exists (zone, ids). split; [|exact Hid].
        apply list_elem_of_In, elem_of_map_to_list. exact Hz.
    - split; [intros []|]. intros (vsw' & _ & _ & H & _). discriminate. }
  split; apply H; reflexivity.
Qed.

Example extra_routes_sample :
  daemon.ExtraRoutes exConfig = ["10.0.0.0/8"] /\
  daemon.GetExtraRoutes exConfig = ["vsw-1"; "vsw-2"].
Proof. split; vm_compute; reflexivity. Qed.

(** * Events and the period check *)

(** X24: [RecordEvent] fails only for a pod, and says so twice. An event
    about the node is recorded by one call and always answered with
    success. An event about a pod is recorded by one call; when the
    recorder fails, the reply has [Succeed] false and carries the text of
    the error, and that error is returned along with the reply; otherwise
    the reply is a success and no error is returned. The event is handed
    on as a warning exactly when the request says so. *)
Theorem record_event_outcome k8s r :
  let '(reply, err, calls) := RecordEvent k8s r in
  let eventType :=
    match EventType r with
    | EventTypeWarning => "Warning"
    | EventTypeNormal => "Normal"
    end in
  (Succeed reply = true <-> err = None) /\
  (EventTarget r = EventTargetNode ->
   err = None /\ reply = mkEventReply true "" /\
   calls = [EvRecordNodeEvent eventType (Reason r) (Message r)]) /\
  (EventTarget r = EventTargetPod ->
   calls = [EvRecordPodEvent (eK8SPodName r) (eK8SPodNamespace r) eventType
                             (Reason r) (Message r)] /\
   err = RecordPodEventErr k8s (eK8SPodName r) (eK8SPodNamespace r) eventType
                           (Reason r) (Message r) /\
   (forall e, err = Some e -> reply = mkEventReply false (ErrorText k8s e)) /\
   (err = None -> reply = mkEventReply true "")).
Proof.
  unfold RecordEvent.
  destruct (EventTarget r); destruct (EventType r);
    unfold eventTypeNormal, eventTypeWarning;
    try (destruct (RecordPodEventErr k8s _ _ _ _ _) as [e|] eqn:He);
    repeat split; try discriminate; try congruence; auto.
Qed.

(** ** The period check *)





Example period_check_sample :
  periodCheckPool exPoolOf (exEnv exPlainPod) exServiceMultiIP exBoundWorld
  = Some [EvRecordPodEvent "web-0" "default" "Warning" "ResourceInvalid"
                           "resource eni-b"] /\
  periodCheckPool exPoolOf (exEnv exPlainPod) exServiceVPC exBoundWorld
  = Some [].
Proof. split; vm_compute; reflexivity. Qed.

(** * Start-up: the resources to restore *)

Lemma restored_restoreItem podInfo localResource res ty id :
  restored (restoreItem podInfo localResource res) ty id
  = if decide (ty = ResType res /\ id = ResID res)
    then Some (mkInitItem res podInfo)
    else restored localResource ty id.
Proof.
  unfold restored, restoreItem.
  destruct (decide (ty = ResType res)) as [->|Hty].
  - destruct (localResource !! ResType res) as [items|] eqn:Hl.
    + rewrite lookup_alter_eq, Hl. cbn [fmap option_fmap option_map].
      destruct (decide (id = ResID res)) as [->|Hid].
      * rewrite lookup_insert_eq.
        destruct (decide _) as [_|Hn]; [reflexivity|]. exfalso. auto.
      * rewrite lookup_insert_ne by congruence.
        destruct (decide _) as [[_ H]|_]; [contradiction|reflexivity].
    + rewrite lookup_alter_eq, lookup_insert_eq.
      cbn [fmap option_fmap option_map].
      destruct (decide (id = ResID res)) as [->|Hid].
      * rewrite lookup_insert_eq.
        destruct (decide _) as [_|Hn]; [reflexivity|]. exfalso. auto.
      * rewrite lookup_insert_ne by congruence.
        destruct (decide _) as [[_ H]|_]; [contradiction|].
        rewrite lookup_empty. reflexivity.
  - destruct (decide _) as [[H _]|_]; [contradiction|].
    rewrite lookup_alter_ne by congruence.
    destruct (localResource !! ResType res) as [items|] eqn:Hl;
      [reflexivity|].
    rewrite lookup_insert_ne by congruence. reflexivity.
Qed.

(** What the entries of [localResource] are, while the loop runs over
    [records]: entries of [start], or stored items with the pod of their
    record. *)
Lemma restoreRecord_effect podRes localResource ty id :
  (forall init,
      restored (restoreRecord localResource podRes) ty id = Some init ->
      restored localResource ty id = Some init \/
      (In (initItem init) (Resources podRes) /\
       initPodInfo init = ResPodInfo podRes /\
       ResType (initItem init) = ty /\ ResID (initItem init) = id)) /\
  ((is_Some (restored localResource ty id) \/
    exists item, In item (Resources podRes) /\
                 ResType item = ty /\ ResID item = id) ->
   is_Some (restored (restoreRecord localResource podRes) ty id)).
Proof.
  unfold restoreRecord. generalize (ResPodInfo podRes) as podInfo.
  intros podInfo. revert localResource.
  induction (Resources podRes) as [|res rest IH]; intros localResource;
    cbn [fold_left].
  { split; [auto|]. intros [H|(item & [] & _)]. exact H. }
  destruct (IH (restoreItem podInfo localResource res)) as [IH1 IH2].
  split.
  - intros init H. apply IH1 in H as [H|(Hin & Hrest)].
    + rewrite restored_restoreItem in H.
      destruct (decide _) as [[-> ->]|_]; [|left; exact H].
      injection H as <-. right. cbn. auto.
    + right. split; [right; exact Hin|exact Hrest].
  - intros H. apply IH2. rewrite restored_restoreItem.
    destruct (decide _) as [_|Hn]; [left; eauto|].
    destruct H as [H|(item & [->|Hin] & Hty & Hid)].
    + left. exact H.
    + exfalso. apply Hn. auto.
    + right. exists item. auto.
Qed.

Lemma localResources_effect records ty id :
  forall start,
    (forall init,
        restored (fold_left restoreRecord records start) ty id = Some init ->
        restored start ty id = Some init \/
        exists podRes,
          In podRes records /\ In (initItem init) (Resources podRes) /\
          initPodInfo init = ResPodInfo podRes /\
          ResType (initItem init) = ty /\ ResID (initItem init) = id) /\
    ((is_Some (restored start ty id) \/
      exists podRes item, In podRes records /\ In item (Resources podRes) /\
                          ResType item = ty /\ ResID item = id) ->
     is_Some (restored (fold_left restoreRecord records start) ty id)).
Proof.
  induction records as [|podRes rest IH]; intros start; cbn [fold_left].
  { split; [auto|]. intros [H|(p & item & [] & _)]. exact H. }
  destruct (IH (restoreRecord start podRes)) as [IH1 IH2].
  destruct (restoreRecord_effect podRes start ty id) as [R1 R2].
  split.
  - intros init H. apply IH1 in H as [H|(p & Hin & Hrest)].
    + apply R1 in H as [H|Hitem]; [left; exact H|].
      right. exists podRes. split; [left; reflexivity|exact Hitem].
    + right. exists p. split; [right; exact Hin|exact Hrest].
  - intros H. apply IH2.
    destruct H as [H|(p & item & [->|Hin] & Hitem)].
    + left. apply R2. left. exact H.
    + left. apply R2. right. exists item. exact Hitem.
    + right. exists p, item. auto.
Qed.

(** X26: at start-up no stored resource is forgotten, and none is made
    up. The table [localResource] that [newNetworkService] hands to the
    managers has an entry for the type and id of every item of every
    stored record, and every entry of it is an item of a stored record,
    filed under its own type and id, together with the pod of that
    record. *)
Theorem restore_table_is_exact records :
  (forall podRes item,
      In podRes records -> In item (Resources podRes) ->
      is_Some (restored (localResources records) (ResType item) (ResID item)))
  /\
  (forall resType resID init,
      restored (localResources records) resType resID = Some init ->
      exists podRes,
        In podRes records /\ In (initItem init) (Resources podRes) /\
        initPodInfo init = ResPodInfo podRes /\
        ResType (initItem init) = resType /\ ResID (initItem init) = resID).
Proof.
  unfold localResources. split.
  - intros podRes item Hp Hitem.
    apply (localResources_effect records (ResType item) (ResID item) ∅).
    right. exists podRes, item. auto.
  - intros ty id init H.
    apply (localResources_effect records ty id ∅) in H as [H|H]; [|exact H].
    unfold restored in H. rewrite lookup_empty in H. discriminate.
Qed.

Example restore_table_sample :
  restored (localResources [exRecord exPlainPod; exRecord exStickyPod])
           ResourceTypeENIIP (ResID exENIIPItem)
  = Some (mkInitItem exENIIPItem (Some exStickyPod)).
Proof. vm_compute. reflexivity. Qed.

(** * The CRD-driven assembly *)

Lemma allocAddrs_podIP env alloc podIP cidr gw :
  allocAddrs env alloc = inr (podIP, cidr, gw) ->
  podIP = mkIPSet (alIPv4 alloc) (alIPv6 alloc).
Proof.
  unfold allocAddrs.
  destruct (String.eqb (alIPv4 alloc) "") eqn:E4;
    destruct (String.eqb (alIPv6 alloc) "") eqn:E6;
    try apply String.eqb_eq in E4; try apply String.eqb_eq in E6;
    cbn; repeat (destruct (_ || _); cbn; try discriminate);
    intros [= <- _ _]; congruence.
Qed.

Lemma multiIPConfs_follow env podInfo podEni trunk allocs confs :
  multiIPConfs env podInfo podEni trunk allocs = inr confs ->
  Forall2 (fun alloc conf =>
             followsAllocation podInfo alloc conf /\
             onTrunk podEni trunk alloc conf /\
             DefaultRoute conf = alDefaultRoute alloc) allocs confs.
Proof.
  revert confs. induction allocs as [|alloc rest IH]; intros confs; simpl.
  { intros [= <-]. constructor. }
  destruct (allocAddrs env alloc) as [e|[[podIP cidr] gw]] eqn:Ha;
    [discriminate|].
  apply allocAddrs_podIP in Ha. subst podIP.
  destruct (peENIInfos podEni !! alENIID alloc) as [vid|] eqn:Hv;
    [|discriminate].
  destruct (multiIPConfs env podInfo podEni trunk rest) as [e|confs'];
    [discriminate|].
  intros [= <-]. constructor; [|apply IH; reflexivity].
  split; [|split; [|reflexivity]].
  - repeat split. eexists. split; reflexivity.
  - exists vid. split; [exact Hv|reflexivity].
Qed.

Lemma exclusiveENIConfs_follow env podInfo podEni trunk allocs confs :
  exclusiveENIConfs env podInfo podEni trunk allocs = inr confs ->
  Forall2 (followsAllocation podInfo) allocs confs.
Proof.
  revert confs. induction allocs as [|alloc rest IH]; intros confs; simpl.
  { intros [= <-]. constructor. }
  destruct (allocAddrs env alloc) as [e|[[podIP cidr] gw]] eqn:Ha;
    [discriminate|].
  apply allocAddrs_podIP in Ha. subst podIP.
  destruct trunk as [t|].
  - destruct (peENIInfos podEni !! alENIID alloc) as [vid|]; [|discriminate].
    destruct (exclusiveENIConfs env podInfo podEni (Some t) rest)
      as [e|confs']; [discriminate|].
    intros [= <-]. constructor; [|apply IH; reflexivity].
    repeat split. eexists. split; reflexivity.
  - destruct (exclusiveENIConfs env podInfo podEni None rest)
      as [e|confs']; [discriminate|].
    intros [= <-]. constructor; [|apply IH; reflexivity].
    repeat split. eexists. split; reflexivity.
Qed.

Lemma followsAllocation_marked podInfo alloc c c' :
  markedDefault c c' -> followsAllocation podInfo alloc c ->
  followsAllocation podInfo alloc c'.
Proof.
  intros (_ & Hb & _ & Hp & Hi & Hr) (H1 & H2 & H3 & basic & H4 & H5).
  repeat split; try congruence. exists basic. split; congruence.
Qed.

Lemma markFirstDefaultIf_follow podInfo allocs confs :
  Forall2 (followsAllocation podInfo) allocs confs ->
  Forall2 (followsAllocation podInfo) allocs (markFirstDefaultIf confs).
Proof.
  intros H. induction H as [|alloc c allocs confs Hc Hrest IH];
    cbn [markFirstDefaultIf]; [constructor|].
  destruct (_ || _).
  - constructor; [|exact Hrest].
    eapply followsAllocation_marked; [apply setDefaultRoute_marked|exact Hc].
  - constructor; assumption.
Qed.

Lemma defaultForNetConf_follow podInfo allocs confs confs' :
  defaultForNetConf confs = (None, confs') ->
  Forall2 (followsAllocation podInfo) allocs confs ->
  Forall2 (followsAllocation podInfo) allocs confs'.
Proof.
  unfold defaultForNetConf. destruct confs as [|c0 l0];
    [intros [= <-]; auto|].
  destruct (scanNetConf (c0 :: l0) false false) as [e|[drs dis]];
    [discriminate|].
  destruct (negb dis); [discriminate|].
  destruct (negb drs); intros [= <-]; [|auto].
  apply markFirstDefaultIf_follow.
Qed.

(** X27: the CRD-driven assembly follows the allocations. When the PodENI
    object of a pod is read, every list of entries that [multiIPFromCRD]
    or [exclusiveENIFromCRD] returns has one entry per allocation, in the
    order of the allocations, each with the interface name, the extra
    routes and the addresses of its allocation and the traffic settings
    of the pod; the entries of [multiIPFromCRD] go through the trunk ENI
    of the node with the VLAN id of the PodENI status, and keep the
    default-route flag of their allocation. *)
Theorem crd_confs_follow_allocations env n podInfo (waitReady : bool) podEni :
  requestCRD env n podInfo waitReady = inr (Some podEni) ->
  (forall confs,
      multiIPFromCRD env n podInfo waitReady = Ok confs ->
      exists trunk,
        trunkENI env MgrENIIP = Some trunk /\
        eniID trunk = peTrunkENIID podEni /\
        Forall2 (fun alloc conf =>
                   followsAllocation podInfo alloc conf /\
                   onTrunk podEni trunk alloc conf /\
                   DefaultRoute conf = alDefaultRoute alloc)
                (peAllocations podEni) confs) /\
  (forall confs,
      exclusiveENIFromCRD env n podInfo waitReady = Ok confs ->
      Forall2 (followsAllocation podInfo) (peAllocations podEni) confs).
Proof.
  intros Hr. split; intros confs.
  - unfold multiIPFromCRD. rewrite Hr.
    destruct (negb (eniIPResMgr n)); [discriminate|].
    destruct (trunkENI env MgrENIIP) as [trunk|]; [|discriminate].
    destruct (String.eqb (eniID trunk) (peTrunkENIID podEni)) eqn:Ht;
      cbn [negb]; [|discriminate].
    apply String.eqb_eq in Ht.
    destruct (multiIPConfs _ _ _ _ _) as [e|confs0] eqn:Hc; [discriminate|].
    intros [= <-]. exists trunk. repeat split; auto.
    eapply multiIPConfs_follow; eauto.
  - unfold exclusiveENIFromCRD. rewrite Hr.
    destruct (if enableTrunk n then _ else _) as [trunk|e|]; try discriminate.
    destruct (exclusiveENIConfs _ _ _ _ _) as [e|confs0] eqn:Hc;
      [discriminate|].
    destruct (defaultForNetConf confs0) as [[e|] confs'] eqn:Hd;
      [discriminate|].
    intros [= <-].
    eapply defaultForNetConf_follow; [exact Hd|].
    eapply exclusiveENIConfs_follow; eauto.
Qed.

(** A pod under the trunk controller, with one allocation. *)
Lemma crd_confs_follow_allocations_witness :
  (forall confs,
      multiIPFromCRD exPodENIEnv exServiceMultiIPCRD exTrunkPod true = Ok confs ->
      exists trunk,
        trunkENI exPodENIEnv MgrENIIP = Some trunk /\
        eniID trunk = peTrunkENIID exPodENI /\
        Forall2 (fun alloc conf =>
                   followsAllocation exTrunkPod alloc conf /\
                   onTrunk exPodENI trunk alloc conf /\
                   DefaultRoute conf = alDefaultRoute alloc)
                (peAllocations exPodENI) confs) /\
  (forall confs,
      exclusiveENIFromCRD exPodENIEnv exServiceMultiIPCRD exTrunkPod true
      = Ok confs ->
      Forall2 (followsAllocation exTrunkPod) (peAllocations exPodENI) confs).
Proof.
  apply (crd_confs_follow_allocations exPodENIEnv exServiceMultiIPCRD
                                      exTrunkPod true exPodENI).
  reflexivity.
Defined.

Example crd_confs_sample :
  multiIPFromCRD exPodENIEnv exServiceMultiIPCRD exTrunkPod true
  = Ok [mkNetConf
          (Some (mkBasicInfo (Some (mkIPSet "192.168.1.5" ""))
                             (Some (mkIPSet "192.168.1.0/24" ""))
                             (Some (mkIPSet "192.168.0.253" ""))
                             (Some (mkIPSet "172.16.0.0/16" ""))))
          (Some (mkENIInfo "00:16:3e:00:00:01" true 101
                           (Some (mkIPSet "192.168.0.253" ""))))
          (Some (mkPod 0 0 "")) "eth0" ["10.0.0.0/8"] false].
Proof. vm_compute. reflexivity. Qed.

(** * The default-route policy on the caller's entries *)

(** X28: [defaultForNetConf] as its callers see it. On a slice of
    pointers to entries, no pointer nil and no entry pointed to twice,
    the function returns what the policy returns on the entries; the
    entries read through the slice afterwards are the list the policy
    gives (so, after a success on a slice that is not empty, exactly one
    of them carries the default route); and no entry outside the slice is
    written. *)
Theorem in_place_default_route h ptrs confs :
  NoDup ptrs -> readAll h ptrs = Some confs ->
  exists h',
    defaultForNetConfInPlace h ptrs
    = Some (fst (defaultForNetConf confs), h') /\
    readAll h' ptrs = Some (snd (defaultForNetConf confs)) /\
    (forall q, q ∉ ptrs -> h' !! q = h !! q) /\
    (fst (defaultForNetConf confs) = None -> ptrs <> [] ->
     defaultRoutes (snd (defaultForNetConf confs)) = 1%nat).
Proof.
  intros Hnd Hr.
  destruct (defaultForNetConfInPlace_by_value h ptrs confs Hnd Hr)
    as (h' & H1 & H2 & H3).
  exists h'. repeat split; try assumption.
  intros Hok Hne.
  destruct (defaultForNetConf confs) as [res confs'] eqn:Hd.
  cbn [fst snd] in *. subst res.
  apply (defaultForNetConf_single confs confs' Hd).
  destruct ptrs as [|p rest]; [congruence|].
  cbn [readAll] in Hr. destruct (h !! p); [|discriminate].
  destruct (readAll h rest); [|discriminate]. injection Hr as <-.
  discriminate.
Qed.

(** Two entries, the second one a default interface. *)
Lemma in_place_default_route_witness :
  exists h',
    defaultForNetConfInPlace
      (<[1%nat := exConf "" false]> {[ 0%nat := exConf "net1" false ]})
      [0%nat; 1%nat]
    = Some (fst (defaultForNetConf [exConf "net1" false; exConf "" false]),
            h') /\
    readAll h' [0%nat; 1%nat]
    = Some (snd (defaultForNetConf [exConf "net1" false; exConf "" false])) /\
    (forall q, q ∉ [0%nat; 1%nat] ->
               h' !! q
               = (<[1%nat := exConf "" false]>
                    ({[ 0%nat := exConf "net1" false ]} : heap)) !! q) /\
    (fst (defaultForNetConf [exConf "net1" false; exConf "" false]) = None ->
     [0%nat; 1%nat] <> [] ->
     defaultRoutes (snd (defaultForNetConf [exConf "net1" false;
                                            exConf "" false])) = 1%nat).
Proof.
  apply (in_place_default_route
           (<[1%nat := exConf "" false]> {[ 0%nat := exConf "net1" false ]})
           [0%nat; 1%nat] [exConf "net1" false; exConf "" false]).
  - constructor; [|constructor; [|constructor]];
      intros H; apply list_elem_of_In in H; simpl in H; intuition discriminate.
  - vm_compute. reflexivity.
Defined.

